(** * A shallow embedding of libdrgn's DWARF core

    The development follows [libdrgn/type_index.h]: the call frame
    information (CFI) engine, the location-list walkers, the DWARF expression
    evaluator, the member-offset computation and the recursion of the type
    constructor.  C integers are [Z] with their wrap-around written out;
    buffers are lists of bytes with explicit positions; fallible functions
    return a [result]. *)

From Stdlib Require Import ZArith List Bool Lia.
From Stdlib Require Import Strings.String Strings.Ascii Strings.Byte.
From Stdlib Require Import Permutation Sorted RelationClasses.
Import ListNotations.
Open Scope Z_scope.

(** ** Errors and results *)

Inductive drgn_error_code :=
| DRGN_ERROR_OTHER
| DRGN_ERROR_RECURSION
| DRGN_ERROR_OVERFLOW.

(** [drgn_not_found] is the static lookup sentinel ([&drgn_not_found]);
    [binary_buffer_error] is an error raised through a buffer's error
    callback (its [arg] is the value formatted into the message, if any);
    [drgn_error_libdw] is a failure reported by libdw. *)
Inductive drgn_error :=
| drgn_not_found
| drgn_error_libdw
| drgn_error_create (code : drgn_error_code) (msg : string)
| binary_buffer_error (msg : string) (arg : option Z).

Inductive result (A : Type) :=
| Ok (a : A)
| Err (e : drgn_error).
Arguments Ok {A} a.
Arguments Err {A} e.

Definition bind {A B} (r : result A) (k : A -> result B) : result B :=
  match r with
  | Ok a => k a
  | Err e => Err e
  end.

Notation "'do' x <- r ; k" := (bind r (fun x => k))
  (at level 10, x pattern, r at level 100, k at level 200).

Definition is_err {A} (r : result A) : bool :=
  match r with Ok _ => false | Err _ => true end.

(** ** Fixed-width integers *)

Definition UINT64_MOD : Z := 2 ^ 64.
Definition UINT64_MAX : Z := 2 ^ 64 - 1.
Definition INT64_MAX : Z := 2 ^ 63 - 1.
Definition INT64_MIN : Z := - 2 ^ 63.

(** Conversion to [uint64_t]: reduction modulo 2^64. *)
Definition u64 (x : Z) : Z := x mod UINT64_MOD.

(** Conversion of a 64-bit pattern to [int64_t] (two's complement). *)
Definition s64 (x : Z) : Z :=
  let y := x mod UINT64_MOD in
  if y <? 2 ^ 63 then y else y - UINT64_MOD.


(** ** Call frame information: CIEs and FDEs *)

Record drgn_dwarf_cie := {
  is_eh : bool;                       (* from .eh_frame *)
  address_size : Z;
  address_encoding : Z;
  have_augmentation_length : bool;
  signal_frame : bool;
  return_address_register : Z;
  code_alignment_factor : Z;          (* uint64_t *)
  data_alignment_factor : Z;          (* int64_t *)
  initial_instructions : Z;           (* offset into the CIE's section *)
  initial_instructions_size : Z
}.

Record drgn_dwarf_fde := {
  cie : nat;                          (* index into the CIE vector *)
  initial_location : Z;
  address_range : Z;
  instructions : Z;                   (* offset into the CIE's section *)
  instructions_size : Z
}.

Definition cie0 : drgn_dwarf_cie :=
  {| is_eh := false; address_size := 8; address_encoding := 0;
     have_augmentation_length := false; signal_frame := false;
     return_address_register := 0; code_alignment_factor := 0;
     data_alignment_factor := 0; initial_instructions := 0;
     initial_instructions_size := 0 |}.

Definition fde0 : drgn_dwarf_fde :=
  {| cie := 0; initial_location := 0; address_range := 0; instructions := 0;
     instructions_size := 0 |}.

Module Frames.

(** [cies[f->cie].is_eh] *)
Definition fde_is_eh (cies : list drgn_dwarf_cie) (f : drgn_dwarf_fde) : bool :=
  is_eh (nth (cie f) cies cie0).

(** [drgn_dwarf_fde_compar]: order by [initial_location], then by
    [is_eh], so that .debug_frame sorts before .eh_frame. *)
Definition drgn_dwarf_fde_compar (cies : list drgn_dwarf_cie)
    (a b : drgn_dwarf_fde) : Z :=
  if initial_location a <? initial_location b then -1
  else if initial_location a >? initial_location b then 1
  else Z.b2z (fde_is_eh cies a) - Z.b2z (fde_is_eh cies b).

(** What [qsort_r] guarantees of its output for a comparator [compar]:
    a rearrangement of the input in which no element compares greater than
    its successor.  Which of two elements that compare equal comes first is
    not specified. *)
Definition qsort_r_post (compar : drgn_dwarf_fde -> drgn_dwarf_fde -> Z)
    (input output : list drgn_dwarf_fde) : Prop :=
  Permutation input output /\ Sorted (fun a b => compar a b <= 0) output.

(** A reference [qsort_r] (insertion sort), so that the pipeline runs. *)
Fixpoint qsort_insert (compar : drgn_dwarf_fde -> drgn_dwarf_fde -> Z)
    (x : drgn_dwarf_fde) (l : list drgn_dwarf_fde) : list drgn_dwarf_fde :=
  match l with
  | [] => [x]
  | y :: tl => if compar x y <=? 0 then x :: l else y :: qsort_insert compar x tl
  end.

Definition qsort_r (compar : drgn_dwarf_fde -> drgn_dwarf_fde -> Z)
    (l : list drgn_dwarf_fde) : list drgn_dwarf_fde :=
  fold_right (qsort_insert compar) [] l.

(** [data[i] = x] on a vector; the loop below only writes in range. *)
Fixpoint vector_set {A} (i : nat) (x : A) (data : list A) : list A :=
  match data, i with
  | [], _ => []
  | _ :: tl, O => x :: tl
  | y :: tl, S i' => y :: vector_set i' x tl
  end.

(** The duplicate-removal loop of [drgn_debug_info_parse_frames]:
<<
    for (; src < fdes.size; src++) {
        if (fdes.data[src].initial_location !=
            fdes.data[dst - 1].initial_location) {
            if (src != dst) fdes.data[dst] = fdes.data[src];
            dst++;
        }
    }
>>
    [n] counts the iterations that remain ([fdes.size - src]). *)
Fixpoint dedup_loop (n : nat) (data : list drgn_dwarf_fde) (src dst : nat)
    : list drgn_dwarf_fde * nat :=
  match n with
  | O => (data, dst)
  | S n' =>
      if negb (initial_location (nth src data fde0) =?
               initial_location (nth (dst - 1) data fde0))
      then
        let data' :=
          if negb (Nat.eqb src dst)
          then vector_set dst (nth src data fde0) data
          else data in
        dedup_loop n' data' (S src) (S dst)
      else dedup_loop n' data (S src) dst
  end.

(** The [if (fdes.size > 0) { ... fdes.size = dst; }] block. *)
Definition remove_duplicates (data : list drgn_dwarf_fde)
    : list drgn_dwarf_fde :=
  if (0 <? List.length data)%nat then
    let '(data', dst) := dedup_loop (List.length data - 1) data 1 1 in
    firstn dst data'
  else data.

(** The sort-and-deduplicate tail of [drgn_debug_info_parse_frames], given
    the FDEs of .debug_frame followed by those of .eh_frame. *)
Definition sort_and_dedup (cies : list drgn_dwarf_cie)
    (fdes : list drgn_dwarf_fde) : list drgn_dwarf_fde :=
  remove_duplicates (qsort_r (drgn_dwarf_fde_compar cies) fdes).

(** Functional reading of the loop: keep an element when its location
    differs from that of the last element kept. *)
Fixpoint dedup_from (last : drgn_dwarf_fde) (rest : list drgn_dwarf_fde)
    : list drgn_dwarf_fde :=
  match rest with
  | [] => []
  | f :: tl =>
      if initial_location f =? initial_location last
      then dedup_from last tl
      else f :: dedup_from f tl
  end.

Definition dedup (l : list drgn_dwarf_fde) : list drgn_dwarf_fde :=
  match l with
  | [] => []
  | f :: tl => f :: dedup_from f tl
  end.

End Frames.

(** Example data: one CIE of each section and four FDEs, two of which
    share the location 0x1000. *)
Module FramesExample.
Import Frames.

Definition cie_debug : drgn_dwarf_cie :=
  {| is_eh := false; address_size := 8; address_encoding := 0;
     have_augmentation_length := false; signal_frame := false;
     return_address_register := 16; code_alignment_factor := 1;
     data_alignment_factor := -8; initial_instructions := 0;
     initial_instructions_size := 0 |}.

Definition cie_eh : drgn_dwarf_cie :=
  {| is_eh := true; address_size := 8; address_encoding := 0x1b;
     have_augmentation_length := true; signal_frame := false;
     return_address_register := 16; code_alignment_factor := 1;
     data_alignment_factor := -8; initial_instructions := 0;
     initial_instructions_size := 0 |}.

Definition cies : list drgn_dwarf_cie := [cie_debug; cie_eh].

Definition mk_fde (c : nat) (loc range : Z) : drgn_dwarf_fde :=
  {| cie := c; initial_location := loc; address_range := range;
     instructions := 0; instructions_size := 0 |}.

Definition f1 := mk_fde 0 0x2000 0x40.
Definition f2 := mk_fde 0 0x1000 0x80.
Definition f3 := mk_fde 1 0x1000 0x80.
Definition f4 := mk_fde 1 0x3000 0x10.

(** .debug_frame is parsed first, then .eh_frame. *)
Definition fdes : list drgn_dwarf_fde := [f1; f2; f3; f4].
Definition sorted : list drgn_dwarf_fde := [f2; f3; f1; f4].

End FramesExample.

(** ** The binary buffer *)

Module Buf.

Definition byte_to_Z (b : byte) : Z := Z.of_N (Byte.to_N b).

(** Bytes written as numbers, for test data. *)
Definition bytes_of (l : list Z) : list byte :=
  map (fun z => match Byte.of_N (Z.to_N z) with Some b => b | None => x00 end) l.

(** A cursor over the bytes of one section or block.  [bb_pos], [bb_end]
    and [bb_prev] are offsets from the start of [bb_data]; [bb_prev] is the
    start of the item decoded last. *)
Record binary_buffer := {
  bb_data : list byte;
  bb_pos : Z;
  bb_end : Z;
  bb_prev : Z;
  bb_little_endian : bool
}.

Definition binary_buffer_init (data : list byte) (little_endian : bool)
    : binary_buffer :=
  {| bb_data := data; bb_pos := 0; bb_end := Z.of_nat (List.length data);
     bb_prev := 0; bb_little_endian := little_endian |}.

Definition set_pos (bb : binary_buffer) (pos : Z) : binary_buffer :=
  {| bb_data := bb_data bb; bb_pos := pos; bb_end := bb_end bb;
     bb_prev := bb_prev bb; bb_little_endian := bb_little_endian bb |}.

Definition set_end (bb : binary_buffer) (e : Z) : binary_buffer :=
  {| bb_data := bb_data bb; bb_pos := bb_pos bb; bb_end := e;
     bb_prev := bb_prev bb; bb_little_endian := bb_little_endian bb |}.

(** Consume [n] bytes: [bb->prev = bb->pos; bb->pos += n]. *)
Definition advance (bb : binary_buffer) (n : Z) : binary_buffer :=
  {| bb_data := bb_data bb; bb_pos := bb_pos bb + n; bb_end := bb_end bb;
     bb_prev := bb_pos bb; bb_little_endian := bb_little_endian bb |}.

(** The bytes from [pos] up to [end]. *)
Definition remaining (bb : binary_buffer) : list byte :=
  firstn (Z.to_nat (bb_end bb - bb_pos bb))
         (skipn (Z.to_nat (bb_pos bb)) (bb_data bb)).

Definition binary_buffer_has_next (bb : binary_buffer) : bool :=
  bb_pos bb <? bb_end bb.

(** Modelled from the spec: [binary_buffer_check_bounds] of binary_buffer.h,
    which is not part of the file; section 4.1: every read either succeeds
    within the remaining bytes or raises a buffer error. *)
Definition binary_buffer_check_bounds (bb : binary_buffer) (n : Z)
    : result unit :=
  if bb_end bb - bb_pos bb <? n
  then Err (binary_buffer_error "expected at least %PRIu64 bytes" (Some n))
  else Ok tt.

(** Modelled from the spec: [binary_buffer_skip], section 4.1 [skip(n)]. *)
Definition binary_buffer_skip (bb : binary_buffer) (n : Z)
    : result binary_buffer :=
  do _ <- binary_buffer_check_bounds bb n;
  Ok (advance bb n).

Fixpoint le_bytes_to_Z (l : list byte) : Z :=
  match l with
  | [] => 0
  | b :: tl => byte_to_Z b + 256 * le_bytes_to_Z tl
  end.

(** The unsigned value of [size] bytes in the buffer's byte order. *)
Definition decode_uint (little_endian : bool) (l : list byte) : Z :=
  if little_endian then le_bytes_to_Z l else le_bytes_to_Z (rev l).

(** Modelled from the spec: [binary_buffer_next_uint] of binary_buffer.h,
    section 4.1 [uint(n)] for 1..8 byte variable-width reads in the
    module's byte order. *)
Definition binary_buffer_next_uint (bb : binary_buffer) (size : Z)
    : result (Z * binary_buffer) :=
  do _ <- binary_buffer_check_bounds bb size;
  Ok (decode_uint (bb_little_endian bb)
        (firstn (Z.to_nat size) (remaining bb)),
      advance bb size).

(** Sign extension of a [bits]-bit pattern. *)
Definition sign_extend (bits : Z) (x : Z) : Z :=
  if x <? 2 ^ (bits - 1) then x else x - 2 ^ bits.

(** Modelled from the spec: the fixed-width readers of binary_buffer.h,
    section 4.1 [u8/u16/u32/u64] and the signed variants widened to u64. *)
Definition binary_buffer_next_u8 bb := binary_buffer_next_uint bb 1.
Definition binary_buffer_next_u16 bb := binary_buffer_next_uint bb 2.
Definition binary_buffer_next_u32 bb := binary_buffer_next_uint bb 4.
Definition binary_buffer_next_u64 bb := binary_buffer_next_uint bb 8.
Definition binary_buffer_next_u8_into_u64 := binary_buffer_next_u8.
Definition binary_buffer_next_u16_into_u64 := binary_buffer_next_u16.
Definition binary_buffer_next_u32_into_u64 := binary_buffer_next_u32.

Definition binary_buffer_next_sint (bb : binary_buffer) (size : Z)
    : result (Z * binary_buffer) :=
  do (v, bb') <- binary_buffer_next_uint bb size;
  Ok (sign_extend (8 * size) v, bb').

Definition binary_buffer_next_s16 bb := binary_buffer_next_sint bb 2.

Definition binary_buffer_next_sint_into_u64 (bb : binary_buffer) (size : Z)
    : result (Z * binary_buffer) :=
  do (v, bb') <- binary_buffer_next_sint bb size;
  Ok (u64 v, bb').

Definition binary_buffer_next_s8_into_u64 bb :=
  binary_buffer_next_sint_into_u64 bb 1.
Definition binary_buffer_next_s16_into_u64 bb :=
  binary_buffer_next_sint_into_u64 bb 2.
Definition binary_buffer_next_s32_into_u64 bb :=
  binary_buffer_next_sint_into_u64 bb 4.
Definition binary_buffer_next_s64_into_u64 bb :=
  binary_buffer_next_sint_into_u64 bb 8.

(** Modelled from the spec: [binary_buffer_next_uleb128], section 4.1
    [uleb128]; a number that does not fit 64 bits is an error.  [n] counts
    the bytes consumed so far. *)
Fixpoint uleb128_loop (bytes : list byte) (shift value n : Z)
    : result (Z * Z) :=
  match bytes with
  | [] => Err (binary_buffer_error "expected ULEB128 number" None)
  | b :: tl =>
      let byte := byte_to_Z b in
      if (shift =? 63) && (byte >? 1)
      then Err (binary_buffer_error
                  "ULEB128 number overflows unsigned 64-bit integer" None)
      else
        let value' := Z.lor value (u64 (Z.shiftl (Z.land byte 0x7f) shift)) in
        if Z.land byte 0x80 =? 0
        then Ok (value', n + 1)
        else uleb128_loop tl (shift + 7) value' (n + 1)
  end.

Definition binary_buffer_next_uleb128 (bb : binary_buffer)
    : result (Z * binary_buffer) :=
  do (v, n) <- uleb128_loop (remaining bb) 0 0 0;
  Ok (v, advance bb n).

(** Modelled from the spec: [binary_buffer_next_sleb128], section 4.1
    [sleb128]; the result is an [int64_t]. *)
Fixpoint sleb128_loop (bytes : list byte) (shift value n : Z)
    : result (Z * Z) :=
  match bytes with
  | [] => Err (binary_buffer_error "expected SLEB128 number" None)
  | b :: tl =>
      let byte := byte_to_Z b in
      if (shift =? 63) && negb (byte =? 0) && negb (byte =? 0x7f)
      then Err (binary_buffer_error
                  "SLEB128 number overflows signed 64-bit integer" None)
      else
        let value' := Z.lor value (u64 (Z.shiftl (Z.land byte 0x7f) shift)) in
        let shift' := shift + 7 in
        if Z.land byte 0x80 =? 0
        then
          let value'' :=
            if (shift' <? 64) && negb (Z.land byte 0x40 =? 0)
            then value' - 2 ^ shift'
            else s64 value' in
          Ok (value'', n + 1)
        else sleb128_loop tl shift' value' (n + 1)
  end.

Definition binary_buffer_next_sleb128 (bb : binary_buffer)
    : result (Z * binary_buffer) :=
  do (v, n) <- sleb128_loop (remaining bb) 0 0 0;
  Ok (v, advance bb n).

Definition binary_buffer_next_sleb128_into_u64 (bb : binary_buffer)
    : result (Z * binary_buffer) :=
  do (v, bb') <- binary_buffer_next_sleb128 bb;
  Ok (u64 v, bb').

(** Modelled from the spec: [binary_buffer_skip_leb128], section 4.1
    [skip-leb128]: skip bytes up to and including the first one without the
    continuation bit. *)
Fixpoint skip_leb128_loop (bytes : list byte) (n : Z) : result Z :=
  match bytes with
  | [] => Err (binary_buffer_error "expected LEB128 number" None)
  | b :: tl =>
      if Z.land (byte_to_Z b) 0x80 =? 0 then Ok (n + 1)
      else skip_leb128_loop tl (n + 1)
  end.

Definition binary_buffer_skip_leb128 (bb : binary_buffer)
    : result binary_buffer :=
  do n <- skip_leb128_loop (remaining bb) 0;
  Ok (advance bb n).

(** Modelled from the spec: [binary_buffer_next_string], section 4.1
    null-terminated string slice: the bytes before the first NUL; the
    position moves past the NUL. *)
Fixpoint string_loop (bytes : list byte) : result (list byte) :=
  match bytes with
  | [] => Err (binary_buffer_error "expected string" None)
  | b :: tl =>
      if byte_to_Z b =? 0 then Ok []
      else do s <- string_loop tl; Ok (b :: s)
  end.

Definition binary_buffer_next_string (bb : binary_buffer)
    : result (list byte * binary_buffer) :=
  do s <- string_loop (remaining bb);
  Ok (s, advance bb (Z.of_nat (List.length s) + 1)).

End Buf.

(** ** Modules, platforms and CFI rows *)

Inductive drgn_debug_info_scn :=
| DRGN_SCN_DEBUG_INFO
| DRGN_SCN_DEBUG_TYPES
| DRGN_SCN_DEBUG_ADDR
| DRGN_SCN_DEBUG_LOC
| DRGN_SCN_DEBUG_LOCLISTS
| DRGN_SCN_DEBUG_FRAME
| DRGN_SCN_EH_FRAME
| DRGN_SCN_TEXT
| DRGN_SCN_GOT.

(** A CFI rule.  The C struct is a kind tag with the fields the kind uses;
    it is a tagged union here.  Expressions are an offset into the frame
    section and a size. *)
Inductive drgn_cfi_rule :=
| RULE_UNDEFINED
| RULE_AT_CFA_PLUS_OFFSET (offset : Z)
| RULE_CFA_PLUS_OFFSET (offset : Z)
| RULE_REGISTER_PLUS_OFFSET (regno : Z) (offset : Z)
| RULE_AT_DWARF_EXPRESSION (expr expr_size : Z) (push_cfa : bool)
| RULE_DWARF_EXPRESSION (expr expr_size : Z) (push_cfa : bool).

Record drgn_cfi_row := {
  cfa_rule : drgn_cfi_rule;
  reg_rules : list drgn_cfi_rule
}.

Definition drgn_empty_cfi_row : drgn_cfi_row :=
  {| cfa_rule := RULE_UNDEFINED; reg_rules := [] |}.

(** Modelled from the spec: the row accessors of cfi.c, which is not part
    of the file; section 3: a CFI row is a mapping from register index to
    rule, plus a CFA rule.  A register that was never set is undefined. *)
Definition drgn_cfi_row_get_cfa (row : drgn_cfi_row) : drgn_cfi_rule :=
  cfa_rule row.

Definition drgn_cfi_row_set_cfa (row : drgn_cfi_row) (rule : drgn_cfi_rule)
    : drgn_cfi_row :=
  {| cfa_rule := rule; reg_rules := reg_rules row |}.

Definition drgn_cfi_row_get_register (row : drgn_cfi_row) (regno : Z)
    : drgn_cfi_rule :=
  nth (Z.to_nat regno) (reg_rules row) RULE_UNDEFINED.

Definition drgn_cfi_row_set_register (row : drgn_cfi_row) (regno : Z)
    (rule : drgn_cfi_rule) : drgn_cfi_row :=
  let n := Z.to_nat regno in
  let rules :=
    reg_rules row ++
    repeat RULE_UNDEFINED (S n - List.length (reg_rules row)) in
  {| cfa_rule := cfa_rule row; reg_rules := Frames.vector_set n rule rules |}.

(** The parts of [struct drgn_platform] and its architecture that the core
    reads.  [DRGN_REGISTER_NUMBER_UNKNOWN] is the sentinel that
    [dwarf_regno_to_internal] returns for a DWARF register number without an
    internal register; [register_layout] gives the offset and size of a
    register in a register state's buffer. *)
Record drgn_platform := {
  platform_is_little_endian : bool;
  platform_address_size : Z;
  dwarf_regno_to_internal : Z -> Z;
  DRGN_REGISTER_NUMBER_UNKNOWN : Z;
  register_layout : Z -> Z * Z;
  default_dwarf_cfi_row : drgn_cfi_row
}.

Record drgn_debug_info_module := {
  platform : drgn_platform;
  scn_data : drgn_debug_info_scn -> option (list byte);
  pcrel_base : Z;
  textrel_base : Z;
  datarel_base : Z;
  dwarf_cies : list drgn_dwarf_cie;
  module_bias : Z                     (* the load bias, [dwfl_module_info] *)
}.

(** Modelled from the spec: [uint_max(n)] of the utility header, the
    largest value of an [n]-byte unsigned integer (section 4.5, "max(addr_size)"). *)
Definition uint_max (n : Z) : Z := 2 ^ (8 * n) - 1.

(** [drgn_debug_info_buffer_init]: a buffer over a whole section. *)
Definition drgn_debug_info_buffer_init (module : drgn_debug_info_module)
    (scn : drgn_debug_info_scn) : Buf.binary_buffer :=
  Buf.binary_buffer_init
    (match scn_data module scn with Some d => d | None => [] end)
    (platform_is_little_endian (platform module)).

(** ** DWARF constants (dwarf.h) *)

Definition DW_EH_PE_absptr := 0x00.
Definition DW_EH_PE_uleb128 := 0x01.
Definition DW_EH_PE_udata2 := 0x02.
Definition DW_EH_PE_udata4 := 0x03.
Definition DW_EH_PE_udata8 := 0x04.
Definition DW_EH_PE_sleb128 := 0x09.
Definition DW_EH_PE_sdata2 := 0x0a.
Definition DW_EH_PE_sdata4 := 0x0b.
Definition DW_EH_PE_sdata8 := 0x0c.
Definition DW_EH_PE_pcrel := 0x10.
Definition DW_EH_PE_textrel := 0x20.
Definition DW_EH_PE_datarel := 0x30.
Definition DW_EH_PE_funcrel := 0x40.
Definition DW_EH_PE_aligned := 0x50.
Definition DW_EH_PE_indirect := 0x80.

Definition DW_CFA_advance_loc := 0x40.
Definition DW_CFA_offset := 0x80.
Definition DW_CFA_restore := 0xc0.
Definition DW_CFA_nop := 0x00.
Definition DW_CFA_set_loc := 0x01.
Definition DW_CFA_advance_loc1 := 0x02.
Definition DW_CFA_advance_loc2 := 0x03.
Definition DW_CFA_advance_loc4 := 0x04.
Definition DW_CFA_offset_extended := 0x05.
Definition DW_CFA_restore_extended := 0x06.
Definition DW_CFA_undefined := 0x07.
Definition DW_CFA_same_value := 0x08.
Definition DW_CFA_register := 0x09.
Definition DW_CFA_remember_state := 0x0a.
Definition DW_CFA_restore_state := 0x0b.
Definition DW_CFA_def_cfa := 0x0c.
Definition DW_CFA_def_cfa_register := 0x0d.
Definition DW_CFA_def_cfa_offset := 0x0e.
Definition DW_CFA_def_cfa_expression := 0x0f.
Definition DW_CFA_expression := 0x10.
Definition DW_CFA_offset_extended_sf := 0x11.
Definition DW_CFA_def_cfa_sf := 0x12.
Definition DW_CFA_def_cfa_offset_sf := 0x13.
Definition DW_CFA_val_offset := 0x14.
Definition DW_CFA_val_offset_sf := 0x15.
Definition DW_CFA_val_expression := 0x16.

(** ** CFI parsing *)

Module Cfi.
Import Buf.

(** [drgn_dwarf_cfi_next_encoded]: an EH-frame encoded pointer. *)
Definition drgn_dwarf_cfi_next_encoded (module : drgn_debug_info_module)
    (bb : binary_buffer) (address_size encoding func_addr : Z)
    : result (Z * binary_buffer) :=
  let unknown_fde_encoding {A} : result A :=
    Err (binary_buffer_error "unknown EH encoding %#x" (Some encoding)) in
  (* Not currently used for CFI. *)
  if negb (Z.land encoding DW_EH_PE_indirect =? 0) then unknown_fde_encoding
  else
    let pos := bb_pos bb in
    let sel := Z.land encoding 0x70 in
    do (base, bb) <-
      (if sel =? DW_EH_PE_absptr then Ok (0, bb)
       else if sel =? DW_EH_PE_pcrel then Ok (u64 (pcrel_base module + pos), bb)
       else if sel =? DW_EH_PE_textrel then Ok (textrel_base module, bb)
       else if sel =? DW_EH_PE_datarel then Ok (datarel_base module, bb)
       else if sel =? DW_EH_PE_funcrel then Ok (func_addr, bb)
       else if sel =? DW_EH_PE_aligned then
         if negb (pos mod address_size =? 0) then
           do bb' <- binary_buffer_skip bb (address_size - pos mod address_size);
           Ok (0, bb')
         else Ok (0, bb)
       else unknown_fde_encoding);
    let fmt := Z.land encoding 0xf in
    do (offset, bb) <-
      (if fmt =? DW_EH_PE_absptr then binary_buffer_next_uint bb address_size
       else if fmt =? DW_EH_PE_uleb128 then binary_buffer_next_uleb128 bb
       else if fmt =? DW_EH_PE_udata2 then binary_buffer_next_u16_into_u64 bb
       else if fmt =? DW_EH_PE_udata4 then binary_buffer_next_u32_into_u64 bb
       else if fmt =? DW_EH_PE_udata8 then binary_buffer_next_u64 bb
       else if fmt =? DW_EH_PE_sleb128 then binary_buffer_next_sleb128_into_u64 bb
       else if fmt =? DW_EH_PE_sdata2 then binary_buffer_next_s16_into_u64 bb
       else if fmt =? DW_EH_PE_sdata4 then binary_buffer_next_s32_into_u64 bb
       else if fmt =? DW_EH_PE_sdata8 then binary_buffer_next_s64_into_u64 bb
       else unknown_fde_encoding);
    Ok (Z.land (u64 (base + offset)) (uint_max address_size), bb).

Definition unknown_augmentation {A} : result A :=
  Err (binary_buffer_error "unknown CFI augmentation %s" None).

(** The first loop over the augmentation string in
    [drgn_parse_dwarf_cie]; [i] is the index of the head of [rest] and
    [aug0] is [augmentation[0]].  Returns [cie->signal_frame]. *)
Fixpoint augmentation_loop (aug0 : byte) (i : nat) (rest : list byte)
    (signal_frame : bool) : result bool :=
  match rest with
  | [] => Ok signal_frame
  | c :: tl =>
      if Byte.eqb c "z" then
        if negb (Nat.eqb i 0) then unknown_augmentation
        else augmentation_loop aug0 (S i) tl signal_frame
      else if Byte.eqb c "L" || Byte.eqb c "P" || Byte.eqb c "R" then
        if negb (Byte.eqb aug0 "z") then unknown_augmentation
        else augmentation_loop aug0 (S i) tl signal_frame
      else if Byte.eqb c "S" then augmentation_loop aug0 (S i) tl true
      else unknown_augmentation
  end.

(** The second loop, over the augmentation data; returns
    [cie->address_encoding]. *)
Fixpoint augmentation_data_loop (module : drgn_debug_info_module)
    (address_size : Z) (rest : list byte) (bb : binary_buffer)
    (address_encoding : Z) : result (Z * binary_buffer) :=
  match rest with
  | [] => Ok (address_encoding, bb)
  | c :: tl =>
      do (address_encoding, bb) <-
        (if Byte.eqb c "z" then
           do bb <- binary_buffer_skip_leb128 bb; Ok (address_encoding, bb)
         else if Byte.eqb c "L" then
           do bb <- binary_buffer_skip bb 1; Ok (address_encoding, bb)
         else if Byte.eqb c "P" then
           do (encoding, bb) <- binary_buffer_next_u8 bb;
           (* We don't need the result, so don't bother dereferencing. *)
           let encoding := Z.land encoding (255 - DW_EH_PE_indirect) in
           do (_, bb) <- drgn_dwarf_cfi_next_encoded module bb address_size
                           encoding 0;
           Ok (address_encoding, bb)
         else if Byte.eqb c "R" then binary_buffer_next_u8 bb
         else Ok (address_encoding, bb));
      augmentation_data_loop module address_size tl bb address_encoding
  end.

(** [drgn_parse_dwarf_cie], up to and including the augmentation string:
    the entry length, the CIE id and the version. *)
Definition parse_cie_header (module : drgn_debug_info_module)
    (scn : drgn_debug_info_scn) (cie_pointer : Z)
    : result (Z * list byte * binary_buffer) :=
  let is_eh := match scn with DRGN_SCN_EH_FRAME => true | _ => false end in
  let bb := drgn_debug_info_buffer_init module scn in
  let bb := set_pos bb (bb_pos bb + cie_pointer) in
  do (tmp, bb) <- binary_buffer_next_u32 bb;
  let is_64_bit := tmp =? 0xffffffff in
  do (length, bb) <-
    (if is_64_bit then binary_buffer_next_u64 bb else Ok (tmp, bb));
  if length >? bb_end bb - bb_pos bb
  then Err (binary_buffer_error "entry length is out of bounds" None)
  else
    let bb := set_end bb (bb_pos bb + length) in
    do (cie_id, bb) <-
      (if is_64_bit then binary_buffer_next_u64 bb
       else binary_buffer_next_u32_into_u64 bb);
    let expected_cie_id :=
      if is_64_bit then (if is_eh then 0 else 0xffffffffffffffff)
      else (if is_eh then 0 else 0xffffffff) in
    if negb (cie_id =? expected_cie_id)
    then Err (binary_buffer_error "invalid CIE ID" None)
    else
      do (version, bb) <- binary_buffer_next_u8 bb;
      if (version <? 1) || (version =? 2) || (version >? 4)
      then Err (binary_buffer_error "unknown CIE version %PRIu8" (Some version))
      else
        do (augmentation, bb) <- binary_buffer_next_string bb;
        Ok (version, augmentation, bb).

(** [drgn_parse_dwarf_cie], after the augmentation string was checked. *)
Definition parse_cie_body (module : drgn_debug_info_module) (is_eh : bool)
    (version : Z) (augmentation : list byte) (signal_frame : bool)
    (bb : binary_buffer) : result drgn_dwarf_cie :=
  let aug0 := nth 0 augmentation x00 in
  do (address_size, bb) <-
    (if version >=? 4 then
       do (address_size, bb) <- binary_buffer_next_u8 bb;
       if (address_size <? 1) || (address_size >? 8)
       then Err (binary_buffer_error "unsupported address size %PRIu8"
                   (Some address_size))
       else
         do (segment_selector_size, bb) <- binary_buffer_next_u8 bb;
         if negb (segment_selector_size =? 0)
         then Err (binary_buffer_error
                     "unsupported segment selector size %PRIu8"
                     (Some segment_selector_size))
         else Ok (address_size, bb)
     else Ok (platform_address_size (platform module), bb));
  do (code_alignment_factor, bb) <- binary_buffer_next_uleb128 bb;
  do (data_alignment_factor, bb) <- binary_buffer_next_sleb128 bb;
  do (return_address_register, bb) <-
    (if version >=? 3 then binary_buffer_next_uleb128 bb
     else binary_buffer_next_u8_into_u64 bb);
  let return_address_register :=
    dwarf_regno_to_internal (platform module) return_address_register in
  if return_address_register =?
     DRGN_REGISTER_NUMBER_UNKNOWN (platform module)
  then Err (binary_buffer_error "unknown return address register" None)
  else
    do (address_encoding, bb) <-
      (if Byte.eqb aug0 "z"
       then augmentation_data_loop module address_size augmentation bb
              DW_EH_PE_absptr
       else Ok (DW_EH_PE_absptr, bb));
    Ok {| is_eh := is_eh;
          address_size := address_size;
          address_encoding := address_encoding;
          have_augmentation_length := Byte.eqb aug0 "z";
          signal_frame := signal_frame;
          return_address_register := return_address_register;
          code_alignment_factor := code_alignment_factor;
          data_alignment_factor := data_alignment_factor;
          initial_instructions := bb_pos bb;
          initial_instructions_size := bb_end bb - bb_pos bb |}.

Definition drgn_parse_dwarf_cie (module : drgn_debug_info_module)
    (scn : drgn_debug_info_scn) (cie_pointer : Z) : result drgn_dwarf_cie :=
  let is_eh := match scn with DRGN_SCN_EH_FRAME => true | _ => false end in
  do (version, augmentation, bb) <- parse_cie_header module scn cie_pointer;
  do signal_frame <-
    augmentation_loop (nth 0 augmentation x00) 0 augmentation false;
  parse_cie_body module is_eh version augmentation signal_frame bb.

End Cfi.

(** ** CFI instruction execution *)

Module CfiEval.
Import Buf.

(** [drgn_dwarf_cfi_next_offset]: an unsigned offset that must fit
    [int64_t]. *)
Definition drgn_dwarf_cfi_next_offset (bb : binary_buffer)
    : result (Z * binary_buffer) :=
  do (offset, bb) <- binary_buffer_next_uleb128 bb;
  if offset >? INT64_MAX
  then Err (binary_buffer_error "offset is too large" None)
  else Ok (offset, bb).

(** [__builtin_mul_overflow] into an [int64_t]. *)
Definition mul_overflow_s64 (a b : Z) : option Z :=
  let p := a * b in
  if (p <? INT64_MIN) || (p >? INT64_MAX) then None else Some p.

(** [__builtin_mul_overflow] and [__builtin_add_overflow] into a
    [uint64_t]. *)
Definition mul_overflow_u64 (a b : Z) : option Z :=
  let p := a * b in
  if (p <? 0) || (p >? UINT64_MAX) then None else Some p.

Definition add_overflow_u64 (a b : Z) : option Z :=
  let p := a + b in
  if (p <? 0) || (p >? UINT64_MAX) then None else Some p.

(** [drgn_dwarf_cfi_next_offset_sf]: a signed factored offset times the
    data alignment factor. *)
Definition drgn_dwarf_cfi_next_offset_sf (bb : binary_buffer)
    (cie : drgn_dwarf_cie) : result (Z * binary_buffer) :=
  do (factored, bb) <- binary_buffer_next_sleb128 bb;
  match mul_overflow_s64 factored (data_alignment_factor cie) with
  | None => Err (binary_buffer_error "offset is too large" None)
  | Some offset => Ok (offset, bb)
  end.

(** [drgn_dwarf_cfi_next_offset_f]: an unsigned factored offset times the
    data alignment factor. *)
Definition drgn_dwarf_cfi_next_offset_f (bb : binary_buffer)
    (cie : drgn_dwarf_cie) : result (Z * binary_buffer) :=
  do (factored, bb) <- binary_buffer_next_uleb128 bb;
  match mul_overflow_s64 factored (data_alignment_factor cie) with
  | None => Err (binary_buffer_error "offset is too large" None)
  | Some offset => Ok (offset, bb)
  end.

(** [drgn_dwarf_cfi_next_block]: a ULEB128 size and that many bytes;
    returns the block's offset and size. *)
Definition drgn_dwarf_cfi_next_block (bb : binary_buffer)
    : result (Z * Z * binary_buffer) :=
  do (size, bb) <- binary_buffer_next_uleb128 bb;
  if size >? bb_end bb - bb_pos bb
  then Err (binary_buffer_error "block is out of bounds" None)
  else Ok (bb_pos bb, size, set_pos bb (bb_pos bb + size)).

(** The variables of the loop of [drgn_eval_dwarf_cfi]. *)
Record cfi_state := {
  cs_bb : binary_buffer;
  cs_pc : Z;
  cs_row : drgn_cfi_row;
  cs_state_stack : list drgn_cfi_row    (* top of the stack first *)
}.

(** How one iteration ends: [break] (continue with the next instruction) or
    [goto found]. *)
Inductive cfi_outcome :=
| CfiContinue (s : cfi_state)
| CfiFound (s : cfi_state).

Section Instruction.

Variable module : drgn_debug_info_module.
Variable fde : drgn_dwarf_fde.
Variable initial_row : option drgn_cfi_row.   (* [None] is [NULL] *)
Variable target : Z.

Let regno_to_internal := dwarf_regno_to_internal (platform module).
Let UNKNOWN := DRGN_REGISTER_NUMBER_UNKNOWN (platform module).
Let cie := nth (cie fde) (dwarf_cies module) cie0.

(** One iteration of the [while (binary_buffer_has_next(&buffer.bb))] loop
    of [drgn_eval_dwarf_cfi]. *)
Definition eval_cfi_instruction (s : cfi_state) : result cfi_outcome :=
  let pc := cs_pc s in
  let row := cs_row s in
  let stack := cs_state_stack s in
  do (opcode, bb) <- binary_buffer_next_u8 (cs_bb s);
  let continue bb row :=
    Ok (CfiContinue {| cs_bb := bb; cs_pc := pc; cs_row := row;
                       cs_state_stack := stack |}) in
  let invalid_for_initial : result cfi_outcome :=
    Err (binary_buffer_error "invalid initial DWARF CFI opcode %#x"
           (Some opcode)) in
  let advance_loc bb tmp : result cfi_outcome :=
    match mul_overflow_u64 tmp (code_alignment_factor cie) with
    | None => Err (drgn_error_create DRGN_ERROR_OTHER
                     "DW_CFA_advance_loc* overflows location")
    | Some tmp =>
        match add_overflow_u64 pc tmp with
        | None => Err (drgn_error_create DRGN_ERROR_OTHER
                         "DW_CFA_advance_loc* overflows location")
        | Some pc =>
            if pc >? uint_max (address_size cie)
            then Err (drgn_error_create DRGN_ERROR_OTHER
                        "DW_CFA_advance_loc* overflows location")
            else
              let s' := {| cs_bb := bb; cs_pc := pc; cs_row := row;
                           cs_state_stack := stack |} in
              if pc >? target then Ok (CfiFound s') else Ok (CfiContinue s')
        end
    end in
  let set_cfa bb rule := continue bb (drgn_cfi_row_set_cfa row rule) in
  let set_reg bb regno rule :=
    continue bb (drgn_cfi_row_set_register row regno rule) in
  let reg_offset_f bb (mk : Z -> drgn_cfi_rule) :=
    do (dwarf_regno, bb) <- binary_buffer_next_uleb128 bb;
    do (offset, bb) <- drgn_dwarf_cfi_next_offset_f bb cie;
    let regno := regno_to_internal dwarf_regno in
    if regno =? UNKNOWN then continue bb row
    else set_reg bb regno (mk offset) in
  let reg_offset_sf bb (mk : Z -> drgn_cfi_rule) :=
    do (dwarf_regno, bb) <- binary_buffer_next_uleb128 bb;
    do (offset, bb) <- drgn_dwarf_cfi_next_offset_sf bb cie;
    let regno := regno_to_internal dwarf_regno in
    if regno =? UNKNOWN then continue bb row
    else set_reg bb regno (mk offset) in
  let reg_expression bb (mk : Z -> Z -> bool -> drgn_cfi_rule) :=
    do (dwarf_regno, bb) <- binary_buffer_next_uleb128 bb;
    do (expr, expr_size, bb) <- drgn_dwarf_cfi_next_block bb;
    let regno := regno_to_internal dwarf_regno in
    if regno =? UNKNOWN then continue bb row
    else set_reg bb regno (mk expr expr_size true) in
  let restore bb (initial_row : drgn_cfi_row) dwarf_regno :=
    let regno := regno_to_internal dwarf_regno in
    if regno =? UNKNOWN then continue bb row
    else set_reg bb regno (drgn_cfi_row_get_register initial_row regno) in
  let sel := if negb (Z.land opcode 0xc0 =? 0) then Z.land opcode 0xc0
             else opcode in
  if sel =? DW_CFA_set_loc then
    match initial_row with
    | None => invalid_for_initial
    | Some _ =>
        do (tmp, bb) <- Cfi.drgn_dwarf_cfi_next_encoded module bb
                          (address_size cie) (address_encoding cie)
                          (initial_location fde);
        if tmp <=? pc
        then Err (binary_buffer_error
                    "DW_CFA_set_loc location is not greater than current location"
                    None)
        else
          let s' := {| cs_bb := bb; cs_pc := tmp; cs_row := row;
                       cs_state_stack := stack |} in
          if tmp >? target then Ok (CfiFound s') else Ok (CfiContinue s')
    end
  else if sel =? DW_CFA_advance_loc then
    match initial_row with
    | None => invalid_for_initial
    | Some _ => advance_loc bb (Z.land opcode 0x3f)
    end
  else if sel =? DW_CFA_advance_loc1 then
    match initial_row with
    | None => invalid_for_initial
    | Some _ =>
        do (tmp, bb) <- binary_buffer_next_u8_into_u64 bb; advance_loc bb tmp
    end
  else if sel =? DW_CFA_advance_loc2 then
    match initial_row with
    | None => invalid_for_initial
    | Some _ =>
        do (tmp, bb) <- binary_buffer_next_u16_into_u64 bb; advance_loc bb tmp
    end
  else if sel =? DW_CFA_advance_loc4 then
    match initial_row with
    | None => invalid_for_initial
    | Some _ =>
        do (tmp, bb) <- binary_buffer_next_u32_into_u64 bb; advance_loc bb tmp
    end
  else if sel =? DW_CFA_def_cfa then
    do (dwarf_regno, bb) <- binary_buffer_next_uleb128 bb;
    do (offset, bb) <- drgn_dwarf_cfi_next_offset bb;
    let regno := regno_to_internal dwarf_regno in
    set_cfa bb (if regno =? UNKNOWN then RULE_UNDEFINED
                else RULE_REGISTER_PLUS_OFFSET regno offset)
  else if sel =? DW_CFA_def_cfa_sf then
    do (dwarf_regno, bb) <- binary_buffer_next_uleb128 bb;
    do (offset, bb) <- drgn_dwarf_cfi_next_offset_sf bb cie;
    let regno := regno_to_internal dwarf_regno in
    set_cfa bb (if regno =? UNKNOWN then RULE_UNDEFINED
                else RULE_REGISTER_PLUS_OFFSET regno offset)
  else if sel =? DW_CFA_def_cfa_register then
    match drgn_cfi_row_get_cfa row with
    | RULE_REGISTER_PLUS_OFFSET _ offset =>
        do (dwarf_regno, bb) <- binary_buffer_next_uleb128 bb;
        let regno := regno_to_internal dwarf_regno in
        set_cfa bb (if regno =? UNKNOWN then RULE_UNDEFINED
                    else RULE_REGISTER_PLUS_OFFSET regno offset)
    | _ => Err (binary_buffer_error
                  "DW_CFA_def_cfa_register with incompatible CFA rule" None)
    end
  else if sel =? DW_CFA_def_cfa_offset then
    match drgn_cfi_row_get_cfa row with
    | RULE_REGISTER_PLUS_OFFSET regno _ =>
        do (offset, bb) <- drgn_dwarf_cfi_next_offset bb;
        set_cfa bb (RULE_REGISTER_PLUS_OFFSET regno offset)
    | _ => Err (binary_buffer_error
                  "DW_CFA_def_cfa_offset with incompatible CFA rule" None)
    end
  else if sel =? DW_CFA_def_cfa_offset_sf then
    match drgn_cfi_row_get_cfa row with
    | RULE_REGISTER_PLUS_OFFSET regno _ =>
        do (offset, bb) <- drgn_dwarf_cfi_next_offset_sf bb cie;
        set_cfa bb (RULE_REGISTER_PLUS_OFFSET regno offset)
    | _ => Err (binary_buffer_error
                  "DW_CFA_def_cfa_offset_sf with incompatible CFA rule" None)
    end
  else if sel =? DW_CFA_def_cfa_expression then
    do (expr, expr_size, bb) <- drgn_dwarf_cfi_next_block bb;
    set_cfa bb (RULE_DWARF_EXPRESSION expr expr_size false)
  else if sel =? DW_CFA_undefined then
    do (dwarf_regno, bb) <- binary_buffer_next_uleb128 bb;
    let regno := regno_to_internal dwarf_regno in
    if regno =? UNKNOWN then continue bb row
    else set_reg bb regno RULE_UNDEFINED
  else if sel =? DW_CFA_same_value then
    do (dwarf_regno, bb) <- binary_buffer_next_uleb128 bb;
    let regno := regno_to_internal dwarf_regno in
    if regno =? UNKNOWN then continue bb row
    else set_reg bb regno (RULE_REGISTER_PLUS_OFFSET regno 0)
  else if sel =? DW_CFA_offset then
    do (offset, bb) <- drgn_dwarf_cfi_next_offset_f bb cie;
    let regno := regno_to_internal (Z.land opcode 0x3f) in
    if regno =? UNKNOWN then continue bb row
    else set_reg bb regno (RULE_AT_CFA_PLUS_OFFSET offset)
  else if sel =? DW_CFA_offset_extended then
    reg_offset_f bb RULE_AT_CFA_PLUS_OFFSET
  else if sel =? DW_CFA_offset_extended_sf then
    reg_offset_sf bb RULE_AT_CFA_PLUS_OFFSET
  else if sel =? DW_CFA_val_offset then
    reg_offset_f bb RULE_CFA_PLUS_OFFSET
  else if sel =? DW_CFA_val_offset_sf then
    reg_offset_sf bb RULE_CFA_PLUS_OFFSET
  else if sel =? DW_CFA_register then
    do (dwarf_regno, bb) <- binary_buffer_next_uleb128 bb;
    do (dwarf_regno2, bb) <- binary_buffer_next_uleb128 bb;
    let regno := regno_to_internal dwarf_regno in
    if regno =? UNKNOWN then continue bb row
    else
      let regno2 := regno_to_internal dwarf_regno2 in
      set_reg bb regno (if regno2 =? UNKNOWN then RULE_UNDEFINED
                        else RULE_REGISTER_PLUS_OFFSET regno2 0)
  else if sel =? DW_CFA_expression then
    reg_expression bb RULE_AT_DWARF_EXPRESSION
  else if sel =? DW_CFA_val_expression then
    reg_expression bb RULE_DWARF_EXPRESSION
  else if sel =? DW_CFA_restore then
    match initial_row with
    | None => invalid_for_initial
    | Some initial_row => restore bb initial_row (Z.land opcode 0x3f)
    end
  else if sel =? DW_CFA_restore_extended then
    match initial_row with
    | None => invalid_for_initial
    | Some initial_row =>
        do (dwarf_regno, bb) <- binary_buffer_next_uleb128 bb;
        restore bb initial_row dwarf_regno
    end
  else if sel =? DW_CFA_remember_state then
    Ok (CfiContinue {| cs_bb := bb; cs_pc := pc; cs_row := row;
                       cs_state_stack := row :: stack |})
  else if sel =? DW_CFA_restore_state then
    match stack with
    | [] => Err (binary_buffer_error
                   "DW_CFA_restore_state with empty state stack" None)
    | top :: stack' =>
        Ok (CfiContinue {| cs_bb := bb; cs_pc := pc; cs_row := top;
                           cs_state_stack := stack' |})
    end
  else if sel =? DW_CFA_nop then continue bb row
  else Err (binary_buffer_error "unknown DWARF CFI opcode %#x" (Some opcode)).

(** The loop of [drgn_eval_dwarf_cfi].  Every instruction consumes its
    opcode byte, so [fuel] bounds the iterations; [None] means that the
    fuel ran out. *)
Fixpoint eval_cfi_loop (fuel : nat) (s : cfi_state)
    : option (result drgn_cfi_row) :=
  if binary_buffer_has_next (cs_bb s) then
    match fuel with
    | O => None
    | S fuel' =>
        match eval_cfi_instruction s with
        | Err e => Some (Err e)
        | Ok (CfiFound s') => Some (Ok (cs_row s'))
        | Ok (CfiContinue s') => eval_cfi_loop fuel' s'
        end
    end
  else Some (Ok (cs_row s)).

(** [drgn_eval_dwarf_cfi]: run [instructions_size] bytes of instructions at
    offset [instructions] of the CIE's section, starting from [row]. *)
Definition drgn_eval_dwarf_cfi (instructions instructions_size : Z)
    (row : drgn_cfi_row) : option (result drgn_cfi_row) :=
  let buffer :=
    drgn_debug_info_buffer_init module
      (if is_eh cie then DRGN_SCN_EH_FRAME else DRGN_SCN_DEBUG_FRAME) in
  let bb := set_end (set_pos buffer instructions)
              (instructions + instructions_size) in
  eval_cfi_loop (Z.to_nat instructions_size)
    {| cs_bb := bb; cs_pc := initial_location fde; cs_row := row;
       cs_state_stack := [] |}.

End Instruction.

(** [drgn_debug_info_find_cfi_in_fde]: the CIE's initial instructions from
    the platform's default row, then the FDE's instructions with the row so
    obtained as the restore reference. *)
Definition drgn_debug_info_find_cfi_in_fde (module : drgn_debug_info_module)
    (fde : drgn_dwarf_fde) (unbiased_pc : Z) : option (result drgn_cfi_row) :=
  let cie := nth (cie fde) (dwarf_cies module) cie0 in
  match drgn_eval_dwarf_cfi module fde None unbiased_pc
          (initial_instructions cie) (initial_instructions_size cie)
          (default_dwarf_cfi_row (platform module)) with
  | None => None
  | Some (Err e) => Some (Err e)
  | Some (Ok initial_row) =>
      drgn_eval_dwarf_cfi module fde (Some initial_row) unbiased_pc
        (instructions fde) (instructions_size fde) initial_row
  end.

End CfiEval.

(** Example data: a .debug_frame section with one CIE
    ([def_cfa(r7, 8); offset(r16, 1 * -8)]) and one FDE at 0x401000
    ([advance_loc(4); def_cfa_offset(16)]), on a platform whose internal
    register numbers are the DWARF numbers 0..16. *)
Module CfiExample.
Import Buf.

Definition regno_unknown : Z := 255.

Definition example_platform : drgn_platform :=
  {| platform_is_little_endian := true;
     platform_address_size := 8;
     dwarf_regno_to_internal := fun r => if r <=? 16 then r else regno_unknown;
     DRGN_REGISTER_NUMBER_UNKNOWN := regno_unknown;
     register_layout := fun r => (8 * r, 8);
     default_dwarf_cfi_row := drgn_empty_cfi_row |}.

Definition debug_frame : list byte :=
  bytes_of
    [ (* CIE at offset 0: length 16, id, version 1, augmentation "" *)
      0x10; 0; 0; 0;  0xff; 0xff; 0xff; 0xff;  1;  0;
      (* code alignment 1, data alignment -8, return address register 16 *)
      1; 0x78; 16;
      (* DW_CFA_def_cfa r7, 8; DW_CFA_offset r16, 1; two nops *)
      0x0c; 7; 8;  0x90; 1;  0; 0;
      (* FDE at offset 20: length 24, CIE pointer 0 *)
      0x18; 0; 0; 0;  0; 0; 0; 0;
      (* initial_location 0x401000, address_range 0x20 *)
      0x00; 0x10; 0x40; 0; 0; 0; 0; 0;   0x20; 0; 0; 0; 0; 0; 0; 0;
      (* DW_CFA_advance_loc 4; DW_CFA_def_cfa_offset 16; nop *)
      0x44;  0x0e; 16;  0 ].

Definition the_cie : drgn_dwarf_cie :=
  {| is_eh := false; address_size := 8; address_encoding := DW_EH_PE_absptr;
     have_augmentation_length := false; signal_frame := false;
     return_address_register := 16; code_alignment_factor := 1;
     data_alignment_factor := -8; initial_instructions := 13;
     initial_instructions_size := 7 |}.

Definition example_module : drgn_debug_info_module :=
  {| platform := example_platform;
     scn_data := fun scn =>
       match scn with
       | DRGN_SCN_DEBUG_FRAME => Some debug_frame
       | _ => None
       end;
     pcrel_base := 0; textrel_base := 0; datarel_base := 0;
     dwarf_cies := [the_cie]; module_bias := 0 |}.

Definition the_fde : drgn_dwarf_fde :=
  {| cie := 0; initial_location := 0x401000; address_range := 0x20;
     instructions := 44; instructions_size := 4 |}.

(** The row after the CIE's initial instructions. *)
Definition initial_row : drgn_cfi_row :=
  {| cfa_rule := RULE_REGISTER_PLUS_OFFSET 7 8;
     reg_rules := repeat RULE_UNDEFINED 16 ++ [RULE_AT_CFA_PLUS_OFFSET (-8)] |}.

(** A second module: the same CIE with code alignment factor 4, and
    instructions [DW_CFA_set_loc 0x401009; DW_CFA_undefined r40;
    DW_CFA_restore r40] at offset 0 of .debug_frame. *)
Definition cie_caf4 : drgn_dwarf_cie :=
  {| is_eh := false; address_size := 8; address_encoding := DW_EH_PE_absptr;
     have_augmentation_length := false; signal_frame := false;
     return_address_register := 16; code_alignment_factor := 4;
     data_alignment_factor := -8; initial_instructions := 0;
     initial_instructions_size := 0 |}.

Definition set_loc_frame : list byte :=
  bytes_of [ 0x01; 0x09; 0x10; 0x40; 0; 0; 0; 0; 0;  0x07; 40;  0xe8 ].

Definition set_loc_module : drgn_debug_info_module :=
  {| platform := example_platform;
     scn_data := fun scn =>
       match scn with
       | DRGN_SCN_DEBUG_FRAME => Some set_loc_frame
       | _ => None
       end;
     pcrel_base := 0; textrel_base := 0; datarel_base := 0;
     dwarf_cies := [cie_caf4]; module_bias := 0 |}.

Definition state_at (module : drgn_debug_info_module) (pos : Z)
    (row : drgn_cfi_row) : CfiEval.cfi_state :=
  {| CfiEval.cs_bb :=
       set_pos (drgn_debug_info_buffer_init module DRGN_SCN_DEBUG_FRAME) pos;
     CfiEval.cs_pc := 0x401000;
     CfiEval.cs_row := row;
     CfiEval.cs_state_stack := [] |}.

End CfiExample.

(** Vocabulary for statements about one CFI instruction. *)
Module CfiSpec.
Import Buf CfiEval.

(** The iteration ends with the current location moved to [pc'], the row
    and the state stack untouched; it is [goto found] when [pc'] is beyond
    the target. *)
Definition move_location (target : Z) (s : cfi_state) (bb : binary_buffer)
    (pc' : Z) : cfi_outcome :=
  let s' := {| cs_bb := bb; cs_pc := pc'; cs_row := cs_row s;
               cs_state_stack := cs_state_stack s |} in
  if pc' >? target then CfiFound s' else CfiContinue s'.

(** The [delta] operand of DW_CFA_advance_loc, advance_loc1, advance_loc2
    and advance_loc4, read after the opcode byte; [None] for any other
    opcode. *)
Definition advance_loc_delta (opcode : Z) (bb : binary_buffer)
    : option (result (Z * binary_buffer)) :=
  if Z.land opcode 0xc0 =? DW_CFA_advance_loc
  then Some (Ok (Z.land opcode 0x3f, bb))
  else if opcode =? DW_CFA_advance_loc1 then Some (binary_buffer_next_u8 bb)
  else if opcode =? DW_CFA_advance_loc2 then Some (binary_buffer_next_u16 bb)
  else if opcode =? DW_CFA_advance_loc4 then Some (binary_buffer_next_u32 bb)
  else None.

(** The opcodes that are refused among a CIE's initial instructions. *)
Definition location_or_restore_opcode (opcode : Z) : bool :=
  (Z.land opcode 0xc0 =? DW_CFA_advance_loc) ||
  (Z.land opcode 0xc0 =? DW_CFA_restore) ||
  (opcode =? DW_CFA_set_loc) ||
  (opcode =? DW_CFA_advance_loc1) ||
  (opcode =? DW_CFA_advance_loc2) ||
  (opcode =? DW_CFA_advance_loc4) ||
  (opcode =? DW_CFA_restore_extended).

Definition location_overflow : drgn_error :=
  drgn_error_create DRGN_ERROR_OTHER "DW_CFA_advance_loc* overflows location".

Definition invalid_for_initial (opcode : Z) : drgn_error :=
  binary_buffer_error "invalid initial DWARF CFI opcode %#x" (Some opcode).

(** The value the instruction switch dispatches on. *)
Definition cfa_selector (opcode : Z) : Z :=
  if negb (Z.land opcode 0xc0 =? 0) then Z.land opcode 0xc0 else opcode.




(** The instruction did nothing but consume its bytes. *)
Definition skipped (s : cfi_state) (bb : binary_buffer) : cfi_outcome :=
  CfiContinue {| cs_bb := bb; cs_pc := cs_pc s; cs_row := cs_row s;
                 cs_state_stack := cs_state_stack s |}.

End CfiSpec.

(** ** DIEs and attributes (the part of libdw the core uses) *)

(** An attribute as libdw presents it: its form, the CU version, and what
    each of the [dwarf_form*] accessors returns for it ([None] when the
    accessor fails on this form). *)
Record Dwarf_Attribute := {
  attr_form : Z;
  attr_cu_version : Z;
  attr_udata : option Z;               (* [dwarf_formudata] *)
  attr_addr : option Z;                (* [dwarf_formaddr] *)
  attr_block : option (list byte);     (* [dwarf_formblock] *)
  attr_flag : option bool;             (* [dwarf_formflag] *)
  attr_ref : option Z                  (* [dwarf_formref_die]: DIE address *)
}.

Definition DW_FORM_addr := 0x01.
Definition DW_FORM_block2 := 0x03.
Definition DW_FORM_block4 := 0x04.
Definition DW_FORM_data2 := 0x05.
Definition DW_FORM_data4 := 0x06.
Definition DW_FORM_data8 := 0x07.
Definition DW_FORM_block := 0x09.
Definition DW_FORM_block1 := 0x0a.
Definition DW_FORM_data1 := 0x0b.
Definition DW_FORM_flag := 0x0c.
Definition DW_FORM_udata := 0x0f.
Definition DW_FORM_ref4 := 0x13.
Definition DW_FORM_sec_offset := 0x17.
Definition DW_FORM_exprloc := 0x18.
Definition DW_FORM_loclistx := 0x22.

(** Attributes of the usual forms, for test data. *)
Definition attr_of_udata (form cu_version v : Z) : Dwarf_Attribute :=
  {| attr_form := form; attr_cu_version := cu_version; attr_udata := Some v;
     attr_addr := None; attr_block := None; attr_flag := None;
     attr_ref := None |}.

Definition attr_of_addr (cu_version a : Z) : Dwarf_Attribute :=
  {| attr_form := DW_FORM_addr; attr_cu_version := cu_version;
     attr_udata := None; attr_addr := Some a; attr_block := None;
     attr_flag := None; attr_ref := None |}.

Definition attr_of_block (form cu_version : Z) (data : list byte)
    : Dwarf_Attribute :=
  {| attr_form := form; attr_cu_version := cu_version; attr_udata := None;
     attr_addr := None; attr_block := Some data; attr_flag := None;
     attr_ref := None |}.

Definition attr_of_ref (cu_version die_addr : Z) : Dwarf_Attribute :=
  {| attr_form := DW_FORM_ref4; attr_cu_version := cu_version;
     attr_udata := None; attr_addr := None; attr_block := None;
     attr_flag := None; attr_ref := Some die_addr |}.

Definition attr_of_flag (cu_version : Z) (b : bool) : Dwarf_Attribute :=
  {| attr_form := DW_FORM_flag; attr_cu_version := cu_version;
     attr_udata := None; attr_addr := None; attr_block := None;
     attr_flag := Some b; attr_ref := None |}.

Definition DW_AT_sibling := 0x01.
Definition DW_AT_location := 0x02.
Definition DW_AT_byte_size := 0x0b.
Definition DW_AT_bit_offset := 0x0c.
Definition DW_AT_bit_size := 0x0d.
Definition DW_AT_low_pc := 0x11.
Definition DW_AT_data_member_location := 0x38.
Definition DW_AT_declaration := 0x3c.
Definition DW_AT_frame_base := 0x40.
Definition DW_AT_type := 0x49.
Definition DW_AT_data_bit_offset := 0x6b.
Definition DW_AT_signature := 0x69.
Definition DW_AT_addr_base := 0x73.
Definition DW_AT_loclists_base := 0x8c.

(** A compilation unit: the address and the attributes of its unit DIE and
    the header fields that [dwarf_cu_die] reports. *)
Record Dwarf_CU := {
  cu_die_addr : Z;
  cu_attr : Z -> option Dwarf_Attribute;
  cu_version : Z;
  cu_address_size : Z;
  cu_offset_size : Z
}.

(** A DIE: its address, its tag, its attributes by name, and its CU. *)
Record Dwarf_Die := {
  die_addr : Z;
  die_tag : Z;
  die_attr : Z -> option Dwarf_Attribute;
  die_cu : Dwarf_CU
}.

Definition DW_TAG_compile_unit := 0x11.

(** [dwarf_cu_die]: the unit DIE of a CU. *)
Definition dwarf_cu_die (cu : Dwarf_CU) : Dwarf_Die :=
  {| die_addr := cu_die_addr cu; die_tag := DW_TAG_compile_unit;
     die_attr := cu_attr cu; die_cu := cu |}.

Definition dwarf_attr (die : Dwarf_Die) (name : Z) : option Dwarf_Attribute :=
  die_attr die name.

(** [dwarf_attr_integrate] also looks through DW_AT_abstract_origin and
    DW_AT_specification; the DIEs here carry their integrated attributes. *)
Definition dwarf_attr_integrate (die : Dwarf_Die) (name : Z)
    : option Dwarf_Attribute :=
  die_attr die name.

Definition dwarf_formudata (attr : Dwarf_Attribute) : option Z :=
  attr_udata attr.

Definition dwarf_formblock (attr : Dwarf_Attribute) : option (list byte) :=
  attr_block attr.

(** [dwarf_lowpc]: the DW_AT_low_pc of a DIE, if it has one. *)
Definition dwarf_lowpc (die : Dwarf_Die) : option Z :=
  match dwarf_attr die DW_AT_low_pc with
  | Some attr => attr_addr attr
  | None => None
  end.

(** [dwarf_flag] of the source: a missing flag attribute is [false];
    [None] is libdw's failure. *)
Definition dwarf_flag (die : Dwarf_Die) (name : Z) : option bool :=
  match dwarf_attr_integrate die name with
  | None => Some false
  | Some attr => attr_flag attr
  end.

Definition DW_LLE_end_of_list := 0x00.
Definition DW_LLE_base_addressx := 0x01.
Definition DW_LLE_startx_endx := 0x02.
Definition DW_LLE_startx_length := 0x03.
Definition DW_LLE_offset_pair := 0x04.
Definition DW_LLE_default_location := 0x05.
Definition DW_LLE_base_address := 0x06.
Definition DW_LLE_start_end := 0x07.
Definition DW_LLE_start_length := 0x08.

(** ** Location lists *)

Module Loc.
Import Buf.

(** Modelled from the spec: [copy_lsbytes] of the utility header as used to
    load an unsigned integer of [size] bytes from [data] at [offset] in the
    given byte order (section 4.4, "copy LSBs respecting byte order"). *)
Definition load_uint (data : list byte) (offset size : Z)
    (little_endian : bool) : Z :=
  decode_uint little_endian
    (firstn (Z.to_nat size) (skipn (Z.to_nat offset) data)).

(** [drgn_dwarf_next_addrx]: read an index and look it up in .debug_addr.
    [addr_base] is the cached position of the CU's address table in the
    section ([None] is [NULL]); it is returned updated. *)
Definition drgn_dwarf_next_addrx (bb : binary_buffer)
    (module : drgn_debug_info_module) (cu_die : Dwarf_Die)
    (address_size : Z) (addr_base : option Z)
    : result (Z * binary_buffer * option Z) :=
  do addr_base <-
    match addr_base with
    | Some b => Ok b
    | None =>
        match dwarf_attr cu_die DW_AT_addr_base with
        | None => Err (drgn_error_create DRGN_ERROR_OTHER
                         "indirect address without DW_AT_addr_base")
        | Some attr =>
            match dwarf_formudata attr with
            | None => Err drgn_error_libdw
            | Some base =>
                match scn_data module DRGN_SCN_DEBUG_ADDR with
                | None => Err (drgn_error_create DRGN_ERROR_OTHER
                                 "indirect address without .debug_addr section")
                | Some data =>
                    if (base >? Z.of_nat (List.length data)) || (base =? 0)
                    then Err (drgn_error_create DRGN_ERROR_OTHER
                                "DW_AT_addr_base is out of bounds")
                    else
                      let segment_selector_size :=
                        byte_to_Z (nth (Z.to_nat (base - 1)) data x00) in
                      if negb (segment_selector_size =? 0)
                      then Err (drgn_error_create DRGN_ERROR_OTHER
                                  "unsupported segment selector size %PRIu8")
                      else Ok base
                end
            end
        end
    end;
  do (index, bb) <- binary_buffer_next_uleb128 bb;
  let data :=
    match scn_data module DRGN_SCN_DEBUG_ADDR with
    | Some d => d
    | None => []
    end in
  if index >=? (Z.of_nat (List.length data) - addr_base) / address_size
  then Err (binary_buffer_error "address index is out of bounds" None)
  else
    Ok (load_uint data (addr_base + index * address_size) address_size
          (platform_is_little_endian (platform module)),
        bb, Some addr_base).

(** The variables of the loop of [drgn_dwarf5_location_list].  [ll_base] is
    [base] together with [base_valid]; [ll_expr] and [ll_expr_size] are
    [*expr_ret] ([None] is [NULL]) and [*expr_size_ret]. *)
Record loclist5_state := {
  ll_bb : binary_buffer;
  ll_addr_base : option Z;
  ll_base : option Z;
  ll_expr : option Z;
  ll_expr_size : Z
}.

Inductive loclist_outcome (S : Type) :=
| LlReturn (expr : option Z) (expr_size : Z)
| LlContinue (s : S).
Arguments LlReturn {S} expr expr_size.
Arguments LlContinue {S} s.

Section Dwarf5.

Variable module : drgn_debug_info_module.
Variable cu_die : Dwarf_Die.
Variable address_size : Z.
Variable pc : Z.

(** One iteration of the [for (;;)] loop of [drgn_dwarf5_location_list]. *)
Definition loclist5_entry (s : loclist5_state)
    : result (loclist_outcome loclist5_state) :=
  do (kind, bb) <- binary_buffer_next_u8 (ll_bb s);
  let next_addrx bb addr_base :=
    drgn_dwarf_next_addrx bb module cu_die address_size addr_base in
  let counted_location_description bb addr_base base start length :=
    do (expr_size, bb) <- binary_buffer_next_uleb128 bb;
    if expr_size >? bb_end bb - bb_pos bb
    then Err (binary_buffer_error
                "location description size is out of bounds" None)
    else if (pc >=? start) && (u64 (pc - start) <? length)
    then Ok (LlReturn (Some (bb_pos bb)) expr_size)
    else Ok (LlContinue
               {| ll_bb := set_pos bb (bb_pos bb + expr_size);
                  ll_addr_base := addr_base; ll_base := base;
                  ll_expr := ll_expr s; ll_expr_size := ll_expr_size s |}) in
  if kind =? DW_LLE_end_of_list then
    Ok (LlReturn (ll_expr s) (ll_expr_size s))
  else if kind =? DW_LLE_base_addressx then
    do (base, bb, addr_base) <- next_addrx bb (ll_addr_base s);
    Ok (LlContinue
          {| ll_bb := bb; ll_addr_base := addr_base; ll_base := Some base;
             ll_expr := ll_expr s; ll_expr_size := ll_expr_size s |})
  else if kind =? DW_LLE_startx_endx then
    do (start, bb, addr_base) <- next_addrx bb (ll_addr_base s);
    do (length, bb, addr_base) <- next_addrx bb addr_base;
    let length := u64 (length - start) in
    counted_location_description bb addr_base (ll_base s) start length
  else if kind =? DW_LLE_startx_length then
    do (start, bb, addr_base) <- next_addrx bb (ll_addr_base s);
    do (length, bb) <- binary_buffer_next_uleb128 bb;
    counted_location_description bb addr_base (ll_base s) start length
  else if kind =? DW_LLE_offset_pair then
    do (start, bb) <- binary_buffer_next_uleb128 bb;
    do (length, bb) <- binary_buffer_next_uleb128 bb;
    let length := u64 (length - start) in
    do base <-
      match ll_base s with
      | Some base => Ok base
      | None =>
          match dwarf_lowpc cu_die with
          | None => Err drgn_error_libdw
          | Some low_pc => Ok low_pc
          end
      end;
    let start := u64 (start + base) in
    counted_location_description bb (ll_addr_base s) (Some base) start length
  else if kind =? DW_LLE_default_location then
    do (expr_size, bb) <- binary_buffer_next_uleb128 bb;
    if expr_size >? bb_end bb - bb_pos bb
    then Err (binary_buffer_error
                "location description size is out of bounds" None)
    else Ok (LlContinue
               {| ll_bb := set_pos bb (bb_pos bb + expr_size);
                  ll_addr_base := ll_addr_base s; ll_base := ll_base s;
                  ll_expr := Some (bb_pos bb); ll_expr_size := expr_size |})
  else if kind =? DW_LLE_base_address then
    do (base, bb) <- binary_buffer_next_uint bb address_size;
    Ok (LlContinue
          {| ll_bb := bb; ll_addr_base := ll_addr_base s;
             ll_base := Some base;
             ll_expr := ll_expr s; ll_expr_size := ll_expr_size s |})
  else if kind =? DW_LLE_start_end then
    do (start, bb) <- binary_buffer_next_uint bb address_size;
    do (length, bb) <- binary_buffer_next_uint bb address_size;
    let length := u64 (length - start) in
    counted_location_description bb (ll_addr_base s) (ll_base s) start length
  else if kind =? DW_LLE_start_length then
    do (start, bb) <- binary_buffer_next_uint bb address_size;
    do (length, bb) <- binary_buffer_next_uleb128 bb;
    counted_location_description bb (ll_addr_base s) (ll_base s) start length
  else
    Err (binary_buffer_error "unknown location list entry kind %#x"
           (Some kind)).

(** The loop; every entry consumes its kind byte, and [None] means that
    [fuel] ran out. *)
Fixpoint loclist5_loop (fuel : nat) (s : loclist5_state)
    : option (result (option Z * Z)) :=
  match fuel with
  | O => None
  | S fuel' =>
      match loclist5_entry s with
      | Err e => Some (Err e)
      | Ok (LlReturn expr expr_size) => Some (Ok (expr, expr_size))
      | Ok (LlContinue s') => loclist5_loop fuel' s'
      end
  end.

(** [drgn_dwarf5_location_list]: the expression for [pc] in the list at
    [offset] of .debug_loclists, as its position in the section ([None] is
    [NULL]) and its size. *)
Definition drgn_dwarf5_location_list (offset : Z)
    : option (result (option Z * Z)) :=
  match scn_data module DRGN_SCN_DEBUG_LOCLISTS with
  | None => Some (Err (drgn_error_create DRGN_ERROR_OTHER
                         "loclist without .debug_loclists section"))
  | Some _ =>
      let bb := drgn_debug_info_buffer_init module DRGN_SCN_DEBUG_LOCLISTS in
      if offset >? bb_end bb - bb_pos bb
      then Some (Err (drgn_error_create DRGN_ERROR_OTHER
                        "loclist is out of bounds"))
      else
        let bb := set_pos bb (bb_pos bb + offset) in
        loclist5_loop (S (Z.to_nat (bb_end bb - bb_pos bb)))
          {| ll_bb := bb; ll_addr_base := None; ll_base := None;
             (* Default is unknown. May be overridden by
                DW_LLE_default_location. *)
             ll_expr := None; ll_expr_size := 0 |}
  end.

End Dwarf5.

(** The variables of the loop of [drgn_dwarf4_location_list]. *)
Record loclist4_state := {
  l4_bb : binary_buffer;
  l4_base : option Z          (* [base] with [base_valid] *)
}.

Section Dwarf4.

Variable module : drgn_debug_info_module.
Variable cu_die : Dwarf_Die.
Variable address_size : Z.
Variable pc : Z.

(** One iteration of the [for (;;)] loop of [drgn_dwarf4_location_list]. *)
Definition loclist4_entry (s : loclist4_state)
    : result (loclist_outcome loclist4_state) :=
  let address_max := uint_max address_size in
  do (start, bb) <- binary_buffer_next_uint (l4_bb s) address_size;
  do (end_, bb) <- binary_buffer_next_uint bb address_size;
  if (start =? 0) && (end_ =? 0) then Ok (LlReturn None 0)
  else if start =? address_max then
    Ok (LlContinue {| l4_bb := bb; l4_base := Some end_ |})
  else
    do base <-
      match l4_base s with
      | Some base => Ok base
      | None =>
          match dwarf_lowpc cu_die with
          | None => Err drgn_error_libdw
          | Some low_pc => Ok low_pc
          end
      end;
    do (expr_size, bb) <- binary_buffer_next_u16 bb;
    if expr_size >? bb_end bb - bb_pos bb
    then Err (binary_buffer_error
                "location description size is out of bounds" None)
    else if (u64 (base + start) <=? pc) && (pc <? u64 (base + end_))
    then Ok (LlReturn (Some (bb_pos bb)) expr_size)
    else Ok (LlContinue {| l4_bb := set_pos bb (bb_pos bb + expr_size);
                           l4_base := Some base |}).

Fixpoint loclist4_loop (fuel : nat) (s : loclist4_state)
    : option (result (option Z * Z)) :=
  match fuel with
  | O => None
  | S fuel' =>
      match loclist4_entry s with
      | Err e => Some (Err e)
      | Ok (LlReturn expr expr_size) => Some (Ok (expr, expr_size))
      | Ok (LlContinue s') => loclist4_loop fuel' s'
      end
  end.

(** [drgn_dwarf4_location_list]: the expression for [pc] in the list at
    [offset] of .debug_loc. *)
Definition drgn_dwarf4_location_list (offset : Z)
    : option (result (option Z * Z)) :=
  match scn_data module DRGN_SCN_DEBUG_LOC with
  | None => Some (Err (drgn_error_create DRGN_ERROR_OTHER
                         "loclistptr without .debug_loc section"))
  | Some _ =>
      let bb := drgn_debug_info_buffer_init module DRGN_SCN_DEBUG_LOC in
      if offset >? bb_end bb - bb_pos bb
      then Some (Err (drgn_error_create DRGN_ERROR_OTHER
                        "loclistptr is out of bounds"))
      else
        let bb := set_pos bb (bb_pos bb + offset) in
        loclist4_loop (S (Z.to_nat (bb_end bb - bb_pos bb)))
          {| l4_bb := bb; l4_base := None |}
  end.

End Dwarf4.

End Loc.

(** Location lists as the specification describes them: the entries of a
    list, decoded up to its terminator independently of any PC, and the
    selection of an expression for a PC. *)
Module LocSpec.
Import Buf Loc.

(** An entry of a DWARF 5 list that carries an expression: a ranged entry
    (of any of the kinds startx_endx, startx_length, offset_pair, start_end,
    start_length) with its resolved start address and length, or a
    default_location entry.  [expr] is the position of the expression in
    the section. *)
Inductive lle_entry :=
| LleRanged (start length : Z) (expr expr_size : Z)
| LleDefault (expr expr_size : Z).

(** A ranged entry covers [pc] when [start <= pc < start + length]. *)
Definition lle_covers (pc : Z) (e : lle_entry) : bool :=
  match e with
  | LleRanged start length _ _ => (start <=? pc) && (pc - start <? length)
  | LleDefault _ _ => false
  end.

Definition lle_is_default (e : lle_entry) : bool :=
  match e with
  | LleDefault _ _ => true
  | LleRanged _ _ _ _ => false
  end.

Definition lle_expression (e : lle_entry) : option Z * Z :=
  match e with
  | LleRanged _ _ expr expr_size => (Some expr, expr_size)
  | LleDefault expr expr_size => (Some expr, expr_size)
  end.

(** The entry selected for [pc]: the first ranged entry that covers [pc],
    wherever it is in the list; without one, the last default_location
    entry. *)
Definition selected_lle (pc : Z) (entries : list lle_entry)
    : option lle_entry :=
  match find (lle_covers pc) entries with
  | Some e => Some e
  | None => find lle_is_default (rev entries)
  end.

(** The expression selected for [pc]: that of the selected entry, or
    [fallback] when no entry is selected. *)
Definition select_lle (pc : Z) (fallback : option Z * Z)
    (entries : list lle_entry) : option Z * Z :=
  match selected_lle pc entries with
  | Some e => lle_expression e
  | None => fallback
  end.

Section Decode5.

Variable module : drgn_debug_info_module.
Variable cu_die : Dwarf_Die.
Variable address_size : Z.

(** Decode the entries from [bb] up to DW_LLE_end_of_list.  Base-address
    entries set the base that offset pairs are relative to; the base
    defaults to the CU's DW_AT_low_pc. *)
Fixpoint decode_lle (fuel : nat) (bb : binary_buffer)
    (addr_base base : option Z) : option (result (list lle_entry)) :=
  match fuel with
  | O => None
  | S fuel' =>
      let next_addrx bb addr_base :=
        drgn_dwarf_next_addrx bb module cu_die address_size addr_base in
      let description bb addr_base base start length :=
        match binary_buffer_next_uleb128 bb with
        | Err e => Some (Err e)
        | Ok (expr_size, bb) =>
            if expr_size >? bb_end bb - bb_pos bb
            then Some (Err (binary_buffer_error
                        "location description size is out of bounds" None))
            else
              match decode_lle fuel' (set_pos bb (bb_pos bb + expr_size))
                      addr_base base with
              | Some (Ok es) =>
                  Some (Ok (LleRanged start length (bb_pos bb) expr_size :: es))
              | r => r
              end
        end in
      let after {A} (r : result A)
          (k : A -> option (result (list lle_entry))) :=
        match r with
        | Err e => Some (Err e)
        | Ok a => k a
        end in
      after (binary_buffer_next_u8 bb) (fun '(kind, bb) =>
      if kind =? DW_LLE_end_of_list then Some (Ok [])
      else if kind =? DW_LLE_base_addressx then
        after (next_addrx bb addr_base) (fun '(b, bb, addr_base) =>
        decode_lle fuel' bb addr_base (Some b))
      else if kind =? DW_LLE_startx_endx then
        after (next_addrx bb addr_base) (fun '(start, bb, addr_base) =>
        after (next_addrx bb addr_base) (fun '(end_, bb, addr_base) =>
        description bb addr_base base start (u64 (end_ - start))))
      else if kind =? DW_LLE_startx_length then
        after (next_addrx bb addr_base) (fun '(start, bb, addr_base) =>
        after (binary_buffer_next_uleb128 bb) (fun '(length, bb) =>
        description bb addr_base base start length))
      else if kind =? DW_LLE_offset_pair then
        after (binary_buffer_next_uleb128 bb) (fun '(start, bb) =>
        after (binary_buffer_next_uleb128 bb) (fun '(end_, bb) =>
        after (match base with
               | Some b => Ok b
               | None => match dwarf_lowpc cu_die with
                         | Some low_pc => Ok low_pc
                         | None => Err drgn_error_libdw
                         end
               end) (fun b =>
        description bb addr_base (Some b) (u64 (start + b))
          (u64 (end_ - start)))))
      else if kind =? DW_LLE_default_location then
        after (binary_buffer_next_uleb128 bb) (fun '(expr_size, bb) =>
        if expr_size >? bb_end bb - bb_pos bb
        then Some (Err (binary_buffer_error
                    "location description size is out of bounds" None))
        else
          match decode_lle fuel' (set_pos bb (bb_pos bb + expr_size))
                  addr_base base with
          | Some (Ok es) => Some (Ok (LleDefault (bb_pos bb) expr_size :: es))
          | r => r
          end)
      else if kind =? DW_LLE_base_address then
        after (binary_buffer_next_uint bb address_size) (fun '(b, bb) =>
        decode_lle fuel' bb addr_base (Some b))
      else if kind =? DW_LLE_start_end then
        after (binary_buffer_next_uint bb address_size) (fun '(start, bb) =>
        after (binary_buffer_next_uint bb address_size) (fun '(end_, bb) =>
        description bb addr_base base start (u64 (end_ - start))))
      else if kind =? DW_LLE_start_length then
        after (binary_buffer_next_uint bb address_size) (fun '(start, bb) =>
        after (binary_buffer_next_uleb128 bb) (fun '(length, bb) =>
        description bb addr_base base start length))
      else
        Some (Err (binary_buffer_error "unknown location list entry kind %#x"
                     (Some kind))))
  end.

(** The entries of the list at [offset] of .debug_loclists. *)
Definition loclist5_entries (offset : Z) : option (result (list lle_entry)) :=
  let bb := drgn_debug_info_buffer_init module DRGN_SCN_DEBUG_LOCLISTS in
  let bb := set_pos bb (bb_pos bb + offset) in
  decode_lle (S (Z.to_nat (bb_end bb - bb_pos bb))) bb None None.

End Decode5.

(** An entry of a DWARF 4 list that carries an expression, with the bounds
    of its range already made absolute. *)
Record loc4_entry := {
  range_lo : Z;
  range_hi : Z;
  range_expr : Z;
  range_expr_size : Z
}.

Definition loc4_contains (pc : Z) (e : loc4_entry) : bool :=
  (range_lo e <=? pc) && (pc <? range_hi e).

(** The first entry whose range contains [pc]; none is an empty expression. *)
Definition select_loc4 (pc : Z) (entries : list loc4_entry) : option Z * Z :=
  match find (loc4_contains pc) entries with
  | Some e => (Some (range_expr e), range_expr_size e)
  | None => (None, 0)
  end.

Section Decode4.

Variable cu_die : Dwarf_Die.
Variable address_size : Z.

(** Decode the entries from [bb] up to the (0, 0) terminator: a pair whose
    start is the maximum address sets the base to its end; any other pair
    is relative to the current base, which is the CU's DW_AT_low_pc until a
    base entry was seen. *)
Fixpoint decode_loc4 (fuel : nat) (bb : binary_buffer) (base : option Z)
    : option (result (list loc4_entry)) :=
  match fuel with
  | O => None
  | S fuel' =>
      match binary_buffer_next_uint bb address_size with
      | Err e => Some (Err e)
      | Ok (start, bb) =>
      match binary_buffer_next_uint bb address_size with
      | Err e => Some (Err e)
      | Ok (end_, bb) =>
          if (start =? 0) && (end_ =? 0) then Some (Ok [])
          else if start =? uint_max address_size
          then decode_loc4 fuel' bb (Some end_)
          else
            match (match base with
                   | Some b => Some b
                   | None => dwarf_lowpc cu_die
                   end) with
            | None => Some (Err drgn_error_libdw)
            | Some b =>
                match binary_buffer_next_u16 bb with
                | Err e => Some (Err e)
                | Ok (expr_size, bb) =>
                    if expr_size >? bb_end bb - bb_pos bb
                    then Some (Err (binary_buffer_error
                           "location description size is out of bounds" None))
                    else
                      match decode_loc4 fuel'
                              (set_pos bb (bb_pos bb + expr_size)) (Some b) with
                      | Some (Ok es) =>
                          Some (Ok ({| range_lo := u64 (b + start);
                                       range_hi := u64 (b + end_);
                                       range_expr := bb_pos bb;
                                       range_expr_size := expr_size |} :: es))
                      | r => r
                      end
                end
            end
      end
      end
  end.

(** The entries of the list at [offset] of .debug_loc. *)
Definition loclist4_entries (module : drgn_debug_info_module) (offset : Z)
    : option (result (list loc4_entry)) :=
  let bb := drgn_debug_info_buffer_init module DRGN_SCN_DEBUG_LOC in
  let bb := set_pos bb (bb_pos bb + offset) in
  decode_loc4 (S (Z.to_nat (bb_end bb - bb_pos bb))) bb None.

End Decode4.

End LocSpec.

(** Example data: a .debug_loc list with the entries
    (0x1000, 0x1100, [DW_OP_reg0]) and (0x1100, 0x1200, [DW_OP_reg1]) for a
    CU whose DW_AT_low_pc is 0, followed at offset 54 by a list that starts
    with a base-address entry (base 0x400000) and has the entry
    (0x10, 0x20, [DW_OP_reg2]). *)
Module LocExample.
Import Buf.

Definition debug_loc : list byte :=
  bytes_of
    [ 0x00; 0x10; 0; 0; 0; 0; 0; 0;   0x00; 0x11; 0; 0; 0; 0; 0; 0;
      1; 0;  0x50;
      0x00; 0x11; 0; 0; 0; 0; 0; 0;   0x00; 0x12; 0; 0; 0; 0; 0; 0;
      1; 0;  0x51;
      0; 0; 0; 0; 0; 0; 0; 0;   0; 0; 0; 0; 0; 0; 0; 0;
      (* offset 54 *)
      0xff; 0xff; 0xff; 0xff; 0xff; 0xff; 0xff; 0xff;
      0x00; 0x00; 0x40; 0; 0; 0; 0; 0;
      0x10; 0; 0; 0; 0; 0; 0; 0;   0x20; 0; 0; 0; 0; 0; 0; 0;
      1; 0;  0x52;
      0; 0; 0; 0; 0; 0; 0; 0;   0; 0; 0; 0; 0; 0; 0; 0 ].

(** A .debug_loclists list: default_location [DW_OP_reg3], then
    start_length (0x2000, 0x10) [DW_OP_reg4], then end_of_list. *)
Definition debug_loclists : list byte :=
  bytes_of
    [ 0x05; 1; 0x53;
      0x08;  0x00; 0x20; 0; 0; 0; 0; 0; 0;  0x10;  1; 0x54;
      0x00 ].

Definition loc_module : drgn_debug_info_module :=
  {| platform := CfiExample.example_platform;
     scn_data := fun scn =>
       match scn with
       | DRGN_SCN_DEBUG_LOC => Some debug_loc
       | DRGN_SCN_DEBUG_LOCLISTS => Some debug_loclists
       | _ => None
       end;
     pcrel_base := 0; textrel_base := 0; datarel_base := 0;
     dwarf_cies := []; module_bias := 0 |}.

Definition cu : Dwarf_CU :=
  {| cu_die_addr := 11;
     cu_attr := fun name =>
       if name =? DW_AT_low_pc then Some (attr_of_addr 4 0) else None;
     cu_version := 4; cu_address_size := 8; cu_offset_size := 4 |}.

Definition cu_die : Dwarf_Die := dwarf_cu_die cu.

End LocExample.

(** ** Member offsets *)

Definition DW_OP_plus_uconst := 0x23.

Module Member.
Import Buf.

(** The part of a type that the offset computation asks for:
    [drgn_type_has_size] and [drgn_type_sizeof]. *)
Record drgn_type := {
  drgn_type_has_size : bool;
  drgn_type_sizeof : result Z
}.

(** The part of an evaluated member object that is read: its type and its
    bit size (the bit-field size, or the size of the type in bits). *)
Record drgn_object := {
  obj_type : drgn_type;
  obj_bit_size : Z                   (* uint64_t *)
}.

(** A lazy object is given by what [drgn_lazy_object_evaluate] yields. *)
Record drgn_lazy_object := {
  drgn_lazy_object_evaluate : result drgn_object
}.

Definition drgn_dwarf_attribute_is_block (attr : Dwarf_Attribute) : bool :=
  let form := attr_form attr in
  (form =? DW_FORM_block1) || (form =? DW_FORM_block2) ||
  (form =? DW_FORM_block4) || (form =? DW_FORM_block).

Definition drgn_dwarf_attribute_is_ptr (attr : Dwarf_Attribute) : bool :=
  let form := attr_form attr in
  if form =? DW_FORM_sec_offset then true
  else if (form =? DW_FORM_data4) || (form =? DW_FORM_data8)
  then attr_cu_version attr <=? 3
  else false.

(** [invalid_data_member_location], the error callback of the buffer over
    a DW_AT_data_member_location block. *)
Definition invalid_data_member_location : drgn_error :=
  drgn_error_create DRGN_ERROR_OTHER
    "DW_TAG_member has invalid DW_AT_data_member_location".

Definition unsupported_data_member_location : drgn_error :=
  drgn_error_create DRGN_ERROR_OTHER
    "DW_TAG_member has unsupported DW_AT_data_member_location".

(** A buffer read whose errors go through the callback above. *)
Definition with_callback {A} (r : result A) : result A :=
  match r with
  | Ok a => Ok a
  | Err _ => Err invalid_data_member_location
  end.

(** [drgn_parse_dwarf_data_member_location]: a constant, or a block that
    is exactly [DW_OP_plus_uconst c]. *)
Definition drgn_parse_dwarf_data_member_location (attr : Dwarf_Attribute)
    : result Z :=
  if drgn_dwarf_attribute_is_block attr then
    match dwarf_formblock attr with
    | None => Err drgn_error_libdw
    | Some block =>
        (* Right now we only parse u8 and ULEB128, so the byte order
           doesn't matter. *)
        let bb := binary_buffer_init block true in
        do (opcode, bb) <- with_callback (binary_buffer_next_u8 bb);
        if negb (opcode =? DW_OP_plus_uconst)
        then Err unsupported_data_member_location
        else
          do (ret, bb) <- with_callback (binary_buffer_next_uleb128 bb);
          if binary_buffer_has_next bb
          then Err unsupported_data_member_location
          else Ok ret
    end
  else if drgn_dwarf_attribute_is_ptr attr then
    Err unsupported_data_member_location
  else
    match dwarf_formudata attr with
    | None => Err invalid_data_member_location
    | Some word => Ok word
    end.

(** [parse_member_offset]: the offset of a member in bits. *)
Definition parse_member_offset (die : Dwarf_Die)
    (member_object : drgn_lazy_object) (little_endian : bool) : result Z :=
  (* The simplest case is when we have DW_AT_data_bit_offset. *)
  match dwarf_attr_integrate die DW_AT_data_bit_offset with
  | Some attr =>
      match dwarf_formudata attr with
      | None => Err (drgn_error_create DRGN_ERROR_OTHER
                       "DW_TAG_member has invalid DW_AT_data_bit_offset")
      | Some bit_offset => Ok bit_offset
      end
  | None =>
      (* Otherwise, we might have DW_AT_data_member_location, which is the
         offset in bytes from the beginning of the containing object. *)
      do ret <-
        match dwarf_attr_integrate die DW_AT_data_member_location with
        | Some attr =>
            do ret <- drgn_parse_dwarf_data_member_location attr;
            Ok (u64 (ret * 8))
        | None => Ok 0
        end;
      (* In addition, a bit field might have DW_AT_bit_offset. *)
      match dwarf_attr_integrate die DW_AT_bit_offset with
      | None => Ok ret
      | Some attr =>
          match dwarf_formudata attr with
          | None => Err (drgn_error_create DRGN_ERROR_OTHER
                           "DW_TAG_member has invalid DW_AT_bit_offset")
          | Some bit_offset =>
              if little_endian then
                do obj <- drgn_lazy_object_evaluate member_object;
                do byte_size <-
                  match dwarf_attr_integrate die DW_AT_byte_size with
                  | Some attr =>
                      match dwarf_formudata attr with
                      | None => Err (drgn_error_create DRGN_ERROR_OTHER
                                  "DW_TAG_member has invalid DW_AT_byte_size")
                      | Some word => Ok word
                      end
                  | None =>
                      if negb (drgn_type_has_size (obj_type obj))
                      then Err (drgn_error_create DRGN_ERROR_OTHER
                             "DW_TAG_member bit field type does not have size")
                      else drgn_type_sizeof (obj_type obj)
                  end;
                Ok (u64 (ret + (8 * byte_size - bit_offset - obj_bit_size obj)))
              else Ok (u64 (ret + bit_offset))
          end
      end
  end.

End Member.

(** Example data: [struct { int a:3; int b:5; }] as a DWARF 3 producer
    describes it with a storage unit of one byte. *)
Module MemberExample.

Definition int_type : Member.drgn_type :=
  {| Member.drgn_type_has_size := true; Member.drgn_type_sizeof := Ok 4 |}.

Definition member_die (bit_offset bit_size : Z) : Dwarf_Die :=
  {| die_addr := 0x40; die_tag := 0x0d;
     die_attr := fun name =>
       if name =? DW_AT_data_member_location
       then Some (attr_of_block DW_FORM_block1 3 (Buf.bytes_of [0x23; 0]))
       else if name =? DW_AT_byte_size
       then Some (attr_of_udata DW_FORM_data1 3 1)
       else if name =? DW_AT_bit_offset
       then Some (attr_of_udata DW_FORM_data1 3 bit_offset)
       else if name =? DW_AT_bit_size
       then Some (attr_of_udata DW_FORM_data1 3 bit_size)
       else None;
     die_cu := {| cu_die_addr := 11; cu_attr := fun _ => None;
                  cu_version := 3; cu_address_size := 8;
                  cu_offset_size := 4 |} |}.

Definition member_object (bit_size : Z) : Member.drgn_lazy_object :=
  {| Member.drgn_lazy_object_evaluate :=
       Ok {| Member.obj_type := int_type; Member.obj_bit_size := bit_size |} |}.

Definition die_a := member_die 5 3.
Definition die_b := member_die 0 5.

End MemberExample.

(** ** DWARF expressions *)

Definition DW_OP_addr := 0x03.
Definition DW_OP_deref := 0x06.
Definition DW_OP_const1u := 0x08.
Definition DW_OP_const1s := 0x09.
Definition DW_OP_const2u := 0x0a.
Definition DW_OP_const2s := 0x0b.
Definition DW_OP_const4u := 0x0c.
Definition DW_OP_const4s := 0x0d.
Definition DW_OP_const8u := 0x0e.
Definition DW_OP_const8s := 0x0f.
Definition DW_OP_constu := 0x10.
Definition DW_OP_consts := 0x11.
Definition DW_OP_dup := 0x12.
Definition DW_OP_drop := 0x13.
Definition DW_OP_over := 0x14.
Definition DW_OP_pick := 0x15.
Definition DW_OP_swap := 0x16.
Definition DW_OP_rot := 0x17.
Definition DW_OP_abs := 0x19.
Definition DW_OP_and := 0x1a.
Definition DW_OP_div := 0x1b.
Definition DW_OP_minus := 0x1c.
Definition DW_OP_mod := 0x1d.
Definition DW_OP_mul := 0x1e.
Definition DW_OP_neg := 0x1f.
Definition DW_OP_not := 0x20.
Definition DW_OP_or := 0x21.
Definition DW_OP_plus := 0x22.
Definition DW_OP_shl := 0x24.
Definition DW_OP_shr := 0x25.
Definition DW_OP_shra := 0x26.
Definition DW_OP_xor := 0x27.
Definition DW_OP_bra := 0x28.
Definition DW_OP_eq := 0x29.
Definition DW_OP_ge := 0x2a.
Definition DW_OP_gt := 0x2b.
Definition DW_OP_le := 0x2c.
Definition DW_OP_lt := 0x2d.
Definition DW_OP_ne := 0x2e.
Definition DW_OP_skip := 0x2f.
Definition DW_OP_lit0 := 0x30.
Definition DW_OP_lit31 := 0x4f.
Definition DW_OP_reg0 := 0x50.
Definition DW_OP_reg31 := 0x6f.
Definition DW_OP_breg0 := 0x70.
Definition DW_OP_breg31 := 0x8f.
Definition DW_OP_regx := 0x90.
Definition DW_OP_fbreg := 0x91.
Definition DW_OP_bregx := 0x92.
Definition DW_OP_piece := 0x93.
Definition DW_OP_deref_size := 0x94.
Definition DW_OP_nop := 0x96.
Definition DW_OP_call_frame_cfa := 0x9c.
Definition DW_OP_bit_piece := 0x9d.
Definition DW_OP_implicit_value := 0x9e.
Definition DW_OP_stack_value := 0x9f.
Definition DW_OP_addrx := 0xa1.
Definition DW_OP_constx := 0xa2.

Module Expr.
Import Buf Loc.

(** Arbitrary limit for number of operations to execute in a DWARF
    expression to avoid infinite loops. *)
Definition MAX_DWARF_EXPR_OPS : Z := 10000.

(** The part of a register state that expressions read. *)
Record drgn_register_state := {
  drgn_register_state_has_register : Z -> bool;
  regs_buf : list byte;
  drgn_register_state_get_pc : option Z;
  drgn_register_state_get_cfa : option Z;
  regs_interrupted : bool
}.

(** The program, as far as expressions need it: reading target memory. *)
Record drgn_program := {
  drgn_program_read_memory : Z -> Z -> bool -> result (list byte)
}.

(** A DWARF expression and the context it is being evaluated in.  The
    buffer is over the bytes of the expression, so [ctx_start] is 0;
    [ctx_cu_die = None] stands for [cu_die.addr == NULL]. *)
Record drgn_dwarf_expression_context := {
  ctx_bb : binary_buffer;
  ctx_start : Z;
  ctx_prog : drgn_program;
  ctx_module : drgn_debug_info_module;
  ctx_address_size : Z;
  ctx_cu_die : option Dwarf_Die;
  ctx_cu_addr_base : option Z;
  ctx_function : option Dwarf_Die;
  ctx_regs : option drgn_register_state
}.

Definition with_bb (ctx : drgn_dwarf_expression_context) (bb : binary_buffer)
    : drgn_dwarf_expression_context :=
  {| ctx_bb := bb; ctx_start := ctx_start ctx; ctx_prog := ctx_prog ctx;
     ctx_module := ctx_module ctx; ctx_address_size := ctx_address_size ctx;
     ctx_cu_die := ctx_cu_die ctx; ctx_cu_addr_base := ctx_cu_addr_base ctx;
     ctx_function := ctx_function ctx; ctx_regs := ctx_regs ctx |}.

Definition with_bb_addr_base (ctx : drgn_dwarf_expression_context)
    (bb : binary_buffer) (addr_base : option Z)
    : drgn_dwarf_expression_context :=
  {| ctx_bb := bb; ctx_start := ctx_start ctx; ctx_prog := ctx_prog ctx;
     ctx_module := ctx_module ctx; ctx_address_size := ctx_address_size ctx;
     ctx_cu_die := ctx_cu_die ctx; ctx_cu_addr_base := addr_base;
     ctx_function := ctx_function ctx; ctx_regs := ctx_regs ctx |}.

(** [drgn_check_address_size] *)
Definition drgn_check_address_size (address_size : Z) : result unit :=
  if (address_size <? 1) || (address_size >? 8)
  then Err (drgn_error_create DRGN_ERROR_OTHER "unsupported address size %PRIu8")
  else Ok tt.

(** [drgn_dwarf_expression_context_init] *)
Definition drgn_dwarf_expression_context_init (prog : drgn_program)
    (module : drgn_debug_info_module) (cu : option Dwarf_CU)
    (function : option Dwarf_Die) (regs : option drgn_register_state)
    (expr : list byte) : result drgn_dwarf_expression_context :=
  let bb := binary_buffer_init expr
              (platform_is_little_endian (platform module)) in
  let mk cu_die address_size :=
    {| ctx_bb := bb; ctx_start := 0; ctx_prog := prog; ctx_module := module;
       ctx_address_size := address_size; ctx_cu_die := cu_die;
       ctx_cu_addr_base := None; ctx_function := function;
       ctx_regs := regs |} in
  match cu with
  | Some cu =>
      do _ <- drgn_check_address_size (cu_address_size cu);
      Ok (mk (Some (dwarf_cu_die cu)) (cu_address_size cu))
  | None => Ok (mk None (platform_address_size (platform module)))
  end.

(** Modelled from the spec: [truncate_signed(x, bits)] of the utility
    header: the low [bits] bits of [x] read as a signed number (section 4.4,
    "signed division", "relational ops compared as signed"). *)
Definition truncate_signed (x bits : Z) : Z :=
  sign_extend bits (x mod 2 ^ bits).

(** Modelled from the spec: [copy_lsbytes] into a [uint64_t]: the least
    significant bytes of the [size]-byte integer at [offset] of [src]
    (section 4.4, "copy LSBs respecting byte order"). *)
Definition copy_lsbytes_u64 (src : list byte) (offset size : Z)
    (little_endian : bool) : Z :=
  u64 (load_uint src offset size little_endian).

(** The variables that [drgn_eval_dwarf_expression] updates.  The top of
    the stack is the head of [es_stack], so [ELEM(i)] is its [i]-th
    element. *)
Record eval_state := {
  es_ctx : drgn_dwarf_expression_context;
  es_stack : list Z;
  es_remaining_ops : Z
}.

(** How one iteration ends: [break], or [return] with an error or [NULL]. *)
Inductive op_outcome :=
| OpContinue (s : eval_state)
| OpReturn (err : option drgn_error) (s : eval_state).

Definition stack_underflow : drgn_error :=
  binary_buffer_error "DWARF expression stack underflow" None.

Section Operation.

(** [drgn_dwarf_frame_base] for the context's function with the given
    operation budget: the frame base or an error, and the budget that is
    left. *)
Variable frame_base :
  drgn_dwarf_expression_context -> Z -> option (result Z * Z).

(** The body of the loop of [drgn_eval_dwarf_expression] after the budget
    check: decode one opcode and execute it.  [None] only when a nested
    evaluation ran out of fuel. *)
Definition eval_op (s : eval_state) : option op_outcome :=
  let ctx := es_ctx s in
  let stack := es_stack s in
  let ops := es_remaining_ops s in
  let platform := platform (ctx_module ctx) in
  let little_endian := platform_is_little_endian platform in
  let address_size := ctx_address_size ctx in
  let address_bits := address_size * 8 in
  let address_mask := uint_max address_size in
  let fail (e : drgn_error) := Some (OpReturn (Some e) s) in
  let continue bb stack :=
    Some (OpContinue {| es_ctx := with_bb ctx bb; es_stack := stack;
                        es_remaining_ops := ops |}) in
  let PUSH bb x := continue bb (x :: stack) in
  let PUSH_MASK bb x := continue bb (Z.land x address_mask :: stack) in
  let read {A} (r : result A) (k : A -> option op_outcome) :=
    match r with
    | Err e => fail e
    | Ok a => k a
    end in
  let UNOP_MASK bb (op : Z -> Z) :=
    match stack with
    | e0 :: rest => continue bb (Z.land (op e0) address_mask :: rest)
    | _ => fail stack_underflow
    end in
  let BINOP bb (op : Z -> Z -> Z) :=
    match stack with
    | e0 :: e1 :: rest => continue bb (op e1 e0 :: rest)
    | _ => fail stack_underflow
    end in
  let BINOP_MASK bb (op : Z -> Z -> Z) :=
    match stack with
    | e0 :: e1 :: rest => continue bb (Z.land (op e1 e0) address_mask :: rest)
    | _ => fail stack_underflow
    end in
  let RELOP bb (op : Z -> Z -> bool) :=
    match stack with
    | e0 :: e1 :: rest =>
        continue bb (Z.b2z (op (truncate_signed e1 address_bits)
                               (truncate_signed e0 address_bits)) :: rest)
    | _ => fail stack_underflow
    end in
  let stop_before_opcode bb :=
    (* The caller must handle it: [ctx->bb.pos = ctx->bb.prev]. *)
    Some (OpReturn None
            {| es_ctx := with_bb ctx (set_pos bb (bb_prev bb));
               es_stack := stack; es_remaining_ops := ops |}) in
  let breg bb dwarf_regno :=
    match ctx_regs ctx with
    | None => fail drgn_not_found
    | Some regs =>
        let regno := dwarf_regno_to_internal platform dwarf_regno in
        if negb (drgn_register_state_has_register regs regno)
        then fail drgn_not_found
        else
          let '(offset, size) := register_layout platform regno in
          let uvalue := copy_lsbytes_u64 (regs_buf regs) offset size
                          little_endian in
          read (binary_buffer_next_sleb128 bb) (fun '(svalue, bb) =>
          PUSH_MASK bb (u64 (uvalue + svalue)))
    end in
  let deref bb deref_size :=
    match stack with
    | e0 :: rest =>
        read (drgn_program_read_memory (ctx_prog ctx) e0 deref_size false)
          (fun deref_buf =>
        continue bb (copy_lsbytes_u64 deref_buf 0 deref_size little_endian
                     :: rest))
    | _ => fail stack_underflow
    end in
  let branch bb stack :=
    read (binary_buffer_next_s16 bb) (fun '(skip, bb) =>
    if ((skip >=? 0) && (skip >? bb_end bb - bb_pos bb)) ||
       ((skip <? 0) && (- skip >? bb_pos bb - ctx_start ctx))
    then fail (binary_buffer_error
                 "DWARF expression branch is out of bounds" None)
    else continue (set_pos bb (bb_pos bb + skip)) stack) in
  read (binary_buffer_next_u8 (ctx_bb ctx)) (fun '(opcode, bb) =>
  (* Literal encodings. *)
  if (DW_OP_lit0 <=? opcode) && (opcode <=? DW_OP_lit31) then
    PUSH bb (opcode - DW_OP_lit0)
  else if opcode =? DW_OP_addr then
    read (binary_buffer_next_uint bb address_size) (fun '(uvalue, bb) =>
    PUSH bb uvalue)
  else if opcode =? DW_OP_const1u then
    read (binary_buffer_next_u8_into_u64 bb) (fun '(uvalue, bb) =>
    PUSH bb uvalue)
  else if opcode =? DW_OP_const2u then
    read (binary_buffer_next_u16_into_u64 bb) (fun '(uvalue, bb) =>
    PUSH_MASK bb uvalue)
  else if opcode =? DW_OP_const4u then
    read (binary_buffer_next_u32_into_u64 bb) (fun '(uvalue, bb) =>
    PUSH_MASK bb uvalue)
  else if opcode =? DW_OP_const8u then
    read (binary_buffer_next_u64 bb) (fun '(uvalue, bb) =>
    PUSH_MASK bb uvalue)
  else if opcode =? DW_OP_const1s then
    read (binary_buffer_next_s8_into_u64 bb) (fun '(uvalue, bb) =>
    PUSH_MASK bb uvalue)
  else if opcode =? DW_OP_const2s then
    read (binary_buffer_next_s16_into_u64 bb) (fun '(uvalue, bb) =>
    PUSH_MASK bb uvalue)
  else if opcode =? DW_OP_const4s then
    read (binary_buffer_next_s32_into_u64 bb) (fun '(uvalue, bb) =>
    PUSH_MASK bb uvalue)
  else if opcode =? DW_OP_const8s then
    read (binary_buffer_next_s64_into_u64 bb) (fun '(uvalue, bb) =>
    PUSH_MASK bb uvalue)
  else if opcode =? DW_OP_constu then
    read (binary_buffer_next_uleb128 bb) (fun '(uvalue, bb) =>
    PUSH_MASK bb uvalue)
  else if opcode =? DW_OP_consts then
    read (binary_buffer_next_sleb128_into_u64 bb) (fun '(uvalue, bb) =>
    PUSH_MASK bb uvalue)
  else if (opcode =? DW_OP_addrx) || (opcode =? DW_OP_constx) then
    match ctx_cu_die ctx with
    | None => stop_before_opcode bb
    | Some cu_die =>
        read (drgn_dwarf_next_addrx bb (ctx_module ctx) cu_die address_size
                (ctx_cu_addr_base ctx)) (fun '(uvalue, bb, addr_base) =>
        Some (OpContinue
                {| es_ctx := with_bb_addr_base ctx bb addr_base;
                   es_stack := uvalue :: stack; es_remaining_ops := ops |}))
    end
  (* Register values. *)
  else if opcode =? DW_OP_fbreg then
    match frame_base ctx ops with
    | None => None
    | Some (Err e, ops) =>
        Some (OpReturn (Some e)
                {| es_ctx := with_bb ctx bb; es_stack := stack;
                   es_remaining_ops := ops |})
    | Some (Ok uvalue, ops) =>
        match binary_buffer_next_sleb128 bb with
        | Err e =>
            Some (OpReturn (Some e)
                    {| es_ctx := with_bb ctx bb; es_stack := stack;
                       es_remaining_ops := ops |})
        | Ok (svalue, bb) =>
            Some (OpContinue
                    {| es_ctx := with_bb ctx bb;
                       es_stack :=
                         Z.land (u64 (uvalue + svalue)) address_mask :: stack;
                       es_remaining_ops := ops |})
        end
    end
  else if (DW_OP_breg0 <=? opcode) && (opcode <=? DW_OP_breg31) then
    breg bb (opcode - DW_OP_breg0)
  else if opcode =? DW_OP_bregx then
    read (binary_buffer_next_uleb128 bb) (fun '(dwarf_regno, bb) =>
    breg bb dwarf_regno)
  (* Stack operations. *)
  else if opcode =? DW_OP_dup then
    match stack with
    | e0 :: _ => PUSH bb e0
    | _ => fail stack_underflow
    end
  else if opcode =? DW_OP_drop then
    match stack with
    | _ :: rest => continue bb rest
    | _ => fail stack_underflow
    end
  else if opcode =? DW_OP_pick then
    read (binary_buffer_next_u8 bb) (fun '(index, bb) =>
    if Z.of_nat (List.length stack) <? index + 1 then fail stack_underflow
    else PUSH bb (nth (Z.to_nat index) stack 0))
  else if opcode =? DW_OP_over then
    match stack with
    | _ :: e1 :: _ => PUSH bb e1
    | _ => fail stack_underflow
    end
  else if opcode =? DW_OP_swap then
    match stack with
    | e0 :: e1 :: rest => continue bb (e1 :: e0 :: rest)
    | _ => fail stack_underflow
    end
  else if opcode =? DW_OP_rot then
    match stack with
    | e0 :: e1 :: e2 :: rest => continue bb (e1 :: e2 :: e0 :: rest)
    | _ => fail stack_underflow
    end
  else if opcode =? DW_OP_deref then deref bb address_size
  else if opcode =? DW_OP_deref_size then
    read (binary_buffer_next_u8 bb) (fun '(deref_size, bb) =>
    if deref_size >? address_size
    then fail (binary_buffer_error "DW_OP_deref_size has invalid size" None)
    else deref bb deref_size)
  else if opcode =? DW_OP_call_frame_cfa then
    match ctx_regs ctx with
    | None => fail drgn_not_found
    | Some regs =>
        match drgn_register_state_get_cfa regs with
        | None => fail drgn_not_found
        | Some cfa => PUSH bb cfa
        end
    end
  (* Arithmetic and logical operations. *)
  else if opcode =? DW_OP_abs then
    match stack with
    | e0 :: rest =>
        if negb (Z.land e0 (Z.shiftl 1 (address_bits - 1)) =? 0)
        then continue bb (Z.land (u64 (- e0)) address_mask :: rest)
        else continue bb stack
    | _ => fail stack_underflow
    end
  else if opcode =? DW_OP_and then BINOP bb Z.land
  else if opcode =? DW_OP_div then
    match stack with
    | e0 :: e1 :: rest =>
        if e0 =? 0
        then fail (binary_buffer_error
                     "division by zero in DWARF expression" None)
        else continue bb
               (Z.land (u64 (Z.quot (truncate_signed e1 address_bits)
                                    (truncate_signed e0 address_bits)))
                       address_mask :: rest)
    | _ => fail stack_underflow
    end
  else if opcode =? DW_OP_minus then BINOP_MASK bb (fun a b => u64 (a - b))
  else if opcode =? DW_OP_mod then
    match stack with
    | e0 :: e1 :: rest =>
        if e0 =? 0
        then fail (binary_buffer_error
                     "modulo by zero in DWARF expression" None)
        else continue bb (Z.modulo e1 e0 :: rest)
    | _ => fail stack_underflow
    end
  else if opcode =? DW_OP_mul then BINOP_MASK bb (fun a b => u64 (a * b))
  else if opcode =? DW_OP_neg then UNOP_MASK bb (fun a => u64 (- a))
  else if opcode =? DW_OP_not then UNOP_MASK bb (fun a => u64 (Z.lnot a))
  else if opcode =? DW_OP_or then BINOP bb Z.lor
  else if opcode =? DW_OP_plus then BINOP_MASK bb (fun a b => u64 (a + b))
  else if opcode =? DW_OP_plus_uconst then
    match stack with
    | e0 :: rest =>
        read (binary_buffer_next_uleb128 bb) (fun '(uvalue, bb) =>
        continue bb (Z.land (u64 (e0 + uvalue)) address_mask :: rest))
    | _ => fail stack_underflow
    end
  else if opcode =? DW_OP_shl then
    match stack with
    | e0 :: e1 :: rest =>
        if e0 <? address_bits
        then continue bb (Z.land (u64 (Z.shiftl e1 e0)) address_mask :: rest)
        else continue bb (0 :: rest)
    | _ => fail stack_underflow
    end
  else if opcode =? DW_OP_shr then
    match stack with
    | e0 :: e1 :: rest =>
        if e0 <? address_bits
        then continue bb (Z.shiftr e1 e0 :: rest)
        else continue bb (0 :: rest)
    | _ => fail stack_underflow
    end
  else if opcode =? DW_OP_shra then
    match stack with
    | e0 :: e1 :: rest =>
        if e0 <? address_bits
        then continue bb
               (Z.land (u64 (Z.shiftr (truncate_signed e1 address_bits) e0))
                       address_mask :: rest)
        else if negb (Z.land e1 (Z.shiftl 1 (address_bits - 1)) =? 0)
        then continue bb (Z.land (u64 (-1)) address_mask :: rest)
        else continue bb (0 :: rest)
    | _ => fail stack_underflow
    end
  else if opcode =? DW_OP_xor then BINOP bb Z.lxor
  (* Control flow operations. *)
  else if opcode =? DW_OP_le then RELOP bb Z.leb
  else if opcode =? DW_OP_ge then RELOP bb Z.geb
  else if opcode =? DW_OP_eq then RELOP bb Z.eqb
  else if opcode =? DW_OP_lt then RELOP bb Z.ltb
  else if opcode =? DW_OP_gt then RELOP bb Z.gtb
  else if opcode =? DW_OP_ne then RELOP bb (fun a b => negb (a =? b))
  else if opcode =? DW_OP_skip then branch bb stack
  else if opcode =? DW_OP_bra then
    match stack with
    | e0 :: rest =>
        if negb (e0 =? 0) then branch bb rest
        else read (binary_buffer_skip bb 2) (fun bb => continue bb rest)
    | _ => fail stack_underflow
    end
  (* Special operations. *)
  else if opcode =? DW_OP_nop then continue bb stack
  (* Location description operations. *)
  else if ((DW_OP_reg0 <=? opcode) && (opcode <=? DW_OP_reg31)) ||
          (opcode =? DW_OP_regx) || (opcode =? DW_OP_implicit_value) ||
          (opcode =? DW_OP_stack_value) || (opcode =? DW_OP_piece) ||
          (opcode =? DW_OP_bit_piece)
  then stop_before_opcode bb
  else fail (binary_buffer_error "unknown DWARF expression opcode %#x"
               (Some opcode))).

(** The loop of [drgn_eval_dwarf_expression]: the budget check, the
    decrement, one operation.  [None] means that [fuel] ran out. *)
Fixpoint eval_loop (fuel : nat) (s : eval_state)
    : option (option drgn_error * eval_state) :=
  if binary_buffer_has_next (ctx_bb (es_ctx s)) then
    if es_remaining_ops s <=? 0
    then Some (Some (binary_buffer_error
                       "DWARF expression executed too many operations" None),
               s)
    else
      match fuel with
      | O => None
      | S fuel' =>
          match eval_op {| es_ctx := es_ctx s; es_stack := es_stack s;
                           es_remaining_ops := es_remaining_ops s - 1 |} with
          | None => None
          | Some (OpContinue s') => eval_loop fuel' s'
          | Some (OpReturn err s') => Some (err, s')
          end
      end
  else Some (None, s).

End Operation.

End Expr.

(** ** Locations and the frame base *)

Module FrameBase.
Import Buf Loc Expr.

(** [drgn_dwarf_read_loclistx]: the offset of the [index]-th location list
    of a CU, through its DW_AT_loclists_base. *)
Definition drgn_dwarf_read_loclistx (module : drgn_debug_info_module)
    (cu_die : Dwarf_Die) (offset_size index : Z) : result Z :=
  match dwarf_attr cu_die DW_AT_loclists_base with
  | None => Err (drgn_error_create DRGN_ERROR_OTHER
                   "DW_FORM_loclistx without DW_AT_loclists_base")
  | Some attr =>
      match dwarf_formudata attr with
      | None => Err drgn_error_libdw
      | Some base =>
          match scn_data module DRGN_SCN_DEBUG_LOCLISTS with
          | None => Err (drgn_error_create DRGN_ERROR_OTHER
                           "DW_FORM_loclistx without .debug_loclists section")
          | Some data =>
              let d_size := Z.of_nat (List.length data) in
              if base >? d_size
              then Err (drgn_error_create DRGN_ERROR_OTHER
                          "DW_AT_loclists_base is out of bounds")
              else if index >=? (d_size - base) / offset_size
              then Err (drgn_error_create DRGN_ERROR_OTHER
                          "DW_FORM_loclistx is out of bounds")
              else
                let offset :=
                  load_uint data (base + index * offset_size) offset_size
                    (platform_is_little_endian (platform module)) in
                Ok (u64 (base + offset))
          end
      end
  end.

(** The bytes of the expression that a location list walker selected in
    section [scn]; [NULL] is the empty expression. *)
Definition expression_bytes (module : drgn_debug_info_module)
    (scn : drgn_debug_info_scn) (expr : option Z) (expr_size : Z)
    : list byte :=
  match expr, scn_data module scn with
  | Some pos, Some data =>
      firstn (Z.to_nat expr_size) (skipn (Z.to_nat pos) data)
  | _, _ => []
  end.

(** [drgn_dwarf_location]: the expression of a location attribute of a DIE
    of [cu] for the PC of [regs].  [None] only when a location list walk ran
    out of fuel. *)
Definition drgn_dwarf_location (module : drgn_debug_info_module)
    (cu : Dwarf_CU) (attr : Dwarf_Attribute)
    (regs : option drgn_register_state) : option (result (list byte)) :=
  let form := attr_form attr in
  if (form =? DW_FORM_data4) || (form =? DW_FORM_data8) ||
     (form =? DW_FORM_sec_offset) || (form =? DW_FORM_loclistx)
  then
    let cu_die := dwarf_cu_die cu in
    let address_size := cu_address_size cu in
    match drgn_check_address_size address_size with
    | Err e => Some (Err e)
    | Ok _ =>
        match dwarf_formudata attr with
        | None => Some (Err drgn_error_libdw)
        | Some offset =>
            match (if form =? DW_FORM_loclistx
                   then drgn_dwarf_read_loclistx module cu_die
                          (cu_offset_size cu) offset
                   else Ok offset) with
            | Err e => Some (Err e)
            | Ok offset =>
                match regs with
                | None => Some (Ok [])
                | Some regs =>
                    match drgn_register_state_get_pc regs with
                    | None => Some (Ok [])
                    | Some pc =>
                        let pc :=
                          u64 (pc - Z.b2z (negb (regs_interrupted regs))
                               - module_bias module) in
                        if cu_version cu >=? 5 then
                          match drgn_dwarf5_location_list module cu_die
                                  address_size pc offset with
                          | None => None
                          | Some (Err e) => Some (Err e)
                          | Some (Ok (expr, expr_size)) =>
                              Some (Ok (expression_bytes module
                                          DRGN_SCN_DEBUG_LOCLISTS
                                          expr expr_size))
                          end
                        else
                          match drgn_dwarf4_location_list module cu_die
                                  address_size pc offset with
                          | None => None
                          | Some (Err e) => Some (Err e)
                          | Some (Ok (expr, expr_size)) =>
                              Some (Ok (expression_bytes module
                                          DRGN_SCN_DEBUG_LOC expr expr_size))
                          end
                    end
                end
            end
        end
    end
  else
    match dwarf_formblock attr with
    | None => Some (Err drgn_error_libdw)
    | Some block => Some (Ok block)
    end.

(** [drgn_dwarf_frame_base]: the frame base of the function [die], spending
    from the budget [remaining_ops]; returns the budget that is left.
    [eval] is [drgn_eval_dwarf_expression] for the nested evaluation. *)
Definition drgn_dwarf_frame_base
    (eval : option (eval_state -> option (option drgn_error * eval_state)))
    (prog : drgn_program) (module : drgn_debug_info_module)
    (die : option Dwarf_Die) (regs : option drgn_register_state)
    (remaining_ops : Z) : option (result Z * Z) :=
  let platform := platform module in
  let little_endian := platform_is_little_endian platform in
  match die with
  | None => Some (Err drgn_not_found, remaining_ops)
  | Some die =>
  match dwarf_attr_integrate die DW_AT_frame_base with
  | None => Some (Err drgn_not_found, remaining_ops)
  | Some attr =>
  match drgn_dwarf_location module (die_cu die) attr regs with
  | None => None
  | Some (Err e) => Some (Err e, remaining_ops)
  | Some (Ok expr) =>
  match drgn_dwarf_expression_context_init prog module (Some (die_cu die))
          None regs expr with
  | Err e => Some (Err e, remaining_ops)
  | Ok ctx =>
  match eval with
  | None => None
  | Some eval =>
  match eval {| es_ctx := ctx; es_stack := [];
                es_remaining_ops := remaining_ops |} with
  | None => None
  | Some (Some e, s) => Some (Err e, es_remaining_ops s)
  | Some (None, s) =>
      let remaining_ops := es_remaining_ops s in
      let bb := ctx_bb (es_ctx s) in
      if binary_buffer_has_next bb then
        match binary_buffer_next_u8 bb with
        | Err e => Some (Err e, remaining_ops)
        | Ok (opcode, bb) =>
            let reg bb dwarf_regno :=
              match regs with
              | None => Some (Err drgn_not_found, remaining_ops)
              | Some regs =>
                  let regno := dwarf_regno_to_internal platform dwarf_regno in
                  if negb (drgn_register_state_has_register regs regno)
                  then Some (Err drgn_not_found, remaining_ops)
                  else
                    let '(offset, size) := register_layout platform regno in
                    (* Note that this doesn't mask the address since the
                       caller does that. *)
                    let ret := copy_lsbytes_u64 (regs_buf regs) offset size
                                 little_endian in
                    if binary_buffer_has_next bb
                    then Some (Err (binary_buffer_error
                           "stray operations in DW_AT_frame_base expression"
                           None), remaining_ops)
                    else Some (Ok ret, remaining_ops)
              end in
            if (DW_OP_reg0 <=? opcode) && (opcode <=? DW_OP_reg31)
            then reg bb (opcode - DW_OP_reg0)
            else if opcode =? DW_OP_regx then
              match binary_buffer_next_uleb128 bb with
              | Err e => Some (Err e, remaining_ops)
              | Ok (dwarf_regno, bb) => reg bb dwarf_regno
              end
            else Some (Err (binary_buffer_error
                        "invalid opcode %#x for DW_AT_frame_base expression"
                        (Some opcode)), remaining_ops)
        end
      else
        match es_stack s with
        | top :: _ => Some (Ok top, remaining_ops)
        | [] => Some (Err drgn_not_found, remaining_ops)
        end
  end end end end end end.

(** [drgn_eval_dwarf_expression] at a nesting depth: the frame base of the
    context's function is computed by an evaluation one level down.  A
    frame-base context has no function, so one level is all there is. *)
Fixpoint eval_at (depth : nat) (s : eval_state)
    : option (option drgn_error * eval_state) :=
  eval_loop
    (fun ctx remaining_ops =>
       drgn_dwarf_frame_base
         (match depth with
          | O => None
          | S depth' => Some (eval_at depth')
          end)
         (ctx_prog ctx) (ctx_module ctx) (ctx_function ctx) (ctx_regs ctx)
         remaining_ops)
    (S (Z.to_nat (es_remaining_ops s))) s.

(** [drgn_eval_dwarf_expression]: evaluate up to the next location
    description operation or operation that can't be evaluated in the given
    context.  The state returned holds the updated context, stack and
    [*remaining_ops]. *)
Definition drgn_eval_dwarf_expression (ctx : drgn_dwarf_expression_context)
    (stack : list Z) (remaining_ops : Z)
    : option (option drgn_error * eval_state) :=
  eval_at 1 {| es_ctx := ctx; es_stack := stack;
               es_remaining_ops := remaining_ops |}.

(** Modelled from the spec: [copy_lsbytes] from a [uint64_t] into a buffer
    of [size] bytes in the target's byte order (section 4.9, "written
    directly (LSB-first, adjusted for target endianness)"). *)
Fixpoint le_bytes_of (n : nat) (v : Z) : list byte :=
  match n with
  | O => []
  | S n' =>
      match Byte.of_N (Z.to_N (v mod 256)) with
      | Some b => b
      | None => x00
      end :: le_bytes_of n' (v / 256)
  end.

Definition store_uint (size : Z) (little_endian : bool) (v : Z) : list byte :=
  let l := le_bytes_of (Z.to_nat size) v in
  if little_endian then l else rev l.

(** [drgn_eval_cfi_dwarf_expression]: evaluate the expression [expr] of a
    CFI rule into [size] bytes. *)
Definition drgn_eval_cfi_dwarf_expression (prog : drgn_program)
    (module : drgn_debug_info_module) (rule : drgn_cfi_rule)
    (expr : list byte) (regs : drgn_register_state) (size : Z)
    : option (result (list byte)) :=
  let push_cfa :=
    match rule with
    | RULE_AT_DWARF_EXPRESSION _ _ push_cfa => push_cfa
    | RULE_DWARF_EXPRESSION _ _ push_cfa => push_cfa
    | _ => false
    end in
  match (if push_cfa then
           match drgn_register_state_get_cfa regs with
           | None => Err drgn_not_found
           | Some cfa => Ok [cfa]
           end
         else Ok []) with
  | Err e => Some (Err e)
  | Ok stack =>
      let remaining_ops := MAX_DWARF_EXPR_OPS in
      match drgn_dwarf_expression_context_init prog module None None
              (Some regs) expr with
      | Err e => Some (Err e)
      | Ok ctx =>
          match drgn_eval_dwarf_expression ctx stack remaining_ops with
          | None => None
          | Some (Some e, _) => Some (Err e)
          | Some (None, s) =>
              let bb := ctx_bb (es_ctx s) in
              if binary_buffer_has_next bb then
                match binary_buffer_next_u8 bb with
                | Err e => Some (Err e)
                | Ok (opcode, _) =>
                    Some (Err (binary_buffer_error
                                 "invalid opcode %#x for CFI expression"
                                 (Some opcode)))
                end
              else
                match es_stack s with
                | [] => Some (Err drgn_not_found)
                | top :: _ =>
                    match rule with
                    | RULE_AT_DWARF_EXPRESSION _ _ _ =>
                        Some (drgn_program_read_memory prog top size false)
                    | _ =>
                        Some (Ok (store_uint size
                                    (platform_is_little_endian
                                       (platform module)) top))
                    end
                end
          end
      end
  end.

End FrameBase.

(** Example data for expressions: a program without readable memory, a
    module of a 32-bit and one of a 64-bit little-endian platform, and a
    context for an expression given by its bytes. *)
Module ExprExample.
Import Buf Expr.

Definition prog : drgn_program :=
  {| drgn_program_read_memory := fun _ _ _ =>
       Err (drgn_error_create DRGN_ERROR_OTHER "could not read memory") |}.

Definition platform32 : drgn_platform :=
  {| platform_is_little_endian := true;
     platform_address_size := 4;
     dwarf_regno_to_internal :=
       fun r => if r <=? 8 then r else CfiExample.regno_unknown;
     DRGN_REGISTER_NUMBER_UNKNOWN := CfiExample.regno_unknown;
     register_layout := fun r => (4 * r, 4);
     default_dwarf_cfi_row := drgn_empty_cfi_row |}.

Definition module_of (p : drgn_platform) : drgn_debug_info_module :=
  {| platform := p; scn_data := fun _ => None;
     pcrel_base := 0; textrel_base := 0; datarel_base := 0;
     dwarf_cies := []; module_bias := 0 |}.

Definition module32 := module_of platform32.
Definition module64 := module_of CfiExample.example_platform.

Definition context (module : drgn_debug_info_module) (expr : list Z)
    : drgn_dwarf_expression_context :=
  {| ctx_bb := binary_buffer_init (bytes_of expr)
                 (platform_is_little_endian (platform module));
     ctx_start := 0; ctx_prog := prog; ctx_module := module;
     ctx_address_size := platform_address_size (platform module);
     ctx_cu_die := None; ctx_cu_addr_base := None; ctx_function := None;
     ctx_regs := None |}.

(** [DW_OP_lit1; DW_OP_const1u 63; DW_OP_shl] *)
Definition shift_expr : list Z := [0x31; 0x08; 63; 0x24].

(** [DW_OP_const1s -7; DW_OP_lit3; DW_OP_mod] and the same with
    [DW_OP_div]. *)
Definition mod_expr : list Z := [0x09; 0xf9; 0x33; 0x1d].
Definition div_expr : list Z := [0x09; 0xf9; 0x33; 0x1b].

(** [DW_OP_skip -3]: a jump to itself. *)
Definition loop_expr : list Z := [0x2f; 0xfd; 0xff].

(** The outcome of an evaluation as seen by a caller: the error, the stack
    and the budget that is left. *)
Definition summary (r : option (option drgn_error * eval_state))
    : option (option drgn_error * list Z * Z) :=
  match r with
  | None => None
  | Some (err, s) => Some (err, es_stack s, es_remaining_ops s)
  end.

End ExprExample.

(** Vocabulary for statements about unknown constructs. *)
Module Known.

(** The opcodes that have a case in the switch of
    [drgn_eval_dwarf_expression]. *)
Definition known_expr_opcode (opcode : Z) : bool :=
  ((DW_OP_lit0 <=? opcode) && (opcode <=? DW_OP_lit31)) ||
  (opcode =? DW_OP_addr) || (opcode =? DW_OP_const1u) ||
  (opcode =? DW_OP_const2u) || (opcode =? DW_OP_const4u) ||
  (opcode =? DW_OP_const8u) || (opcode =? DW_OP_const1s) ||
  (opcode =? DW_OP_const2s) || (opcode =? DW_OP_const4s) ||
  (opcode =? DW_OP_const8s) || (opcode =? DW_OP_constu) ||
  (opcode =? DW_OP_consts) ||
  ((opcode =? DW_OP_addrx) || (opcode =? DW_OP_constx)) ||
  (opcode =? DW_OP_fbreg) ||
  ((DW_OP_breg0 <=? opcode) && (opcode <=? DW_OP_breg31)) ||
  (opcode =? DW_OP_bregx) || (opcode =? DW_OP_dup) ||
  (opcode =? DW_OP_drop) || (opcode =? DW_OP_pick) ||
  (opcode =? DW_OP_over) || (opcode =? DW_OP_swap) ||
  (opcode =? DW_OP_rot) || (opcode =? DW_OP_deref) ||
  (opcode =? DW_OP_deref_size) || (opcode =? DW_OP_call_frame_cfa) ||
  (opcode =? DW_OP_abs) || (opcode =? DW_OP_and) || (opcode =? DW_OP_div) ||
  (opcode =? DW_OP_minus) || (opcode =? DW_OP_mod) ||
  (opcode =? DW_OP_mul) || (opcode =? DW_OP_neg) || (opcode =? DW_OP_not) ||
  (opcode =? DW_OP_or) || (opcode =? DW_OP_plus) ||
  (opcode =? DW_OP_plus_uconst) || (opcode =? DW_OP_shl) ||
  (opcode =? DW_OP_shr) || (opcode =? DW_OP_shra) || (opcode =? DW_OP_xor) ||
  (opcode =? DW_OP_le) || (opcode =? DW_OP_ge) || (opcode =? DW_OP_eq) ||
  (opcode =? DW_OP_lt) || (opcode =? DW_OP_gt) || (opcode =? DW_OP_ne) ||
  (opcode =? DW_OP_skip) || (opcode =? DW_OP_bra) || (opcode =? DW_OP_nop) ||
  (((DW_OP_reg0 <=? opcode) && (opcode <=? DW_OP_reg31)) ||
   (opcode =? DW_OP_regx) || (opcode =? DW_OP_implicit_value) ||
   (opcode =? DW_OP_stack_value) || (opcode =? DW_OP_piece) ||
   (opcode =? DW_OP_bit_piece)).

Definition unknown_expr_opcode (opcode : Z) : drgn_error :=
  binary_buffer_error "unknown DWARF expression opcode %#x" (Some opcode).

(** The selector values that have a case in the switch of
    [drgn_eval_dwarf_cfi]. *)
Definition known_cfi_selector (sel : Z) : bool :=
  (sel =? DW_CFA_set_loc) || (sel =? DW_CFA_advance_loc) ||
  (sel =? DW_CFA_advance_loc1) || (sel =? DW_CFA_advance_loc2) ||
  (sel =? DW_CFA_advance_loc4) || (sel =? DW_CFA_def_cfa) ||
  (sel =? DW_CFA_def_cfa_sf) || (sel =? DW_CFA_def_cfa_register) ||
  (sel =? DW_CFA_def_cfa_offset) || (sel =? DW_CFA_def_cfa_offset_sf) ||
  (sel =? DW_CFA_def_cfa_expression) || (sel =? DW_CFA_undefined) ||
  (sel =? DW_CFA_same_value) || (sel =? DW_CFA_offset) ||
  (sel =? DW_CFA_offset_extended) || (sel =? DW_CFA_offset_extended_sf) ||
  (sel =? DW_CFA_val_offset) || (sel =? DW_CFA_val_offset_sf) ||
  (sel =? DW_CFA_register) || (sel =? DW_CFA_expression) ||
  (sel =? DW_CFA_val_expression) || (sel =? DW_CFA_restore) ||
  (sel =? DW_CFA_restore_extended) || (sel =? DW_CFA_remember_state) ||
  (sel =? DW_CFA_restore_state) || (sel =? DW_CFA_nop).

Definition known_cfi_opcode (opcode : Z) : bool :=
  known_cfi_selector (CfiSpec.cfa_selector opcode).

Definition unknown_cfi_opcode (opcode : Z) : drgn_error :=
  binary_buffer_error "unknown DWARF CFI opcode %#x" (Some opcode).

(** A character of an augmentation string is accepted at index [i] when it
    is one of z, L, P, R, S, and z is first, and L, P, R follow a leading
    z ([aug0] is the first character of the string). *)
Definition augmentation_char_ok (aug0 : byte) (i : nat) (c : byte) : bool :=
  (Byte.eqb c "z" && Nat.eqb i 0) ||
  ((Byte.eqb c "L" || Byte.eqb c "P" || Byte.eqb c "R") && Byte.eqb aug0 "z") ||
  Byte.eqb c "S".

Definition valid_augmentation (augmentation : list byte) : bool :=
  forallb (fun '(i, c) =>
             augmentation_char_ok (nth 0 augmentation x00) i c)
    (combine (seq 0 (List.length augmentation)) augmentation).

(** The entry kinds that have a case in [drgn_dwarf5_location_list]. *)
Definition known_lle_kind (kind : Z) : bool :=
  (kind =? DW_LLE_end_of_list) || (kind =? DW_LLE_base_addressx) ||
  (kind =? DW_LLE_startx_endx) || (kind =? DW_LLE_startx_length) ||
  (kind =? DW_LLE_offset_pair) || (kind =? DW_LLE_default_location) ||
  (kind =? DW_LLE_base_address) || (kind =? DW_LLE_start_end) ||
  (kind =? DW_LLE_start_length).

(** The bytes 0..255. *)
Definition all_bytes : list Z := map Z.of_nat (seq 0 256).

End Known.

(** Example data: a .debug_frame CIE with the augmentation string "zQ". *)
Module AugExample.

Definition debug_frame : list byte :=
  Buf.bytes_of
    [ 0x0c; 0; 0; 0;  0xff; 0xff; 0xff; 0xff;  1;  0x7a; 0x51; 0;
      1; 0x78; 16;  0 ].

Definition module : drgn_debug_info_module :=
  {| platform := CfiExample.example_platform;
     scn_data := fun scn =>
       match scn with
       | DRGN_SCN_DEBUG_FRAME => Some debug_frame
       | _ => None
       end;
     pcrel_base := 0; textrel_base := 0; datarel_base := 0;
     dwarf_cies := []; module_bias := 0 |}.

End AugExample.

(** ** Type construction *)

Definition DW_TAG_array_type := 0x01.
Definition DW_TAG_class_type := 0x02.
Definition DW_TAG_enumeration_type := 0x04.
Definition DW_TAG_pointer_type := 0x0f.
Definition DW_TAG_structure_type := 0x13.
Definition DW_TAG_subroutine_type := 0x15.
Definition DW_TAG_typedef := 0x16.
Definition DW_TAG_union_type := 0x17.
Definition DW_TAG_base_type := 0x24.
Definition DW_TAG_const_type := 0x26.
Definition DW_TAG_subprogram := 0x2e.
Definition DW_TAG_volatile_type := 0x35.
Definition DW_TAG_restrict_type := 0x37.
Definition DW_TAG_atomic_type := 0x47.

Definition DRGN_QUALIFIER_CONST := 1.
Definition DRGN_QUALIFIER_VOLATILE := 2.
Definition DRGN_QUALIFIER_RESTRICT := 4.
Definition DRGN_QUALIFIER_ATOMIC := 8.

Module TypeCons.

Section Constructor.

(** Type nodes, languages and byte orders are kept abstract. *)
Variable drgn_type : Type.
Variable drgn_language : Type.
Variable drgn_byte_order : Type.

Record drgn_qualified_type := {
  qt_type : drgn_type;
  qt_qualifiers : Z
}.

(** The value of the memoization maps. *)
Record drgn_dwarf_type := {
  dt_type : drgn_type;
  dt_qualifiers : Z;
  dt_is_incomplete_array : bool
}.

(** The type constructor's state in [struct drgn_debug_info]: the
    recursion depth and the two maps keyed by DIE address. *)
Record drgn_debug_info := {
  dwarf_depth : Z;
  dwarf_types : list (Z * drgn_dwarf_type);
  dwarf_cant_be_incomplete_array_types : list (Z * drgn_dwarf_type)
}.

Definition drgn_dwarf_type_map_search (map : list (Z * drgn_dwarf_type))
    (key : Z) : option drgn_dwarf_type :=
  match find (fun e => fst e =? key) map with
  | Some e => Some (snd e)
  | None => None
  end.

Definition with_depth (dbinfo : drgn_debug_info) (depth : Z)
    : drgn_debug_info :=
  {| dwarf_depth := depth; dwarf_types := dwarf_types dbinfo;
     dwarf_cant_be_incomplete_array_types :=
       dwarf_cant_be_incomplete_array_types dbinfo |}.

(** What a call of [drgn_type_from_dwarf_internal] hands back: the
    qualified type, and the value written to [*is_incomplete_array_ret]
    ([None] when nothing is written). *)
Definition type_result : Type :=
  result (drgn_qualified_type * option bool).

(** The code between [drgn_type_from_dwarf_internal] and its recursive
    calls: [drgn_type_from_dwarf_attr] and the per-tag constructors
    ([drgn_pointer_type_from_dwarf], [drgn_compound_type_from_dwarf], ...).
    They reach other types only through [drgn_type_from_dwarf],
    [drgn_type_from_dwarf_attr] and the member thunks that call it, all of
    which end in [drgn_type_from_dwarf_internal]: [Recurse] is such a call
    followed by the rest of the function, and [Return] is its [return]. *)
Inductive construction (A : Type) :=
| Return (a : A)
| Recurse (die : Dwarf_Die) (can_be_incomplete_array : bool)
    (k : type_result -> construction A).
Arguments Return {A} a.
Arguments Recurse {A} die can_be_incomplete_array k.

Fixpoint and_then {A B : Type} (c : construction A)
    (f : A -> construction B) : construction B :=
  match c with
  | Return a => f a
  | Recurse die can_be_incomplete_array k =>
      Recurse die can_be_incomplete_array (fun r => and_then (k r) f)
  end.

(** The environment: libdw's DIE lookup ([dwarf_formref_die],
    [dwarf_offdie]) and DIE names, the index's declaration-to-definition
    map, the language and byte order of a DIE, the program's address size,
    and the type constructors of the type system. *)
Variable dwarf_offdie : Z -> option Dwarf_Die.
Variable dwarf_diename : Dwarf_Die -> option string.
Variable drgn_dwarf_index_find_definition : Z -> option Z.
Variable drgn_language_from_die : Dwarf_Die -> result drgn_language.
Variable dwarf_die_byte_order : Dwarf_Die -> drgn_byte_order.
Variable drgn_program_address_size : result Z.
Variable drgn_void_type : drgn_language -> drgn_type.
Variable drgn_typedef_type_create :
  string -> drgn_qualified_type -> drgn_language -> result drgn_type.
Variable drgn_pointer_type_create :
  drgn_qualified_type -> Z -> drgn_byte_order -> drgn_language ->
  result drgn_type.

(** The constructors whose bodies are not needed here; the ones with an
    [is_incomplete_array_ret] argument return what they store in it. *)
Variable drgn_base_type_from_dwarf :
  Dwarf_Die -> drgn_language -> construction (result drgn_type).
Variable drgn_compound_type_from_dwarf :
  Dwarf_Die -> drgn_language -> Z -> construction (result drgn_type).
Variable drgn_enum_type_from_dwarf :
  Dwarf_Die -> drgn_language -> construction (result drgn_type).
Variable drgn_array_type_from_dwarf :
  Dwarf_Die -> drgn_language -> bool ->
  construction (result (drgn_type * option bool)).
Variable drgn_function_type_from_dwarf :
  Dwarf_Die -> drgn_language -> construction (result drgn_type).

(** [dwarf_formref_die]: the DIE that a reference attribute names. *)
Definition dwarf_formref_die (attr : Dwarf_Attribute) : option Dwarf_Die :=
  match attr_ref attr with
  | Some addr => dwarf_offdie addr
  | None => None
  end.

Definition recursion_error : drgn_error :=
  drgn_error_create DRGN_ERROR_RECURSION
    "maximum DWARF type parsing depth exceeded".

(** [drgn_type_from_dwarf_attr]: the type of the DW_AT_type attribute of
    [die]. *)
Definition drgn_type_from_dwarf_attr (die : Dwarf_Die)
    (lang : option drgn_language) (can_be_void can_be_incomplete_array : bool)
    : construction type_result :=
  match dwarf_attr_integrate die DW_AT_type with
  | None =>
      if can_be_void then
        match (match lang with
               | Some lang => Ok lang
               | None => drgn_language_from_die die
               end) with
        | Err e => Return (Err e)
        | Ok lang =>
            Return (Ok ({| qt_type := drgn_void_type lang;
                           qt_qualifiers := 0 |}, None))
        end
      else Return (Err (drgn_error_create DRGN_ERROR_OTHER
                          "%s is missing DW_AT_type"))
  | Some attr =>
      match dwarf_formref_die attr with
      | None => Return (Err (drgn_error_create DRGN_ERROR_OTHER
                               "%s has invalid DW_AT_type"))
      | Some type_die => Recurse type_die can_be_incomplete_array Return
      end
  end.

(** [drgn_typedef_type_from_dwarf] *)
Definition drgn_typedef_type_from_dwarf (die : Dwarf_Die)
    (lang : drgn_language) (can_be_incomplete_array : bool)
    : construction (result (drgn_type * option bool)) :=
  match dwarf_diename die with
  | None => Return (Err (drgn_error_create DRGN_ERROR_OTHER
                           "DW_TAG_typedef has missing or invalid DW_AT_name"))
  | Some name =>
      and_then (drgn_type_from_dwarf_attr die (Some lang) true
                  can_be_incomplete_array) (fun r =>
      match r with
      | Err e => Return (Err e)
      | Ok (aliased_type, is_incomplete_array) =>
          Return (do t <- drgn_typedef_type_create name aliased_type lang;
                  Ok (t, is_incomplete_array))
      end)
  end.

(** [drgn_pointer_type_from_dwarf] *)
Definition drgn_pointer_type_from_dwarf (die : Dwarf_Die)
    (lang : drgn_language) : construction (result drgn_type) :=
  and_then (drgn_type_from_dwarf_attr die (Some lang) true true) (fun r =>
  match r with
  | Err e => Return (Err e)
  | Ok (referenced_type, _) =>
      Return
        (do size <-
           match dwarf_attr_integrate die DW_AT_byte_size with
           | Some attr =>
               match dwarf_formudata attr with
               | None => Err (drgn_error_create DRGN_ERROR_OTHER
                          "DW_TAG_pointer_type has invalid DW_AT_byte_size")
               | Some word => Ok word
               end
           | None => drgn_program_address_size
           end;
         drgn_pointer_type_create referenced_type size
           (dwarf_die_byte_order die) lang)
  end).

Section Recursion.

(** [drgn_type_from_dwarf_internal] one level down; [None] when the fuel
    ran out. *)
Variable internal :
  Dwarf_Die -> bool -> drgn_debug_info -> option (type_result * drgn_debug_info).

(** Run a piece of the constructor, making its recursive calls. *)
Fixpoint run {A : Type} (c : construction A) (dbinfo : drgn_debug_info)
    : option (A * drgn_debug_info) :=
  match c with
  | Return a => Some (a, dbinfo)
  | Recurse die can_be_incomplete_array k =>
      match internal die can_be_incomplete_array dbinfo with
      | None => None
      | Some (r, dbinfo) => run (k r) dbinfo
      end
  end.

(** The body of [drgn_type_from_dwarf_internal]. *)
Definition type_from_dwarf_body (die : Dwarf_Die)
    (can_be_incomplete_array : bool) (dbinfo : drgn_debug_info)
    : option (type_result * drgn_debug_info) :=
  if dwarf_depth dbinfo >=? 1000 then Some (Err recursion_error, dbinfo)
  else
  (* If the DIE has a type unit signature, follow it. *)
  match (match dwarf_attr_integrate die DW_AT_signature with
         | Some attr =>
             match dwarf_formref_die attr with
             | None => Err drgn_error_libdw
             | Some definition_die => Ok definition_die
             end
         | None => Ok die
         end) with
  | Err e => Some (Err e, dbinfo)
  | Ok die =>
  (* If we got a declaration, try to find the definition. *)
  match dwarf_flag die DW_AT_declaration with
  | None => Some (Err drgn_error_libdw, dbinfo)
  | Some declaration =>
  match (if declaration then
           match drgn_dwarf_index_find_definition (die_addr die) with
           | Some die_addr =>
               match dwarf_offdie die_addr with
               | None => Err drgn_error_libdw
               | Some definition_die => Ok definition_die
               end
           | None => Ok die
           end
         else Ok die) with
  | Err e => Some (Err e, dbinfo)
  | Ok die =>
  let key := die_addr die in
  let cached :=
    match drgn_dwarf_type_map_search (dwarf_types dbinfo) key with
    | Some entry =>
        if negb can_be_incomplete_array && dt_is_incomplete_array entry
        then drgn_dwarf_type_map_search
               (dwarf_cant_be_incomplete_array_types dbinfo) key
        else Some entry
    | None => None
    end in
  match cached with
  | Some entry =>
      Some (Ok ({| qt_type := dt_type entry;
                   qt_qualifiers := dt_qualifiers entry |}, None), dbinfo)
  | None =>
  match drgn_language_from_die die with
  | Err e => Some (Err e, dbinfo)
  | Ok lang =>
  let dbinfo := with_depth dbinfo (dwarf_depth dbinfo + 1) in
  let tag := die_tag die in
  (* [entry.value.is_incomplete_array] starts out false and is what the
     callee writes, if it writes. *)
  let written (flag : option bool) :=
    match flag with Some b => b | None => false end in
  let qualified (qualifier : Z) :=
    match run (drgn_type_from_dwarf_attr die (Some lang) true
                 can_be_incomplete_array) dbinfo with
    | None => None
    | Some (Err e, dbinfo) => Some (Err e, dbinfo)
    | Some (Ok (t, flag), dbinfo) =>
        Some (Ok ({| qt_type := qt_type t;
                     qt_qualifiers := Z.lor (qt_qualifiers t) qualifier |},
                  written flag), dbinfo)
    end in
  let built (c : construction (result drgn_type)) :=
    match run c dbinfo with
    | None => None
    | Some (Err e, dbinfo) => Some (Err e, dbinfo)
    | Some (Ok t, dbinfo) =>
        Some (Ok ({| qt_type := t; qt_qualifiers := 0 |}, false), dbinfo)
    end in
  let built_flag (c : construction (result (drgn_type * option bool))) :=
    match run c dbinfo with
    | None => None
    | Some (Err e, dbinfo) => Some (Err e, dbinfo)
    | Some (Ok (t, flag), dbinfo) =>
        Some (Ok ({| qt_type := t; qt_qualifiers := 0 |}, written flag),
              dbinfo)
    end in
  match (if tag =? DW_TAG_const_type then qualified DRGN_QUALIFIER_CONST
         else if tag =? DW_TAG_restrict_type
         then qualified DRGN_QUALIFIER_RESTRICT
         else if tag =? DW_TAG_volatile_type
         then qualified DRGN_QUALIFIER_VOLATILE
         else if tag =? DW_TAG_atomic_type then qualified DRGN_QUALIFIER_ATOMIC
         else if tag =? DW_TAG_base_type
         then built (drgn_base_type_from_dwarf die lang)
         else if (tag =? DW_TAG_structure_type) || (tag =? DW_TAG_union_type)
                 || (tag =? DW_TAG_class_type)
         then built (drgn_compound_type_from_dwarf die lang tag)
         else if tag =? DW_TAG_enumeration_type
         then built (drgn_enum_type_from_dwarf die lang)
         else if tag =? DW_TAG_typedef
         then built_flag (drgn_typedef_type_from_dwarf die lang
                            can_be_incomplete_array)
         else if tag =? DW_TAG_pointer_type
         then built (drgn_pointer_type_from_dwarf die lang)
         else if tag =? DW_TAG_array_type
         then built_flag (drgn_array_type_from_dwarf die lang
                            can_be_incomplete_array)
         else if (tag =? DW_TAG_subroutine_type) || (tag =? DW_TAG_subprogram)
         then built (drgn_function_type_from_dwarf die lang)
         else Some (Err (drgn_error_create DRGN_ERROR_OTHER
                           "unknown DWARF type tag 0x%x"), dbinfo)) with
  | None => None
  | Some (r, dbinfo) =>
      let dbinfo := with_depth dbinfo (dwarf_depth dbinfo - 1) in
      match r with
      | Err e => Some (Err e, dbinfo)
      | Ok (t, is_incomplete_array) =>
          let entry := {| dt_type := qt_type t;
                          dt_qualifiers := qt_qualifiers t;
                          dt_is_incomplete_array := is_incomplete_array |} in
          let dbinfo :=
            if negb can_be_incomplete_array && is_incomplete_array
            then {| dwarf_depth := dwarf_depth dbinfo;
                    dwarf_types := dwarf_types dbinfo;
                    dwarf_cant_be_incomplete_array_types :=
                      (key, entry) ::
                      dwarf_cant_be_incomplete_array_types dbinfo |}
            else {| dwarf_depth := dwarf_depth dbinfo;
                    dwarf_types := (key, entry) :: dwarf_types dbinfo;
                    dwarf_cant_be_incomplete_array_types :=
                      dwarf_cant_be_incomplete_array_types dbinfo |} in
          Some (Ok (t, Some is_incomplete_array), dbinfo)
      end
  end end end end end end.

End Recursion.

(** [drgn_type_from_dwarf_internal]; each level of recursion takes one unit
    of [fuel], and [None] means that the fuel ran out. *)
Fixpoint drgn_type_from_dwarf_internal (fuel : nat) (die : Dwarf_Die)
    (can_be_incomplete_array : bool) (dbinfo : drgn_debug_info)
    : option (type_result * drgn_debug_info) :=
  match fuel with
  | O => None
  | S fuel' =>
      type_from_dwarf_body (drgn_type_from_dwarf_internal fuel')
        die can_be_incomplete_array dbinfo
  end.

(** [drgn_type_from_dwarf] *)
Definition drgn_type_from_dwarf (die : Dwarf_Die) (dbinfo : drgn_debug_info)
    : option (type_result * drgn_debug_info) :=
  drgn_type_from_dwarf_internal
    (S (Z.to_nat (1000 - dwarf_depth dbinfo))) die true dbinfo.

(** A call returns and leaves the depth as it found it. *)
Definition returns_at {A : Type} (depth : Z)
    (r : option (A * drgn_debug_info)) : Prop :=
  exists a dbinfo', r = Some (a, dbinfo') /\ dwarf_depth dbinfo' = depth.

End Constructor.

Arguments Return {drgn_type A} a.
Arguments Recurse {drgn_type A} die can_be_incomplete_array k.

End TypeCons.

(** ** Budgets *)

(** The cursor moved forward by at least [k] bytes within the same
    bounds. *)
Definition moved (k : Z) (bb bb' : Buf.binary_buffer) : Prop :=
  Buf.bb_end bb' = Buf.bb_end bb /\
  Buf.bb_pos bb + k <= Buf.bb_pos bb' <= Buf.bb_end bb.

Module Budget.
Import Buf Expr FrameBase.

(** The state that an iteration ends in. *)
Definition outcome_state (o : op_outcome) : eval_state :=
  match o with
  | OpContinue s => s
  | OpReturn _ s => s
  end.

(** The decrement of [*remaining_ops]. *)
Definition decrement (s : eval_state) : eval_state :=
  {| es_ctx := es_ctx s; es_stack := es_stack s;
     es_remaining_ops := es_remaining_ops s - 1 |}.

Definition too_many_operations : drgn_error :=
  binary_buffer_error "DWARF expression executed too many operations" None.

(** [runs frame_base n s r]: the loop of [drgn_eval_dwarf_expression]
    started in [s] returns [r] after executing [n] operations, that is after
    [n] iterations that passed the budget check. *)
Inductive runs
    (frame_base : drgn_dwarf_expression_context -> Z -> option (result Z * Z))
    : nat -> eval_state -> option drgn_error * eval_state -> Prop :=
| runs_end s :
    binary_buffer_has_next (ctx_bb (es_ctx s)) = false ->
    runs frame_base 0 s (None, s)
| runs_exhausted s :
    binary_buffer_has_next (ctx_bb (es_ctx s)) = true ->
    es_remaining_ops s <= 0 ->
    runs frame_base 0 s (Some too_many_operations, s)
| runs_return s err s' :
    binary_buffer_has_next (ctx_bb (es_ctx s)) = true ->
    0 < es_remaining_ops s ->
    eval_op frame_base (decrement s) = Some (OpReturn err s') ->
    runs frame_base 1 s (err, s')
| runs_continue s s' n r :
    binary_buffer_has_next (ctx_bb (es_ctx s)) = true ->
    0 < es_remaining_ops s ->
    eval_op frame_base (decrement s) = Some (OpContinue s') ->
    runs frame_base n s' r ->
    runs frame_base (S n) s r.

(** The frame base computation that [eval_at depth] uses for DW_OP_fbreg. *)
Definition frame_base_at (depth : nat) (ctx : drgn_dwarf_expression_context)
    (remaining_ops : Z) : option (result Z * Z) :=
  drgn_dwarf_frame_base
    (match depth with
     | O => None
     | S depth' => Some (eval_at depth')
     end)
    (ctx_prog ctx) (ctx_module ctx) (ctx_function ctx) (ctx_regs ctx)
    remaining_ops.

(** A frame base computation spends from the budget it is given: it
    neither adds to it nor overdraws it. *)
Definition spends
    (frame_base : drgn_dwarf_expression_context -> Z -> option (result Z * Z))
    (function : option Dwarf_Die) : Prop :=
  forall ctx ops, ctx_function ctx = function ->
    exists r ops', frame_base ctx ops = Some (r, ops') /\
                   ops' <= ops /\ (0 <= ops -> 0 <= ops').

End Budget.

(** Example types: a typedef that names itself, a const type that
    qualifies itself, and a pointer to a base type. *)
Module TypeExample.
Import TypeCons.

Inductive drgn_type :=
| ty_void
| ty_base (addr : Z)
| ty_pointer (referenced : drgn_type) (qualifiers : Z) (size : Z)
| ty_typedef (name : string) (aliased : drgn_type) (qualifiers : Z).

Definition cu : Dwarf_CU :=
  {| cu_die_addr := 0; cu_attr := fun _ => None; cu_version := 4;
     cu_address_size := 8; cu_offset_size := 4 |}.

Definition die (addr tag : Z) (type : option Z) : Dwarf_Die :=
  {| die_addr := addr; die_tag := tag;
     die_attr := fun name =>
       if name =? DW_AT_type then
         match type with
         | Some t => Some (attr_of_ref 4 t)
         | None => None
         end
       else None;
     die_cu := cu |}.

Definition self_typedef := die 0x10 DW_TAG_typedef (Some 0x10).
Definition int_die := die 0x20 DW_TAG_base_type None.
Definition int_pointer := die 0x30 DW_TAG_pointer_type (Some 0x20).
Definition const_self := die 0x40 DW_TAG_const_type (Some 0x40).

Definition dwarf_offdie (addr : Z) : option Dwarf_Die :=
  if addr =? 0x10 then Some self_typedef
  else if addr =? 0x20 then Some int_die
  else if addr =? 0x30 then Some int_pointer
  else if addr =? 0x40 then Some const_self
  else None.

Definition unsupported {A : Type} : construction drgn_type (result A) :=
  Return (Err (drgn_error_create DRGN_ERROR_OTHER "not in the example")).

Definition dwarf_diename (d : Dwarf_Die) : option string := Some "t"%string.

Definition drgn_typedef_type_create (name : string)
    (aliased : drgn_qualified_type drgn_type) (lang : unit)
    : result drgn_type :=
  Ok (ty_typedef name (qt_type _ aliased) (qt_qualifiers _ aliased)).

Definition drgn_pointer_type_create
    (referenced : drgn_qualified_type drgn_type) (size : Z)
    (byte_order lang : unit) : result drgn_type :=
  Ok (ty_pointer (qt_type _ referenced) (qt_qualifiers _ referenced) size).

Definition drgn_base_type_from_dwarf (d : Dwarf_Die) (lang : unit)
    : construction drgn_type (result drgn_type) :=
  Return (Ok (ty_base (die_addr d))).

Definition type_from_dwarf_internal :=
  drgn_type_from_dwarf_internal drgn_type unit unit
    dwarf_offdie dwarf_diename (fun _ => None) (fun _ => Ok tt)
    (fun _ => tt) (Ok 8) (fun _ => ty_void)
    drgn_typedef_type_create drgn_pointer_type_create
    drgn_base_type_from_dwarf (fun _ _ _ => unsupported)
    (fun _ _ => unsupported) (fun _ _ _ => unsupported)
    (fun _ _ => unsupported).

Definition type_from_dwarf :=
  drgn_type_from_dwarf drgn_type unit unit
    dwarf_offdie dwarf_diename (fun _ => None) (fun _ => Ok tt)
    (fun _ => tt) (Ok 8) (fun _ => ty_void)
    drgn_typedef_type_create drgn_pointer_type_create
    drgn_base_type_from_dwarf (fun _ _ _ => unsupported)
    (fun _ _ => unsupported) (fun _ _ _ => unsupported)
    (fun _ _ => unsupported).

Definition dbinfo0 : drgn_debug_info drgn_type :=
  {| dwarf_depth := 0; dwarf_types := [];
     dwarf_cant_be_incomplete_array_types := [] |}.

End TypeExample.

(** Example functions for DW_OP_fbreg: one whose frame base is the
    constant 8, and one whose frame base expression jumps to itself. *)
Module BudgetExample.
Import Buf Expr.

Definition function_with (frame_base : list Z) : Dwarf_Die :=
  {| die_addr := 0x50; die_tag := DW_TAG_subprogram;
     die_attr := fun name =>
       if name =? DW_AT_frame_base
       then Some (attr_of_block DW_FORM_exprloc 4 (bytes_of frame_base))
       else None;
     die_cu := TypeExample.cu |}.

(** [DW_OP_fbreg 0] in a function with the given frame base expression. *)
Definition fbreg_context (frame_base : list Z)
    : drgn_dwarf_expression_context :=
  {| ctx_bb := binary_buffer_init (bytes_of [0x91; 0x00]) true;
     ctx_start := 0; ctx_prog := ExprExample.prog;
     ctx_module := ExprExample.module64;
     ctx_address_size := 8;
     ctx_cu_die := None; ctx_cu_addr_base := None;
     ctx_function := Some (function_with frame_base);
     ctx_regs := None |}.

(** [DW_OP_lit8] *)
Definition constant_frame_base : list Z := [0x38].

End BudgetExample.

(** ** Parsing the frame sections and finding an FDE *)

Module FrameParse.
Import Buf.

(** The variables of the loop of [drgn_parse_dwarf_frames]: the buffer, the
    two vectors, and the map from a CIE pointer to the index of its CIE. *)
Record frames_state := {
  fs_bb : binary_buffer;
  fs_cies : list drgn_dwarf_cie;
  fs_fdes : list drgn_dwarf_fde;
  fs_cie_map : list (Z * nat)
}.

Definition drgn_dwarf_cie_map_search (map : list (Z * nat)) (key : Z)
    : option nat :=
  match find (fun e => fst e =? key) map with
  | Some e => Some (snd e)
  | None => None
  end.

(** How one iteration ends: [break] at a zero length, or the next entry. *)
Inductive frames_outcome :=
| FramesBreak
| FramesContinue (s : frames_state).

Section Section_.

Variable module : drgn_debug_info_module.
Variable scn : drgn_debug_info_scn.

Definition is_eh_scn : bool :=
  match scn with DRGN_SCN_EH_FRAME => true | _ => false end.

(** [data->d_size] *)
Definition d_size : Z :=
  Z.of_nat (List.length
              (match scn_data module scn with Some d => d | None => [] end)).

(** The part of an iteration that handles an FDE: find or parse its CIE,
    then read the location, the range and the augmentation data. *)
Definition parse_fde (is_64_bit : bool) (cie_pointer : Z)
    (bb : binary_buffer) (s : frames_state) : result frames_state :=
  do cie_pointer <-
    (if is_eh_scn then
       let pointer_offset := bb_pos bb - (if is_64_bit then 8 else 4) in
       if cie_pointer >? pointer_offset
       then Err (binary_buffer_error "CIE pointer is out of bounds" None)
       else Ok (pointer_offset - cie_pointer)
     else if cie_pointer >? d_size
     then Err (binary_buffer_error "CIE pointer is out of bounds" None)
     else Ok cie_pointer);
  do (index, cies, cie_map) <-
    match drgn_dwarf_cie_map_search (fs_cie_map s) cie_pointer with
    | None =>
        let index := List.length (fs_cies s) in
        do cie <- Cfi.drgn_parse_dwarf_cie module scn cie_pointer;
        Ok (index, fs_cies s ++ [cie], (cie_pointer, index) :: fs_cie_map s)
    | Some index => Ok (index, fs_cies s, fs_cie_map s)
    end;
  let cie := nth index cies cie0 in
  do (initial_location, bb) <-
    Cfi.drgn_dwarf_cfi_next_encoded module bb (address_size cie)
      (address_encoding cie) 0;
  do (address_range, bb) <-
    Cfi.drgn_dwarf_cfi_next_encoded module bb (address_size cie)
      (Z.land (address_encoding cie) 0xf) 0;
  do bb <-
    (if have_augmentation_length cie then
       do (augmentation_length, bb) <- binary_buffer_next_uleb128 bb;
       if augmentation_length >? bb_end bb - bb_pos bb
       then Err (binary_buffer_error
                   "augmentation length is out of bounds" None)
       else Ok (set_pos bb (bb_pos bb + augmentation_length))
     else Ok bb);
  Ok {| fs_bb := bb; fs_cies := cies;
        fs_fdes :=
          fs_fdes s ++
          [{| cie := index; initial_location := initial_location;
              address_range := address_range;
              instructions := bb_pos bb;
              instructions_size := bb_end bb - bb_pos bb |}];
        fs_cie_map := cie_map |}.

(** One iteration of the loop of [drgn_parse_dwarf_frames]. *)
Definition frames_entry (s : frames_state) : result frames_outcome :=
  do (tmp, bb) <- binary_buffer_next_u32 (fs_bb s);
  let is_64_bit := tmp =? 0xffffffff in
  do (length, bb) <-
    (if is_64_bit then binary_buffer_next_u64 bb else Ok (tmp, bb));
  (* A length of zero is a terminator. *)
  if length =? 0 then Ok FramesBreak
  else if length >? bb_end bb - bb_pos bb
  then Err (binary_buffer_error "entry length is out of bounds" None)
  else
    let bb := set_end bb (bb_pos bb + length) in
    do (cie_pointer, bb) <-
      (if is_64_bit then binary_buffer_next_u64 bb
       else binary_buffer_next_u32_into_u64 bb);
    let cie_id :=
      if is_64_bit then (if is_eh_scn then 0 else 0xffffffffffffffff)
      else (if is_eh_scn then 0 else 0xffffffff) in
    do s' <-
      (if negb (cie_pointer =? cie_id)
       then parse_fde is_64_bit cie_pointer bb s
       else Ok {| fs_bb := bb; fs_cies := fs_cies s; fs_fdes := fs_fdes s;
                  fs_cie_map := fs_cie_map s |});
    Ok (FramesContinue
          {| fs_bb := set_end (set_pos (fs_bb s') (bb_end (fs_bb s'))) d_size;
             fs_cies := fs_cies s'; fs_fdes := fs_fdes s';
             fs_cie_map := fs_cie_map s' |}).

(** The loop; [None] means that [fuel] ran out. *)
Fixpoint frames_loop (fuel : nat) (s : frames_state)
    : option (result (list drgn_dwarf_cie * list drgn_dwarf_fde)) :=
  if binary_buffer_has_next (fs_bb s) then
    match fuel with
    | O => None
    | S fuel' =>
        match frames_entry s with
        | Err e => Some (Err e)
        | Ok FramesBreak => Some (Ok (fs_cies s, fs_fdes s))
        | Ok (FramesContinue s') => frames_loop fuel' s'
        end
    end
  else Some (Ok (fs_cies s, fs_fdes s)).

(** [drgn_parse_dwarf_frames]: append the CIEs and FDEs of section [scn] to
    the vectors; a module without the section is left alone. *)
Definition drgn_parse_dwarf_frames (cies : list drgn_dwarf_cie)
    (fdes : list drgn_dwarf_fde)
    : option (result (list drgn_dwarf_cie * list drgn_dwarf_fde)) :=
  match scn_data module scn with
  | None => Some (Ok (cies, fdes))
  | Some _ =>
      frames_loop (Z.to_nat d_size)
        {| fs_bb := drgn_debug_info_buffer_init module scn;
           fs_cies := cies; fs_fdes := fdes; fs_cie_map := [] |}
  end.

End Section_.

(** [drgn_debug_info_parse_frames]: both sections, then sort and remove
    duplicates.  Returns [module->dwarf.cies] and [module->dwarf.fdes].
    The section addresses that [drgn_debug_info_cache_sh_addr] stores in
    [pcrel_base], [textrel_base] and [datarel_base] first come from the ELF
    section headers; the module here holds them from the start. *)
Definition drgn_debug_info_parse_frames (module : drgn_debug_info_module)
    : option (result (list drgn_dwarf_cie * list drgn_dwarf_fde)) :=
  match drgn_parse_dwarf_frames module DRGN_SCN_DEBUG_FRAME [] [] with
  | None => None
  | Some (Err e) => Some (Err e)
  | Some (Ok (cies, fdes)) =>
      match drgn_parse_dwarf_frames module DRGN_SCN_EH_FRAME cies fdes with
      | None => None
      | Some (Err e) => Some (Err e)
      | Some (Ok (cies, fdes)) =>
          Some (Ok (cies, Frames.sort_and_dedup cies fdes))
      end
  end.

End FrameParse.

Module FindFde.

(** The binary search of [drgn_debug_info_find_fde] for the FDE that
    contains [unbiased_pc]; [None] means that [fuel] ran out. *)
Fixpoint find_fde_loop (fuel : nat) (fdes : list drgn_dwarf_fde)
    (unbiased_pc : Z) (lo hi : nat) : option (option drgn_dwarf_fde) :=
  if (lo <? hi)%nat then
    match fuel with
    | O => None
    | S fuel' =>
        let mid := (lo + (hi - lo) / 2)%nat in
        let fde := nth mid fdes fde0 in
        if unbiased_pc <? initial_location fde
        then find_fde_loop fuel' fdes unbiased_pc lo mid
        else if u64 (unbiased_pc - initial_location fde) >=? address_range fde
        then find_fde_loop fuel' fdes unbiased_pc (S mid) hi
        else Some (Some fde)
    end
  else Some None.

(** [module->parsed_frames] with [module->dwarf.fdes]; the CIEs are in the
    module. *)
Record frames_cache := {
  parsed_frames : bool;
  dwarf_fdes : list drgn_dwarf_fde
}.

Definition with_cies (module : drgn_debug_info_module)
    (cies : list drgn_dwarf_cie) : drgn_debug_info_module :=
  {| platform := platform module; scn_data := scn_data module;
     pcrel_base := pcrel_base module; textrel_base := textrel_base module;
     datarel_base := datarel_base module; dwarf_cies := cies;
     module_bias := module_bias module |}.

(** [drgn_debug_info_find_fde]: parse the frames on first use, then
    search.  Returns the FDE ([None] is [NULL]) with the module and cache as
    they are left. *)
Definition drgn_debug_info_find_fde (module : drgn_debug_info_module)
    (cache : frames_cache) (unbiased_pc : Z)
    : option (result (option drgn_dwarf_fde)
              * drgn_debug_info_module * frames_cache) :=
  let search module cache :=
    match find_fde_loop (List.length (dwarf_fdes cache)) (dwarf_fdes cache)
            unbiased_pc 0 (List.length (dwarf_fdes cache)) with
    | None => None
    | Some r => Some (Ok r, module, cache)
    end in
  if negb (parsed_frames cache) then
    match FrameParse.drgn_debug_info_parse_frames module with
    | None => None
    | Some (Err e) => Some (Err e, module, cache)
    | Some (Ok (cies, fdes)) =>
        search (with_cies module cies)
          {| parsed_frames := true; dwarf_fdes := fdes |}
    end
  else search module cache.

(** What [drgn_debug_info_find_dwarf_cfi] returns: the row, whether the
    frame was interrupted, and the return address register. *)
Record dwarf_cfi := {
  cfi_row : drgn_cfi_row;
  cfi_interrupted : bool;
  cfi_ret_addr_regno : Z
}.

(** [drgn_debug_info_find_dwarf_cfi] *)
Definition drgn_debug_info_find_dwarf_cfi (module : drgn_debug_info_module)
    (cache : frames_cache) (unbiased_pc : Z)
    : option (result dwarf_cfi * drgn_debug_info_module * frames_cache) :=
  match drgn_debug_info_find_fde module cache unbiased_pc with
  | None => None
  | Some (Err e, module, cache) => Some (Err e, module, cache)
  | Some (Ok None, module, cache) => Some (Err drgn_not_found, module, cache)
  | Some (Ok (Some fde), module, cache) =>
      match CfiEval.drgn_debug_info_find_cfi_in_fde module fde
              unbiased_pc with
      | None => None
      | Some (Err e) => Some (Err e, module, cache)
      | Some (Ok row) =>
          let cie := nth (cie fde) (dwarf_cies module) cie0 in
          Some (Ok {| cfi_row := row;
                      cfi_interrupted := signal_frame cie;
                      cfi_ret_addr_regno := return_address_register cie |},
                module, cache)
      end
  end.

End FindFde.

(** Vocabulary for statements about the FDE table. *)
Module FdeSpec.

(** The containment test of the binary search: [pc] is not below the
    FDE's location, and [pc - initial_location] (in 64 bits) is within its
    range. *)
Definition fde_covers (unbiased_pc : Z) (fde : drgn_dwarf_fde) : bool :=
  (initial_location fde <=? unbiased_pc) &&
  (u64 (unbiased_pc - initial_location fde) <? address_range fde).

(** [a] starts before [b] and ends where [b] starts or before. *)
Definition fde_before (a b : drgn_dwarf_fde) : Prop :=
  initial_location a < initial_location b /\
  initial_location a + address_range a <= initial_location b.

End FdeSpec.

(** Vocabulary for statements about the frame parser. *)
Module FrameSpec.
Import Buf FrameParse.

(** The instructions of an FDE lie within a section of [size] bytes, and its
    location and range are 64-bit values. *)
Definition fde_in_section (size : Z) (fde : drgn_dwarf_fde) : Prop :=
  0 <= instructions fde /\ 0 <= instructions_size fde /\
  instructions fde + instructions_size fde <= size /\
  0 <= initial_location fde <= UINT64_MAX /\
  0 <= address_range fde <= UINT64_MAX.

(** The same for the initial instructions of a CIE, whose address size is
    one that [uint_max] supports. *)
Definition cie_in_section (size : Z) (cie : drgn_dwarf_cie) : Prop :=
  0 <= initial_instructions cie /\ 0 <= initial_instructions_size cie /\
  initial_instructions cie + initial_instructions_size cie <= size /\
  1 <= address_size cie <= 8.

Section Invariants.

Variable module : drgn_debug_info_module.
Variable scn : drgn_debug_info_scn.

(** The state of the loop of [drgn_parse_dwarf_frames], seen from the
    vectors it started with: the buffer ends at the end of the section, CIEs
    and FDEs were only appended, the new CIEs are of this section, and the
    new FDEs and the map point at new CIEs. *)
Definition frames_inv (cies0 : list drgn_dwarf_cie)
    (fdes0 : list drgn_dwarf_fde) (s : frames_state) : Prop :=
  bb_end (fs_bb s) = d_size module scn /\
  (exists new_cies,
     fs_cies s = cies0 ++ new_cies /\
     Forall (fun c => is_eh c = is_eh_scn scn) new_cies) /\
  (exists new_fdes,
     fs_fdes s = fdes0 ++ new_fdes /\
     Forall (fun f =>
               (List.length cies0 <= cie f < List.length (fs_cies s))%nat)
       new_fdes) /\
  (forall key index,
     drgn_dwarf_cie_map_search (fs_cie_map s) key = Some index ->
     (List.length cies0 <= index < List.length (fs_cies s))%nat).

(** What was parsed lies within the section. *)
Definition frames_bounds (cies0 : list drgn_dwarf_cie)
    (fdes0 : list drgn_dwarf_fde) (s : frames_state) : Prop :=
  0 <= bb_pos (fs_bb s) <= bb_end (fs_bb s) /\
  (exists new_cies,
     fs_cies s = cies0 ++ new_cies /\
     Forall (cie_in_section (d_size module scn)) new_cies) /\
  (exists new_fdes,
     fs_fdes s = fdes0 ++ new_fdes /\
     Forall (fde_in_section (d_size module scn)) new_fdes).

End Invariants.

End FrameSpec.

(** Example data: the table that the FDEs of [FramesExample] sort to, as a
    parsed cache, and a cache that was not parsed yet. *)
Module FindFdeExample.
Import FindFde.

Definition table : list drgn_dwarf_fde :=
  [FramesExample.f2; FramesExample.f1; FramesExample.f4].

Definition cache : frames_cache :=
  {| parsed_frames := true; dwarf_fdes := table |}.

Definition unparsed : frames_cache :=
  {| parsed_frames := false; dwarf_fdes := [] |}.

End FindFdeExample.

(** Vocabulary for statements about runs of CFI instructions. *)
Module CfiRun.
Import Buf CfiEval.

(** The state that an instruction ends in. *)
Definition cfi_outcome_state (o : cfi_outcome) : cfi_state :=
  match o with
  | CfiContinue s => s
  | CfiFound s => s
  end.

(** The opcodes that push or pop the state stack. *)
Definition state_stack_opcode (opcode : Z) : bool :=
  (opcode =? DW_CFA_remember_state) || (opcode =? DW_CFA_restore_state).

Section Steps.

Variable module : drgn_debug_info_module.
Variable fde : drgn_dwarf_fde.
Variable initial_row : option drgn_cfi_row.
Variable target : Z.

(** [plain_steps s s']: execution gets from [s] to [s'] through
    instructions other than DW_CFA_remember_state and
    DW_CFA_restore_state. *)
Inductive plain_steps : cfi_state -> cfi_state -> Prop :=
| plain_steps_refl s : plain_steps s s
| plain_steps_step s opcode bb s1 s2 :
    binary_buffer_next_u8 (cs_bb s) = Ok (opcode, bb) ->
    state_stack_opcode opcode = false ->
    eval_cfi_instruction module fde initial_row target s =
      Ok (CfiContinue s1) ->
    plain_steps s1 s2 ->
    plain_steps s s2.

End Steps.

End CfiRun.

(** Example data: instructions [DW_CFA_remember_state;
    DW_CFA_def_cfa_offset 16; DW_CFA_restore_state] at offset 0 of
    .debug_frame, under the CIE of [CfiExample]. *)
Module CfiRunExample.
Import Buf.

Definition state_frame : list byte := bytes_of [ 0x0a;  0x0e; 16;  0x0b ].

Definition state_module : drgn_debug_info_module :=
  {| platform := CfiExample.example_platform;
     scn_data := fun scn =>
       match scn with
       | DRGN_SCN_DEBUG_FRAME => Some state_frame
       | _ => None
       end;
     pcrel_base := 0; textrel_base := 0; datarel_base := 0;
     dwarf_cies := [CfiExample.the_cie]; module_bias := 0 |}.

Definition state_fde : drgn_dwarf_fde :=
  {| cie := 0; initial_location := 0x401000; address_range := 0x20;
     instructions := 0; instructions_size := 4 |}.

(** The state at [pos], the last read having started at [prev], with [row]
    as the current row and [stack] as the state stack. *)
Definition state_with (prev pos : Z) (row : drgn_cfi_row)
    (stack : list drgn_cfi_row) : CfiEval.cfi_state :=
  {| CfiEval.cs_bb :=
       advance
         (set_pos
            (drgn_debug_info_buffer_init state_module DRGN_SCN_DEBUG_FRAME)
            prev)
         (pos - prev);
     CfiEval.cs_pc := 0x401000;
     CfiEval.cs_row := row;
     CfiEval.cs_state_stack := stack |}.

(** The row after DW_CFA_def_cfa_offset 16. *)
Definition offset_row : drgn_cfi_row :=
  {| cfa_rule := RULE_REGISTER_PLUS_OFFSET 7 16;
     reg_rules := reg_rules CfiExample.initial_row |}.

End CfiRunExample.

(** Vocabulary for statements about the expression evaluator. *)
Module ExprSpec.
Import Buf Expr.


(** The opcodes of location descriptions, which the evaluator leaves to its
    caller. *)
Definition location_description_opcode (opcode : Z) : bool :=
  ((DW_OP_reg0 <=? opcode) && (opcode <=? DW_OP_reg31)) ||
  (opcode =? DW_OP_regx) || (opcode =? DW_OP_implicit_value) ||
  (opcode =? DW_OP_stack_value) || (opcode =? DW_OP_piece) ||
  (opcode =? DW_OP_bit_piece).

(** The opcodes that need the CU: DW_OP_addrx and DW_OP_constx. *)
Definition indirect_opcode (opcode : Z) : bool :=
  (opcode =? DW_OP_addrx) || (opcode =? DW_OP_constx).


(** [x] reduced to an unsigned value of [address_size] bytes. *)
Definition wrap (address_size : Z) (x : Z) : Z :=
  x mod 2 ^ (8 * address_size).


End ExprSpec.

(** Example data: the expression [DW_OP_lit1; DW_OP_reg0] and the state
    that its evaluation ends in, with the cursor at DW_OP_reg0. *)
Module ExprRunExample.
Import Buf Expr.

Definition reg_expr : list Z := [0x31; 0x50].

Definition reg_state : eval_state :=
  let ctx := ExprExample.context ExprExample.module64 reg_expr in
  let bb := advance (advance (ctx_bb ctx) 1) 1 in
  {| es_ctx := with_bb ctx (set_pos bb (bb_prev bb));
     es_stack := [1];
     es_remaining_ops := MAX_DWARF_EXPR_OPS - 2 |}.

End ExprRunExample.

(** Vocabulary for statements about where a selected expression lies. *)
Module LocBounds.
Import Buf Loc.

(** The expression at [expr] of [expr_size] bytes lies within a section of
    [size] bytes; the empty expression ([NULL]) has size 0. *)
Definition expression_in_section (size : Z) (expr : option Z)
    (expr_size : Z) : Prop :=
  match expr with
  | Some pos => 0 <= pos /\ 0 <= expr_size /\ pos + expr_size <= size
  | None => expr_size = 0
  end.

(** The state of the loop of [drgn_dwarf5_location_list] is within the
    section, and so is the default expression it remembers. *)
Definition loclist5_in_section (size : Z) (s : loclist5_state) : Prop :=
  bb_end (ll_bb s) = size /\ 0 <= bb_pos (ll_bb s) <= size /\
  expression_in_section size (ll_expr s) (ll_expr_size s).

(** The same for [drgn_dwarf4_location_list]. *)
Definition loclist4_in_section (size : Z) (s : loclist4_state) : Prop :=
  bb_end (l4_bb s) = size /\ 0 <= bb_pos (l4_bb s) <= size.

End LocBounds.

(** ** Array types *)

Definition DW_TAG_subrange_type := 0x21.
Definition DW_AT_upper_bound := 0x2f.
Definition DW_AT_count := 0x37.
Definition DW_FORM_sdata := 0x0d.

Module ArrayCons.
Import TypeCons.

(** [struct array_dimension]; the length of a dimension that is not
    complete is not set by the source and is 0 here. *)
Record array_dimension := {
  dimension_length : Z;               (* uint64_t *)
  dimension_is_complete : bool
}.

Definition incomplete_dimension : array_dimension :=
  {| dimension_length := 0; dimension_is_complete := false |}.

(** [subrange_length]: the dimension that a DW_TAG_subrange_type DIE
    describes, from its DW_AT_upper_bound or else its DW_AT_count. *)
Definition subrange_length (die : Dwarf_Die) : result array_dimension :=
  match (match dwarf_attr_integrate die DW_AT_upper_bound with
         | Some attr => Some (attr, true)
         | None =>
             match dwarf_attr_integrate die DW_AT_count with
             | Some attr => Some (attr, false)
             | None => None
             end
         end) with
  | None => Ok incomplete_dimension
  | Some (attr, is_upper_bound) =>
      match dwarf_formudata attr with
      | None => Err (drgn_error_create DRGN_ERROR_OTHER
                       "DW_TAG_subrange_type has invalid %s")
      | Some word =>
          (* GCC emits a DW_FORM_sdata DW_AT_upper_bound of -1 for empty
             array variables without an explicit size. *)
          if is_upper_bound && (attr_form attr =? DW_FORM_sdata) &&
             (word =? UINT64_MAX)
          then Ok {| dimension_length := 0; dimension_is_complete := true |}
          else if is_upper_bound then
            if word >=? UINT64_MAX
            then Err (drgn_error_create DRGN_ERROR_OVERFLOW
                        "DW_AT_upper_bound is too large")
            else Ok {| dimension_length := u64 (word + 1);
                       dimension_is_complete := true |}
          else
            if word >? UINT64_MAX
            then Err (drgn_error_create DRGN_ERROR_OVERFLOW
                        "DW_AT_count is too large")
            else Ok {| dimension_length := word;
                       dimension_is_complete := true |}
      end
  end.

(** The loop over the children of the array DIE: a dimension is appended
    for every DW_TAG_subrange_type child. *)
Fixpoint array_dimensions (children : list Dwarf_Die)
    (dimensions : list array_dimension) : result (list array_dimension) :=
  match children with
  | [] => Ok dimensions
  | child :: rest =>
      if die_tag child =? DW_TAG_subrange_type then
        do dimension <- subrange_length child;
        array_dimensions rest (dimensions ++ [dimension])
      else array_dimensions rest dimensions
  end.

Section Constructor.

Variable drgn_type : Type.
Variable drgn_language : Type.

(** The environment: libdw's walk over the children of a DIE
    ([dwarf_child], [dwarf_siblingof]), given by the children it yields
    and whether it ended with an error; the DIE lookup, the language of a
    DIE and the void type, which [drgn_type_from_dwarf_attr] needs; and
    the array constructors of the type system. *)
Variable dwarf_children : Dwarf_Die -> list Dwarf_Die * bool.
Variable dwarf_offdie : Z -> option Dwarf_Die.
Variable drgn_language_from_die : Dwarf_Die -> result drgn_language.
Variable drgn_void_type : drgn_language -> drgn_type.
Variable drgn_array_type_create :
  drgn_qualified_type drgn_type -> Z -> drgn_language -> result drgn_type.
Variable drgn_incomplete_array_type_create :
  drgn_qualified_type drgn_type -> drgn_language -> result drgn_type.

Section Loop.

Variable lang : drgn_language.
Variable can_be_incomplete_array : bool.

(** The type that one iteration of the [do ... while] loop creates for
    the dimension it popped; [size] is [dimensions.size] after the pop. *)
Definition array_type_create (dimension : array_dimension) (size : Z)
    (element_type : drgn_qualified_type drgn_type) : result drgn_type :=
  if dimension_is_complete dimension then
    drgn_array_type_create element_type (dimension_length dimension) lang
  else if negb (size =? 0) || negb can_be_incomplete_array then
    drgn_array_type_create element_type 0 lang
  else drgn_incomplete_array_type_create element_type lang.

(** The [do ... while (dimensions.size)] loop: [dimension] was popped,
    and [dimensions] is what is left in the vector, in the order in which it
    will be popped (the last dimension first). *)
Fixpoint array_type_loop (dimension : array_dimension)
    (dimensions : list array_dimension)
    (element_type : drgn_qualified_type drgn_type) : result drgn_type :=
  do type <- array_type_create dimension
               (Z.of_nat (List.length dimensions)) element_type;
  match dimensions with
  | [] => Ok type
  | next :: rest =>
      array_type_loop next rest {| qt_type := type; qt_qualifiers := 0 |}
  end.

End Loop.

(** [drgn_array_type_from_dwarf]; the flag handed back with the type is
    what is stored in [*is_incomplete_array_ret]. *)
Definition drgn_array_type_from_dwarf (die : Dwarf_Die)
    (lang : drgn_language) (can_be_incomplete_array : bool)
    : construction drgn_type (result (drgn_type * option bool)) :=
  let '(children, failed) := dwarf_children die in
  match array_dimensions children [] with
  | Err e => Return (Err e)
  | Ok dimensions =>
      if failed
      then Return (Err (drgn_error_create DRGN_ERROR_OTHER
                          "libdw could not parse DIE children"))
      else
        let dimensions :=
          match dimensions with
          | [] => [incomplete_dimension]
          | _ => dimensions
          end in
        and_then drgn_type
          (drgn_type_from_dwarf_attr drgn_type drgn_language dwarf_offdie
             drgn_language_from_die drgn_void_type die (Some lang)
             false false) (fun r =>
        match r with
        | Err e => Return (Err e)
        | Ok (element_type, _) =>
            let is_incomplete_array :=
              negb (dimension_is_complete
                      (hd incomplete_dimension dimensions)) in
            Return
              (do type <-
                 array_type_loop lang can_be_incomplete_array
                   (last dimensions incomplete_dimension)
                   (rev (removelast dimensions)) element_type;
               Ok (type, Some is_incomplete_array))
        end)
  end.

End Constructor.

End ArrayCons.

(** Vocabulary for statements about array types. *)
Module ArraySpec.
Import TypeCons ArrayCons.

Section Nesting.

Variable drgn_type : Type.
Variable drgn_language : Type.
Variable drgn_array_type_create :
  drgn_qualified_type drgn_type -> Z -> drgn_language -> result drgn_type.
Variable drgn_incomplete_array_type_create :
  drgn_qualified_type drgn_type -> drgn_language -> result drgn_type.
Variable lang : drgn_language.
Variable can_be_incomplete_array : bool.

(** The array of one dimension over an element type: of the dimension's
    length when it is complete; otherwise incomplete when it is the first
    dimension and the caller can take an incomplete array, and of length 0
    when not. *)
Definition array_of (first : bool) (dimension : array_dimension)
    (element_type : drgn_qualified_type drgn_type) : result drgn_type :=
  if dimension_is_complete dimension then
    drgn_array_type_create element_type (dimension_length dimension) lang
  else if first && can_be_incomplete_array then
    drgn_incomplete_array_type_create element_type lang
  else drgn_array_type_create element_type 0 lang.

(** The type of an array with the given dimensions, the first dimension
    outermost: an array of arrays of ... of the element type. *)
Fixpoint nested_array (first : bool) (dimensions : list array_dimension)
    (element_type : drgn_qualified_type drgn_type)
    : result (drgn_qualified_type drgn_type) :=
  match dimensions with
  | [] => Ok element_type
  | dimension :: rest =>
      do inner <- nested_array false rest element_type;
      do type <- array_of first dimension inner;
      Ok {| qt_type := type; qt_qualifiers := 0 |}
  end.

End Nesting.

End ArraySpec.

(** Example data: [int a[2][3]] and [int b[]], with an array type that
    records its element type and its length. *)
Module ArrayExample.
Import TypeCons ArrayCons.

Inductive drgn_type :=
| ty_int
| ty_array (element : drgn_type) (length : Z)
| ty_incomplete_array (element : drgn_type).

Definition subrange (addr : Z) (upper_bound : option Z) : Dwarf_Die :=
  {| die_addr := addr; die_tag := DW_TAG_subrange_type;
     die_attr := fun name =>
       if name =? DW_AT_upper_bound then
         match upper_bound with
         | Some b => Some (attr_of_udata DW_FORM_data1 4 b)
         | None => None
         end
       else None;
     die_cu := TypeExample.cu |}.

Definition int_die : Dwarf_Die :=
  TypeExample.die 0x20 DW_TAG_base_type None.
Definition array_a : Dwarf_Die :=
  TypeExample.die 0x50 DW_TAG_array_type (Some 0x20).
Definition array_b : Dwarf_Die :=
  TypeExample.die 0x60 DW_TAG_array_type (Some 0x20).

Definition dwarf_children (d : Dwarf_Die) : list Dwarf_Die * bool :=
  if die_addr d =? 0x50
  then ([subrange 0x51 (Some 1); subrange 0x52 (Some 2)], false)
  else if die_addr d =? 0x60 then ([subrange 0x61 None], false)
  else ([], false).

Definition dwarf_offdie (addr : Z) : option Dwarf_Die :=
  if addr =? 0x20 then Some int_die else None.

(** The element type is built one level down: here it is [int]. *)
Definition internal (d : Dwarf_Die) (can_be_incomplete_array : bool)
    (dbinfo : drgn_debug_info drgn_type)
    : option (type_result drgn_type * drgn_debug_info drgn_type) :=
  Some (Ok ({| qt_type := ty_int; qt_qualifiers := 0 |}, None), dbinfo).

Definition array_type_from_dwarf (d : Dwarf_Die)
    (can_be_incomplete_array : bool)
    : option (result (drgn_type * option bool)
              * drgn_debug_info drgn_type) :=
  run drgn_type internal
    (drgn_array_type_from_dwarf drgn_type unit dwarf_children dwarf_offdie
       (fun _ => Ok tt) (fun _ => ty_int)
       (fun element length _ => Ok (ty_array (qt_type _ element) length))
       (fun element _ => Ok (ty_incomplete_array (qt_type _ element)))
       d tt can_be_incomplete_array)
    {| dwarf_depth := 1; dwarf_types := [];
       dwarf_cant_be_incomplete_array_types := [] |}.

End ArrayExample.

(** Vocabulary for statements about the expressions that a CFI row refers
    to. *)
Module CfiBounds.

(** The expression of a rule, if it has one, lies within a section of
    [size] bytes. *)
Definition rule_in_section (size : Z) (rule : drgn_cfi_rule) : Prop :=
  match rule with
  | RULE_AT_DWARF_EXPRESSION expr expr_size _
  | RULE_DWARF_EXPRESSION expr expr_size _ =>
      0 <= expr /\ 0 <= expr_size /\ expr + expr_size <= size
  | _ => True
  end.

Definition row_in_section (size : Z) (row : drgn_cfi_row) : Prop :=
  rule_in_section size (cfa_rule row) /\
  Forall (rule_in_section size) (reg_rules row).

(** The rows of a state of [drgn_eval_dwarf_cfi]: the current row and the
    rows on the state stack. *)
Definition rows_in_section (size : Z) (s : CfiEval.cfi_state) : Prop :=
  row_in_section size (CfiEval.cs_row s) /\
  Forall (row_in_section size) (CfiEval.cs_state_stack s).

(** [data->d_size] of the section that the instructions of an FDE are
    read from. *)
Definition frame_section_size (module : drgn_debug_info_module)
    (fde : drgn_dwarf_fde) : Z :=
  FrameParse.d_size module
    (if is_eh (nth (cie fde) (dwarf_cies module) cie0)
     then DRGN_SCN_EH_FRAME else DRGN_SCN_DEBUG_FRAME).

End CfiBounds.

(** Example data: the CIE of [CfiExample] with the FDE instructions
    [DW_CFA_def_cfa_expression [DW_OP_breg7 8];
     DW_CFA_val_expression r16 [DW_OP_lit0]] at offset 0 of .debug_frame. *)
Module CfiBoundsExample.
Import Buf.

Definition expression_frame : list byte :=
  bytes_of [ 0x0f; 2; 0x77; 8;   0x16; 16; 1; 0x30 ].

Definition expression_cie : drgn_dwarf_cie :=
  {| is_eh := false; address_size := 8; address_encoding := DW_EH_PE_absptr;
     have_augmentation_length := false; signal_frame := false;
     return_address_register := 16; code_alignment_factor := 1;
     data_alignment_factor := -8; initial_instructions := 0;
     initial_instructions_size := 0 |}.

Definition expression_module : drgn_debug_info_module :=
  {| platform := CfiExample.example_platform;
     scn_data := fun scn =>
       match scn with
       | DRGN_SCN_DEBUG_FRAME => Some expression_frame
       | _ => None
       end;
     pcrel_base := 0; textrel_base := 0; datarel_base := 0;
     dwarf_cies := [expression_cie]; module_bias := 0 |}.

Definition expression_fde : drgn_dwarf_fde :=
  {| cie := 0; initial_location := 0x401000; address_range := 0x20;
     instructions := 0; instructions_size := 8 |}.

End CfiBoundsExample.

(** * Properties *)

Lemma u64_range x : 0 <= u64 x < UINT64_MOD.
Proof. unfold u64, UINT64_MOD. apply Z.mod_pos_bound. lia. Qed.

Lemma u64_small x : 0 <= x < UINT64_MOD -> u64 x = x.
Proof. intros. unfold u64. now apply Z.mod_small. Qed.

(** ** FDE sorting and duplicate removal *)

Section FramesFacts.
Import Frames.

Variable cies : list drgn_dwarf_cie.

Let compar := drgn_dwarf_fde_compar cies.
Let le_fde (a b : drgn_dwarf_fde) : Prop := compar a b <= 0.

Lemma compar_le_iff a b :
  le_fde a b <->
  initial_location a < initial_location b \/
  (initial_location a = initial_location b /\
   Z.b2z (fde_is_eh cies a) <= Z.b2z (fde_is_eh cies b)).
Proof.
  unfold le_fde, compar, drgn_dwarf_fde_compar.
  destruct (Z.ltb_spec (initial_location a) (initial_location b)).
  - split; [intros _; now left | lia].
  - destruct (Z.gtb_spec (initial_location a) (initial_location b)).
    + split; [lia | intros [?|[? _]]; lia].
    + split; [intros; right; lia | intros [?|[_ ?]]; lia].
Qed.


Lemma le_fde_trans : Transitive le_fde.
Proof.
  intros a b c Hab Hbc.
  apply compar_le_iff in Hab, Hbc. apply compar_le_iff. lia.
Qed.

Lemma le_fde_total a b : le_fde a b \/ le_fde b a.
Proof.
  destruct (Z.lt_trichotomy (initial_location a) (initial_location b))
    as [H|[H|H]].
  - left. apply compar_le_iff. now left.
  - destruct (Z.le_ge_cases (Z.b2z (fde_is_eh cies a))
                (Z.b2z (fde_is_eh cies b))).
    + left. apply compar_le_iff. right. split; assumption.
    + right. apply compar_le_iff. right. split; [symmetry|]; assumption.
  - right. apply compar_le_iff. now left.
Qed.

Lemma le_fde_location a b : le_fde a b -> initial_location a <= initial_location b.
Proof. intros H. apply compar_le_iff in H. lia. Qed.

(** The reference sort meets the [qsort_r] contract. *)

Lemma qsort_insert_perm x l : Permutation (x :: l) (qsort_insert compar x l).
Proof.
  induction l as [|y tl IH]; simpl.
  - apply Permutation_refl.
  - destruct (compar x y <=? 0).
    + apply Permutation_refl.
    + eapply Permutation_trans; [apply perm_swap|].
      now apply perm_skip.
Qed.

Lemma qsort_insert_hd x l y :
  HdRel le_fde y l -> le_fde y x -> HdRel le_fde y (qsort_insert compar x l).
Proof.
  intros Hl Hx. destruct l as [|z tl]; simpl.
  - now constructor.
  - destruct (compar x z <=? 0); constructor; trivial.
    now inversion Hl.
Qed.

Lemma qsort_insert_sorted x l :
  Sorted le_fde l -> Sorted le_fde (qsort_insert compar x l).
Proof.
  induction 1 as [|y tl Hs IH Hhd]; simpl.
  - repeat constructor.
  - destruct (Z.leb_spec (compar x y) 0) as [Hle|Hgt].
    + constructor; [now constructor | now constructor].
    + constructor; [exact IH|].
      apply qsort_insert_hd; [exact Hhd|].
      destruct (le_fde_total x y) as [H|H]; [unfold le_fde in H; lia | exact H].
Qed.

Lemma qsort_r_meets_post l : qsort_r_post compar l (qsort_r compar l).
Proof.
  split.
  - induction l as [|x tl IH]; simpl; [constructor|].
    eapply Permutation_trans; [apply perm_skip, IH|].
    apply qsort_insert_perm.
  - induction l as [|x tl IH]; simpl; [constructor|].
    now apply qsort_insert_sorted.
Qed.

(** The in-place loop computes [dedup]. *)

Lemma nth_middle_app (pre : list drgn_dwarf_fde) x post :
  nth (List.length pre) (pre ++ x :: post) fde0 = x.
Proof. induction pre; simpl; auto. Qed.

Lemma vector_set_app (pre : list drgn_dwarf_fde) x y post :
  vector_set (List.length pre) y (pre ++ x :: post) = pre ++ y :: post.
Proof. induction pre; simpl; [reflexivity | now f_equal]. Qed.

Lemma dedup_loop_spec rest :
  forall kept0 last junk data' dst',
    dedup_loop (List.length rest) ((kept0 ++ [last]) ++ junk ++ rest)
      (List.length (kept0 ++ [last]) + List.length junk)
      (List.length (kept0 ++ [last])) = (data', dst') ->
    firstn dst' data' = (kept0 ++ [last]) ++ dedup_from last rest.
Proof.
  induction rest as [|f tl IH]; intros kept0 last junk data' dst' H.
  - simpl in H. inversion H; subst. simpl.
    rewrite firstn_app, firstn_all, Nat.sub_diag. simpl.
    now rewrite app_nil_r.
  - cbn [List.length dedup_loop dedup_from] in *.
    set (kept := kept0 ++ [last]) in *.
    assert (Hsrc : nth (List.length kept + List.length junk)
                     (kept ++ junk ++ f :: tl) fde0 = f).
    { rewrite app_assoc, <- length_app. apply nth_middle_app. }
    assert (Hdst : nth (List.length kept - 1) (kept ++ junk ++ f :: tl) fde0
                   = last).
    { unfold kept. rewrite length_app. simpl.
      replace (List.length kept0 + 1 - 1)%nat with (List.length kept0) by lia.
      rewrite <- app_assoc. simpl. apply nth_middle_app. }
    rewrite Hsrc, Hdst in H.
    destruct (initial_location f =? initial_location last); simpl in H.
    + (* duplicate: skipped *)
      replace (kept ++ junk ++ f :: tl) with (kept ++ (junk ++ [f]) ++ tl) in H
        by (rewrite <- (app_assoc junk); reflexivity).
      replace (S (List.length kept + List.length junk))
        with (List.length kept + List.length (junk ++ [f]))%nat in H
        by (rewrite length_app; simpl; lia).
      exact (IH kept0 last (junk ++ [f]) data' dst' H).
    + (* kept *)
      destruct junk as [|j junk'].
      * simpl in H. rewrite Nat.add_0_r, Nat.eqb_refl in H. simpl in H.
        replace (kept ++ f :: tl) with ((kept ++ [f]) ++ [] ++ tl) in H
          by (rewrite <- app_assoc; reflexivity).
        replace (S (List.length kept))
          with (List.length (kept ++ [f])) in H
          by (rewrite length_app; simpl; lia).
        replace (List.length (kept ++ [f]))
          with (List.length (kept ++ [f]) + List.length (@nil drgn_dwarf_fde))%nat
          in H at 1 by (simpl; lia).
        rewrite (IH kept f [] data' dst' H).
        rewrite <- app_assoc. reflexivity.
      * assert (Hne : Nat.eqb (List.length kept + List.length (j :: junk'))
                        (List.length kept) = false).
        { apply Nat.eqb_neq. simpl. lia. }
        rewrite Hne in H. simpl negb in H. cbv iota in H.
        change ((j :: junk') ++ f :: tl) with (j :: (junk' ++ f :: tl)) in H.
        rewrite vector_set_app in H.
        replace (kept ++ f :: junk' ++ f :: tl)
          with ((kept ++ [f]) ++ (junk' ++ [f]) ++ tl) in H
          by (rewrite <- !app_assoc; reflexivity).
        replace (S (List.length kept + List.length (j :: junk')))
          with (List.length (kept ++ [f]) + List.length (junk' ++ [f]))%nat in H
          by (rewrite !length_app; simpl; lia).
        replace (S (List.length kept))
          with (List.length (kept ++ [f])) in H
          by (rewrite length_app; simpl; lia).
        rewrite (IH kept f (junk' ++ [f]) data' dst' H).
        rewrite <- app_assoc. reflexivity.
Qed.

Lemma remove_duplicates_dedup l : remove_duplicates l = dedup l.
Proof.
  destruct l as [|f tl]; [reflexivity|].
  unfold remove_duplicates. cbn [List.length Nat.ltb Nat.leb].
  replace (S (List.length tl) - 1)%nat with (List.length tl) by lia.
  destruct (dedup_loop (List.length tl) (f :: tl) 1 1) as [data' dst'] eqn:E.
  apply (dedup_loop_spec tl [] f [] data' dst') in E. exact E.
Qed.

End FramesFacts.

Section DedupFacts.
Import Frames.

Variable cies : list drgn_dwarf_cie.

Let le_fde (a b : drgn_dwarf_fde) : Prop := drgn_dwarf_fde_compar cies a b <= 0.
Let lt_loc (a b : drgn_dwarf_fde) : Prop :=
  initial_location a < initial_location b.

Lemma dedup_from_incl last rest g :
  In g (dedup_from last rest) -> In g rest.
Proof.
  revert last. induction rest as [|f tl IH]; intros last; simpl; [tauto|].
  destruct (initial_location f =? initial_location last); simpl.
  - intros H. right. eauto.
  - intros [H|H]; [now left | right; eauto].
Qed.

Lemma dedup_from_sorted rest : forall last,
  StronglySorted le_fde (last :: rest) ->
  StronglySorted lt_loc (dedup_from last rest) /\
  Forall (lt_loc last) (dedup_from last rest).
Proof.
  induction rest as [|f tl IH]; intros last Hs; simpl.
  - split; constructor.
  - inversion Hs as [|? ? Htl Hall]; subst.
    inversion Hall as [|? ? Hlf Hall']; subst.
    inversion Htl as [|? ? Htl' Hfall]; subst.
    apply (le_fde_location cies) in Hlf.
    destruct (Z.eqb_spec (initial_location f) (initial_location last)) as [E|NE].
    + apply IH. constructor; assumption.
    + destruct (IH f Htl) as [Hsorted Hgt].
      split.
      * constructor; assumption.
      * constructor; [unfold lt_loc; lia|].
        eapply Forall_impl; [|exact Hgt].
        unfold lt_loc. intros; lia.
Qed.


Lemma dedup_sorted l :
  StronglySorted le_fde l -> StronglySorted lt_loc (dedup l).
Proof.
  destruct l as [|f tl]; simpl; intros Hs; [constructor|].
  destruct (dedup_from_sorted tl f Hs). now constructor.
Qed.

Lemma dedup_incl l g : In g (dedup l) -> In g l.
Proof.
  destruct l as [|f tl]; simpl; [tauto|].
  intros [H|H]; [now left | right; eapply dedup_from_incl; eauto].
Qed.


Lemma StronglySorted_nth_error {A} (R : A -> A -> Prop) l :
  StronglySorted R l ->
  forall i j a b, (i < j)%nat ->
    nth_error l i = Some a -> nth_error l j = Some b -> R a b.
Proof.
  induction 1 as [|x tl Hs IH Hall]; intros i j a b Hij Ha Hb.
  - destruct i; discriminate.
  - destruct j as [|j]; [lia|]. simpl in Hb.
    destruct i as [|i]; simpl in Ha.
    + inversion Ha; subst. rewrite Forall_forall in Hall.
      apply Hall. eapply nth_error_In; eauto.
    + apply (IH i j); [lia | assumption | assumption].
Qed.


End DedupFacts.

Example sort_and_dedup_example :
  Frames.qsort_r (Frames.drgn_dwarf_fde_compar FramesExample.cies)
    FramesExample.fdes = FramesExample.sorted /\
  Frames.sort_and_dedup FramesExample.cies FramesExample.fdes =
  [FramesExample.f2; FramesExample.f1; FramesExample.f4].
Proof. split; reflexivity. Qed.


(** ** CFI: parsing and executing the example section *)

Example parse_cie_example :
  Cfi.drgn_parse_dwarf_cie CfiExample.example_module DRGN_SCN_DEBUG_FRAME 0
  = Ok CfiExample.the_cie.
Proof. vm_compute. reflexivity. Qed.

Example find_cfi_example_3 :
  CfiEval.drgn_debug_info_find_cfi_in_fde CfiExample.example_module
    CfiExample.the_fde (0x401000 + 3)
  = Some (Ok CfiExample.initial_row).
Proof. vm_compute. reflexivity. Qed.

Example find_cfi_example_10 :
  CfiEval.drgn_debug_info_find_cfi_in_fde CfiExample.example_module
    CfiExample.the_fde (0x401000 + 10)
  = Some (Ok (drgn_cfi_row_set_cfa CfiExample.initial_row
                (RULE_REGISTER_PLUS_OFFSET 7 16))).
Proof. vm_compute. reflexivity. Qed.

(** ** Buffer facts *)

Lemma byte_to_Z_range b : 0 <= Buf.byte_to_Z b < 256.
Proof.
  unfold Buf.byte_to_Z. pose proof (Byte.to_N_bounded b). lia.
Qed.

Lemma le_bytes_to_Z_nonneg l : 0 <= Buf.le_bytes_to_Z l.
Proof.
  induction l as [|b tl IH]; cbn [Buf.le_bytes_to_Z]; [lia|].
  pose proof (byte_to_Z_range b). lia.
Qed.

Lemma next_uint_nonneg bb size v bb' :
  Buf.binary_buffer_next_uint bb size = Ok (v, bb') -> 0 <= v.
Proof.
  unfold Buf.binary_buffer_next_uint, bind.
  destruct (Buf.binary_buffer_check_bounds bb size); [|discriminate].
  intros H. inversion H; subst. unfold Buf.decode_uint.
  destruct (Buf.bb_little_endian bb); apply le_bytes_to_Z_nonneg.
Qed.

(** ** CFI: location advances *)

Ltac break_match :=
  match goal with
  | |- context [match ?x with _ => _ end] => destruct x eqn:?
  | H : context [match ?x with _ => _ end] |- _ => destruct x eqn:?
  end.

Section CfiAdvance.
Import Buf CfiEval CfiSpec.

Variable module : drgn_debug_info_module.
Variable fde : drgn_dwarf_fde.
Variable target : Z.

Let the_cie := nth (cie fde) (dwarf_cies module) cie0.

(** Whenever an instruction ends the walk, it moved the location beyond the
    target and left the row and the state stack alone. *)
Lemma found_keeps_row initial_row s s' :
  eval_cfi_instruction module fde initial_row target s = Ok (CfiFound s') ->
  cs_row s' = cs_row s /\ cs_state_stack s' = cs_state_stack s /\
  target < cs_pc s'.
Proof.
  unfold eval_cfi_instruction, bind. cbv zeta.
  intros H.
  repeat (break_match; try discriminate);
  match goal with
  | H : Ok (CfiFound _) = Ok (CfiFound _) |- _ => inversion H; subst; clear H
  end; cbn; repeat split; lia.
Qed.

Lemma advance_overflow_check pc tmp caf asz :
  0 <= pc -> 0 <= tmp * caf ->
  match mul_overflow_u64 tmp caf with
  | Some t =>
      match add_overflow_u64 pc t with
      | Some pc' => if pc' >? uint_max asz then None else Some pc'
      | None => None
      end
  | None => None
  end =
  if (pc + tmp * caf >? UINT64_MAX) || (pc + tmp * caf >? uint_max asz)
  then None else Some (pc + tmp * caf).
Proof.
  intros Hpc Hprod. unfold mul_overflow_u64, add_overflow_u64.
  destruct (Z.ltb_spec (tmp * caf) 0); [lia|]. simpl.
  destruct (Z.gtb_spec (tmp * caf) UINT64_MAX); simpl.
  - destruct (Z.gtb_spec (pc + tmp * caf) UINT64_MAX); [reflexivity | lia].
  - destruct (Z.ltb_spec (pc + tmp * caf) 0); [lia|]. simpl.
    destruct (Z.gtb_spec (pc + tmp * caf) UINT64_MAX); reflexivity.
Qed.

(** The [advance_loc:] label, as a function of the delta. *)
Lemma advance_loc_label s bb tmp :
  0 <= cs_pc s -> 0 <= tmp * code_alignment_factor the_cie ->
  match mul_overflow_u64 tmp (code_alignment_factor the_cie) with
  | Some t =>
      match add_overflow_u64 (cs_pc s) t with
      | Some pc =>
          if pc >? uint_max (address_size the_cie)
          then Err location_overflow
          else
            if pc >? target
            then Ok (CfiFound {| cs_bb := bb; cs_pc := pc; cs_row := cs_row s;
                                 cs_state_stack := cs_state_stack s |})
            else Ok (CfiContinue {| cs_bb := bb; cs_pc := pc;
                                    cs_row := cs_row s;
                                    cs_state_stack := cs_state_stack s |})
      | None => Err location_overflow
      end
  | None => Err location_overflow
  end =
  let pc' := cs_pc s + tmp * code_alignment_factor the_cie in
  if (pc' >? UINT64_MAX) || (pc' >? uint_max (address_size the_cie))
  then Err location_overflow
  else Ok (move_location target s bb pc').
Proof.
  intros Hpc Hprod.
  pose proof (advance_overflow_check (cs_pc s) tmp
                (code_alignment_factor the_cie) (address_size the_cie)
                Hpc Hprod) as E.
  cbv zeta. unfold move_location.
  destruct (mul_overflow_u64 tmp (code_alignment_factor the_cie)) as [t|].
  - destruct (add_overflow_u64 (cs_pc s) t) as [pc'|].
    + destruct (pc' >? uint_max (address_size the_cie)).
      * destruct (_ || _); [reflexivity | discriminate].
      * destruct (_ || _); [discriminate|]. inversion E; subst.
        destruct (_ >? target); reflexivity.
    + destruct (_ || _); [reflexivity | discriminate].
  - destruct (_ || _); [reflexivity | discriminate].
Qed.

Lemma advance_loc_step irow s opcode bb1 delta bb2 :
  0 <= cs_pc s -> 0 <= code_alignment_factor the_cie ->
  binary_buffer_next_u8 (cs_bb s) = Ok (opcode, bb1) ->
  advance_loc_delta opcode bb1 = Some (Ok (delta, bb2)) ->
  eval_cfi_instruction module fde (Some irow) target s =
  let pc' := cs_pc s + delta * code_alignment_factor the_cie in
  if (pc' >? UINT64_MAX) || (pc' >? uint_max (address_size the_cie))
  then Err location_overflow
  else Ok (move_location target s bb2 pc').
Proof.
  intros Hpc Hcaf Hop Hdelta.
  assert (Hopr : 0 <= opcode) by (eapply next_uint_nonneg; exact Hop).
  unfold advance_loc_delta in Hdelta.
  unfold eval_cfi_instruction. rewrite Hop. cbn [bind]. cbv zeta.
  destruct (Z.eqb_spec (Z.land opcode 0xc0) DW_CFA_advance_loc) as [E|NE].
  - (* DW_CFA_advance_loc: delta in the low six bits *)
    inversion Hdelta; subst delta bb2. rewrite E.
    change (negb (DW_CFA_advance_loc =? 0)) with true. cbv iota.
    change (DW_CFA_advance_loc =? DW_CFA_set_loc) with false.
    change (DW_CFA_advance_loc =? DW_CFA_advance_loc) with true. cbv iota.
    apply (advance_loc_label s bb1 (Z.land opcode 63)); [exact Hpc|].
    apply Z.mul_nonneg_nonneg; [apply Z.land_nonneg; lia | exact Hcaf].
  - destruct (Z.eqb_spec opcode DW_CFA_advance_loc1) as [E1|NE1];
      [|destruct (Z.eqb_spec opcode DW_CFA_advance_loc2) as [E2|NE2];
        [|destruct (Z.eqb_spec opcode DW_CFA_advance_loc4) as [E4|NE4];
          [|discriminate]]];
      subst opcode; inversion Hdelta as [Hread]; clear Hdelta;
      change (negb (Z.land _ 192 =? 0)) with false; cbv iota;
      match goal with
      | |- context [if ?c =? DW_CFA_set_loc then _ else _] =>
          change (c =? DW_CFA_set_loc) with false;
          change (c =? DW_CFA_advance_loc) with false
      end; cbv iota.
    + change (DW_CFA_advance_loc1 =? DW_CFA_advance_loc1) with true. cbv iota.
      unfold binary_buffer_next_u8_into_u64. rewrite Hread. cbn [bind].
      apply (advance_loc_label s bb2 delta); [exact Hpc|].
      apply Z.mul_nonneg_nonneg; [eapply next_uint_nonneg; eauto | exact Hcaf].
    + change (DW_CFA_advance_loc2 =? DW_CFA_advance_loc1) with false.
      change (DW_CFA_advance_loc2 =? DW_CFA_advance_loc2) with true. cbv iota.
      unfold binary_buffer_next_u16_into_u64. rewrite Hread. cbn [bind].
      apply (advance_loc_label s bb2 delta); [exact Hpc|].
      apply Z.mul_nonneg_nonneg; [eapply next_uint_nonneg; eauto | exact Hcaf].
    + change (DW_CFA_advance_loc4 =? DW_CFA_advance_loc1) with false.
      change (DW_CFA_advance_loc4 =? DW_CFA_advance_loc2) with false.
      change (DW_CFA_advance_loc4 =? DW_CFA_advance_loc4) with true. cbv iota.
      unfold binary_buffer_next_u32_into_u64. rewrite Hread. cbn [bind].
      apply (advance_loc_label s bb2 delta); [exact Hpc|].
      apply Z.mul_nonneg_nonneg; [eapply next_uint_nonneg; eauto | exact Hcaf].
Qed.

(** DW_CFA_set_loc moves to the encoded address itself. *)
Lemma set_loc_step irow s bb1 addr bb2 :
  binary_buffer_next_u8 (cs_bb s) = Ok (DW_CFA_set_loc, bb1) ->
  Cfi.drgn_dwarf_cfi_next_encoded module bb1 (address_size the_cie)
    (address_encoding the_cie) (initial_location fde) = Ok (addr, bb2) ->
  eval_cfi_instruction module fde (Some irow) target s =
  if addr <=? cs_pc s
  then Err (binary_buffer_error
              "DW_CFA_set_loc location is not greater than current location"
              None)
  else Ok (move_location target s bb2 addr).
Proof.
  intros Hop Henc.
  unfold eval_cfi_instruction. rewrite Hop. cbn [bind]. cbv zeta.
  change (negb (Z.land DW_CFA_set_loc 192 =? 0)) with false. cbv iota.
  change (DW_CFA_set_loc =? DW_CFA_set_loc) with true. cbv iota.
  fold the_cie. rewrite Henc. cbn [bind].
  unfold move_location.
  destruct (addr <=? cs_pc s); [reflexivity|].
  destruct (addr >? target); reflexivity.
Qed.

(** In the pass over a CIE's initial instructions the location and restore
    opcodes are refused. *)
Lemma initial_pass_rejects s opcode bb1 :
  binary_buffer_next_u8 (cs_bb s) = Ok (opcode, bb1) ->
  location_or_restore_opcode opcode = true ->
  eval_cfi_instruction module fde None target s =
  Err (invalid_for_initial opcode).
Proof.
  intros Hop Hsel.
  unfold eval_cfi_instruction. rewrite Hop. cbn [bind]. cbv zeta.
  unfold location_or_restore_opcode in Hsel.
  destruct (Z.eqb_spec (Z.land opcode 0xc0) DW_CFA_advance_loc) as [E|NE].
  { rewrite E. reflexivity. }
  destruct (Z.eqb_spec (Z.land opcode 0xc0) DW_CFA_restore) as [E'|NE'].
  { rewrite E'. reflexivity. }
  simpl in Hsel.
  destruct (Z.eqb_spec opcode DW_CFA_set_loc) as [->|]; [reflexivity|].
  destruct (Z.eqb_spec opcode DW_CFA_advance_loc1) as [->|]; [reflexivity|].
  destruct (Z.eqb_spec opcode DW_CFA_advance_loc2) as [->|]; [reflexivity|].
  destruct (Z.eqb_spec opcode DW_CFA_advance_loc4) as [->|]; [reflexivity|].
  destruct (Z.eqb_spec opcode DW_CFA_restore_extended) as [->|]; [reflexivity|].
  discriminate.
Qed.

(** The loop returns as soon as an instruction says [found]. *)
Lemma loop_stops_when_found initial_row fuel s s' :
  binary_buffer_has_next (cs_bb s) = true ->
  eval_cfi_instruction module fde initial_row target s = Ok (CfiFound s') ->
  eval_cfi_loop module fde initial_row target (S fuel) s =
  Some (Ok (cs_row s)).
Proof.
  intros Hnext Hstep. cbn [eval_cfi_loop]. rewrite Hnext, Hstep.
  destruct (found_keeps_row _ _ _ Hstep) as [-> _]. reflexivity.
Qed.

End CfiAdvance.

Section CfiAdvanceClaim.
Import Buf CfiEval CfiSpec.

(** C2 (amended).  While the instructions of an FDE are executed for a
    target PC, DW_CFA_advance_loc, advance_loc1, advance_loc2 and
    advance_loc4 move the current location by their delta times the CIE's
    code alignment factor (an error when the result overflows the address
    size), whereas DW_CFA_set_loc moves it to its encoded address operand,
    which must be greater than the current location and is not scaled.
    Execution stops as soon as the location exceeds the target, and the row
    returned is the one in effect before that instruction.  Among a CIE's
    initial instructions the location opcodes, DW_CFA_restore and
    DW_CFA_restore_extended raise an error.  For the CIE
    [def_cfa(r7, 8); offset(r16, -8)] with code alignment factor 1 and the
    FDE [advance_loc(4); def_cfa_offset(16)], the row for
    [initial_location + 3] has CFA = r7+8 and the row for
    [initial_location + 10] has CFA = r7+16, with r16 = at(CFA-8) in both. *)
Theorem cfi_location_advance
    (module : drgn_debug_info_module) (fde : drgn_dwarf_fde) (target : Z)
    (irow : drgn_cfi_row) (s : cfi_state) (opcode : Z) (bb1 : binary_buffer) :
  let the_cie := nth (cie fde) (dwarf_cies module) cie0 in
  0 <= cs_pc s ->
  0 <= code_alignment_factor the_cie ->
  binary_buffer_has_next (cs_bb s) = true ->
  binary_buffer_next_u8 (cs_bb s) = Ok (opcode, bb1) ->
  (forall delta bb2,
     advance_loc_delta opcode bb1 = Some (Ok (delta, bb2)) ->
     eval_cfi_instruction module fde (Some irow) target s =
     let pc' := cs_pc s + delta * code_alignment_factor the_cie in
     if (pc' >? UINT64_MAX) || (pc' >? uint_max (address_size the_cie))
     then Err location_overflow
     else Ok (move_location target s bb2 pc')) /\
  (forall addr bb2,
     opcode = DW_CFA_set_loc ->
     Cfi.drgn_dwarf_cfi_next_encoded module bb1 (address_size the_cie)
       (address_encoding the_cie) (initial_location fde) = Ok (addr, bb2) ->
     eval_cfi_instruction module fde (Some irow) target s =
     if addr <=? cs_pc s
     then Err (binary_buffer_error
                 "DW_CFA_set_loc location is not greater than current location"
                 None)
     else Ok (move_location target s bb2 addr)) /\
  (forall initial_row s' fuel,
     eval_cfi_instruction module fde initial_row target s = Ok (CfiFound s') ->
     target < cs_pc s' /\
     eval_cfi_loop module fde initial_row target (S fuel) s =
     Some (Ok (cs_row s))) /\
  (location_or_restore_opcode opcode = true ->
   eval_cfi_instruction module fde None target s =
   Err (invalid_for_initial opcode)) /\
  (exists row3 row10,
     drgn_debug_info_find_cfi_in_fde CfiExample.example_module
       CfiExample.the_fde (0x401000 + 3) = Some (Ok row3) /\
     drgn_debug_info_find_cfi_in_fde CfiExample.example_module
       CfiExample.the_fde (0x401000 + 10) = Some (Ok row10) /\
     drgn_cfi_row_get_cfa row3 = RULE_REGISTER_PLUS_OFFSET 7 8 /\
     drgn_cfi_row_get_register row3 16 = RULE_AT_CFA_PLUS_OFFSET (-8) /\
     drgn_cfi_row_get_cfa row10 = RULE_REGISTER_PLUS_OFFSET 7 16 /\
     drgn_cfi_row_get_register row10 16 = RULE_AT_CFA_PLUS_OFFSET (-8)).
Proof.
  intros the_cie Hpc Hcaf Hnext Hop.
  split; [|split; [|split; [|split]]].
  - intros delta bb2 Hdelta.
    exact (advance_loc_step module fde target irow s opcode bb1 delta bb2
             Hpc Hcaf Hop Hdelta).
  - intros addr bb2 -> Henc.
    exact (set_loc_step module fde target irow s bb1 addr bb2 Hop Henc).
  - intros initial_row s' fuel Hstep. split.
    + apply (found_keeps_row _ _ _ _ _ _ Hstep).
    + exact (loop_stops_when_found module fde target initial_row fuel s s'
               Hnext Hstep).
  - exact (initial_pass_rejects module fde target s opcode bb1 Hop).
  - eexists; eexists.
    split; [exact find_cfi_example_3|].
    split; [exact find_cfi_example_10|].
    repeat split.
Qed.

Lemma cfi_location_advance_witness :
  let s := CfiExample.state_at CfiExample.example_module 44
             CfiExample.initial_row in
  eval_cfi_instruction CfiExample.example_module CfiExample.the_fde
    (Some CfiExample.initial_row) 0x401003 s =
  Ok (CfiFound {| cs_bb := advance (cs_bb s) 1; cs_pc := 0x401004;
                  cs_row := CfiExample.initial_row; cs_state_stack := [] |}).
Proof.
  intros s.
  assert (H0 : 0 <= cs_pc s) by (vm_compute; discriminate).
  assert (H1 : 0 <= code_alignment_factor
                      (nth (cie CfiExample.the_fde)
                         (dwarf_cies CfiExample.example_module) cie0))
    by (vm_compute; discriminate).
  assert (H2 : binary_buffer_has_next (cs_bb s) = true) by reflexivity.
  assert (H3 : binary_buffer_next_u8 (cs_bb s) = Ok (0x44, advance (cs_bb s) 1))
    by reflexivity.
  destruct (cfi_location_advance CfiExample.example_module CfiExample.the_fde
              0x401003 CfiExample.initial_row s 0x44 (advance (cs_bb s) 1)
              H0 H1 H2 H3) as [Hadv _].
  rewrite (Hadv 4 (advance (cs_bb s) 1) eq_refl).
  reflexivity.
Defined.

(** DW_CFA_set_loc at location 0x401000 with operand 0x401009, under a code
    alignment factor of 4: the location becomes 0x401009, which is the
    operand and not the old location plus a multiple of the factor. *)
Lemma set_loc_not_factored :
  exists s',
    eval_cfi_instruction CfiExample.set_loc_module CfiExample.the_fde
      (Some CfiExample.initial_row) 0x401010
      (CfiExample.state_at CfiExample.set_loc_module 0 CfiExample.initial_row)
    = Ok (CfiContinue s') /\
    code_alignment_factor
      (nth (cie CfiExample.the_fde)
         (dwarf_cies CfiExample.set_loc_module) cie0) = 4 /\
    cs_pc s' = 0x401009 /\
    forall delta, cs_pc s' <> 0x401000 + delta * 4.
Proof.
  eexists. split; [vm_compute; reflexivity|].
  split; [reflexivity|]. split; [reflexivity|].
  cbn [cs_pc]. intros delta. lia.
Qed.

End CfiAdvanceClaim.

(** ** CFI: register numbers without an internal register *)




Section CfiUnknownRegister.
Import Buf CfiEval CfiSpec.

Variable module : drgn_debug_info_module.
Variable fde : drgn_dwarf_fde.
Variable target : Z.

Let the_cie := nth (cie fde) (dwarf_cies module) cie0.




End CfiUnknownRegister.


Example restore_unmapped_register_skipped :
  let s := CfiExample.state_at CfiExample.set_loc_module 11
             CfiExample.initial_row in
  CfiEval.eval_cfi_instruction CfiExample.set_loc_module CfiExample.the_fde
    (Some CfiExample.initial_row) 0x401010 s =
  Ok (CfiSpec.skipped s (Buf.advance (CfiEval.cs_bb s) 1)).
Proof. reflexivity. Qed.

(** ** DWARF 4 location lists *)

Section Loclist4.
Import Buf Loc LocSpec.

Variable cu_die : Dwarf_Die.
Variable address_size : Z.
Variable pc : Z.

(** The walker agrees with "decode, then take the first entry that
    contains the PC". *)
Lemma loclist4_walk_decode fuel : forall bb base es,
  decode_loc4 cu_die address_size fuel bb base = Some (Ok es) ->
  loclist4_loop cu_die address_size pc fuel {| l4_bb := bb; l4_base := base |}
  = Some (Ok (select_loc4 pc es)).
Proof.
  induction fuel as [|fuel IH]; intros bb base es H; [discriminate|].
  cbn [decode_loc4] in H. cbn [loclist4_loop].
  unfold loclist4_entry, bind. cbn [l4_bb l4_base].
  destruct (binary_buffer_next_uint bb address_size) as [[start bb1]|];
    [|discriminate].
  destruct (binary_buffer_next_uint bb1 address_size) as [[end_ bb2]|];
    [|discriminate].
  destruct ((start =? 0) && (end_ =? 0)).
  { inversion H; subst. reflexivity. }
  destruct (start =? uint_max address_size).
  { apply IH. exact H. }
  assert (Hb : match base with
               | Some b => Ok b
               | None => match dwarf_lowpc cu_die with
                         | Some low_pc => Ok low_pc
                         | None => Err drgn_error_libdw
                         end
               end
               = match (match base with
                        | Some b => Some b
                        | None => dwarf_lowpc cu_die
                        end) with
                 | Some b => Ok b
                 | None => Err drgn_error_libdw
                 end).
  { destruct base; [reflexivity|]. destruct (dwarf_lowpc cu_die); reflexivity. }
  rewrite Hb. clear Hb.
  destruct (match base with Some b => Some b | None => dwarf_lowpc cu_die end)
    as [b|]; [|discriminate].
  destruct (binary_buffer_next_u16 bb2) as [[expr_size bb3]|]; [|discriminate].
  destruct (expr_size >? bb_end bb3 - bb_pos bb3); [discriminate|].
  destruct (decode_loc4 cu_die address_size fuel _ (Some b)) as [[es'|]|] eqn:E;
    try discriminate.
  inversion H; subst es; clear H.
  unfold select_loc4. cbn [find]. unfold loc4_contains at 1.
  cbn [range_lo range_hi range_expr range_expr_size].
  destruct ((u64 (b + start) <=? pc) && (pc <? u64 (b + end_))).
  - reflexivity.
  - rewrite (IH _ _ _ E). reflexivity.
Qed.

(** What one iteration does with the pair it reads. *)
Lemma loclist4_entry_cases s start bb1 end_ bb2 :
  binary_buffer_next_uint (l4_bb s) address_size = Ok (start, bb1) ->
  binary_buffer_next_uint bb1 address_size = Ok (end_, bb2) ->
  (* the terminator: an empty expression *)
  (start = 0 -> end_ = 0 ->
   loclist4_entry cu_die address_size pc s = Ok (LlReturn None 0)) /\
  (* a base-address entry *)
  (start = uint_max address_size -> start <> 0 ->
   loclist4_entry cu_die address_size pc s =
   Ok (LlContinue {| l4_bb := bb2; l4_base := Some end_ |})) /\
  (* a range entry, relative to the base, which defaults to DW_AT_low_pc *)
  (forall base expr_size bb3,
     start <> uint_max address_size -> (start <> 0 \/ end_ <> 0) ->
     match l4_base s with Some b => Some b | None => dwarf_lowpc cu_die end
       = Some base ->
     binary_buffer_next_u16 bb2 = Ok (expr_size, bb3) ->
     expr_size <= bb_end bb3 - bb_pos bb3 ->
     loclist4_entry cu_die address_size pc s =
     if (u64 (base + start) <=? pc) && (pc <? u64 (base + end_))
     then Ok (LlReturn (Some (bb_pos bb3)) expr_size)
     else Ok (LlContinue {| l4_bb := set_pos bb3 (bb_pos bb3 + expr_size);
                            l4_base := Some base |})).
Proof.
  intros H1 H2. unfold loclist4_entry. rewrite H1. cbn [bind]. rewrite H2.
  cbn [bind]. split; [|split].
  - intros -> ->. reflexivity.
  - intros Hmax Hnz. rewrite <- Hmax.
    destruct (Z.eqb_spec start 0) as [E|_]; [contradiction|].
    cbn [andb]. rewrite Z.eqb_refl. reflexivity.
  - intros base expr_size bb3 Hmax Hnz Hbase Hsize Hbound.
    replace ((start =? 0) && (end_ =? 0)) with false.
    2: { symmetry. apply andb_false_iff.
         destruct Hnz as [Hnz|Hnz]; [left|right]; now apply Z.eqb_neq. }
    apply Z.eqb_neq in Hmax. rewrite Hmax.
    assert (Hb : match l4_base s with
                 | Some b => Ok b
                 | None => match dwarf_lowpc cu_die with
                           | Some low_pc => Ok low_pc
                           | None => Err drgn_error_libdw
                           end
                 end = Ok base).
    { destruct (l4_base s); [congruence|].
      destruct (dwarf_lowpc cu_die); congruence. }
    rewrite Hb. cbn [bind]. rewrite Hsize. cbn [bind].
    replace (expr_size >? bb_end bb3 - bb_pos bb3) with false
      by (symmetry; rewrite Z.gtb_ltb; apply Z.ltb_ge; lia).
    reflexivity.
Qed.

End Loclist4.

Example loclist4_example_entries :
  LocSpec.loclist4_entries LocExample.cu_die 8 LocExample.loc_module 0 =
  Some (Ok [ {| LocSpec.range_lo := 0x1000; LocSpec.range_hi := 0x1100;
                LocSpec.range_expr := 18; LocSpec.range_expr_size := 1 |};
             {| LocSpec.range_lo := 0x1100; LocSpec.range_hi := 0x1200;
                LocSpec.range_expr := 37; LocSpec.range_expr_size := 1 |} ]).
Proof. vm_compute. reflexivity. Qed.

Example loclist4_example_base_entry :
  LocSpec.loclist4_entries LocExample.cu_die 8 LocExample.loc_module 54 =
  Some (Ok [ {| LocSpec.range_lo := 0x400010; LocSpec.range_hi := 0x400020;
                LocSpec.range_expr := 54 + 34;
                LocSpec.range_expr_size := 1 |} ]) /\
  Loc.drgn_dwarf4_location_list LocExample.loc_module LocExample.cu_die 8
    0x400018 54 = Some (Ok (Some 88, 1)).
Proof. split; vm_compute; reflexivity. Qed.

Section Loclist4Claim.
Import Buf Loc LocSpec.

(** C4.  Walking the DWARF 4 location list at [offset] of .debug_loc for a
    PC: a pair (start, end) whose start is the maximum value of the address
    size sets the base address to its end; any other pair is relative to the
    current base, which is the CU's DW_AT_low_pc as long as no base-address
    entry was seen; the expression of the first entry whose
    [base+start, base+end) contains the PC is returned, and reaching the
    (0, 0) terminator returns the empty expression.  With the entries
    (0x1000, 0x1100, [reg0]) and (0x1100, 0x1200, [reg1]) and base 0,
    pc = 0x1150 selects the reg1 expression and pc = 0x1200 selects none. *)
Theorem dwarf4_location_list_selects
    (module : drgn_debug_info_module) (cu_die : Dwarf_Die)
    (address_size pc offset : Z) (data : list byte)
    (entries : list loc4_entry) :
  scn_data module DRGN_SCN_DEBUG_LOC = Some data ->
  offset <= Z.of_nat (List.length data) ->
  loclist4_entries cu_die address_size module offset = Some (Ok entries) ->
  drgn_dwarf4_location_list module cu_die address_size pc offset =
    Some (Ok (select_loc4 pc entries)) /\
  (forall s start bb1 end_ bb2,
     binary_buffer_next_uint (l4_bb s) address_size = Ok (start, bb1) ->
     binary_buffer_next_uint bb1 address_size = Ok (end_, bb2) ->
     (start = 0 -> end_ = 0 ->
      loclist4_entry cu_die address_size pc s = Ok (LlReturn None 0)) /\
     (start = uint_max address_size -> start <> 0 ->
      loclist4_entry cu_die address_size pc s =
      Ok (LlContinue {| l4_bb := bb2; l4_base := Some end_ |})) /\
     (forall base expr_size bb3,
        start <> uint_max address_size -> (start <> 0 \/ end_ <> 0) ->
        match l4_base s with Some b => Some b | None => dwarf_lowpc cu_die end
          = Some base ->
        binary_buffer_next_u16 bb2 = Ok (expr_size, bb3) ->
        expr_size <= bb_end bb3 - bb_pos bb3 ->
        loclist4_entry cu_die address_size pc s =
        if (u64 (base + start) <=? pc) && (pc <? u64 (base + end_))
        then Ok (LlReturn (Some (bb_pos bb3)) expr_size)
        else Ok (LlContinue {| l4_bb := set_pos bb3 (bb_pos bb3 + expr_size);
                               l4_base := Some base |}))) /\
  drgn_dwarf4_location_list LocExample.loc_module LocExample.cu_die 8
    0x1150 0 = Some (Ok (Some 37, 1)) /\
  nth 37 LocExample.debug_loc x00 = "Q"%byte (* DW_OP_reg1 *) /\
  drgn_dwarf4_location_list LocExample.loc_module LocExample.cu_die 8
    0x1200 0 = Some (Ok (None, 0)).
Proof.
  intros Hscn Hoff Hdec.
  split; [|split; [|split; [|split]]].
  - unfold drgn_dwarf4_location_list. rewrite Hscn.
    unfold loclist4_entries in Hdec.
    unfold drgn_debug_info_buffer_init in *. rewrite Hscn in *.
    unfold binary_buffer_init in *. cbn [bb_end bb_pos] in *.
    replace (offset >? Z.of_nat (List.length data) - 0) with false
      by (symmetry; rewrite Z.gtb_ltb; apply Z.ltb_ge; lia).
    apply loclist4_walk_decode. exact Hdec.
  - intros s start bb1 end_ bb2 H1 H2.
    exact (loclist4_entry_cases cu_die address_size pc s start bb1 end_ bb2
             H1 H2).
  - vm_compute. reflexivity.
  - reflexivity.
  - vm_compute. reflexivity.
Qed.

Lemma dwarf4_location_list_selects_witness :
  drgn_dwarf4_location_list LocExample.loc_module LocExample.cu_die 8
    0x1010 0 = Some (Ok (Some 18, 1)).
Proof.
  assert (H1 : scn_data LocExample.loc_module DRGN_SCN_DEBUG_LOC =
               Some LocExample.debug_loc) by reflexivity.
  assert (H2 : 0 <= Z.of_nat (List.length LocExample.debug_loc))
    by (vm_compute; discriminate).
  destruct (dwarf4_location_list_selects LocExample.loc_module
              LocExample.cu_die 8 0x1010 0 LocExample.debug_loc _
              H1 H2 loclist4_example_entries) as [H _].
  rewrite H. reflexivity.
Defined.

End Loclist4Claim.

(** ** DWARF 5 location lists *)

Lemma uleb128_loop_nonneg bytes : forall shift value n v k,
  0 <= value -> Buf.uleb128_loop bytes shift value n = Ok (v, k) -> 0 <= v.
Proof.
  induction bytes as [|b tl IH]; intros shift value n v k Hv H; [discriminate|].
  cbn [Buf.uleb128_loop] in H.
  destruct ((shift =? 63) && (Buf.byte_to_Z b >? 1)); [discriminate|].
  assert (Hv' : 0 <= Z.lor value
                       (u64 (Z.shiftl (Z.land (Buf.byte_to_Z b) 127) shift))).
  { apply Z.lor_nonneg. split; [exact Hv | apply u64_range]. }
  destruct (Z.land (Buf.byte_to_Z b) 128 =? 0).
  - inversion H; subst. exact Hv'.
  - eapply IH; eauto.
Qed.

Lemma next_uleb128_nonneg bb v bb' :
  Buf.binary_buffer_next_uleb128 bb = Ok (v, bb') -> 0 <= v.
Proof.
  unfold Buf.binary_buffer_next_uleb128, bind.
  destruct (Buf.uleb128_loop (Buf.remaining bb) 0 0 0) as [[v' k]|] eqn:E;
    [|discriminate].
  intros H. inversion H; subst. eapply uleb128_loop_nonneg; [|exact E]. lia.
Qed.

Lemma next_addrx_nonneg bb module cu_die address_size addr_base v bb' ab' :
  Loc.drgn_dwarf_next_addrx bb module cu_die address_size addr_base =
    Ok (v, bb', ab') ->
  0 <= v.
Proof.
  unfold Loc.drgn_dwarf_next_addrx, bind. intros H.
  repeat (break_match; try discriminate).
  all: inversion H; subst; unfold Loc.load_uint, Buf.decode_uint;
    destruct (platform_is_little_endian _); apply le_bytes_to_Z_nonneg.
Qed.

Lemma find_snoc {A} (f : A -> bool) l x :
  find f (l ++ [x]) =
  match find f l with
  | Some y => Some y
  | None => if f x then Some x else None
  end.
Proof.
  induction l as [|y tl IH]; cbn [app find]; [reflexivity|].
  destruct (f y); [reflexivity | exact IH].
Qed.

Section Loclist5.
Import Buf Loc LocSpec.

Lemma select_lle_ranged pc fb start length expr expr_size es :
  select_lle pc fb (LleRanged start length expr expr_size :: es) =
  if (start <=? pc) && (pc - start <? length) then (Some expr, expr_size)
  else select_lle pc fb es.
Proof.
  unfold select_lle, selected_lle. cbn [find lle_covers].
  destruct ((start <=? pc) && (pc - start <? length)); [reflexivity|].
  destruct (find (lle_covers pc) es); [reflexivity|].
  cbn [rev]. rewrite find_snoc. cbn [lle_is_default].
  destruct (find lle_is_default (rev es)); reflexivity.
Qed.

Lemma select_lle_default pc fb expr expr_size es :
  select_lle pc fb (LleDefault expr expr_size :: es) =
  select_lle pc (Some expr, expr_size) es.
Proof.
  unfold select_lle, selected_lle. cbn [find lle_covers].
  destruct (find (lle_covers pc) es); [reflexivity|].
  cbn [rev]. rewrite find_snoc. cbn [lle_is_default].
  destruct (find lle_is_default (rev es)); reflexivity.
Qed.

(** The range test of the walker, on 64-bit values, is the plain interval
    test. *)
Lemma covers_u64 pc start length :
  0 <= start -> 0 <= pc < UINT64_MOD ->
  (pc >=? start) && (u64 (pc - start) <? length) =
  (start <=? pc) && (pc - start <? length).
Proof.
  intros Hs Hpc. rewrite Z.geb_leb.
  destruct (Z.leb_spec start pc); [|reflexivity]. cbn [andb].
  rewrite u64_small by lia. reflexivity.
Qed.

Variable module : drgn_debug_info_module.
Variable cu_die : Dwarf_Die.
Variable address_size : Z.
Variable pc : Z.
Hypothesis pc_range : 0 <= pc < UINT64_MOD.

(** The walker agrees with "decode, then select". *)
Lemma loclist5_walk_decode fuel : forall bb addr_base base expr expr_size es,
  decode_lle module cu_die address_size fuel bb addr_base base = Some (Ok es) ->
  loclist5_loop module cu_die address_size pc fuel
    {| ll_bb := bb; ll_addr_base := addr_base; ll_base := base;
       ll_expr := expr; ll_expr_size := expr_size |}
  = Some (Ok (select_lle pc (expr, expr_size) es)).
Proof.
  induction fuel as [|fuel IH]; intros bb addr_base base expr expr_size es H;
    [discriminate|].
  cbn [decode_lle] in H. cbn [loclist5_loop].
  unfold loclist5_entry, bind.
  cbn [ll_bb ll_addr_base ll_base ll_expr ll_expr_size].
  cbv zeta in H |- *.
  destruct (binary_buffer_next_u8 bb) as [[kind bb1]|]; [|discriminate].
  repeat match type of H with
  | context [kind =? ?k] => destruct (kind =? k)
  end.
  all: repeat match type of H with
  | context [match ?r with Ok _ => _ | Err _ => _ end] =>
      destruct r as [?|?] eqn:?; [|discriminate H]
  | context [let (_, _) := ?p in _] => destruct p
  | context [match ?o with Some _ => _ | None => _ end] =>
      destruct o eqn:?; try discriminate H
  | context [if ?c then _ else _] => destruct c eqn:?; try discriminate H
  end.
  all: try (inversion H; subst; clear H).
  all: try rewrite select_lle_ranged; try rewrite select_lle_default.
  all: try (rewrite covers_u64;
            [| first [ eapply next_uint_nonneg; eassumption
                     | eapply next_uleb128_nonneg; eassumption
                     | eapply next_addrx_nonneg; eassumption
                     | apply u64_range ]
             | exact pc_range ]).
  all: try match goal with
       | |- context [if ?c then _ else _] => destruct c
       end.
  all: try reflexivity; try (apply IH; assumption).
Qed.

(** The selected entry is a covering ranged entry as soon as there is one,
    and it is the first of them. *)
Lemma selected_lle_ranged entries r :
  In r entries -> lle_covers pc r = true ->
  exists e before after,
    selected_lle pc entries = Some e /\ lle_covers pc e = true /\
    entries = before ++ e :: after /\
    (forall x, In x before -> lle_covers pc x = false).
Proof.
  intros Hin Hcov. unfold selected_lle.
  destruct (find (lle_covers pc) entries) as [e|] eqn:E.
  - exists e. clear Hin Hcov r.
    induction entries as [|x tl IH]; [discriminate|].
    cbn [find] in E. destruct (lle_covers pc x) eqn:Hx.
    + inversion E; subst. exists [], tl. repeat split; auto.
      intros y [].
    + destruct (IH E) as [before [after [_ [Hc [-> Hb]]]]].
      exists (x :: before), after. repeat split; auto.
      intros y [<-|Hy]; auto.
  - exfalso. pose proof (find_none _ _ E r Hin). congruence.
Qed.

(** Without a covering ranged entry the selected entry is the last default
    entry, if there is one. *)
Lemma selected_lle_default entries :
  (forall r, In r entries -> lle_covers pc r = false) ->
  selected_lle pc entries = find lle_is_default (rev entries).
Proof.
  intros Hnone. unfold selected_lle.
  destruct (find (lle_covers pc) entries) as [e|] eqn:E; [|reflexivity].
  apply find_some in E. destruct E as [Hin Hc].
  rewrite (Hnone e Hin) in Hc. discriminate.
Qed.

End Loclist5.

Example loclist5_example_entries :
  LocSpec.loclist5_entries LocExample.loc_module LocExample.cu_die 8 0 =
  Some (Ok [ LocSpec.LleDefault 2 1; LocSpec.LleRanged 0x2000 0x10 14 1 ]).
Proof. vm_compute. reflexivity. Qed.

Section Loclist5Claim.
Import Buf Loc LocSpec.

(** C3.  Walking the DWARF 5 location list at [offset] of .debug_loclists
    for a PC returns the expression of the selected entry.  A ranged entry
    (startx_endx, startx_length, offset_pair, start_end, start_length) that
    covers the PC is selected wherever it stands in the list, before or
    after any default_location entry, and it is the first ranged entry that
    covers the PC.  When the list has a default_location entry, a
    default_location entry is the selected one if and only if no ranged
    entry of the list covers the PC, and it is then the last
    default_location entry.  In the list [default_location [reg3];
    start_length(0x2000, 0x10) [reg4]], pc = 0x2008 selects the reg4
    expression although the default entry comes first, and pc = 0x3000
    selects the default's reg3 expression. *)
Theorem dwarf5_location_list_selects
    (module : drgn_debug_info_module) (cu_die : Dwarf_Die)
    (address_size pc offset : Z) (data : list byte)
    (entries : list lle_entry) :
  0 <= pc < UINT64_MOD ->
  scn_data module DRGN_SCN_DEBUG_LOCLISTS = Some data ->
  offset <= Z.of_nat (List.length data) ->
  loclist5_entries module cu_die address_size offset = Some (Ok entries) ->
  drgn_dwarf5_location_list module cu_die address_size pc offset =
    Some (Ok (select_lle pc (None, 0) entries)) /\
  (forall r, In r entries -> lle_covers pc r = true ->
     exists e before after,
       selected_lle pc entries = Some e /\ lle_covers pc e = true /\
       entries = before ++ e :: after /\
       (forall x, In x before -> lle_covers pc x = false)) /\
  (forall d, In d entries -> lle_is_default d = true ->
     ((exists e, selected_lle pc entries = Some e /\ lle_is_default e = true)
      <-> (forall r, In r entries -> lle_covers pc r = false)) /\
     ((forall r, In r entries -> lle_covers pc r = false) ->
      selected_lle pc entries = find lle_is_default (rev entries))) /\
  drgn_dwarf5_location_list LocExample.loc_module LocExample.cu_die 8
    0x2008 0 = Some (Ok (Some 14, 1)) /\
  drgn_dwarf5_location_list LocExample.loc_module LocExample.cu_die 8
    0x3000 0 = Some (Ok (Some 2, 1)).
Proof.
  intros Hpc Hscn Hoff Hdec.
  split; [|split; [|split; [|split]]].
  - unfold drgn_dwarf5_location_list. rewrite Hscn.
    unfold loclist5_entries in Hdec.
    unfold drgn_debug_info_buffer_init in *. rewrite Hscn in *.
    unfold binary_buffer_init in *. cbn [bb_end bb_pos] in *.
    replace (offset >? Z.of_nat (List.length data) - 0) with false
      by (symmetry; rewrite Z.gtb_ltb; apply Z.ltb_ge; lia).
    apply loclist5_walk_decode; assumption.
  - intros r Hin Hcov. exact (selected_lle_ranged pc entries r Hin Hcov).
  - intros d Hd Hdef. split; [split|].
    + intros [e [Hsel He]] r Hr.
      destruct (lle_covers pc r) eqn:Hc; [|reflexivity].
      destruct (selected_lle_ranged pc entries r Hr Hc)
        as [e' [_ [_ [Hsel' [Hc' _]]]]].
      rewrite Hsel in Hsel'. inversion Hsel'; subst e'.
      destruct e; cbn in He, Hc'; discriminate.
    + intros Hnone. rewrite (selected_lle_default pc entries Hnone).
      destruct (find lle_is_default (rev entries)) as [e|] eqn:E.
      * exists e. split; [reflexivity|]. now apply find_some in E.
      * exfalso. apply in_rev in Hd.
        pose proof (find_none _ _ E d Hd). congruence.
    + exact (selected_lle_default pc entries).
  - vm_compute. reflexivity.
  - vm_compute. reflexivity.
Qed.

Lemma dwarf5_location_list_selects_witness :
  drgn_dwarf5_location_list LocExample.loc_module LocExample.cu_die 8
    0x200f 0 = Some (Ok (Some 14, 1)).
Proof.
  assert (H0 : 0 <= 0x200f < UINT64_MOD) by (vm_compute; split; congruence).
  assert (H1 : scn_data LocExample.loc_module DRGN_SCN_DEBUG_LOCLISTS =
               Some LocExample.debug_loclists) by reflexivity.
  assert (H2 : 0 <= Z.of_nat (List.length LocExample.debug_loclists))
    by (vm_compute; discriminate).
  destruct (dwarf5_location_list_selects LocExample.loc_module
              LocExample.cu_die 8 0x200f 0 LocExample.debug_loclists _
              H0 H1 H2 loclist5_example_entries) as [H _].
  rewrite H. reflexivity.
Defined.

End Loclist5Claim.

(** ** Member offsets *)

Example member_offset_a :
  Member.parse_member_offset MemberExample.die_a
    (MemberExample.member_object 3) true = Ok 0.
Proof. reflexivity. Qed.

Example member_offset_b :
  Member.parse_member_offset MemberExample.die_b
    (MemberExample.member_object 5) true = Ok 3.
Proof. reflexivity. Qed.

Section MemberOffset.
Import Member.



End MemberOffset.

(** ** DWARF expressions: examples *)

Example shift_example :
  ExprExample.summary
    (FrameBase.drgn_eval_dwarf_expression
       (ExprExample.context ExprExample.module32 ExprExample.shift_expr)
       [] Expr.MAX_DWARF_EXPR_OPS)
  = Some (None, [0], 9997).
Proof. vm_compute. reflexivity. Qed.

Example mod_example :
  ExprExample.summary
    (FrameBase.drgn_eval_dwarf_expression
       (ExprExample.context ExprExample.module64 ExprExample.mod_expr)
       [] Expr.MAX_DWARF_EXPR_OPS)
  = Some (None, [0], 9997).
Proof. vm_compute. reflexivity. Qed.

Example div_example :
  ExprExample.summary
    (FrameBase.drgn_eval_dwarf_expression
       (ExprExample.context ExprExample.module64 ExprExample.div_expr)
       [] Expr.MAX_DWARF_EXPR_OPS)
  = Some (None, [2 ^ 64 - 2], 9997).
Proof. vm_compute. reflexivity. Qed.

Example loop_example :
  ExprExample.summary
    (FrameBase.drgn_eval_dwarf_expression
       (ExprExample.context ExprExample.module64 ExprExample.loop_expr)
       [] Expr.MAX_DWARF_EXPR_OPS)
  = Some (Some (binary_buffer_error
                  "DWARF expression executed too many operations" None),
          [], 0).
Proof. vm_compute. reflexivity. Qed.

(** ** Unknown constructs *)

Lemma next_uint_has_next bb size v bb' :
  0 < size ->
  Buf.binary_buffer_next_uint bb size = Ok (v, bb') ->
  Buf.binary_buffer_has_next bb = true.
Proof.
  unfold Buf.binary_buffer_next_uint, Buf.binary_buffer_check_bounds, bind.
  intros Hsize H.
  destruct (Z.ltb_spec (Buf.bb_end bb - Buf.bb_pos bb) size); [discriminate|].
  unfold Buf.binary_buffer_has_next. apply Z.ltb_lt. lia.
Qed.

(** Split a disjunction that is false into its false disjuncts. *)
Ltac all_false H :=
  repeat match type of H with
  | (_ || _) = false =>
      let H1 := fresh "Hf" in
      apply orb_false_elim in H; destruct H as [H H1]; try all_false H1
  end.

Section UnknownConstructs.
Import Buf Known.

Lemma unknown_expr_opcode_fails fb s opcode bb :
  binary_buffer_next_u8 (Expr.ctx_bb (Expr.es_ctx s)) = Ok (opcode, bb) ->
  known_expr_opcode opcode = false ->
  Expr.eval_op fb s =
  Some (Expr.OpReturn (Some (unknown_expr_opcode opcode)) s).
Proof.
  intros Hop Hk. unfold Expr.eval_op. rewrite Hop. cbv zeta beta iota.
  unfold known_expr_opcode in Hk. all_false Hk.
  repeat match goal with
  | H : _ = false |- _ => rewrite H; clear H
  end.
  cbn [orb andb]. reflexivity.
Qed.

Lemma unknown_cfi_opcode_fails module fde irow target s opcode bb :
  binary_buffer_next_u8 (CfiEval.cs_bb s) = Ok (opcode, bb) ->
  known_cfi_opcode opcode = false ->
  CfiEval.eval_cfi_instruction module fde irow target s =
  Err (unknown_cfi_opcode opcode).
Proof.
  intros Hop Hk. unfold CfiEval.eval_cfi_instruction. rewrite Hop. cbn [bind].
  cbv zeta. fold (CfiSpec.cfa_selector opcode).
  unfold known_cfi_opcode, known_cfi_selector in Hk. all_false Hk.
  repeat match goal with
  | H : _ = false |- _ => rewrite H; clear H
  end.
  reflexivity.
Qed.

Lemma unknown_lle_kind_fails module cu_die address_size pc s kind bb :
  binary_buffer_next_u8 (Loc.ll_bb s) = Ok (kind, bb) ->
  known_lle_kind kind = false ->
  Loc.loclist5_entry module cu_die address_size pc s =
  Err (binary_buffer_error "unknown location list entry kind %#x" (Some kind)).
Proof.
  intros Hop Hk. unfold Loc.loclist5_entry. rewrite Hop. cbn [bind]. cbv zeta.
  unfold known_lle_kind in Hk. all_false Hk.
  repeat match goal with
  | H : _ = false |- _ => rewrite H; clear H
  end.
  reflexivity.
Qed.

(** The first augmentation loop accepts exactly the valid strings. *)
Lemma augmentation_loop_spec aug0 rest : forall i sf,
  if forallb (fun '(i, c) => augmentation_char_ok aug0 i c)
       (combine (seq i (List.length rest)) rest)
  then exists sf', Cfi.augmentation_loop aug0 i rest sf = Ok sf'
  else Cfi.augmentation_loop aug0 i rest sf = Cfi.unknown_augmentation.
Proof.
  induction rest as [|c tl IH]; intros i sf.
  - cbn. eauto.
  - cbn [List.length seq combine forallb Cfi.augmentation_loop].
    unfold augmentation_char_ok at 1.
    destruct (Byte.eqb c "z") eqn:Ez.
    { apply Byte.byte_dec_bl in Ez. subst c. cbn [Byte.eqb orb andb].
      change (Byte.eqb "z" "L") with false.
      change (Byte.eqb "z" "P") with false.
      change (Byte.eqb "z" "R") with false.
      change (Byte.eqb "z" "S") with false.
      cbn [orb andb]. rewrite orb_false_r.
      destruct (Nat.eqb i 0); cbn [negb andb]; [apply IH | reflexivity]. }
    destruct (Byte.eqb c "L" || Byte.eqb c "P" || Byte.eqb c "R") eqn:El.
    { assert (Hs : Byte.eqb c "S" = false).
      { apply orb_true_iff in El. destruct El as [El|El];
          [apply orb_true_iff in El; destruct El as [El|El]|];
          apply Byte.byte_dec_bl in El; subst c; reflexivity. }
      rewrite Hs. cbn [andb orb]. rewrite orb_false_r.
      destruct (Byte.eqb aug0 "z"); cbn [negb andb]; [apply IH | reflexivity]. }
    cbn [andb orb].
    destruct (Byte.eqb c "S"); cbn [andb]; [apply IH | reflexivity].
Qed.

Lemma invalid_augmentation_fails module scn cie_pointer version augmentation bb :
  Cfi.parse_cie_header module scn cie_pointer = Ok (version, augmentation, bb) ->
  valid_augmentation augmentation = false ->
  Cfi.drgn_parse_dwarf_cie module scn cie_pointer = Cfi.unknown_augmentation.
Proof.
  intros Hhdr Hbad. unfold Cfi.drgn_parse_dwarf_cie. rewrite Hhdr. cbn [bind].
  pose proof (augmentation_loop_spec (nth 0 augmentation x00) augmentation
                0%nat false) as Hspec.
  unfold valid_augmentation in Hbad. rewrite Hbad in Hspec.
  rewrite Hspec. reflexivity.
Qed.

Lemma parsed_cie_has_valid_augmentation module scn cie_pointer cie :
  Cfi.drgn_parse_dwarf_cie module scn cie_pointer = Ok cie ->
  exists version augmentation bb,
    Cfi.parse_cie_header module scn cie_pointer =
      Ok (version, augmentation, bb) /\
    valid_augmentation augmentation = true.
Proof.
  intros H.
  destruct (Cfi.parse_cie_header module scn cie_pointer)
    as [[[version augmentation] bb]|] eqn:Hhdr.
  2: { unfold Cfi.drgn_parse_dwarf_cie in H. rewrite Hhdr in H.
       discriminate. }
  exists version, augmentation, bb. split; [reflexivity|].
  destruct (valid_augmentation augmentation) eqn:Hv; [reflexivity|].
  rewrite (invalid_augmentation_fails _ _ _ _ _ _ Hhdr Hv) in H.
  discriminate.
Qed.

End UnknownConstructs.

Example unknown_expr_opcodes :
  filter (fun o => negb (Known.known_expr_opcode o)) Known.all_bytes =
  [0; 1; 2; 4; 5; 7; 0x18; 0x95; 0x97; 0x98; 0x99; 0x9a; 0x9b; 0xa0] ++
  map Z.of_nat (seq 0xa3 (256 - 0xa3)).
Proof. vm_compute. reflexivity. Qed.

Example unknown_cfi_opcodes :
  filter (fun o => negb (Known.known_cfi_opcode o)) Known.all_bytes =
  map Z.of_nat (seq 0x17 (0x40 - 0x17)).
Proof. vm_compute. reflexivity. Qed.

Example augmentation_examples :
  Known.valid_augmentation (Buf.bytes_of [0x7a; 0x52]) = true /\       (* zR *)
  Known.valid_augmentation (Buf.bytes_of [0x7a; 0x50; 0x4c; 0x52; 0x53])
    = true /\                                                          (* zPLRS *)
  Known.valid_augmentation (Buf.bytes_of [0x53]) = true /\             (* S *)
  Known.valid_augmentation (Buf.bytes_of [0x52]) = false /\            (* R *)
  Known.valid_augmentation (Buf.bytes_of [0x7a; 0x7a]) = false /\      (* zz *)
  Known.valid_augmentation (Buf.bytes_of [0x65; 0x68]) = false.        (* eh *)
Proof. repeat split; reflexivity. Qed.

Section UnknownConstructsClaim.
Import Buf Known.

(** C9.  Unknown constructs met while decoding are reported as errors and
    never skipped: an opcode without a case in the DWARF expression
    evaluator makes the operation, and with it the evaluation, return the
    error "unknown DWARF expression opcode"; an opcode without a case in the
    CFI interpreter makes the instruction, and with it the execution, return
    the error "unknown DWARF CFI opcode"; and a CIE whose augmentation string
    has a character other than z, L, P, R, S, or a z that is not first, or
    an L, P or R without a leading z, fails to parse with the error "unknown
    CFI augmentation" (a CIE that parses has a valid augmentation string).
    The same holds for an unknown entry kind in a DWARF 5 location list. *)
Theorem unknown_constructs_are_errors :
  (forall fb fuel s opcode bb,
     binary_buffer_next_u8 (Expr.ctx_bb (Expr.es_ctx s)) = Ok (opcode, bb) ->
     known_expr_opcode opcode = false ->
     Expr.eval_op fb s =
       Some (Expr.OpReturn (Some (unknown_expr_opcode opcode)) s) /\
     (0 < Expr.es_remaining_ops s ->
      exists s',
        Expr.eval_loop fb (S fuel) s =
        Some (Some (unknown_expr_opcode opcode), s'))) /\
  (forall module fde irow target fuel s opcode bb,
     binary_buffer_next_u8 (CfiEval.cs_bb s) = Ok (opcode, bb) ->
     known_cfi_opcode opcode = false ->
     CfiEval.eval_cfi_instruction module fde irow target s =
       Err (unknown_cfi_opcode opcode) /\
     CfiEval.eval_cfi_loop module fde irow target (S fuel) s =
       Some (Err (unknown_cfi_opcode opcode))) /\
  (forall module scn cie_pointer version augmentation bb,
     Cfi.parse_cie_header module scn cie_pointer =
       Ok (version, augmentation, bb) ->
     valid_augmentation augmentation = false ->
     Cfi.drgn_parse_dwarf_cie module scn cie_pointer =
       Cfi.unknown_augmentation) /\
  (forall module scn cie_pointer cie,
     Cfi.drgn_parse_dwarf_cie module scn cie_pointer = Ok cie ->
     exists version augmentation bb,
       Cfi.parse_cie_header module scn cie_pointer =
         Ok (version, augmentation, bb) /\
       valid_augmentation augmentation = true) /\
  (forall module cu_die address_size pc s kind bb,
     binary_buffer_next_u8 (Loc.ll_bb s) = Ok (kind, bb) ->
     known_lle_kind kind = false ->
     Loc.loclist5_entry module cu_die address_size pc s =
     Err (binary_buffer_error "unknown location list entry kind %#x"
            (Some kind))).
Proof.
  split; [|split; [|split; [|split]]].
  - intros fb fuel s opcode bb Hop Hk.
    pose proof (unknown_expr_opcode_fails fb s opcode bb Hop Hk) as Hstep.
    split; [exact Hstep|].
    intros Hops. cbn [Expr.eval_loop].
    rewrite (next_uint_has_next _ 1 _ _ ltac:(lia) Hop).
    replace (Expr.es_remaining_ops s <=? 0) with false
      by (symmetry; apply Z.leb_gt; lia).
    rewrite (unknown_expr_opcode_fails fb
               {| Expr.es_ctx := Expr.es_ctx s;
                  Expr.es_stack := Expr.es_stack s;
                  Expr.es_remaining_ops := Expr.es_remaining_ops s - 1 |}
               opcode bb Hop Hk).
    eexists. reflexivity.
  - intros module fde irow target fuel s opcode bb Hop Hk.
    pose proof (unknown_cfi_opcode_fails module fde irow target s opcode bb
                  Hop Hk) as Hstep.
    split; [exact Hstep|].
    cbn [CfiEval.eval_cfi_loop].
    rewrite (next_uint_has_next _ 1 _ _ ltac:(lia) Hop), Hstep. reflexivity.
  - exact invalid_augmentation_fails.
  - exact parsed_cie_has_valid_augmentation.
  - exact unknown_lle_kind_fails.
Qed.

(** A CIE with the augmentation string "zQ" does not parse. *)
Lemma unknown_constructs_are_errors_witness :
  Cfi.drgn_parse_dwarf_cie AugExample.module DRGN_SCN_DEBUG_FRAME 0 =
  Cfi.unknown_augmentation.
Proof.
  destruct unknown_constructs_are_errors as [_ [_ [Haug _]]].
  eapply Haug.
  - vm_compute. reflexivity.
  - reflexivity.
Defined.

End UnknownConstructsClaim.

(** ** DWARF expressions: division, modulo and shifts *)

(** Reduce the opcode dispatch for a concrete opcode. *)
Ltac dispatch_opcode :=
  cbn [Z.eqb Z.leb Z.compare Pos.eqb Pos.compare Pos.compare_cont
       andb orb negb
       DW_OP_plus_uconst DW_OP_addr DW_OP_deref DW_OP_const1u DW_OP_const1s
       DW_OP_const2u DW_OP_const2s DW_OP_const4u DW_OP_const4s DW_OP_const8u
       DW_OP_const8s DW_OP_constu DW_OP_consts DW_OP_dup DW_OP_drop
       DW_OP_over DW_OP_pick DW_OP_swap DW_OP_rot DW_OP_abs DW_OP_and
       DW_OP_div DW_OP_minus DW_OP_mod DW_OP_mul DW_OP_neg DW_OP_not
       DW_OP_or DW_OP_plus DW_OP_shl DW_OP_shr DW_OP_shra DW_OP_xor
       DW_OP_bra DW_OP_eq DW_OP_ge DW_OP_gt DW_OP_le DW_OP_lt DW_OP_ne
       DW_OP_skip DW_OP_lit0 DW_OP_lit31 DW_OP_reg0 DW_OP_reg31 DW_OP_breg0
       DW_OP_breg31 DW_OP_regx DW_OP_fbreg DW_OP_bregx DW_OP_piece
       DW_OP_deref_size DW_OP_nop DW_OP_call_frame_cfa DW_OP_bit_piece
       DW_OP_implicit_value DW_OP_stack_value DW_OP_addrx DW_OP_constx].

Section Arithmetic.
Import Buf Expr.

Variable fb : drgn_dwarf_expression_context -> Z -> option (result Z * Z).



Lemma shl_step s bb e0 e1 rest :
  es_stack s = e0 :: e1 :: rest ->
  binary_buffer_next_u8 (ctx_bb (es_ctx s)) = Ok (DW_OP_shl, bb) ->
  eval_op fb s =
  Some (OpContinue
          {| es_ctx := with_bb (es_ctx s) bb;
             es_stack :=
               (if e0 <? ctx_address_size (es_ctx s) * 8
                then Z.land (u64 (Z.shiftl e1 e0))
                       (uint_max (ctx_address_size (es_ctx s)))
                else 0) :: rest;
             es_remaining_ops := es_remaining_ops s |}).
Proof.
  intros Hstack Hop. unfold eval_op. rewrite Hop, Hstack. cbv zeta beta iota.
  dispatch_opcode.
  destruct (e0 <? _); reflexivity.
Qed.

Lemma shr_step s bb e0 e1 rest :
  es_stack s = e0 :: e1 :: rest ->
  binary_buffer_next_u8 (ctx_bb (es_ctx s)) = Ok (DW_OP_shr, bb) ->
  eval_op fb s =
  Some (OpContinue
          {| es_ctx := with_bb (es_ctx s) bb;
             es_stack :=
               (if e0 <? ctx_address_size (es_ctx s) * 8
                then Z.shiftr e1 e0
                else 0) :: rest;
             es_remaining_ops := es_remaining_ops s |}).
Proof.
  intros Hstack Hop. unfold eval_op. rewrite Hop, Hstack. cbv zeta beta iota.
  dispatch_opcode.
  destruct (e0 <? _); reflexivity.
Qed.

(** [truncate_signed] is the signed reading of the low bits. *)
Lemma truncate_signed_spec x bits :
  0 < bits ->
  - 2 ^ (bits - 1) <= truncate_signed x bits < 2 ^ (bits - 1) /\
  (truncate_signed x bits - x) mod 2 ^ bits = 0.
Proof.
  intros Hbits. unfold truncate_signed, sign_extend.
  assert (Hpow : 2 ^ bits = 2 * 2 ^ (bits - 1)).
  { rewrite <- Z.pow_succ_r by lia. f_equal. lia. }
  assert (Hpos : 0 < 2 ^ (bits - 1)) by (apply Z.pow_pos_nonneg; lia).
  pose proof (Z.mod_pos_bound x (2 ^ bits) ltac:(lia)) as Hm.
  destruct (Z.ltb_spec (x mod 2 ^ bits) (2 ^ (bits - 1))).
  - split; [lia|].
    rewrite Zminus_mod, Z.mod_mod, Z.sub_diag by lia. reflexivity.
  - split; [lia|].
    replace (x mod 2 ^ bits - 2 ^ bits - x)
      with (x mod 2 ^ bits - x + (-1) * 2 ^ bits) by ring.
    rewrite Z.mod_add by lia.
    rewrite Zminus_mod, Z.mod_mod, Z.sub_diag by lia. reflexivity.
Qed.

End Arithmetic.

Section ArithmeticClaims.
Import Buf Expr.




(** C7.  In the DWARF expression evaluator, DW_OP_shl and DW_OP_shr with a
    shift count greater than or equal to the address size in bits replace
    their operands by 0 and raise no error.  The expression that pushes 1,
    pushes 63 and executes DW_OP_shl, evaluated under a 32-bit address size,
    succeeds with 0 on top of the stack.  (The literal opcodes are
    DW_OP_lit0 to DW_OP_lit31, so the 63 is pushed by DW_OP_const1u.) *)
Theorem shift_count_clamps
    (fb : drgn_dwarf_expression_context -> Z -> option (result Z * Z))
    (s : eval_state) (bb : binary_buffer) (opcode e0 e1 : Z) (rest : list Z) :
  es_stack s = e0 :: e1 :: rest ->
  ctx_address_size (es_ctx s) * 8 <= e0 ->
  binary_buffer_next_u8 (ctx_bb (es_ctx s)) = Ok (opcode, bb) ->
  opcode = DW_OP_shl \/ opcode = DW_OP_shr ->
  eval_op fb s =
    Some (OpContinue {| es_ctx := with_bb (es_ctx s) bb;
                        es_stack := 0 :: rest;
                        es_remaining_ops := es_remaining_ops s |}) /\
  ExprExample.summary
    (FrameBase.drgn_eval_dwarf_expression
       (ExprExample.context ExprExample.module32 ExprExample.shift_expr)
       [] MAX_DWARF_EXPR_OPS)
  = Some (None, [0], 9997).
Proof.
  intros Hstack Hcount Hop Hsh. split; [|exact shift_example].
  assert (Hlt : (e0 <? ctx_address_size (es_ctx s) * 8) = false)
    by (apply Z.ltb_ge; exact Hcount).
  destruct Hsh as [-> | ->].
  - rewrite (shl_step fb s bb e0 e1 rest Hstack Hop), Hlt. reflexivity.
  - rewrite (shr_step fb s bb e0 e1 rest Hstack Hop), Hlt. reflexivity.
Qed.

(** DW_OP_shl with the stack of the example, 63 on top of 1, under a 32-bit
    address size. *)
Lemma shift_count_clamps_witness :
  let ctx := ExprExample.context ExprExample.module32 ExprExample.shift_expr in
  let bb := advance (set_pos (ctx_bb ctx) 3) 1 in
  eval_op (fun _ ops => Some (Err drgn_not_found, ops))
    {| es_ctx := with_bb ctx (set_pos (ctx_bb ctx) 3);
       es_stack := [63; 1]; es_remaining_ops := 9997 |}
  = Some (OpContinue
            {| es_ctx := with_bb (with_bb ctx (set_pos (ctx_bb ctx) 3)) bb;
               es_stack := [0]; es_remaining_ops := 9997 |}).
Proof.
  intros ctx bb.
  assert (Hcount : ctx_address_size (with_bb ctx (set_pos (ctx_bb ctx) 3)) * 8
                   <= 63) by (vm_compute; discriminate).
  destruct (shift_count_clamps (fun _ ops => Some (Err drgn_not_found, ops))
              {| es_ctx := with_bb ctx (set_pos (ctx_bb ctx) 3);
                 es_stack := [63; 1]; es_remaining_ops := 9997 |}
              bb DW_OP_shl 63 1 [] eq_refl Hcount eq_refl
              (or_introl eq_refl)) as [H _].
  exact H.
Defined.

End ArithmeticClaims.

(** ** Budgets and termination *)

Section BufferProgress.
Import Buf Loc.

Lemma next_uint_advance bb size v bb' :
  binary_buffer_next_uint bb size = Ok (v, bb') ->
  bb' = advance bb size /\ size <= bb_end bb - bb_pos bb.
Proof.
  unfold binary_buffer_next_uint, binary_buffer_check_bounds, bind.
  destruct (Z.ltb_spec (bb_end bb - bb_pos bb) size) as [Hlt|Hge];
    [discriminate|].
  intros H. inversion H; subst. split; [reflexivity | lia].
Qed.

Lemma uleb128_loop_count bytes : forall shift value n v k,
  uleb128_loop bytes shift value n = Ok (v, k) ->
  n < k <= n + Z.of_nat (List.length bytes).
Proof.
  induction bytes as [|b tl IH]; intros shift value n v k H; [discriminate|].
  cbn [uleb128_loop] in H. cbn [List.length].
  destruct ((shift =? 63) && (byte_to_Z b >? 1)); [discriminate|].
  destruct (Z.land (byte_to_Z b) 128 =? 0).
  - inversion H; subst. lia.
  - apply IH in H. lia.
Qed.

Lemma remaining_length bb :
  Z.of_nat (List.length (remaining bb)) <= Z.max 0 (bb_end bb - bb_pos bb).
Proof.
  unfold remaining. rewrite length_firstn. lia.
Qed.

Lemma next_uleb128_advance bb v bb' :
  binary_buffer_next_uleb128 bb = Ok (v, bb') ->
  exists n, bb' = advance bb n /\ 1 <= n <= bb_end bb - bb_pos bb.
Proof.
  unfold binary_buffer_next_uleb128, bind.
  destruct (uleb128_loop (remaining bb) 0 0 0) as [[v' n]|] eqn:E; [|discriminate].
  intros H. inversion H; subst. exists n. split; [reflexivity|].
  apply uleb128_loop_count in E. pose proof (remaining_length bb). lia.
Qed.

Lemma next_addrx_advance bb module cu_die address_size addr_base v bb' ab' :
  drgn_dwarf_next_addrx bb module cu_die address_size addr_base = Ok (v, bb', ab') ->
  exists n, bb' = advance bb n /\ 1 <= n <= bb_end bb - bb_pos bb.
Proof.
  unfold drgn_dwarf_next_addrx, bind. intros H.
  destruct (match addr_base with Some b => Ok b | None => _ end); [|discriminate].
  destruct (binary_buffer_next_uleb128 bb) as [[index bb1]|] eqn:E; [|discriminate].
  destruct (index >=? _); [discriminate|].
  inversion H; subst. eapply next_uleb128_advance; eauto.
Qed.

Lemma moved_trans k1 k2 a b c :
  moved k1 a b -> moved k2 b c -> moved (k1 + k2) a c.
Proof. unfold moved. intros [? ?] [? ?]. split; [congruence | lia]. Qed.

Lemma next_uint_moved bb size v bb' :
  binary_buffer_next_uint bb size = Ok (v, bb') -> moved size bb bb'.
Proof.
  intros H. apply next_uint_advance in H. destruct H as [-> ?].
  unfold moved, advance. cbn. split; [reflexivity | lia].
Qed.

Lemma next_uleb128_moved bb v bb' :
  binary_buffer_next_uleb128 bb = Ok (v, bb') -> moved 1 bb bb'.
Proof.
  intros H. apply next_uleb128_advance in H. destruct H as [n [-> ?]].
  unfold moved, advance. cbn. split; [reflexivity | lia].
Qed.

Lemma next_addrx_moved bb module cu_die address_size addr_base v bb' ab' :
  drgn_dwarf_next_addrx bb module cu_die address_size addr_base = Ok (v, bb', ab') ->
  moved 1 bb bb'.
Proof.
  intros H. apply next_addrx_advance in H. destruct H as [n [-> ?]].
  unfold moved, advance. cbn. split; [reflexivity | lia].
Qed.

Lemma skip_expr_moved bb expr_size :
  0 <= expr_size -> (expr_size >? bb_end bb - bb_pos bb) = false ->
  moved 0 bb (set_pos bb (bb_pos bb + expr_size)).
Proof.
  intros H0 H. rewrite Z.gtb_ltb in H. apply Z.ltb_ge in H.
  unfold moved, set_pos. cbn. split; [reflexivity | lia].
Qed.

End BufferProgress.

Section LocationListProgress.
Import Buf Loc.

Variable module : drgn_debug_info_module.
Variable cu_die : Dwarf_Die.
Variable address_size : Z.
Variable pc : Z.
Hypothesis address_size_nonneg : 0 <= address_size.

Lemma loclist5_entry_moved s s' :
  loclist5_entry module cu_die address_size pc s = Ok (LlContinue s') ->
  moved 1 (ll_bb s) (ll_bb s').
Proof.
  unfold loclist5_entry, bind. cbv zeta. intros H.
  destruct (binary_buffer_next_u8 (ll_bb s)) as [[kind bb1]|] eqn:Hk; [|discriminate].
  apply next_uint_moved in Hk.
  repeat match type of H with
  | context [kind =? ?k] => destruct (kind =? k)
  end.
  all: repeat match type of H with
  | context [match ?r with Ok _ => _ | Err _ => _ end] =>
      destruct r as [?|?] eqn:?; [|discriminate H]
  | context [let (_, _) := ?p in _] => destruct p
  | context [match ?o with Some _ => _ | None => _ end] =>
      destruct o eqn:?; try discriminate H
  | context [if ?c then _ else _] => destruct c eqn:?; try discriminate H
  end.
  all: inversion H; subst; clear H; cbn [ll_bb].
  all: repeat match goal with
  | H : binary_buffer_next_uint _ _ = Ok _ |- _ => apply next_uint_moved in H
  | H : binary_buffer_next_uleb128 _ = Ok (?v, _) |- _ =>
      pose proof (next_uleb128_nonneg _ _ _ H); apply next_uleb128_moved in H
  | H : drgn_dwarf_next_addrx _ _ _ _ _ = Ok _ |- _ => apply next_addrx_moved in H
  end.
  all: repeat match goal with
  | H : (?e >? bb_end ?b - bb_pos ?b) = false |- _ =>
      apply skip_expr_moved in H; [|assumption]
  end.
  all: unfold moved in *; cbn [set_pos bb_pos bb_end] in *; lia.
Qed.

Lemma loclist5_loop_total fuel : forall s,
  (Z.to_nat (bb_end (ll_bb s) - bb_pos (ll_bb s)) < fuel)%nat ->
  loclist5_loop module cu_die address_size pc fuel s <> None.
Proof.
  induction fuel as [|fuel IH]; intros s Hfuel; [lia|].
  cbn [loclist5_loop].
  destruct (loclist5_entry module cu_die address_size pc s) as [[expr sz|s']|] eqn:E;
    try discriminate.
  apply IH. apply loclist5_entry_moved in E. unfold moved in E. lia.
Qed.
End LocationListProgress.

Section LocationListTotal.
Import Buf Loc.
Variable module : drgn_debug_info_module.
Variable cu_die : Dwarf_Die.
Variable address_size : Z.
Variable pc : Z.
Hypothesis address_size_pos : 1 <= address_size.

Lemma loclist4_entry_moved s s' :
  loclist4_entry cu_die address_size pc s = Ok (LlContinue s') ->
  moved 1 (l4_bb s) (l4_bb s').
Proof.
  unfold loclist4_entry, bind. cbv zeta. intros H.
  destruct (binary_buffer_next_uint (l4_bb s) address_size) as [[start bb1]|] eqn:H1;
    [|discriminate].
  destruct (binary_buffer_next_uint bb1 address_size) as [[end_ bb2]|] eqn:H2;
    [|discriminate].
  apply next_uint_moved in H1. apply next_uint_moved in H2.
  destruct ((start =? 0) && (end_ =? 0)); [discriminate|].
  destruct (start =? uint_max address_size).
  { inversion H; subst; cbn [l4_bb]. unfold moved in *. lia. }
  destruct (match l4_base s with Some _ => _ | None => _ end); [|discriminate].
  destruct (binary_buffer_next_u16 bb2) as [[expr_size bb3]|] eqn:H3;
    [|discriminate].
  pose proof (next_uint_nonneg _ _ _ _ H3) as Hn.
  apply next_uint_moved in H3.
  destruct (expr_size >? bb_end bb3 - bb_pos bb3) eqn:Hb; [discriminate|].
  destruct (_ && _); [discriminate|].
  inversion H; subst; cbn [l4_bb].
  apply skip_expr_moved in Hb; [|assumption].
  unfold moved in *; cbn [set_pos bb_pos bb_end] in *; lia.
Qed.

Lemma loclist4_loop_total fuel : forall s,
  (Z.to_nat (bb_end (l4_bb s) - bb_pos (l4_bb s)) < fuel)%nat ->
  loclist4_loop cu_die address_size pc fuel s <> None.
Proof.
  induction fuel as [|fuel IH]; intros s Hfuel; [lia|].
  cbn [loclist4_loop].
  destruct (loclist4_entry cu_die address_size pc s) as [[expr sz|s']|] eqn:E;
    try discriminate.
  apply IH. apply loclist4_entry_moved in E. unfold moved in E. lia.
Qed.

Lemma dwarf4_location_list_total offset :
  drgn_dwarf4_location_list module cu_die address_size pc offset <> None.
Proof.
  unfold drgn_dwarf4_location_list.
  destruct (scn_data module DRGN_SCN_DEBUG_LOC); [|discriminate].
  cbv zeta. destruct (offset >? _); [discriminate|].
  apply loclist4_loop_total. cbn [l4_bb]. lia.
Qed.

Lemma dwarf5_location_list_total offset :
  drgn_dwarf5_location_list module cu_die address_size pc offset <> None.
Proof.
  unfold drgn_dwarf5_location_list.
  destruct (scn_data module DRGN_SCN_DEBUG_LOCLISTS); [|discriminate].
  cbv zeta. destruct (offset >? _); [discriminate|].
  apply loclist5_loop_total; [lia|]. cbn [ll_bb]. lia.
Qed.

End LocationListTotal.

Section EvaluationBudget.
Import Buf Loc Expr FrameBase Budget.

Lemma dwarf_location_total module cu attr regs :
  drgn_dwarf_location module cu attr regs <> None.
Proof.
  unfold drgn_dwarf_location.
  destruct (_ || _); [|destruct (dwarf_formblock attr); discriminate].
  cbv zeta. unfold drgn_check_address_size.
  destruct (Z.ltb_spec (cu_address_size cu) 1) as [Hlt|Hge]; [discriminate|].
  cbn [orb]. destruct (cu_address_size cu >? 8); [discriminate|].
  destruct (dwarf_formudata attr); [|discriminate].
  destruct (if attr_form attr =? DW_FORM_loclistx then _ else _); [|discriminate].
  destruct regs as [regs|]; [|discriminate].
  destruct (drgn_register_state_get_pc regs); [|discriminate].
  cbv zeta. destruct (cu_version cu >=? 5).
  - match goal with
    | |- context [drgn_dwarf5_location_list ?m ?d ?a ?p ?o] =>
        pose proof (dwarf5_location_list_total m d a p Hge o) as Ht;
        destruct (drgn_dwarf5_location_list m d a p o) as [[[? ?]|?]|]
    end; congruence.
  - match goal with
    | |- context [drgn_dwarf4_location_list ?m ?d ?a ?p ?o] =>
        pose proof (dwarf4_location_list_total m d a p Hge o) as Ht;
        destruct (drgn_dwarf4_location_list m d a p o) as [[[? ?]|?]|]
    end; congruence.
Qed.

Lemma eval_op_not_fbreg fb s opcode bb :
  binary_buffer_next_u8 (ctx_bb (es_ctx s)) = Ok (opcode, bb) ->
  opcode <> DW_OP_fbreg ->
  exists o, eval_op fb s = Some o /\ ctx_function (es_ctx (outcome_state o)) = ctx_function (es_ctx s) /\
  es_remaining_ops (outcome_state o) = es_remaining_ops s.
Proof.
  intros Hop Hne. unfold eval_op. cbv zeta. rewrite Hop.
  apply Z.eqb_neq in Hne. 
  repeat match goal with
  | |- context [if ?c then _ else _] =>
      match c with
      | opcode =? DW_OP_fbreg => rewrite Hne
      | context [opcode] => destruct c
      end
  end.
  all: repeat match goal with
  | |- context [match ?x with _ => _ end] =>
      match x with
      | context [match _ with _ => _ end] => fail 1
      | context [if _ then _ else _] => fail 1
      | _ => destruct x
      end
  | |- context [if ?x then _ else _] =>
      match x with
      | context [match _ with _ => _ end] => fail 1
      | context [if _ then _ else _] => fail 1
      | _ => destruct x
      end
  end.
  all: eexists; split; [reflexivity|]; split; reflexivity.
Qed.

Lemma eval_op_fbreg fb s bb :
  binary_buffer_next_u8 (ctx_bb (es_ctx s)) = Ok (DW_OP_fbreg, bb) ->
  eval_op fb s =
    match fb (es_ctx s) (es_remaining_ops s) with
    | None => None
    | Some (Err e, ops) =>
        Some (OpReturn (Some e)
                {| es_ctx := with_bb (es_ctx s) bb; es_stack := es_stack s;
                   es_remaining_ops := ops |})
    | Some (Ok uvalue, ops) =>
        match binary_buffer_next_sleb128 bb with
        | Err e =>
            Some (OpReturn (Some e)
                    {| es_ctx := with_bb (es_ctx s) bb; es_stack := es_stack s;
                       es_remaining_ops := ops |})
        | Ok (svalue, bb) =>
            Some (OpContinue
                    {| es_ctx := with_bb (es_ctx s) bb;
                       es_stack :=
                         Z.land (u64 (uvalue + svalue))
                           (uint_max (ctx_address_size (es_ctx s)))
                         :: es_stack s;
                       es_remaining_ops := ops |})
        end
    end.
Proof.
  intros Hop. unfold eval_op. cbv zeta. rewrite Hop. dispatch_opcode.
  reflexivity.
Qed.

Lemma eval_op_budget fb s o :
  eval_op fb s = Some o ->
  ctx_function (es_ctx (outcome_state o)) = ctx_function (es_ctx s) /\
  (es_remaining_ops (outcome_state o) = es_remaining_ops s \/
   exists r, fb (es_ctx s) (es_remaining_ops s) =
               Some (r, es_remaining_ops (outcome_state o))).
Proof.
  intros H.
  destruct (binary_buffer_next_u8 (ctx_bb (es_ctx s))) as [[opcode bb]|e] eqn:Hop.
  - destruct (Z.eq_dec opcode DW_OP_fbreg) as [->|Hne].
    + rewrite (eval_op_fbreg fb s bb Hop) in H.
      destruct (fb (es_ctx s) (es_remaining_ops s)) as [[[uvalue|e] ops]|];
        [| |discriminate].
      * destruct (binary_buffer_next_sleb128 bb) as [[svalue bb']|e];
          inversion H; subst; cbn; split; eauto.
      * inversion H; subst; cbn; split; eauto.
    + destruct (eval_op_not_fbreg fb s opcode bb Hop Hne) as [o' [Ho' [Hf Hr]]].
      rewrite Ho' in H. inversion H; subst. split; [assumption | left; assumption].
  - unfold eval_op in H. cbv zeta in H. rewrite Hop in H.
    inversion H; subst. cbn. split; [reflexivity | left; reflexivity].
Qed.

Lemma eval_op_total fb s :
  fb (es_ctx s) (es_remaining_ops s) <> None ->
  eval_op fb s <> None.
Proof.
  intros Hfb.
  destruct (binary_buffer_next_u8 (ctx_bb (es_ctx s))) as [[opcode bb]|e] eqn:Hop.
  - destruct (Z.eq_dec opcode DW_OP_fbreg) as [->|Hne].
    + rewrite (eval_op_fbreg fb s bb Hop).
      destruct (fb (es_ctx s) (es_remaining_ops s)) as [[[uvalue|e] ops]|];
        [| |congruence].
      * destruct (binary_buffer_next_sleb128 bb) as [[svalue bb']|e]; discriminate.
      * discriminate.
    + destruct (eval_op_not_fbreg fb s opcode bb Hop Hne) as [o' [Ho' _]].
      congruence.
  - unfold eval_op. cbv zeta. rewrite Hop. discriminate.
Qed.

Section Loop.
Variable fb : drgn_dwarf_expression_context -> Z -> option (result Z * Z).
Variable function : option Dwarf_Die.
Hypothesis fb_spends : spends fb function.

(** The loop returns, it executed as many operations as the relation
    [runs] counts, and the budget pays for each of them. *)
Lemma eval_loop_runs fuel : forall s,
  ctx_function (es_ctx s) = function ->
  (Z.to_nat (es_remaining_ops s) <= fuel)%nat ->
  exists err s' n,
    eval_loop fb fuel s = Some (err, s') /\
    runs fb n s (err, s') /\
    ctx_function (es_ctx s') = function /\
    es_remaining_ops s' + Z.of_nat n <= es_remaining_ops s /\
    (0 <= es_remaining_ops s -> 0 <= es_remaining_ops s').
Proof.
  induction fuel as [|fuel IH]; intros s Hf Hfuel.
  - cbn [eval_loop].
    destruct (binary_buffer_has_next (ctx_bb (es_ctx s))) eqn:Hn.
    + replace (es_remaining_ops s <=? 0) with true
        by (symmetry; apply Z.leb_le; lia).
      exists (Some too_many_operations), s, 0%nat.
      repeat split; try assumption; try lia.
      apply runs_exhausted; [assumption | lia].
    + exists None, s, 0%nat. repeat split; try assumption; try lia.
      apply runs_end; assumption.
  - cbn [eval_loop].
    destruct (binary_buffer_has_next (ctx_bb (es_ctx s))) eqn:Hn.
    + destruct (Z.leb_spec (es_remaining_ops s) 0) as [Hle|Hgt].
      * exists (Some too_many_operations), s, 0%nat.
        repeat split; try assumption; try lia.
        apply runs_exhausted; assumption.
      * change {| es_ctx := es_ctx s; es_stack := es_stack s;
                  es_remaining_ops := es_remaining_ops s - 1 |}
          with (decrement s).
        destruct (fb_spends (es_ctx (decrement s))
                    (es_remaining_ops (decrement s)) Hf)
          as [r [ops' [Hfb [Hle' Hnn]]]].
        destruct (eval_op fb (decrement s)) as [o|] eqn:Ho;
          [|exfalso; revert Ho; apply eval_op_total; congruence].
        pose proof (eval_op_budget fb _ _ Ho) as [Hfun Hbud].
        assert (Hrem : es_remaining_ops (outcome_state o) <=
                         es_remaining_ops s - 1 /\
                       0 <= es_remaining_ops (outcome_state o)).
        { cbn [decrement es_remaining_ops] in *.
          destruct Hbud as [->|[r' Hr']]; [lia|].
          rewrite Hfb in Hr'. inversion Hr'; subst. lia. }
        cbn [decrement es_ctx] in Hfun.
        destruct o as [s1|err s1]; cbn [outcome_state] in *.
        -- destruct (IH s1) as [err [s' [n [He [Hr [Hf' [Hb Hp]]]]]]];
             [congruence | lia |].
           exists err, s', (S n). repeat split; try assumption; try lia.
           eapply runs_continue; eassumption.
        -- exists err, s1, 1%nat. repeat split; try congruence; try lia.
           apply runs_return; assumption.
    + exists None, s, 0%nat. repeat split; try assumption; try lia.
      apply runs_end; assumption.
Qed.

End Loop.


Ltac break_frame_base H :=
  repeat match type of H with
  | context [match ?x with _ => _ end] =>
      match x with
      | context [match _ with _ => _ end] => fail 1
      | context [if _ then _ else _] => fail 1
      | _ => destruct x eqn:?; try discriminate H
      end
  | context [if ?x then _ else _] =>
      match x with
      | context [match _ with _ => _ end] => fail 1
      | context [if _ then _ else _] => fail 1
      | _ => destruct x; try discriminate H
      end
  end.

Lemma context_init_function prog module cu function regs expr ctx :
  drgn_dwarf_expression_context_init prog module cu function regs expr = Ok ctx ->
  ctx_function ctx = function.
Proof.
  unfold drgn_dwarf_expression_context_init, bind. cbv zeta.
  destruct cu as [cu|].
  - destruct (drgn_check_address_size (cu_address_size cu)); [|discriminate].
    intros H; inversion H; reflexivity.
  - intros H; inversion H; reflexivity.
Qed.

(** The budget that [drgn_dwarf_frame_base] returns is the one it was
    given, or what the nested evaluation left of it. *)
Lemma frame_base_cases eval prog module die regs ops r ops' :
  drgn_dwarf_frame_base eval prog module die regs ops = Some (r, ops') ->
  ops' = ops \/
  exists e ctx err s,
    eval = Some e /\ ctx_function ctx = None /\
    e {| es_ctx := ctx; es_stack := []; es_remaining_ops := ops |} =
      Some (err, s) /\
    es_remaining_ops s = ops'.
Proof.
  unfold drgn_dwarf_frame_base. cbv zeta. intros H.
  destruct die as [die|]; [|inversion H; left; reflexivity].
  destruct (dwarf_attr_integrate die DW_AT_frame_base) as [attr|];
    [|inversion H; left; reflexivity].
  destruct (drgn_dwarf_location module (die_cu die) attr regs) as [[expr|e]|];
    [| inversion H; left; reflexivity | discriminate].
  destruct (drgn_dwarf_expression_context_init prog module (Some (die_cu die))
              None regs expr) as [ctx|e] eqn:Hctx;
    [|inversion H; left; reflexivity].
  apply context_init_function in Hctx.
  destruct eval as [e|]; [|discriminate].
  destruct (e {| es_ctx := ctx; es_stack := []; es_remaining_ops := ops |})
    as [[err s]|] eqn:He; [|discriminate].
  right. exists e, ctx, err, s. repeat split; try assumption.
  destruct err as [err|]; [inversion H; reflexivity|].
  break_frame_base H; inversion H; reflexivity.
Qed.

Lemma frame_base_total eval prog module die regs ops :
  die = None \/
  (exists e, eval = Some e /\
     forall s, ctx_function (es_ctx s) = None -> e s <> None) ->
  drgn_dwarf_frame_base eval prog module die regs ops <> None.
Proof.
  unfold drgn_dwarf_frame_base. cbv zeta. intros Hev.
  destruct die as [die|]; [|discriminate].
  destruct Hev as [Hev|[e [-> He]]]; [discriminate|].
  destruct (dwarf_attr_integrate die DW_AT_frame_base) as [attr|];
    [|discriminate].
  pose proof (dwarf_location_total module (die_cu die) attr regs) as Hl.
  destruct (drgn_dwarf_location module (die_cu die) attr regs) as [[expr|e']|];
    [| discriminate | congruence].
  destruct (drgn_dwarf_expression_context_init prog module (Some (die_cu die))
              None regs expr) as [ctx|e'] eqn:Hctx; [|discriminate].
  apply context_init_function in Hctx.
  specialize (He {| es_ctx := ctx; es_stack := []; es_remaining_ops := ops |} Hctx).
  destruct (e {| es_ctx := ctx; es_stack := []; es_remaining_ops := ops |})
    as [[err s]|]; [|congruence].
  destruct err as [err|]; [discriminate|].
  repeat match goal with
  | |- context [match ?x with _ => _ end] =>
      match x with
      | context [match _ with _ => _ end] => fail 1
      | context [if _ then _ else _] => fail 1
      | _ => destruct x
      end
  | |- context [if ?x then _ else _] =>
      match x with
      | context [match _ with _ => _ end] => fail 1
      | context [if _ then _ else _] => fail 1
      | _ => destruct x
      end
  end; discriminate.
Qed.

Lemma eval_at_loop depth s :
  eval_at depth s =
    eval_loop (frame_base_at depth) (S (Z.to_nat (es_remaining_ops s))) s.
Proof. destruct depth; reflexivity. Qed.

(** Without a nested evaluation the frame base costs nothing. *)
Lemma frame_base_0_free ctx ops r ops' :
  frame_base_at 0 ctx ops = Some (r, ops') -> ops' = ops.
Proof.
  unfold frame_base_at. intros H. apply frame_base_cases in H.
  destruct H as [H|[e [ctx0 [err [s [He _]]]]]]; [assumption | discriminate].
Qed.

Lemma frame_base_0_spends : spends (frame_base_at 0) None.
Proof.
  intros ctx ops Hf. unfold frame_base_at. rewrite Hf.
  exists (Err drgn_not_found), ops. repeat split; [lia | auto].
Qed.

(** The operations of a run whose frame base is free add up to what the
    budget lost. *)
Lemma runs_exact fb n s r :
  (forall ctx ops r ops', fb ctx ops = Some (r, ops') -> ops' = ops) ->
  runs fb n s r ->
  es_remaining_ops (snd r) + Z.of_nat n = es_remaining_ops s.
Proof.
  intros Hfree Hruns.
  induction Hruns as [s Hn|s Hn Hle|s err s' Hn Hgt Ho|s s' n r Hn Hgt Ho Hr IH];
    cbn [snd] in *; try lia.
  - apply eval_op_budget in Ho. destruct Ho as [_ [Hb|[r Hb]]];
      cbn [outcome_state decrement es_remaining_ops es_ctx] in Hb;
      [|apply Hfree in Hb]; lia.
  - apply eval_op_budget in Ho. destruct Ho as [_ [Hb|[r' Hb]]];
      cbn [outcome_state decrement es_remaining_ops es_ctx] in Hb;
      [|apply Hfree in Hb]; lia.
Qed.

Lemma eval_at_0_runs s :
  ctx_function (es_ctx s) = None ->
  exists err s' n,
    eval_at 0 s = Some (err, s') /\
    runs (frame_base_at 0) n s (err, s') /\
    es_remaining_ops s' + Z.of_nat n = es_remaining_ops s /\
    (0 <= es_remaining_ops s -> 0 <= es_remaining_ops s').
Proof.
  intros Hf. rewrite eval_at_loop.
  destruct (eval_loop_runs (frame_base_at 0) None frame_base_0_spends
              (S (Z.to_nat (es_remaining_ops s))) s Hf)
    as [err [s' [n [He [Hr [_ [_ Hp]]]]]]]; [lia|].
  exists err, s', n. repeat split; try assumption.
  apply (runs_exact _ _ _ _ frame_base_0_free Hr).
Qed.

Lemma frame_base_1_spends function : spends (frame_base_at 1) function.
Proof.
  intros ctx ops _.
  destruct (frame_base_at 1 ctx ops) as [[r ops']|] eqn:E.
  - exists r, ops'. split; [reflexivity|].
    unfold frame_base_at in E. apply frame_base_cases in E.
    destruct E as [->|[e [ctx0 [err [s [He [Hf [Hs <-]]]]]]]]; [split; [lia | auto]|].
    assert (Hee : e = eval_at 0) by congruence; subst e; clear He.
    destruct (eval_at_0_runs {| es_ctx := ctx0; es_stack := []; es_remaining_ops := ops |} Hf) as [err' [s' [n [He' [_ [Hb Hp]]]]]].
    rewrite He' in Hs. inversion Hs; subst. cbn [es_remaining_ops] in *.
    split; [lia | assumption].
  - exfalso. revert E. apply frame_base_total. right.
    exists (eval_at 0). split; [reflexivity|].
    intros s Hf. destruct (eval_at_0_runs s Hf) as [err [s' [n [He _]]]].
    congruence.
Qed.


Lemma eval_dwarf_expression_runs ctx stack ops :
  exists err s' n,
    drgn_eval_dwarf_expression ctx stack ops = Some (err, s') /\
    runs (frame_base_at 1) n
      {| es_ctx := ctx; es_stack := stack; es_remaining_ops := ops |}
      (err, s') /\
    es_remaining_ops s' + Z.of_nat n <= ops /\
    (0 <= ops -> 0 <= es_remaining_ops s').
Proof.
  unfold drgn_eval_dwarf_expression. rewrite eval_at_loop.
  destruct (eval_loop_runs (frame_base_at 1) (ctx_function ctx)
              (frame_base_1_spends _)
              (S (Z.to_nat ops))
              {| es_ctx := ctx; es_stack := stack; es_remaining_ops := ops |}
              eq_refl)
    as [err [s' [n [He [Hr [_ [Hb Hp]]]]]]]; [cbn; lia|].
  exists err, s', n. repeat split; assumption.
Qed.

Example fbreg_examples :
  ExprExample.summary
    (drgn_eval_dwarf_expression
       (BudgetExample.fbreg_context BudgetExample.constant_frame_base) []
       MAX_DWARF_EXPR_OPS) = Some (None, [8], 9998) /\
  ExprExample.summary
    (drgn_eval_dwarf_expression
       (BudgetExample.fbreg_context ExprExample.loop_expr) []
       MAX_DWARF_EXPR_OPS) = Some (Some too_many_operations, [], 0).
Proof. split; vm_compute; reflexivity. Qed.

End EvaluationBudget.

(** ** Type construction depth *)

Example self_typedef_example :
  TypeExample.type_from_dwarf TypeExample.self_typedef TypeExample.dbinfo0 =
    Some (Err (TypeCons.recursion_error), TypeExample.dbinfo0).
Proof. vm_compute. reflexivity. Qed.

Example const_self_example :
  TypeExample.type_from_dwarf TypeExample.const_self TypeExample.dbinfo0 =
    Some (Err (TypeCons.recursion_error), TypeExample.dbinfo0).
Proof. vm_compute. reflexivity. Qed.

(** The typedef that names itself needs all of the 1001 nested calls. *)
Example self_typedef_fuel :
  TypeExample.type_from_dwarf_internal 1000 TypeExample.self_typedef true
    TypeExample.dbinfo0 = None /\
  TypeExample.type_from_dwarf_internal 1001 TypeExample.self_typedef true
    TypeExample.dbinfo0 <> None.
Proof. split; vm_compute; [reflexivity | discriminate]. Qed.

Example int_pointer_example :
  match TypeExample.type_from_dwarf TypeExample.int_pointer
          TypeExample.dbinfo0 with
  | Some (Ok (t, _), dbinfo) =>
      TypeCons.qt_type _ t =
        TypeExample.ty_pointer (TypeExample.ty_base 0x20) 0 8 /\
      TypeCons.dwarf_depth _ dbinfo = 0 /\
      map fst (TypeCons.dwarf_types _ dbinfo) = [0x30; 0x20]
  | _ => False
  end.
Proof. vm_compute. repeat split; reflexivity. Qed.

Section TypeDepth.
Import TypeCons.
Variable drgn_type : Type.
Variable drgn_language : Type.
Variable drgn_byte_order : Type.
Variable dwarf_offdie : Z -> option Dwarf_Die.
Variable dwarf_diename : Dwarf_Die -> option string.
Variable drgn_dwarf_index_find_definition : Z -> option Z.
Variable drgn_language_from_die : Dwarf_Die -> result drgn_language.
Variable dwarf_die_byte_order : Dwarf_Die -> drgn_byte_order.
Variable drgn_program_address_size : result Z.
Variable drgn_void_type : drgn_language -> drgn_type.
Variable drgn_typedef_type_create :
  string -> drgn_qualified_type drgn_type -> drgn_language ->
  result drgn_type.
Variable drgn_pointer_type_create :
  drgn_qualified_type drgn_type -> Z -> drgn_byte_order -> drgn_language ->
  result drgn_type.
Variable drgn_base_type_from_dwarf :
  Dwarf_Die -> drgn_language -> construction drgn_type (result drgn_type).
Variable drgn_compound_type_from_dwarf :
  Dwarf_Die -> drgn_language -> Z ->
  construction drgn_type (result drgn_type).
Variable drgn_enum_type_from_dwarf :
  Dwarf_Die -> drgn_language -> construction drgn_type (result drgn_type).
Variable drgn_array_type_from_dwarf :
  Dwarf_Die -> drgn_language -> bool ->
  construction drgn_type (result (drgn_type * option bool)).
Variable drgn_function_type_from_dwarf :
  Dwarf_Die -> drgn_language -> construction drgn_type (result drgn_type).

Local Abbreviation body :=
  (type_from_dwarf_body drgn_type drgn_language drgn_byte_order
     dwarf_offdie dwarf_diename drgn_dwarf_index_find_definition
     drgn_language_from_die dwarf_die_byte_order drgn_program_address_size
     drgn_void_type drgn_typedef_type_create drgn_pointer_type_create
     drgn_base_type_from_dwarf drgn_compound_type_from_dwarf
     drgn_enum_type_from_dwarf drgn_array_type_from_dwarf
     drgn_function_type_from_dwarf).
Local Abbreviation internal :=
  (drgn_type_from_dwarf_internal drgn_type drgn_language drgn_byte_order
     dwarf_offdie dwarf_diename drgn_dwarf_index_find_definition
     drgn_language_from_die dwarf_die_byte_order drgn_program_address_size
     drgn_void_type drgn_typedef_type_create drgn_pointer_type_create
     drgn_base_type_from_dwarf drgn_compound_type_from_dwarf
     drgn_enum_type_from_dwarf drgn_array_type_from_dwarf
     drgn_function_type_from_dwarf).
Local Abbreviation type_from_dwarf :=
  (drgn_type_from_dwarf drgn_type drgn_language drgn_byte_order
     dwarf_offdie dwarf_diename drgn_dwarf_index_find_definition
     drgn_language_from_die dwarf_die_byte_order drgn_program_address_size
     drgn_void_type drgn_typedef_type_create drgn_pointer_type_create
     drgn_base_type_from_dwarf drgn_compound_type_from_dwarf
     drgn_enum_type_from_dwarf drgn_array_type_from_dwarf
     drgn_function_type_from_dwarf).

(** Whatever a constructor does, it returns when its recursive calls do,
    and it leaves the depth alone when they do. *)
Lemma run_returns {A : Type} rec depth
    (Hrec : forall die can dbinfo, dwarf_depth _ dbinfo = depth ->
       returns_at _ depth (rec die can dbinfo)) :
  forall (c : construction drgn_type A) dbinfo,
    dwarf_depth _ dbinfo = depth ->
    returns_at _ depth (run drgn_type rec c dbinfo).
Proof.
  induction c as [r|die can k IH]; intros dbinfo Hd; cbn [run].
  - exists r, dbinfo. split; [reflexivity | assumption].
  - destruct (Hrec die can dbinfo Hd) as [a [dbinfo' [-> Hd']]].
    apply IH. assumption.
Qed.

(** One level: the body returns at its depth when the calls one level down
    return at theirs. *)
Lemma body_returns rec die can dbinfo
    (Hrec : forall die can dbinfo',
       dwarf_depth _ dbinfo' = dwarf_depth _ dbinfo + 1 ->
       returns_at _ (dwarf_depth _ dbinfo + 1) (rec die can dbinfo')) :
  returns_at _ (dwarf_depth _ dbinfo) (body rec die can dbinfo).
Proof.
  unfold type_from_dwarf_body.
  destruct (dwarf_depth _ dbinfo >=? 1000).
  { eexists; eexists; split; reflexivity. }
  destruct (match dwarf_attr_integrate die DW_AT_signature with
            | Some _ => _ | None => _ end) as [die1|e];
    [|eexists; eexists; split; reflexivity].
  destruct (dwarf_flag die1 DW_AT_declaration) as [declaration|];
    [|eexists; eexists; split; reflexivity].
  destruct (if declaration then _ else _) as [die2|e];
    [|eexists; eexists; split; reflexivity].
  cbv zeta.
  destruct (match drgn_dwarf_type_map_search _ (dwarf_types _ dbinfo)
                    (die_addr die2) with Some _ => _ | None => _ end);
    [eexists; eexists; split; reflexivity|].
  destruct (drgn_language_from_die die2) as [lang|e];
    [|eexists; eexists; split; reflexivity].
  set (dbinfo1 := with_depth _ dbinfo (dwarf_depth _ dbinfo + 1)).
  assert (Hrun : forall A (c : construction drgn_type A),
    returns_at _ (dwarf_depth _ dbinfo + 1) (run drgn_type rec c dbinfo1)).
  { intros. apply run_returns with (depth := dwarf_depth _ dbinfo + 1);
      [assumption | reflexivity]. }
  repeat match goal with
  | |- context [if ?c then _ else _] =>
      match c with
      | context [die_tag] => destruct c
      end
  end.
  all: try match goal with
  | |- context [run _ _ ?c _] =>
      destruct (Hrun _ c) as [a [dbinfo' [-> Hd']]]
  end.
  all: cbv beta iota.
  all: repeat match goal with
  | |- context [match ?x with _ => _ end] => is_var x; destruct x
  end.
  all: repeat match goal with
  | |- context [if ?c then _ else _] => destruct c
  end.
  all: eexists; eexists; split; [reflexivity|]; cbn; try rewrite Hd'; lia.
Qed.



(** [1001 - depth] nested calls are enough. *)
Lemma internal_returns fuel : forall die can dbinfo,
  (Z.to_nat (1000 - dwarf_depth _ dbinfo) < fuel)%nat ->
  returns_at _ (dwarf_depth _ dbinfo) (internal fuel die can dbinfo).
Proof.
  induction fuel as [|fuel IH]; intros die can dbinfo Hfuel; [lia|].
  change (internal (S fuel) die can dbinfo)
    with (body (internal fuel) die can dbinfo).
  destruct (Z.ltb_spec (dwarf_depth _ dbinfo) 1000) as [Hlt|Hge].
  - apply body_returns. intros die' can' dbinfo' Hd'.
    rewrite <- Hd'. apply IH. lia.
  - unfold type_from_dwarf_body.
    replace (dwarf_depth _ dbinfo >=? 1000) with true
      by (symmetry; apply Z.geb_le; lia).
    eexists; eexists; split; reflexivity.
Qed.


Import Buf Expr FrameBase Budget.


End TypeDepth.


(** ** Finding an FDE *)

Section FindFdeFacts.
Import FindFde FdeSpec.

Variable fdes : list drgn_dwarf_fde.
Variable pc : Z.

(** The search returns within [hi - lo] probes. *)
Lemma find_fde_loop_total fuel : forall lo hi,
  (hi - lo <= fuel)%nat ->
  find_fde_loop fuel fdes pc lo hi <> None.
Proof.
  induction fuel as [|fuel IH]; intros lo hi Hfuel; cbn [find_fde_loop].
  - destruct (Nat.ltb_spec lo hi); [lia | discriminate].
  - destruct (Nat.ltb_spec lo hi) as [Hlt|Hge]; [|discriminate].
    cbv zeta.
    assert (Hhalf : ((hi - lo) / 2 < hi - lo)%nat)
      by (apply Nat.div_lt; lia).
    destruct (pc <? _); [apply IH; lia|].
    destruct (_ >=? _); [apply IH; lia | discriminate].
Qed.

(** More fuel does not change the answer. *)
Lemma find_fde_loop_fuel fuel : forall lo hi r fuel',
  find_fde_loop fuel fdes pc lo hi = Some r ->
  (fuel <= fuel')%nat ->
  find_fde_loop fuel' fdes pc lo hi = Some r.
Proof.
  induction fuel as [|fuel IH]; intros lo hi r fuel' H Hle.
  - cbn [find_fde_loop] in H.
    destruct fuel'; cbn [find_fde_loop];
      destruct (lo <? hi)%nat; try discriminate; assumption.
  - destruct fuel' as [|fuel']; [lia|].
    cbn [find_fde_loop] in *.
    destruct (lo <? hi)%nat; [|assumption].
    cbv zeta in *.
    destruct (pc <? _); [apply IH with (fuel' := fuel') in H; [assumption | lia]|].
    destruct (_ >=? _); [apply IH with (fuel' := fuel') in H; [assumption | lia]|].
    assumption.
Qed.

(** Each probe halves the interval. *)
Lemma find_fde_loop_log fuel : forall lo hi,
  (hi - lo < 2 ^ fuel)%nat ->
  find_fde_loop fuel fdes pc lo hi <> None.
Proof.
  induction fuel as [|fuel IH]; intros lo hi Hfuel; cbn [find_fde_loop].
  - cbn in Hfuel. destruct (Nat.ltb_spec lo hi); [lia | discriminate].
  - destruct (Nat.ltb_spec lo hi) as [Hlt|Hge]; [|discriminate].
    cbv zeta.
    assert (Hpow : (2 ^ S fuel = 2 * 2 ^ fuel)%nat) by (cbn; lia).
    assert (Hhalf : ((hi - lo) / 2 < 2 ^ fuel)%nat).
    { apply Nat.Div0.div_lt_upper_bound. lia. }
    pose proof (Nat.div_mod_eq (hi - lo) 2) as Hdm.
    pose proof (Nat.mod_upper_bound (hi - lo) 2 ltac:(lia)) as Hm.
    destruct (pc <? _); [apply IH; lia|].
    destruct (_ >=? _); [apply IH; lia | discriminate].
Qed.

(** What the search returns is an entry of the table that covers the
    PC. *)
Lemma find_fde_loop_sound fuel : forall lo hi fde,
  (hi <= List.length fdes)%nat ->
  find_fde_loop fuel fdes pc lo hi = Some (Some fde) ->
  In fde fdes /\ fde_covers pc fde = true.
Proof.
  induction fuel as [|fuel IH]; intros lo hi fde Hhi H; cbn [find_fde_loop] in H.
  - destruct (lo <? hi)%nat; discriminate.
  - destruct (Nat.ltb_spec lo hi) as [Hlt|Hge]; [|discriminate].
    cbv zeta in H.
    assert (Hhalf : ((hi - lo) / 2 < hi - lo)%nat)
      by (apply Nat.div_lt; lia).
    set (mid := (lo + (hi - lo) / 2)%nat) in *.
    destruct (Z.ltb_spec pc (initial_location (nth mid fdes fde0)))
      as [Hbelow|Hnot].
    { apply IH in H; [assumption | lia]. }
    destruct (u64 (pc - initial_location (nth mid fdes fde0)) >=?
              address_range (nth mid fdes fde0)) eqn:Hrange.
    { apply IH in H; [assumption | lia]. }
    inversion H; subst fde. split.
    + apply nth_In. lia.
    + unfold fde_covers. rewrite Z.geb_leb in Hrange.
      apply Z.leb_gt in Hrange.
      apply andb_true_intro. split; [apply Z.leb_le; lia | apply Z.ltb_lt; lia].
Qed.

Hypothesis table_sorted : StronglySorted fde_before fdes.
Hypothesis table_locations :
  Forall (fun f => 0 <= initial_location f) fdes.
Hypothesis pc_range : 0 <= pc <= UINT64_MAX.

Lemma covers_below_end k :
  (k < List.length fdes)%nat ->
  fde_covers pc (nth k fdes fde0) = true ->
  pc < initial_location (nth k fdes fde0) + address_range (nth k fdes fde0).
Proof.
  intros Hk Hcov. unfold fde_covers in Hcov.
  apply andb_prop in Hcov. destruct Hcov as [Hloc Hrng].
  apply Z.leb_le in Hloc. apply Z.ltb_lt in Hrng.
  rewrite Forall_forall in table_locations.
  pose proof (table_locations (nth k fdes fde0) (nth_In _ _ Hk)).
  pose proof pc_range as Hpc. unfold UINT64_MAX in Hpc.
  rewrite u64_small in Hrng by (unfold UINT64_MOD; lia). lia.
Qed.

Lemma fde_before_nth i j :
  (i < j)%nat -> (j < List.length fdes)%nat ->
  fde_before (nth i fdes fde0) (nth j fdes fde0).
Proof.
  intros Hij Hj.
  apply (StronglySorted_nth_error fde_before fdes table_sorted i j); auto.
  - apply nth_error_nth'. lia.
  - apply nth_error_nth'. lia.
Qed.

(** On a table of disjoint FDEs in increasing order the search finds the
    entry that covers the PC. *)
Lemma find_fde_loop_complete fuel : forall lo hi k,
  (hi - lo <= fuel)%nat ->
  (lo <= k < hi)%nat -> (hi <= List.length fdes)%nat ->
  fde_covers pc (nth k fdes fde0) = true ->
  find_fde_loop fuel fdes pc lo hi = Some (Some (nth k fdes fde0)).
Proof.
  induction fuel as [|fuel IH]; intros lo hi k Hfuel Hk Hhi Hcov; [lia|].
  cbn [find_fde_loop].
  destruct (Nat.ltb_spec lo hi) as [Hlt|Hge]; [|lia].
  cbv zeta.
  assert (Hhalf : ((hi - lo) / 2 < hi - lo)%nat)
    by (apply Nat.div_lt; lia).
  set (mid := (lo + (hi - lo) / 2)%nat).
  pose proof Hcov as Hcov'. unfold fde_covers in Hcov'.
  apply andb_prop in Hcov'. destruct Hcov' as [Hloc Hrng].
  apply Z.leb_le in Hloc. apply Z.ltb_lt in Hrng.
  destruct (Nat.lt_trichotomy mid k) as [Hmk|[Hmk|Hmk]].
  - (* the probe is left of the entry *)
    destruct (fde_before_nth mid k Hmk ltac:(lia)) as [Hlt' Hsep].
    destruct (Z.ltb_spec pc (initial_location (nth mid fdes fde0))); [lia|].
    destruct (u64 (pc - initial_location (nth mid fdes fde0)) >=?
              address_range (nth mid fdes fde0)) eqn:Hrange.
    + apply IH; [lia | lia | lia | assumption].
    + exfalso. rewrite Z.geb_leb in Hrange. apply Z.leb_gt in Hrange.
      assert (Hc : fde_covers pc (nth mid fdes fde0) = true).
      { unfold fde_covers. apply andb_true_intro.
        split; [apply Z.leb_le; lia | apply Z.ltb_lt; lia]. }
      pose proof (covers_below_end mid ltac:(lia) Hc). lia.
  - subst k.
    destruct (Z.ltb_spec pc (initial_location (nth mid fdes fde0))); [lia|].
    replace (u64 (pc - initial_location (nth mid fdes fde0)) >=?
             address_range (nth mid fdes fde0)) with false
      by (symmetry; rewrite Z.geb_leb; apply Z.leb_gt; lia).
    reflexivity.
  - (* the probe is right of the entry *)
    destruct (fde_before_nth k mid Hmk ltac:(lia)) as [Hlt' Hsep].
    pose proof (covers_below_end k ltac:(lia) Hcov).
    destruct (Z.ltb_spec pc (initial_location (nth mid fdes fde0))); [|lia].
    apply IH; [lia | lia | lia | assumption].
Qed.

End FindFdeFacts.

(** ** Parsing the frame sections *)

Section ReaderFacts.
Import Buf.

Lemma sleb128_loop_count bytes : forall shift value n v k,
  sleb128_loop bytes shift value n = Ok (v, k) ->
  n < k <= n + Z.of_nat (List.length bytes).
Proof.
  induction bytes as [|b tl IH]; intros shift value n v k H; [discriminate|].
  cbn [sleb128_loop] in H. cbn [List.length].
  destruct (_ && _ && _); [discriminate|].
  cbv zeta in H.
  destruct (Z.land (byte_to_Z b) 128 =? 0).
  - inversion H; subst. lia.
  - apply IH in H. lia.
Qed.

Lemma next_sleb128_moved bb v bb' :
  binary_buffer_next_sleb128 bb = Ok (v, bb') -> moved 1 bb bb'.
Proof.
  unfold binary_buffer_next_sleb128, bind.
  destruct (sleb128_loop (remaining bb) 0 0 0) as [[v' n]|] eqn:E; [|discriminate].
  intros H. inversion H; subst.
  apply sleb128_loop_count in E. pose proof (remaining_length bb).
  unfold moved, advance. cbn. split; [reflexivity | lia].
Qed.

Lemma next_sint_moved bb size v bb' :
  binary_buffer_next_sint_into_u64 bb size = Ok (v, bb') -> moved size bb bb'.
Proof.
  unfold binary_buffer_next_sint_into_u64, binary_buffer_next_sint, bind.
  destruct (binary_buffer_next_uint bb size) as [[u bb1]|] eqn:E; [|discriminate].
  intros H. inversion H; subst. eapply next_uint_moved; eauto.
Qed.

Lemma skip_moved bb n bb' :
  binary_buffer_skip bb n = Ok bb' -> moved n bb bb'.
Proof.
  unfold binary_buffer_skip, binary_buffer_check_bounds, bind.
  destruct (Z.ltb_spec (bb_end bb - bb_pos bb) n) as [Hlt|Hge]; [discriminate|].
  intros H. inversion H; subst. unfold moved, advance. cbn.
  split; [reflexivity | lia].
Qed.

Lemma moved_weaken k k' a b : moved k a b -> k' <= k -> moved k' a b.
Proof. unfold moved. intros [? ?] ?. split; [assumption | lia]. Qed.

(** An encoded pointer takes at least one byte, read forwards and within
    the bounds, and comes out truncated to the address size. *)
Lemma next_encoded_moved module bb address_size encoding func_addr v bb' :
  1 <= address_size ->
  Cfi.drgn_dwarf_cfi_next_encoded module bb address_size encoding func_addr
    = Ok (v, bb') ->
  moved 1 bb bb' /\ 0 <= v <= uint_max address_size.
Proof.
  intros Hsize. unfold Cfi.drgn_dwarf_cfi_next_encoded, bind. cbv zeta.
  destruct (negb _); [discriminate|].
  intros H.
  match type of H with
  | match ?rb with Ok _ => _ | Err _ => _ end = _ =>
      destruct rb as [[base bb1]|] eqn:Hbase; [|discriminate]
  end.
  match type of H with
  | match ?ro with Ok _ => _ | Err _ => _ end = _ =>
      destruct ro as [[offset bb2]|] eqn:Hoff; [|discriminate]
  end.
  inversion H; subst; clear H.
  assert (H1 : bb1 = bb \/ moved 0 bb bb1).
  { repeat match type of Hbase with
    | (if ?c then _ else _) = _ => destruct c eqn:?
    end; try discriminate.
    all: try (inversion Hbase; subst; left; reflexivity).
    right.
    destruct (binary_buffer_skip bb _) as [bbs|] eqn:Hs; [|discriminate].
    inversion Hbase; subst. apply skip_moved in Hs.
    pose proof (Z.mod_pos_bound (bb_pos bb) address_size ltac:(lia)).
    eapply moved_weaken; [exact Hs | lia]. }
  assert (H2 : moved 1 bb1 bb').
  { repeat match type of Hoff with
    | (if ?c then _ else _) = _ => destruct c eqn:?
    end; try discriminate.
    all: first
      [ apply next_uint_moved in Hoff; eapply moved_weaken; [exact Hoff | lia]
      | apply next_uleb128_moved in Hoff; exact Hoff
      | apply next_sint_moved in Hoff; eapply moved_weaken; [exact Hoff | lia]
      | unfold binary_buffer_next_sleb128_into_u64, bind in Hoff;
        destruct (binary_buffer_next_sleb128 bb1) as [[sv bbq]|] eqn:Hq;
          [|discriminate];
        inversion Hoff; subst; apply next_sleb128_moved in Hq; exact Hq ]. }
  split.
  - destruct H1 as [->|H1]; [assumption|].
    unfold moved in *. destruct H1, H2. split; [congruence | lia].
  - unfold uint_max.
    replace (2 ^ (8 * address_size) - 1) with (Z.ones (8 * address_size))
      by (rewrite Z.ones_equiv; lia).
    rewrite Z.land_ones by lia.
    pose proof (Z.mod_pos_bound (u64 (base + offset)) (2 ^ (8 * address_size))
                  ltac:(apply Z.pow_pos_nonneg; lia)).
    rewrite Z.ones_equiv. lia.
Qed.
End ReaderFacts.

Section FrameParseFacts.
Import Buf FrameParse.

Variable module : drgn_debug_info_module.
Variable scn : drgn_debug_info_scn.

Lemma parse_cie_is_eh cie_pointer cie :
  Cfi.drgn_parse_dwarf_cie module scn cie_pointer = Ok cie ->
  is_eh cie = is_eh_scn scn.
Proof.
  unfold Cfi.drgn_parse_dwarf_cie, bind. cbv zeta.
  destruct (Cfi.parse_cie_header module scn cie_pointer)
    as [[[version augmentation] bb]|]; [|discriminate].
  destruct (Cfi.augmentation_loop _ _ _ _) as [sf|]; [|discriminate].
  unfold Cfi.parse_cie_body, bind. cbv zeta. intros H.
  repeat match type of H with
  | match ?r with Ok _ => _ | Err _ => _ end = _ =>
      destruct r as [[? ?]|]; [|discriminate H]
  | (if ?c then _ else _) = _ => destruct c; [discriminate H|]
  end.
  inversion H. reflexivity.
Qed.

Lemma next_encoded_end bb address_size encoding func_addr v bb' :
  Cfi.drgn_dwarf_cfi_next_encoded module bb address_size encoding func_addr
    = Ok (v, bb') ->
  bb_end bb' = bb_end bb.
Proof.
  unfold Cfi.drgn_dwarf_cfi_next_encoded, bind. cbv zeta.
  destruct (negb _); [discriminate|].
  intros H.
  match type of H with
  | match ?rb with Ok _ => _ | Err _ => _ end = _ =>
      destruct rb as [[base bb1]|] eqn:Hbase; [|discriminate]
  end.
  match type of H with
  | match ?ro with Ok _ => _ | Err _ => _ end = _ =>
      destruct ro as [[offset bb2]|] eqn:Hoff; [|discriminate]
  end.
  inversion H; subst; clear H.
  assert (H1 : bb_end bb1 = bb_end bb).
  { repeat match type of Hbase with
    | (if ?c then _ else _) = _ => destruct c eqn:?
    end; try discriminate.
    all: try (inversion Hbase; subst; reflexivity).
    destruct (binary_buffer_skip bb _) as [bbs|] eqn:Hs; [|discriminate].
    inversion Hbase; subst. apply skip_moved in Hs. apply Hs. }
  rewrite <- H1.
  repeat match type of Hoff with
  | (if ?c then _ else _) = _ => destruct c eqn:?
  end; try discriminate.
  all: first
    [ apply next_uint_moved in Hoff; apply Hoff
    | apply next_uleb128_moved in Hoff; apply Hoff
    | apply next_sint_moved in Hoff; apply Hoff
    | unfold binary_buffer_next_sleb128_into_u64, bind in Hoff;
      destruct (binary_buffer_next_sleb128 bb1) as [[sv bbq]|] eqn:Hq;
        [|discriminate];
      inversion Hoff; subst; apply next_sleb128_moved in Hq; apply Hq ].
Qed.

Import FrameSpec.

Variable cies0 : list drgn_dwarf_cie.
Variable fdes0 : list drgn_dwarf_fde.

Lemma map_search_cons (map : list (Z * nat)) k v key :
  drgn_dwarf_cie_map_search ((k, v) :: map) key =
  if k =? key then Some v else drgn_dwarf_cie_map_search map key.
Proof.
  unfold drgn_dwarf_cie_map_search. cbn [find fst snd].
  destruct (k =? key); reflexivity.
Qed.

(** Handling an FDE keeps the invariant and the end of the buffer. *)
Lemma parse_fde_inv is_64_bit cie_pointer bb s s' :
  frames_inv module scn cies0 fdes0 s ->
  parse_fde module scn is_64_bit cie_pointer bb s = Ok s' ->
  bb_end (fs_bb s') = bb_end bb /\
  (exists new_cies,
     fs_cies s' = cies0 ++ new_cies /\
     Forall (fun c => is_eh c = is_eh_scn scn) new_cies) /\
  (exists new_fdes,
     fs_fdes s' = fdes0 ++ new_fdes /\
     Forall (fun f =>
               (List.length cies0 <= cie f < List.length (fs_cies s'))%nat)
       new_fdes) /\
  (forall key index,
     drgn_dwarf_cie_map_search (fs_cie_map s') key = Some index ->
     (List.length cies0 <= index < List.length (fs_cies s'))%nat).
Proof.
  intros [Hend [[nc [Hc Hnc]] [[nf [Hf Hnf]] Hmap]]].
  unfold parse_fde, bind. cbv zeta. intros H.
  match type of H with
  | match ?r with Ok _ => _ | Err _ => _ end = _ =>
      destruct r as [cp|]; [|discriminate H]
  end.
  destruct (drgn_dwarf_cie_map_search (fs_cie_map s) cp) as [index|] eqn:Hs.
  - (* the CIE was parsed before *)
    pose proof (Hmap _ _ Hs) as Hidx.
    destruct (Cfi.drgn_dwarf_cfi_next_encoded _ bb _ _ _) as [[loc bb1]|] eqn:H1;
      [|discriminate].
    destruct (Cfi.drgn_dwarf_cfi_next_encoded _ bb1 _ _ _) as [[rng bb2]|] eqn:H2;
      [|discriminate].
    apply next_encoded_end in H1. apply next_encoded_end in H2.
    match type of H with
    | match ?r with Ok _ => _ | Err _ => _ end = _ =>
        destruct r as [bb3|] eqn:H3; [|discriminate H]
    end.
    assert (He3 : bb_end bb3 = bb_end bb2).
    { destruct (have_augmentation_length _); [|inversion H3; reflexivity].
      destruct (binary_buffer_next_uleb128 bb2) as [[al bbq]|] eqn:Hq;
        [|discriminate].
      destruct (al >? _); [discriminate|]. inversion H3; subst.
      apply next_uleb128_moved in Hq. cbn. apply Hq. }
    inversion H; subst; clear H. cbn [fs_bb fs_cies fs_fdes fs_cie_map].
    split; [congruence|]. split; [exists nc; split; assumption|].
    split; [|assumption].
    exists (nf ++ [{| cie := index; initial_location := loc;
                      address_range := rng; instructions := bb_pos bb3;
                      instructions_size := bb_end bb3 - bb_pos bb3 |}]).
    split; [rewrite Hf, app_assoc; reflexivity|].
    apply Forall_app. split; [assumption|].
    constructor; [exact Hidx | constructor].
  - (* a new CIE *)
    destruct (Cfi.drgn_parse_dwarf_cie module scn cp) as [c|] eqn:Hcie;
      [|discriminate].
    apply parse_cie_is_eh in Hcie.
    destruct (Cfi.drgn_dwarf_cfi_next_encoded _ bb _ _ _) as [[loc bb1]|] eqn:H1;
      [|discriminate].
    destruct (Cfi.drgn_dwarf_cfi_next_encoded _ bb1 _ _ _) as [[rng bb2]|] eqn:H2;
      [|discriminate].
    apply next_encoded_end in H1. apply next_encoded_end in H2.
    match type of H with
    | match ?r with Ok _ => _ | Err _ => _ end = _ =>
        destruct r as [bb3|] eqn:H3; [|discriminate H]
    end.
    assert (He3 : bb_end bb3 = bb_end bb2).
    { destruct (have_augmentation_length _); [|inversion H3; reflexivity].
      destruct (binary_buffer_next_uleb128 bb2) as [[al bbq]|] eqn:Hq;
        [|discriminate].
      destruct (al >? _); [discriminate|]. inversion H3; subst.
      apply next_uleb128_moved in Hq. cbn. apply Hq. }
    inversion H; subst; clear H. cbn [fs_bb fs_cies fs_fdes fs_cie_map].
    assert (Hlen : List.length (fs_cies s ++ [c]) = S (List.length (fs_cies s)))
      by (rewrite length_app; cbn; lia).
    assert (Hlen0 : (List.length cies0 <= List.length (fs_cies s))%nat)
      by (rewrite Hc, length_app; lia).
    split; [congruence|]. split; [|split].
    + exists (nc ++ [c]). split; [rewrite Hc, app_assoc; reflexivity|].
      apply Forall_app. split; [assumption | constructor; [assumption | constructor]].
    + exists (nf ++ [{| cie := List.length (fs_cies s); initial_location := loc;
                        address_range := rng; instructions := bb_pos bb3;
                        instructions_size := bb_end bb3 - bb_pos bb3 |}]).
      split; [rewrite Hf, app_assoc; reflexivity|].
      apply Forall_app. split.
      * eapply Forall_impl; [|exact Hnf]. cbn beta. intros f Hfi. lia.
      * constructor; [cbn [cie]; lia | constructor].
    + intros key index. rewrite map_search_cons.
      destruct (cp =? key).
      * intros Hi. inversion Hi; subst. lia.
      * intros Hi. apply Hmap in Hi. lia.
Qed.

(** An iteration keeps the invariant and moves on. *)
Lemma frames_entry_inv s s' :
  frames_inv module scn cies0 fdes0 s ->
  frames_entry module scn s = Ok (FramesContinue s') ->
  frames_inv module scn cies0 fdes0 s' /\
  bb_pos (fs_bb s) < bb_pos (fs_bb s').
Proof.
  intros Hinv. pose proof Hinv as [Hend _].
  unfold frames_entry, bind. cbv zeta. intros H.
  destruct (binary_buffer_next_u32 (fs_bb s)) as [[tmp bb1]|] eqn:H1;
    [|discriminate].
  pose proof (next_uint_nonneg _ _ _ _ H1) as Htmp.
  apply next_uint_moved in H1.
  match type of H with
  | match ?r with Ok _ => _ | Err _ => _ end = _ =>
      destruct r as [[length bb2]|] eqn:H2; [|discriminate H]
  end.
  assert (H2' : 0 <= length /\ bb_end bb2 = bb_end bb1 /\
                bb_pos bb1 <= bb_pos bb2).
  { destruct (tmp =? 4294967295).
    - pose proof (next_uint_nonneg _ _ _ _ H2).
      apply next_uint_moved in H2. unfold moved in H2. lia.
    - inversion H2; subst. lia. }
  destruct (Z.eqb_spec length 0) as [|Hnz]; [discriminate|].
  destruct (length >? bb_end bb2 - bb_pos bb2); [discriminate|].
  match type of H with
  | match ?r with Ok _ => _ | Err _ => _ end = _ =>
      destruct r as [[cie_pointer bb3]|] eqn:H3; [|discriminate H]
  end.
  assert (H3' : bb_end bb3 = bb_pos bb2 + length).
  { destruct (tmp =? 4294967295); apply next_uint_moved in H3;
      destruct H3 as [H3 _]; rewrite H3; reflexivity. }
  match type of H with
  | match ?r with Ok _ => _ | Err _ => _ end = _ =>
      destruct r as [s1|] eqn:H4; [|discriminate H]
  end.
  inversion H; subst; clear H.
  assert (Hs1 : bb_end (fs_bb s1) = bb_end bb3 /\
    (exists new_cies,
       fs_cies s1 = cies0 ++ new_cies /\
       Forall (fun c => is_eh c = is_eh_scn scn) new_cies) /\
    (exists new_fdes,
       fs_fdes s1 = fdes0 ++ new_fdes /\
       Forall (fun f =>
                 (List.length cies0 <= cie f < List.length (fs_cies s1))%nat)
         new_fdes) /\
    (forall key index,
       drgn_dwarf_cie_map_search (fs_cie_map s1) key = Some index ->
       (List.length cies0 <= index < List.length (fs_cies s1))%nat)).
  { destruct (negb _).
    - eapply parse_fde_inv; eassumption.
    - inversion H4; subst. cbn [fs_bb fs_cies fs_fdes fs_cie_map].
      split; [reflexivity|]. apply Hinv. }
  destruct Hs1 as [He1 Hrest].
  split.
  - unfold frames_inv. cbn [fs_bb fs_cies fs_fdes fs_cie_map set_end bb_end].
    split; [reflexivity | exact Hrest].
  - cbn [fs_bb set_end set_pos bb_pos]. unfold moved in H1. lia.
Qed.

(** The loop returns, and what it returns satisfies the invariant. *)
Lemma frames_loop_inv fuel : forall s,
  frames_inv module scn cies0 fdes0 s ->
  (Z.to_nat (d_size module scn - bb_pos (fs_bb s)) <= fuel)%nat ->
  exists r,
    frames_loop module scn fuel s = Some r /\
    forall cies fdes, r = Ok (cies, fdes) ->
      exists s', frames_inv module scn cies0 fdes0 s' /\
                 fs_cies s' = cies /\ fs_fdes s' = fdes.
Proof.
  induction fuel as [|fuel IH]; intros s Hinv Hfuel; cbn [frames_loop].
  - pose proof Hinv as [Hend _].
    unfold binary_buffer_has_next.
    destruct (Z.ltb_spec (bb_pos (fs_bb s)) (bb_end (fs_bb s))); [lia|].
    eexists. split; [reflexivity|]. intros cies fdes Hr. inversion Hr; subst.
    exists s. auto.
  - destruct (binary_buffer_has_next (fs_bb s)) eqn:Hn.
    + destruct (frames_entry module scn s) as [[|s1]|e] eqn:He.
      * eexists. split; [reflexivity|]. intros cies fdes Hr.
        inversion Hr; subst. exists s. auto.
      * destruct (frames_entry_inv s s1 Hinv He) as [Hinv1 Hpos].
        apply IH; [assumption | lia].
      * eexists. split; [reflexivity|]. intros cies fdes Hr. discriminate.
    + eexists. split; [reflexivity|]. intros cies fdes Hr.
      inversion Hr; subst. exists s. auto.
Qed.

End FrameParseFacts.

Section ReaderFacts2.
Import Buf.

Lemma skip_leb128_loop_count bytes : forall n k,
  skip_leb128_loop bytes n = Ok k ->
  n < k <= n + Z.of_nat (List.length bytes).
Proof.
  induction bytes as [|b tl IH]; intros n k H; [discriminate|].
  cbn [skip_leb128_loop] in H. cbn [List.length].
  destruct (Z.land (byte_to_Z b) 128 =? 0).
  - inversion H; subst. lia.
  - apply IH in H. lia.
Qed.

Lemma skip_leb128_moved bb bb' :
  binary_buffer_skip_leb128 bb = Ok bb' -> moved 1 bb bb'.
Proof.
  unfold binary_buffer_skip_leb128, bind.
  destruct (skip_leb128_loop (remaining bb) 0) as [n|] eqn:E; [|discriminate].
  intros H. inversion H; subst.
  apply skip_leb128_loop_count in E. pose proof (remaining_length bb).
  unfold moved, advance. cbn. split; [reflexivity | lia].
Qed.

Lemma string_loop_length bytes : forall s,
  string_loop bytes = Ok s -> (List.length s < List.length bytes)%nat.
Proof.
  induction bytes as [|b tl IH]; intros s H; [discriminate|].
  cbn [string_loop] in H. cbn [List.length].
  destruct (byte_to_Z b =? 0).
  - inversion H; subst. cbn. lia.
  - unfold bind in H. destruct (string_loop tl) as [s'|] eqn:E; [|discriminate].
    inversion H; subst. cbn. specialize (IH s' eq_refl). lia.
Qed.

Lemma next_string_moved bb s bb' :
  binary_buffer_next_string bb = Ok (s, bb') -> moved 1 bb bb'.
Proof.
  unfold binary_buffer_next_string, bind.
  destruct (string_loop (remaining bb)) as [s'|] eqn:E; [|discriminate].
  intros H. inversion H; subst.
  apply string_loop_length in E. pose proof (remaining_length bb).
  unfold moved, advance. cbn. split; [reflexivity | lia].
Qed.

Lemma augmentation_data_loop_moved module address_size rest :
  1 <= address_size ->
  forall bb enc enc' bb',
    Cfi.augmentation_data_loop module address_size rest bb enc = Ok (enc', bb') ->
    bb' = bb \/ moved 0 bb bb'.
Proof.
  intros Hsize. induction rest as [|c tl IH]; intros bb enc enc' bb' H.
  - inversion H; subst. left; reflexivity.
  - cbn [Cfi.augmentation_data_loop] in H. unfold bind at 1 in H.
    match type of H with
    | match ?r with Ok _ => _ | Err _ => _ end = _ =>
        destruct r as [[enc1 bb1]|] eqn:H1; [|discriminate H]
    end.
    assert (Hstep : bb1 = bb \/ moved 0 bb bb1).
    { unfold bind in H1.
      destruct (Byte.eqb c "z").
      { destruct (binary_buffer_skip_leb128 bb) as [bbq|] eqn:Hq; [|discriminate].
        inversion H1; subst. right. apply skip_leb128_moved in Hq.
        eapply moved_weaken; [exact Hq | lia]. }
      destruct (Byte.eqb c "L").
      { destruct (binary_buffer_skip bb 1) as [bbq|] eqn:Hq; [|discriminate].
        inversion H1; subst. right. apply skip_moved in Hq.
        eapply moved_weaken; [exact Hq | lia]. }
      destruct (Byte.eqb c "P").
      { destruct (binary_buffer_next_u8 bb) as [[e bbq]|] eqn:Hq; [|discriminate].
        destruct (Cfi.drgn_dwarf_cfi_next_encoded _ bbq _ _ _)
          as [[u bbr]|] eqn:Hr; [|discriminate].
        inversion H1; subst. right.
        apply next_uint_moved in Hq.
        apply next_encoded_moved in Hr; [|assumption]. destruct Hr as [Hr _].
        unfold moved in *. destruct Hq, Hr. split; [congruence | lia]. }
      destruct (Byte.eqb c "R").
      { apply next_uint_moved in H1. right.
        eapply moved_weaken; [exact H1 | lia]. }
      inversion H1; subst. left; reflexivity. }
    apply IH in H.
    destruct Hstep as [->|Hs]; [assumption|].
    destruct H as [->|H]; [right; assumption|].
    right. unfold moved in *. destruct Hs, H. split; [congruence | lia].
Qed.

End ReaderFacts2.

Section CieBounds.
Import Buf FrameParse FrameSpec.

Variable module : drgn_debug_info_module.
Variable scn : drgn_debug_info_scn.
Hypothesis platform_address_size_ok :
  1 <= platform_address_size (platform module) <= 8.

(** The initial instructions of a parsed CIE lie within the section. *)
Lemma parse_cie_in_section cie_pointer cie :
  0 <= cie_pointer ->
  Cfi.drgn_parse_dwarf_cie module scn cie_pointer = Ok cie ->
  cie_in_section (d_size module scn) cie.
Proof.
  intros Hcp. unfold Cfi.drgn_parse_dwarf_cie, bind. cbv zeta.
  destruct (Cfi.parse_cie_header module scn cie_pointer)
    as [[[version augmentation] bb]|] eqn:Hh; [|discriminate].
  destruct (Cfi.augmentation_loop _ _ _ _) as [sf|]; [|discriminate].
  (* the header *)
  assert (Hbb : 0 <= bb_pos bb <= bb_end bb /\ bb_end bb <= d_size module scn).
  { unfold Cfi.parse_cie_header, bind in Hh. cbv zeta in Hh.
    set (bb0 := set_pos _ _) in Hh.
    assert (Hb0 : bb_pos bb0 = cie_pointer /\ bb_end bb0 = d_size module scn).
    { unfold bb0, d_size, drgn_debug_info_buffer_init, binary_buffer_init.
      cbn. split; [lia | reflexivity]. }
    destruct (binary_buffer_next_u32 bb0) as [[tmp bb1]|] eqn:H1; [|discriminate].
    apply next_uint_moved in H1.
    match type of Hh with
    | match ?r with Ok _ => _ | Err _ => _ end = _ =>
        destruct r as [[length bb2]|] eqn:H2; [|discriminate Hh]
    end.
    assert (H2' : 0 <= length \/ True) by (right; exact I).
    assert (H2m : bb_end bb2 = bb_end bb1 /\ bb_pos bb1 <= bb_pos bb2 <= bb_end bb1).
    { destruct (tmp =? 4294967295).
      - apply next_uint_moved in H2. unfold moved in *. lia.
      - inversion H2; subst. unfold moved in *. lia. }
    destruct (Z.gtb_spec length (bb_end bb2 - bb_pos bb2)) as [|Hlen];
      [discriminate|].
    match type of Hh with
    | match ?r with Ok _ => _ | Err _ => _ end = _ =>
        destruct r as [[cie_id bb3]|] eqn:H3; [|discriminate Hh]
    end.
    assert (H3m : moved 4 (set_end bb2 (bb_pos bb2 + length)) bb3).
    { destruct (tmp =? 4294967295); apply next_uint_moved in H3;
        eapply moved_weaken; [exact H3 | lia | exact H3 | lia]. }
    destruct (negb _); [discriminate|].
    destruct (binary_buffer_next_u8 bb3) as [[v bb4]|] eqn:H4; [|discriminate].
    apply next_uint_moved in H4.
    destruct (_ || _); [discriminate|].
    destruct (binary_buffer_next_string bb4) as [[a bb5]|] eqn:H5; [|discriminate].
    apply next_string_moved in H5.
    inversion Hh; subst.
    unfold moved in *. cbn [set_end bb_end bb_pos] in *. lia. }
  (* the body *)
  unfold Cfi.parse_cie_body, bind. cbv zeta. intros H.
  match type of H with
  | match ?r with Ok _ => _ | Err _ => _ end = _ =>
      destruct r as [[asize bb1]|] eqn:H1; [|discriminate H]
  end.
  assert (H1' : 1 <= asize <= 8 /\ bb_end bb1 = bb_end bb /\
                bb_pos bb <= bb_pos bb1 <= bb_end bb).
  { destruct (version >=? 4).
    - destruct (binary_buffer_next_u8 bb) as [[a bbq]|] eqn:Hq; [|discriminate].
      apply next_uint_moved in Hq.
      destruct (Z.ltb_spec a 1); [discriminate|].
      destruct (Z.gtb_spec a 8); [discriminate|]. cbn [orb] in H1.
      destruct (binary_buffer_next_u8 bbq) as [[ss bbr]|] eqn:Hr; [|discriminate].
      apply next_uint_moved in Hr.
      destruct (negb _); [discriminate|]. inversion H1; subst.
      unfold moved in *. lia.
    - inversion H1; subst. lia. }
  destruct (binary_buffer_next_uleb128 bb1) as [[caf bb2]|] eqn:H2; [|discriminate].
  apply next_uleb128_moved in H2.
  destruct (binary_buffer_next_sleb128 bb2) as [[daf bb3]|] eqn:H3; [|discriminate].
  apply next_sleb128_moved in H3.
  match type of H with
  | match ?r with Ok _ => _ | Err _ => _ end = _ =>
      destruct r as [[rar bb4]|] eqn:H4; [|discriminate H]
  end.
  assert (H4' : moved 1 bb3 bb4).
  { destruct (version >=? 3);
      [apply next_uleb128_moved in H4 | apply next_uint_moved in H4];
      assumption. }
  destruct (_ =? DRGN_REGISTER_NUMBER_UNKNOWN _); [discriminate|].
  match type of H with
  | match ?r with Ok _ => _ | Err _ => _ end = _ =>
      destruct r as [[enc bb5]|] eqn:H5; [|discriminate H]
  end.
  assert (H5' : bb5 = bb4 \/ moved 0 bb4 bb5).
  { destruct (Byte.eqb _ _).
    - eapply augmentation_data_loop_moved; [|exact H5]. lia.
    - inversion H5; subst. left; reflexivity. }
  inversion H; subst; clear H.
  unfold cie_in_section.
  cbn [initial_instructions initial_instructions_size address_size].
  destruct H5' as [->|H5']; unfold moved in *; lia.
Qed.

End CieBounds.

Lemma uint_max_le a : 1 <= a <= 8 -> 0 <= uint_max a <= UINT64_MAX.
Proof.
  intros Ha. unfold uint_max, UINT64_MAX.
  assert (H : 2 ^ (8 * a) <= 2 ^ 64) by (apply Z.pow_le_mono_r; lia).
  pose proof (Z.pow_pos_nonneg 2 (8 * a)). 
  change UINT64_MOD with (2 ^ 64). lia.
Qed.

Section FdeBounds.
Import Buf FrameParse FrameSpec.

Variable module : drgn_debug_info_module.
Variable scn : drgn_debug_info_scn.
Hypothesis platform_address_size_ok :
  1 <= platform_address_size (platform module) <= 8.
Variable cies0 : list drgn_dwarf_cie.
Variable fdes0 : list drgn_dwarf_fde.

Lemma parse_fde_bounds is_64_bit cie_pointer bb s s' :
  frames_inv module scn cies0 fdes0 s ->
  frames_bounds module scn cies0 fdes0 s ->
  0 <= cie_pointer ->
  0 <= bb_pos bb <= bb_end bb -> bb_end bb <= d_size module scn ->
  parse_fde module scn is_64_bit cie_pointer bb s = Ok s' ->
  0 <= bb_pos (fs_bb s') <= bb_end (fs_bb s') /\
  (exists new_cies,
     fs_cies s' = cies0 ++ new_cies /\
     Forall (cie_in_section (d_size module scn)) new_cies) /\
  (exists new_fdes,
     fs_fdes s' = fdes0 ++ new_fdes /\
     Forall (fde_in_section (d_size module scn)) new_fdes).
Proof.
  intros [_ [_ [_ Hmap]]] [_ [[nc [Hc Hnc]] [nf [Hf Hnf]]]] Hcp Hpos Hend.
  unfold parse_fde, bind. cbv zeta. intros H.
  match type of H with
  | match ?r with Ok _ => _ | Err _ => _ end = _ =>
      destruct r as [cp|] eqn:Hcp'; [|discriminate H]
  end.
  assert (Hcp0 : 0 <= cp).
  { destruct (is_eh_scn scn).
    - destruct (Z.gtb_spec cie_pointer
                  (bb_pos bb - (if is_64_bit then 8 else 4)));
        [discriminate|]. inversion Hcp'; subst. lia.
    - destruct (cie_pointer >? _); [discriminate|]. inversion Hcp'; subst. lia. }
  match type of H with
  | match ?r with Ok _ => _ | Err _ => _ end = _ =>
      destruct r as [[[index cies] cie_map]|] eqn:Hfind; [|discriminate H]
  end.
  assert (Hcies : (exists new_cies,
             cies = cies0 ++ new_cies /\
             Forall (cie_in_section (d_size module scn)) new_cies) /\
          cie_in_section (d_size module scn) (nth index cies cie0)).
  { destruct (drgn_dwarf_cie_map_search (fs_cie_map s) cp) as [i|] eqn:Hs.
    - inversion Hfind; subst. split; [exists nc; split; assumption|].
      apply Hmap in Hs. rewrite Hc in *. rewrite length_app in Hs.
      rewrite app_nth2 by lia.
      rewrite Forall_forall in Hnc. apply Hnc. apply nth_In. lia.
    - destruct (Cfi.drgn_parse_dwarf_cie module scn cp) as [c|] eqn:Hcie;
        [|discriminate].
      inversion Hfind; subst.
      apply parse_cie_in_section in Hcie; [|assumption|assumption].
      split.
      + exists (nc ++ [c]). split; [rewrite Hc, app_assoc; reflexivity|].
        apply Forall_app. split; [assumption | constructor; [assumption|constructor]].
      + rewrite app_nth2 by lia. rewrite Nat.sub_diag. exact Hcie. }
  destruct Hcies as [Hcies Hcie].
  pose proof Hcie as [_ [_ [_ Hasize]]].
  destruct (Cfi.drgn_dwarf_cfi_next_encoded _ bb _ _ _) as [[loc bb1]|] eqn:H1;
    [|discriminate].
  destruct (Cfi.drgn_dwarf_cfi_next_encoded _ bb1 _ _ _) as [[rng bb2]|] eqn:H2;
    [|discriminate].
  apply next_encoded_moved in H1; [|lia]. apply next_encoded_moved in H2; [|lia].
  destruct H1 as [H1 Hloc]. destruct H2 as [H2 Hrng].
  pose proof (uint_max_le _ Hasize) as Hmax.
  match type of H with
  | match ?r with Ok _ => _ | Err _ => _ end = _ =>
      destruct r as [bb3|] eqn:H3; [|discriminate H]
  end.
  assert (H3' : bb_end bb3 = bb_end bb2 /\ bb_pos bb2 <= bb_pos bb3 <= bb_end bb2).
  { destruct (have_augmentation_length _).
    - destruct (binary_buffer_next_uleb128 bb2) as [[al bbq]|] eqn:Hq;
        [|discriminate].
      pose proof (next_uleb128_nonneg _ _ _ Hq).
      apply next_uleb128_moved in Hq.
      destruct (Z.gtb_spec al (bb_end bbq - bb_pos bbq)); [discriminate|].
      inversion H3; subst. cbn. unfold moved in *. lia.
    - inversion H3; subst. unfold moved in *. lia. }
  inversion H; subst; clear H. cbn [fs_bb fs_cies fs_fdes].
  unfold moved in *.
  split; [lia|]. split; [exact Hcies|].
  eexists. split; [rewrite Hf, <- app_assoc; reflexivity|].
  apply Forall_app. split; [assumption|].
  constructor; [|constructor].
  unfold fde_in_section.
  cbn [instructions instructions_size initial_location address_range]. lia.
Qed.

Lemma frames_entry_bounds s s' :
  frames_inv module scn cies0 fdes0 s ->
  frames_bounds module scn cies0 fdes0 s ->
  frames_entry module scn s = Ok (FramesContinue s') ->
  frames_bounds module scn cies0 fdes0 s'.
Proof.
  intros Hinv Hb. pose proof Hinv as [Hend _]. pose proof Hb as [Hpos _].
  unfold frames_entry, bind. cbv zeta. intros H.
  destruct (binary_buffer_next_u32 (fs_bb s)) as [[tmp bb1]|] eqn:H1;
    [|discriminate].
  apply next_uint_moved in H1.
  match type of H with
  | match ?r with Ok _ => _ | Err _ => _ end = _ =>
      destruct r as [[length bb2]|] eqn:H2; [|discriminate H]
  end.
  assert (H2' : bb_end bb2 = bb_end bb1 /\
                bb_pos bb1 <= bb_pos bb2 <= bb_end bb1).
  { destruct (tmp =? 4294967295).
    - apply next_uint_moved in H2. unfold moved in *. lia.
    - inversion H2; subst. unfold moved in *. lia. }
  destruct (length =? 0); [discriminate|].
  destruct (Z.gtb_spec length (bb_end bb2 - bb_pos bb2)); [discriminate|].
  match type of H with
  | match ?r with Ok _ => _ | Err _ => _ end = _ =>
      destruct r as [[cie_pointer bb3]|] eqn:H3; [|discriminate H]
  end.
  assert (H3' : 0 <= cie_pointer /\
                moved 4 (set_end bb2 (bb_pos bb2 + length)) bb3).
  { destruct (tmp =? 4294967295);
      pose proof (next_uint_nonneg _ _ _ _ H3); apply next_uint_moved in H3;
      (split; [assumption|]); eapply moved_weaken; [exact H3 | lia | exact H3 | lia]. }
  destruct H3' as [Hcp H3'].
  match type of H with
  | match ?r with Ok _ => _ | Err _ => _ end = _ =>
      destruct r as [s1|] eqn:H4; [|discriminate H]
  end.
  inversion H; subst; clear H.
  assert (Hs1 : 0 <= bb_pos (fs_bb s1) <= bb_end (fs_bb s1) /\
    (exists new_cies,
       fs_cies s1 = cies0 ++ new_cies /\
       Forall (cie_in_section (d_size module scn)) new_cies) /\
    (exists new_fdes,
       fs_fdes s1 = fdes0 ++ new_fdes /\
       Forall (fde_in_section (d_size module scn)) new_fdes)).
  { unfold moved in *. cbn [set_end bb_end bb_pos] in *.
    destruct (negb _).
    - eapply (parse_fde_bounds _ cie_pointer bb3 s s1 Hinv Hb Hcp);
        [lia | lia | exact H4].
    - inversion H4; subst. cbn [fs_bb fs_cies fs_fdes].
      split; [lia|]. apply Hb. }
  destruct Hs1 as [Hp1 Hrest].
  assert (He1 : bb_end (fs_bb s1) = bb_end bb3).
  { destruct (negb _).
    - eapply parse_fde_inv in H4; [|exact Hinv]. apply H4.
    - inversion H4; reflexivity. }
  unfold frames_bounds. cbn [fs_bb fs_cies fs_fdes set_end set_pos bb_end bb_pos].
  split; [|exact Hrest].
  unfold moved in *. cbn [set_end bb_end bb_pos] in *. lia.
Qed.

Lemma frames_loop_bounds fuel : forall s r,
  frames_inv module scn cies0 fdes0 s ->
  frames_bounds module scn cies0 fdes0 s ->
  frames_loop module scn fuel s = Some r ->
  forall cies fdes, r = Ok (cies, fdes) ->
    exists s', frames_bounds module scn cies0 fdes0 s' /\
               fs_cies s' = cies /\ fs_fdes s' = fdes.
Proof.
  induction fuel as [|fuel IH]; intros s r Hinv Hb H cies fdes Hr;
    cbn [frames_loop] in H.
  - destruct (binary_buffer_has_next (fs_bb s)); [discriminate|].
    inversion H; subst. inversion H1; subst. exists s. auto.
  - destruct (binary_buffer_has_next (fs_bb s)).
    + destruct (frames_entry module scn s) as [[|s1]|e] eqn:He.
      * inversion H; subst. inversion H1; subst. exists s. auto.
      * eapply IH; [| |exact H|exact Hr].
        -- eapply frames_entry_inv; eassumption.
        -- eapply frames_entry_bounds; eassumption.
      * inversion H; subst. discriminate.
    + inversion H; subst. inversion H1; subst. exists s. auto.
Qed.

End FdeBounds.

Section FrameParseResults.
Import Buf FrameParse FrameSpec.

Variable module : drgn_debug_info_module.

Lemma frames_inv_init scn cies fdes :
  frames_inv module scn cies fdes
    {| fs_bb := drgn_debug_info_buffer_init module scn;
       fs_cies := cies; fs_fdes := fdes; fs_cie_map := [] |}.
Proof.
  unfold frames_inv. cbn [fs_bb fs_cies fs_fdes fs_cie_map].
  split; [reflexivity|]. split; [|split].
  - exists []. rewrite app_nil_r. split; [reflexivity | constructor].
  - exists []. rewrite app_nil_r. split; [reflexivity | constructor].
  - intros key index H. discriminate.
Qed.

Lemma frames_bounds_init scn cies fdes :
  frames_bounds module scn cies fdes
    {| fs_bb := drgn_debug_info_buffer_init module scn;
       fs_cies := cies; fs_fdes := fdes; fs_cie_map := [] |}.
Proof.
  unfold frames_bounds. cbn [fs_bb fs_cies fs_fdes fs_cie_map].
  split; [|split].
  - unfold drgn_debug_info_buffer_init, binary_buffer_init. cbn. lia.
  - exists []. rewrite app_nil_r. split; [reflexivity | constructor].
  - exists []. rewrite app_nil_r. split; [reflexivity | constructor].
Qed.

Lemma parse_dwarf_frames_total scn cies fdes :
  drgn_parse_dwarf_frames module scn cies fdes <> None.
Proof.
  unfold drgn_parse_dwarf_frames.
  destruct (scn_data module scn); [|discriminate].
  destruct (frames_loop_inv module scn cies fdes (Z.to_nat (d_size module scn))
              _ (frames_inv_init scn cies fdes)) as [r [Hr _]].
  { cbn [fs_bb]. unfold drgn_debug_info_buffer_init, binary_buffer_init.
    cbn [bb_pos]. lia. }
  congruence.
Qed.

Lemma debug_info_parse_frames_total :
  drgn_debug_info_parse_frames module <> None.
Proof.
  unfold drgn_debug_info_parse_frames.
  pose proof (parse_dwarf_frames_total DRGN_SCN_DEBUG_FRAME [] []) as H1.
  destruct (drgn_parse_dwarf_frames module DRGN_SCN_DEBUG_FRAME [] [])
    as [[[cies1 fdes1]|e]|]; [|discriminate|congruence].
  pose proof (parse_dwarf_frames_total DRGN_SCN_EH_FRAME cies1 fdes1) as H2.
  destruct (drgn_parse_dwarf_frames module DRGN_SCN_EH_FRAME cies1 fdes1)
    as [[[cies2 fdes2]|e]|]; [discriminate|discriminate|congruence].
Qed.

(** X1.  [drgn_parse_dwarf_frames] always returns.  It only appends to the
    two vectors; the CIEs it appends are marked with the section they were
    read from, and every FDE it appends refers to one of them. *)
Theorem parse_dwarf_frames_appends scn cies fdes :
  exists r,
    drgn_parse_dwarf_frames module scn cies fdes = Some r /\
    forall cies' fdes', r = Ok (cies', fdes') ->
      exists new_cies new_fdes,
        cies' = cies ++ new_cies /\ fdes' = fdes ++ new_fdes /\
        Forall (fun c => is_eh c = is_eh_scn scn) new_cies /\
        Forall (fun f =>
                  (List.length cies <= cie f < List.length cies')%nat /\
                  is_eh (nth (cie f) cies' cie0) = is_eh_scn scn)
          new_fdes.
Proof.
  unfold drgn_parse_dwarf_frames.
  destruct (scn_data module scn) as [data|] eqn:Hdata.
  - destruct (frames_loop_inv module scn cies fdes (Z.to_nat (d_size module scn))
                _ (frames_inv_init scn cies fdes)) as [r [Hr Hres]].
    { cbn [fs_bb]. unfold drgn_debug_info_buffer_init, binary_buffer_init.
      cbn [bb_pos]. lia. }
    exists r. split; [exact Hr|].
    intros cies' fdes' Hok.
    destruct (Hres _ _ Hok) as [s' [[_ [[nc [Hc Hnc]] [[nf [Hf Hnf]] _]]] [Hc' Hf']]].
    subst cies' fdes'. exists nc, nf.
    split; [assumption|]. split; [assumption|]. split; [assumption|].
    eapply Forall_impl; [|exact Hnf]. cbn beta. intros f Hi.
    split; [exact Hi|].
    rewrite Hc in *. rewrite length_app in Hi.
    rewrite app_nth2 by lia.
    rewrite Forall_forall in Hnc. apply Hnc. apply nth_In. lia.
  - eexists. split; [reflexivity|]. intros cies' fdes' Hok.
    inversion Hok; subst. exists [], [].
    rewrite !app_nil_r. repeat split; constructor.
Qed.

Hypothesis platform_address_size_ok :
  1 <= platform_address_size (platform module) <= 8.

Lemma parse_dwarf_frames_spec scn cies fdes cies' fdes' :
  drgn_parse_dwarf_frames module scn cies fdes = Some (Ok (cies', fdes')) ->
  exists new_cies new_fdes,
    cies' = cies ++ new_cies /\ fdes' = fdes ++ new_fdes /\
    Forall (fun c => is_eh c = is_eh_scn scn /\
                     cie_in_section (d_size module scn) c) new_cies /\
    Forall (fun f =>
              (List.length cies <= cie f < List.length cies')%nat /\
              fde_in_section (d_size module scn) f) new_fdes.
Proof.
  unfold drgn_parse_dwarf_frames.
  destruct (scn_data module scn) as [data|] eqn:Hdata.
  - intros H.
    destruct (frames_loop_inv module scn cies fdes (Z.to_nat (d_size module scn))
                _ (frames_inv_init scn cies fdes)) as [r [Hr Hres]].
    { cbn [fs_bb]. unfold drgn_debug_info_buffer_init, binary_buffer_init.
      cbn [bb_pos]. lia. }
    rewrite H in Hr. inversion Hr; subst r.
    destruct (Hres _ _ eq_refl)
      as [s1 [[_ [[nc [Hc Hnc]] [[nf [Hf Hnf]] _]]] [Hc' Hf']]].
    destruct (frames_loop_bounds module scn platform_address_size_ok cies fdes
                _ _ _ (frames_inv_init scn cies fdes)
                (frames_bounds_init scn cies fdes) H _ _ eq_refl)
      as [s2 [[_ [[nc2 [Hc2 Hnc2]] [nf2 [Hf2 Hnf2]]]] [Hc2' Hf2']]].
    assert (nc2 = nc) by (apply (app_inv_head cies); congruence).
    assert (nf2 = nf) by (apply (app_inv_head fdes); congruence).
    subst nc2 nf2. exists nc, nf.
    split; [congruence|]. split; [congruence|].
    rewrite <- Hc'. split.
    + rewrite Forall_forall in *. intros c Hin. split; auto.
    + rewrite Forall_forall in *. intros f Hin. split; auto.
  - intros H. inversion H; subst. exists [], [].
    rewrite !app_nil_r. repeat split; constructor.
Qed.

(** The section that [drgn_eval_dwarf_cfi] reads the instructions of an
    FDE from. *)
Local Abbreviation scn_of cies f :=
  (if Frames.fde_is_eh cies f then DRGN_SCN_EH_FRAME
   else DRGN_SCN_DEBUG_FRAME).

(** The FDEs of the table refer to CIEs of the table, and they and their
    CIEs lie within their section. *)
Lemma frames_table_in_section cies fdes :
  drgn_debug_info_parse_frames module = Some (Ok (cies, fdes)) ->
  Forall (fun f =>
            (cie f < List.length cies)%nat /\
            fde_in_section (d_size module (scn_of cies f)) f /\
            cie_in_section (d_size module (scn_of cies f))
              (nth (cie f) cies cie0)) fdes.
Proof.
  unfold drgn_debug_info_parse_frames.
  destruct (drgn_parse_dwarf_frames module DRGN_SCN_DEBUG_FRAME [] [])
    as [[[cies1 fdes1]|e]|] eqn:Hr1; try discriminate.
  destruct (drgn_parse_dwarf_frames module DRGN_SCN_EH_FRAME cies1 fdes1)
    as [[[cies2 fdes2]|e]|] eqn:Hr2; try discriminate.
  intros H. inversion H; subst; clear H.
  destruct (parse_dwarf_frames_spec _ _ _ _ _ Hr1)
    as [nc1 [nf1 [Hc1 [Hf1 [Hnc1 Hnf1]]]]].
  destruct (parse_dwarf_frames_spec _ _ _ _ _ Hr2)
    as [nc2 [nf2 [Hc2 [Hf2 [Hnc2 Hnf2]]]]].
  cbn [app] in Hc1, Hf1. subst cies1 fdes1. subst.
  rewrite Forall_forall. intros f Hin.
  unfold Frames.sort_and_dedup in Hin. rewrite remove_duplicates_dedup in Hin.
  apply (dedup_incl (nc1 ++ nc2)) in Hin.
  destruct (qsort_r_meets_post (nc1 ++ nc2) (nf1 ++ nf2)) as [Hperm _].
  apply Permutation_sym in Hperm.
  apply (Permutation_in _ Hperm) in Hin.
  rewrite Forall_forall in Hnc1, Hnf1, Hnc2, Hnf2.
  unfold Frames.fde_is_eh.
  apply in_app_or in Hin. destruct Hin as [Hin|Hin].
  - destruct (Hnf1 f Hin) as [Hidx Hsec]. cbn [List.length] in Hidx.
    rewrite app_nth1 by lia.
    assert (Hc : In (nth (cie f) nc1 cie0) nc1) by (apply nth_In; lia).
    destruct (Hnc1 _ Hc) as [Heh Hcs]. rewrite Heh. cbn [is_eh_scn].
    rewrite length_app. split; [lia|]. split; assumption.
  - destruct (Hnf2 f Hin) as [Hidx Hsec]. rewrite length_app in Hidx.
    rewrite app_nth2 by lia.
    assert (Hc : In (nth (cie f - List.length nc1) nc2 cie0) nc2)
      by (apply nth_In; lia).
    destruct (Hnc2 _ Hc) as [Heh Hcs]. rewrite Heh. cbn [is_eh_scn].
    rewrite length_app. split; [lia|]. split; assumption.
Qed.

(** X2.  [drgn_debug_info_parse_frames] always returns, and the table it
    builds is sound: the FDEs are in strictly increasing order of their
    location, every FDE refers to a CIE of the table, and the instructions
    of the FDE and of its CIE lie within the section that the CIE is marked
    with. *)
Theorem parse_frames_table :
  exists r,
    drgn_debug_info_parse_frames module = Some r /\
    forall cies fdes, r = Ok (cies, fdes) ->
      StronglySorted
        (fun a b => initial_location a < initial_location b) fdes /\
      Forall (fun f =>
                (cie f < List.length cies)%nat /\
                fde_in_section (d_size module (scn_of cies f)) f /\
                cie_in_section (d_size module (scn_of cies f))
                  (nth (cie f) cies cie0)) fdes.
Proof.
  pose proof debug_info_parse_frames_total as Htotal.
  destruct (drgn_debug_info_parse_frames module) as [r|] eqn:Hparse;
    [|congruence].
  exists r. split; [reflexivity|]. intros cies fdes ->.
  split; [|exact (frames_table_in_section cies fdes Hparse)].
  unfold drgn_debug_info_parse_frames in Hparse.
  destruct (drgn_parse_dwarf_frames module DRGN_SCN_DEBUG_FRAME [] [])
    as [[[cies1 fdes1]|e]|]; try discriminate.
  destruct (drgn_parse_dwarf_frames module DRGN_SCN_EH_FRAME cies1 fdes1)
    as [[[cies2 fdes2]|e]|]; try discriminate.
  inversion Hparse; subst; clear Hparse.
  unfold Frames.sort_and_dedup. rewrite remove_duplicates_dedup.
  apply (dedup_sorted cies).
  apply Sorted_StronglySorted; [apply le_fde_trans|].
  apply (qsort_r_meets_post cies).
Qed.

End FrameParseResults.

Section FindFdeResults.
Import FindFde FdeSpec.

(** X3.  [drgn_debug_info_find_fde] always returns, and an FDE that it
    returns is an entry of the module's table that covers the PC: the PC is
    not below its location, and less than its range above it. *)
Theorem find_fde_covers module cache pc :
  exists r module' cache',
    drgn_debug_info_find_fde module cache pc = Some (r, module', cache') /\
    forall fde, r = Ok (Some fde) ->
      parsed_frames cache' = true /\
      In fde (dwarf_fdes cache') /\ fde_covers pc fde = true.
Proof.
  unfold drgn_debug_info_find_fde. cbv zeta.
  assert (Hsearch : forall c : frames_cache,
    exists r,
      find_fde_loop (List.length (dwarf_fdes c)) (dwarf_fdes c) pc 0
        (List.length (dwarf_fdes c)) = Some r /\
      forall fde, r = Some fde ->
        In fde (dwarf_fdes c) /\ fde_covers pc fde = true).
  { intros c.
    destruct (find_fde_loop _ (dwarf_fdes c) pc 0 _) as [r|] eqn:E.
    - exists r. split; [reflexivity|]. intros fde ->.
      eapply find_fde_loop_sound; [|exact E]. lia.
    - exfalso. revert E. apply find_fde_loop_total. lia. }
  destruct (parsed_frames cache) eqn:Hp; cbn [negb].
  - destruct (Hsearch cache) as [r [Hr Hs]]. rewrite Hr.
    eexists; eexists; eexists. split; [reflexivity|].
    intros fde H. inversion H; subst. split; [assumption | auto].
  - pose proof (debug_info_parse_frames_total module) as Ht.
    destruct (FrameParse.drgn_debug_info_parse_frames module)
      as [[[cies fdes]|e]|]; [| |congruence].
    + destruct (Hsearch {| parsed_frames := true; dwarf_fdes := fdes |})
        as [r [Hr Hs]].
      cbn [dwarf_fdes] in *. rewrite Hr.
      eexists; eexists; eexists. split; [reflexivity|].
      intros fde H. inversion H; subst. split; [reflexivity | auto].
    + eexists; eexists; eexists. split; [reflexivity|]. discriminate.
Qed.

(** X4.  On a parsed table whose FDEs are in increasing order and do not
    overlap, [drgn_debug_info_find_fde] finds the FDE that covers the PC,
    and returns [NULL] only when none does. *)
Theorem find_fde_complete module cache pc :
  parsed_frames cache = true ->
  StronglySorted fde_before (dwarf_fdes cache) ->
  Forall (fun f => 0 <= initial_location f) (dwarf_fdes cache) ->
  0 <= pc <= UINT64_MAX ->
  (forall fde, In fde (dwarf_fdes cache) -> fde_covers pc fde = true ->
     drgn_debug_info_find_fde module cache pc =
       Some (Ok (Some fde), module, cache)) /\
  (drgn_debug_info_find_fde module cache pc = Some (Ok None, module, cache) ->
   forall fde, In fde (dwarf_fdes cache) -> fde_covers pc fde = false).
Proof.
  intros Hp Hsorted Hloc Hpc.
  assert (Hfind : forall fde, In fde (dwarf_fdes cache) ->
            fde_covers pc fde = true ->
            drgn_debug_info_find_fde module cache pc =
              Some (Ok (Some fde), module, cache)).
  { intros fde Hin Hcov.
    unfold drgn_debug_info_find_fde. cbv zeta. rewrite Hp. cbn [negb].
    destruct (In_nth _ _ fde0 Hin) as [k [Hk Hnth]]. subst fde.
    rewrite (find_fde_loop_complete (dwarf_fdes cache) pc Hsorted Hloc Hpc
               _ 0%nat _ k); [reflexivity | lia | lia | lia | assumption]. }
  split; [exact Hfind|].
  intros Hnone fde Hin.
  destruct (fde_covers pc fde) eqn:Hcov; [|reflexivity].
  rewrite (Hfind fde Hin Hcov) in Hnone. discriminate.
Qed.

(** X5.  The search probes at most [log2 n + 1] entries of a table of [n]
    FDEs: with fuel for that many probes the loop gives the answer it gives
    with fuel for [n]. *)
Theorem find_fde_logarithmic (fdes : list drgn_dwarf_fde) (pc : Z) :
  let n := List.length fdes in
  find_fde_loop (S (Nat.log2 n)) fdes pc 0 n <> None /\
  find_fde_loop (S (Nat.log2 n)) fdes pc 0 n = find_fde_loop n fdes pc 0 n.
Proof.
  intros n.
  assert (Hlog : find_fde_loop (S (Nat.log2 n)) fdes pc 0 n <> None).
  { apply find_fde_loop_log.
    destruct (Nat.eq_dec n 0) as [->|Hn]; [cbn; lia|].
    pose proof (Nat.log2_spec n ltac:(lia)). lia. }
  split; [exact Hlog|].
  destruct (find_fde_loop (S (Nat.log2 n)) fdes pc 0 n) as [r|] eqn:E;
    [|congruence].
  destruct (Nat.eq_dec n 0) as [Hn|Hn].
  - rewrite Hn in *. cbn in E |- *. congruence.
  - symmetry. destruct (find_fde_loop n fdes pc 0 n) as [r'|] eqn:E'.
    + pose proof (Nat.log2_lt_lin n ltac:(lia)) as Hlin.
      destruct (Nat.le_gt_cases (S (Nat.log2 n)) n) as [Hle|Hgt].
      * rewrite (find_fde_loop_fuel fdes pc _ _ _ _ n E Hle) in E'.
        congruence.
      * lia.
    + exfalso. revert E'. apply find_fde_loop_total. lia.
Qed.

(** X6.  The frames of a module are parsed at most once.  A call that
    succeeds leaves the cache parsed, and a call on a parsed cache changes
    neither the CIEs of the module nor the cache; a call whose parse fails
    leaves both as they were, so that the next call parses again. *)
Theorem find_fde_parses_once module cache pc r module' cache' :
  drgn_debug_info_find_fde module cache pc = Some (r, module', cache') ->
  (parsed_frames cache = true -> module' = module /\ cache' = cache) /\
  match r with
  | Ok _ =>
      parsed_frames cache' = true /\
      forall pc', exists r',
        drgn_debug_info_find_fde module' cache' pc' =
          Some (Ok r', module', cache')
  | Err _ =>
      parsed_frames cache = false /\ module' = module /\ cache' = cache /\
      exists e, FrameParse.drgn_debug_info_parse_frames module = Some (Err e)
  end.
Proof.
  assert (Hparsed : forall m c pc',
    parsed_frames c = true ->
    exists r', drgn_debug_info_find_fde m c pc' = Some (Ok r', m, c)).
  { intros m c pc' Hc. unfold drgn_debug_info_find_fde. cbv zeta.
    rewrite Hc. cbn [negb].
    destruct (find_fde_loop _ (dwarf_fdes c) pc' 0 _) as [r'|] eqn:E.
    - exists r'. reflexivity.
    - exfalso. revert E. apply find_fde_loop_total. lia. }
  unfold drgn_debug_info_find_fde. cbv zeta.
  destruct (parsed_frames cache) eqn:Hp; cbn [negb]; intros H.
  - destruct (find_fde_loop _ (dwarf_fdes cache) pc 0 _) as [r0|];
      [|discriminate].
    inversion H; subst. split; [auto|]. split; [assumption|].
    intros pc'. apply Hparsed. assumption.
  - split; [discriminate|].
    destruct (FrameParse.drgn_debug_info_parse_frames module)
      as [[[cies fdes]|e]|]; [| |discriminate].
    + destruct (find_fde_loop _ _ pc 0 _) as [r0|]; [|discriminate].
      inversion H; subst. split; [reflexivity|].
      intros pc'. apply Hparsed. reflexivity.
    + inversion H; subst. repeat split; try reflexivity. eauto.
Qed.

End FindFdeResults.

Example find_fde_examples :
  FindFde.find_fde_loop 3 FindFdeExample.table 0x2010 0 3 =
    Some (Some FramesExample.f1) /\
  FindFde.find_fde_loop 3 FindFdeExample.table 0x1080 0 3 = Some None /\
  FindFde.find_fde_loop 2 FindFdeExample.table 0x3005 0 3 =
    Some (Some FramesExample.f4) /\
  Frames.sort_and_dedup FramesExample.cies FramesExample.fdes =
    FindFdeExample.table.
Proof. repeat split; reflexivity. Qed.

Lemma example_table_sorted :
  StronglySorted FdeSpec.fde_before FindFdeExample.table.
Proof.
  repeat constructor; unfold FdeSpec.fde_before; cbn; lia.
Qed.

Lemma find_fde_complete_witness :
  FindFde.drgn_debug_info_find_fde CfiExample.example_module
    FindFdeExample.cache 0x2010 =
  Some (Ok (Some FramesExample.f1), CfiExample.example_module,
        FindFdeExample.cache).
Proof.
  refine (proj1 (find_fde_complete CfiExample.example_module
                   FindFdeExample.cache 0x2010 eq_refl example_table_sorted
                   _ _) FramesExample.f1 _ eq_refl).
  - repeat constructor; cbn; lia.
  - unfold UINT64_MAX. lia.
  - cbn. auto.
Defined.

Lemma find_fde_parses_once_witness :
  FindFde.parsed_frames
    {| FindFde.parsed_frames := true;
       FindFde.dwarf_fdes := [CfiExample.the_fde] |} = true /\
  forall pc', exists r',
    FindFde.drgn_debug_info_find_fde
      (FindFde.with_cies CfiExample.example_module [CfiExample.the_cie])
      {| FindFde.parsed_frames := true;
         FindFde.dwarf_fdes := [CfiExample.the_fde] |} pc' =
    Some (Ok r',
          FindFde.with_cies CfiExample.example_module [CfiExample.the_cie],
          {| FindFde.parsed_frames := true;
             FindFde.dwarf_fdes := [CfiExample.the_fde] |}).
Proof.
  refine (proj2 (find_fde_parses_once CfiExample.example_module
                   FindFdeExample.unparsed 0x401003
                   (Ok (Some CfiExample.the_fde)) _ _ _)).
  vm_compute. reflexivity.
Defined.

Lemma parse_frames_table_witness :
  exists r,
    FrameParse.drgn_debug_info_parse_frames CfiExample.example_module =
      Some r /\
    forall cies fdes, r = Ok (cies, fdes) ->
      StronglySorted
        (fun a b => initial_location a < initial_location b) fdes /\
      Forall (fun f =>
                (cie f < List.length cies)%nat /\
                FrameSpec.fde_in_section
                  (FrameParse.d_size CfiExample.example_module
                     (if Frames.fde_is_eh cies f then DRGN_SCN_EH_FRAME
                      else DRGN_SCN_DEBUG_FRAME)) f /\
                FrameSpec.cie_in_section
                  (FrameParse.d_size CfiExample.example_module
                     (if Frames.fde_is_eh cies f then DRGN_SCN_EH_FRAME
                      else DRGN_SCN_DEBUG_FRAME))
                  (nth (cie f) cies cie0)) fdes.
Proof.
  apply (parse_frames_table CfiExample.example_module).
  cbn. lia.
Defined.

Example parse_frames_example :
  FrameParse.drgn_debug_info_parse_frames CfiExample.example_module =
  Some (Ok ([CfiExample.the_cie], [CfiExample.the_fde])).
Proof. vm_compute. reflexivity. Qed.

(** ** CFI execution: progress and the state stack *)

Section CfiReaders.
Import Buf CfiEval.

Lemma next_offset_moved bb v bb' :
  drgn_dwarf_cfi_next_offset bb = Ok (v, bb') -> moved 1 bb bb'.
Proof.
  unfold drgn_dwarf_cfi_next_offset, bind.
  destruct (binary_buffer_next_uleb128 bb) as [[o bb1]|] eqn:E; [|discriminate].
  destruct (o >? INT64_MAX); [discriminate|].
  intros H. inversion H; subst. eapply next_uleb128_moved; eauto.
Qed.

Lemma next_offset_sf_moved bb cie v bb' :
  drgn_dwarf_cfi_next_offset_sf bb cie = Ok (v, bb') -> moved 1 bb bb'.
Proof.
  unfold drgn_dwarf_cfi_next_offset_sf, bind.
  destruct (binary_buffer_next_sleb128 bb) as [[o bb1]|] eqn:E; [|discriminate].
  destruct (mul_overflow_s64 _ _); [|discriminate].
  intros H. inversion H; subst. eapply next_sleb128_moved; eauto.
Qed.

Lemma next_offset_f_moved bb cie v bb' :
  drgn_dwarf_cfi_next_offset_f bb cie = Ok (v, bb') -> moved 1 bb bb'.
Proof.
  unfold drgn_dwarf_cfi_next_offset_f, bind.
  destruct (binary_buffer_next_uleb128 bb) as [[o bb1]|] eqn:E; [|discriminate].
  destruct (mul_overflow_s64 _ _); [|discriminate].
  intros H. inversion H; subst. eapply next_uleb128_moved; eauto.
Qed.

Lemma next_block_moved bb expr size bb' :
  drgn_dwarf_cfi_next_block bb = Ok (expr, size, bb') ->
  moved 1 bb bb' /\ 0 <= size /\ bb_pos bb <= expr /\ expr + size = bb_pos bb'.
Proof.
  unfold drgn_dwarf_cfi_next_block, bind.
  destruct (binary_buffer_next_uleb128 bb) as [[o bb1]|] eqn:E; [|discriminate].
  destruct (Z.gtb_spec o (bb_end bb1 - bb_pos bb1)) as [Hgt|Hle]; [discriminate|].
  intros H. inversion H; subst.
  pose proof (next_uleb128_nonneg _ _ _ E).
  apply next_uleb128_moved in E. unfold moved in *. cbn. lia.
Qed.

End CfiReaders.

Section CfiProgress.
Import Buf CfiEval.

Variable module : drgn_debug_info_module.
Variable fde : drgn_dwarf_fde.
Variable initial_row : option drgn_cfi_row.
Variable target : Z.
Hypothesis cie_address_size :
  1 <= address_size (nth (cie fde) (dwarf_cies module) cie0).

Ltac split_cfi H :=
  repeat match type of H with
  | context [match ?r with Ok _ => _ | Err _ => _ end] =>
      match r with
      | context [match _ with _ => _ end] => fail 1
      | context [if _ then _ else _] => fail 1
      | _ => destruct r as [?|?] eqn:?; [|discriminate H]
      end
  | context [let (_, _) := ?p in _] => destruct p
  | context [match ?o with Some _ => _ | None => _ end] =>
      match o with
      | context [match _ with _ => _ end] => fail 1
      | _ => destruct o eqn:?; try discriminate H
      end
  | context [match ?o with [] => _ | _ :: _ => _ end] =>
      destruct o eqn:?; try discriminate H
  | context [match ?o with RULE_UNDEFINED => _ | _ => _ end] =>
      destruct o eqn:?; try discriminate H
  | context [if ?c then _ else _] =>
      match c with
      | context [match _ with _ => _ end] => fail 1
      | context [if _ then _ else _] => fail 1
      | _ => destruct c eqn:?; try discriminate H
      end
  end.

Ltac cfi_moved H :=
  split_cfi H; inversion H; subst; clear H; cbn [cs_bb];
  repeat match goal with
  | H : binary_buffer_next_uint _ _ = Ok _ |- _ => apply next_uint_moved in H
  | H : binary_buffer_next_u8_into_u64 _ = Ok _ |- _ => apply next_uint_moved in H
  | H : binary_buffer_next_u16_into_u64 _ = Ok _ |- _ => apply next_uint_moved in H
  | H : binary_buffer_next_u32_into_u64 _ = Ok _ |- _ => apply next_uint_moved in H
  | H : binary_buffer_next_uleb128 _ = Ok _ |- _ => apply next_uleb128_moved in H
  | H : drgn_dwarf_cfi_next_offset _ = Ok _ |- _ => apply next_offset_moved in H
  | H : drgn_dwarf_cfi_next_offset_sf _ _ = Ok _ |- _ => apply next_offset_sf_moved in H
  | H : drgn_dwarf_cfi_next_offset_f _ _ = Ok _ |- _ => apply next_offset_f_moved in H
  | H : drgn_dwarf_cfi_next_block _ = Ok _ |- _ =>
      apply next_block_moved in H; destruct H as [H _]
  | H : Cfi.drgn_dwarf_cfi_next_encoded _ _ _ _ _ = Ok _ |- _ =>
      apply next_encoded_moved in H; [destruct H as [H _] | exact cie_address_size]
  end;
  unfold moved in *; lia.

(** Every instruction that does not end the execution consumes at least
    its opcode byte and stays within the instructions. *)
Lemma eval_cfi_instruction_moved s s' :
  eval_cfi_instruction module fde initial_row target s = Ok (CfiContinue s') ->
  moved 1 (cs_bb s) (cs_bb s').
Proof.
  unfold eval_cfi_instruction, bind. cbv zeta. intros H.
  destruct (binary_buffer_next_u8 (cs_bb s)) as [[opcode bb1]|] eqn:Hop;
    [|discriminate].
  apply next_uint_moved in Hop.
  repeat match type of H with
  | (if ?c then _ else _) = _ => destruct c; [solve [cfi_moved H]|]
  end.
  discriminate.
Qed.

End CfiProgress.

Section CfiTermination.
Import Buf CfiEval.

Variable module : drgn_debug_info_module.
Variable fde : drgn_dwarf_fde.
Hypothesis cie_address_size :
  1 <= address_size (nth (cie fde) (dwarf_cies module) cie0).

Lemma eval_cfi_loop_total initial_row target fuel : forall s,
  (Z.to_nat (bb_end (cs_bb s) - bb_pos (cs_bb s)) <= fuel)%nat ->
  eval_cfi_loop module fde initial_row target fuel s <> None.
Proof.
  induction fuel as [|fuel IH]; intros s Hfuel; cbn [eval_cfi_loop];
    unfold binary_buffer_has_next.
  - destruct (Z.ltb_spec (bb_pos (cs_bb s)) (bb_end (cs_bb s))); [lia|].
    discriminate.
  - destruct (Z.ltb_spec (bb_pos (cs_bb s)) (bb_end (cs_bb s))); [|discriminate].
    destruct (eval_cfi_instruction module fde initial_row target s)
      as [[s'|s']|e] eqn:E; try discriminate.
    apply IH. apply eval_cfi_instruction_moved in E; [|assumption].
    unfold moved in E. lia.
Qed.

Lemma eval_dwarf_cfi_total initial_row target instructions size row :
  drgn_eval_dwarf_cfi module fde initial_row target instructions size row
    <> None.
Proof.
  unfold drgn_eval_dwarf_cfi. apply eval_cfi_loop_total.
  cbn [cs_bb set_end set_pos bb_end bb_pos]. lia.
Qed.

Lemma find_cfi_in_fde_total unbiased_pc :
  drgn_debug_info_find_cfi_in_fde module fde unbiased_pc <> None.
Proof.
  unfold drgn_debug_info_find_cfi_in_fde. cbv zeta.
  match goal with
  | |- context [drgn_eval_dwarf_cfi ?m ?f None ?t ?i ?z ?r] =>
      pose proof (eval_dwarf_cfi_total None t i z r) as H1;
      destruct (drgn_eval_dwarf_cfi m f None t i z r) as [[row|e]|]
  end.
  - apply eval_dwarf_cfi_total.
  - discriminate.
  - exact H1.
Qed.

(** X7.  Looking up the CFI row of an FDE always returns: every instruction
    consumes at least its opcode byte and none moves backwards, so that the
    instructions of the CIE and of the FDE are executed in at most as many
    steps as they have bytes. *)
Theorem find_cfi_in_fde_terminates unbiased_pc :
  drgn_debug_info_find_cfi_in_fde module fde unbiased_pc <> None /\
  (forall initial_row target s s',
     eval_cfi_instruction module fde initial_row target s =
       Ok (CfiContinue s') ->
     bb_end (cs_bb s') = bb_end (cs_bb s) /\
     bb_pos (cs_bb s) < bb_pos (cs_bb s') <= bb_end (cs_bb s)).
Proof.
  split.
  - apply find_cfi_in_fde_total.
  - intros initial_row target s s' H.
    apply eval_cfi_instruction_moved in H; [|assumption].
    unfold moved in H. lia.
Qed.

End CfiTermination.

Section CfiStateStack.
Import Buf CfiEval CfiRun CfiSpec.

Variable module : drgn_debug_info_module.
Variable fde : drgn_dwarf_fde.
Variable initial_row : option drgn_cfi_row.
Variable target : Z.

Lemma selector_opcode opcode k :
  0 < k < 0x40 -> cfa_selector opcode = k -> opcode = k.
Proof.
  intros Hk. unfold cfa_selector.
  destruct (Z.eqb_spec (Z.land opcode 192) 0) as [E|NE]; cbn [negb]; [auto|].
  intros H. exfalso.
  assert (Hb : forall i, 0 <= i < 6 -> Z.testbit (Z.land opcode 192) i = false).
  { intros i Hi. rewrite Z.land_spec.
    assert (Z.testbit 192 i = false).
    { assert (Hcases : i = 0 \/ i = 1 \/ i = 2 \/ i = 3 \/ i = 4 \/ i = 5) by lia.
      destruct Hcases as [->|[->|[->|[->|[->| ->]]]]]; reflexivity. }
    rewrite H0. apply andb_false_r. }
  rewrite H in Hb.
  assert (Hlow : k mod 2 ^ 6 = 0).
  { apply Z.bits_inj'. intros i Hi. rewrite Z.bits_0.
    destruct (Z.ltb_spec i 6).
    - rewrite Z.mod_pow2_bits_low by lia. apply Hb. lia.
    - rewrite Z.mod_pow2_bits_high by lia. reflexivity. }
  rewrite Z.mod_small in Hlow by (change (2 ^ 6) with 64; lia). lia.
Qed.

Ltac split_cfi H :=
  repeat match type of H with
  | context [match ?r with Ok _ => _ | Err _ => _ end] =>
      match r with
      | context [match _ with _ => _ end] => fail 1
      | context [if _ then _ else _] => fail 1
      | _ => destruct r as [?|?] eqn:?; [|discriminate H]
      end
  | context [let (_, _) := ?p in _] => destruct p
  | context [match ?o with Some _ => _ | None => _ end] =>
      match o with
      | context [match _ with _ => _ end] => fail 1
      | _ => destruct o eqn:?; try discriminate H
      end
  | context [match ?o with RULE_UNDEFINED => _ | _ => _ end] =>
      destruct o eqn:?; try discriminate H
  | context [if ?c then _ else _] =>
      match c with
      | context [match _ with _ => _ end] => fail 1
      | context [if _ then _ else _] => fail 1
      | _ => destruct c eqn:?; try discriminate H
      end
  end.

(** Only DW_CFA_remember_state and DW_CFA_restore_state touch the state
    stack. *)
Lemma plain_instruction_keeps_stack s opcode bb o :
  binary_buffer_next_u8 (cs_bb s) = Ok (opcode, bb) ->
  state_stack_opcode opcode = false ->
  eval_cfi_instruction module fde initial_row target s = Ok o ->
  cs_state_stack (cfi_outcome_state o) = cs_state_stack s.
Proof.
  intros Hop Hplain. unfold eval_cfi_instruction, bind. cbv zeta.
  rewrite Hop. fold (cfa_selector opcode).
  unfold state_stack_opcode in Hplain. apply orb_false_elim in Hplain.
  destruct Hplain as [Hrem Hres].
  apply Z.eqb_neq in Hrem, Hres.
  intros H.
  repeat match type of H with
  | (if cfa_selector opcode =? DW_CFA_remember_state then _ else _) = _ =>
      destruct (Z.eqb_spec (cfa_selector opcode) DW_CFA_remember_state) as [E|_];
        [apply selector_opcode in E; [contradiction | unfold DW_CFA_remember_state; lia]|]
  | (if cfa_selector opcode =? DW_CFA_restore_state then _ else _) = _ =>
      destruct (Z.eqb_spec (cfa_selector opcode) DW_CFA_restore_state) as [E|_];
        [apply selector_opcode in E; [contradiction | unfold DW_CFA_restore_state; lia]|]
  | (if ?c then _ else _) = _ =>
      destruct c;
        [solve [split_cfi H; inversion H; subst; reflexivity]|]
  end.
  discriminate.
Qed.

Lemma plain_steps_keep_stack s s' :
  plain_steps module fde initial_row target s s' ->
  cs_state_stack s' = cs_state_stack s.
Proof.
  induction 1 as [s|s opcode bb s1 s2 Hop Hplain Hstep Hrest IH];
    [reflexivity|].
  rewrite IH.
  apply (plain_instruction_keeps_stack s opcode bb _ Hop Hplain Hstep).
Qed.

Lemma remember_state_step s bb :
  binary_buffer_next_u8 (cs_bb s) = Ok (DW_CFA_remember_state, bb) ->
  eval_cfi_instruction module fde initial_row target s =
    Ok (CfiContinue {| cs_bb := bb; cs_pc := cs_pc s; cs_row := cs_row s;
                       cs_state_stack := cs_row s :: cs_state_stack s |}).
Proof.
  intros Hop. unfold eval_cfi_instruction, bind. cbv zeta. rewrite Hop.
  reflexivity.
Qed.

Lemma restore_state_step s bb :
  binary_buffer_next_u8 (cs_bb s) = Ok (DW_CFA_restore_state, bb) ->
  eval_cfi_instruction module fde initial_row target s =
    match cs_state_stack s with
    | [] => Err (binary_buffer_error
                   "DW_CFA_restore_state with empty state stack" None)
    | top :: stack' =>
        Ok (CfiContinue {| cs_bb := bb; cs_pc := cs_pc s; cs_row := top;
                           cs_state_stack := stack' |})
    end.
Proof.
  intros Hop. unfold eval_cfi_instruction, bind. cbv zeta. rewrite Hop.
  reflexivity.
Qed.

(** X8.  DW_CFA_restore_state brings back the row that the matching
    DW_CFA_remember_state saved, whatever the instructions in between did
    to the row, and leaves the state stack as it was before the
    DW_CFA_remember_state; with an empty state stack it is an error. *)
Theorem remember_restore_state s bb1 s1 s2 bb2 :
  binary_buffer_next_u8 (cs_bb s) = Ok (DW_CFA_remember_state, bb1) ->
  eval_cfi_instruction module fde initial_row target s = Ok (CfiContinue s1) ->
  plain_steps module fde initial_row target s1 s2 ->
  binary_buffer_next_u8 (cs_bb s2) = Ok (DW_CFA_restore_state, bb2) ->
  eval_cfi_instruction module fde initial_row target s2 =
    Ok (CfiContinue {| cs_bb := bb2; cs_pc := cs_pc s2; cs_row := cs_row s;
                       cs_state_stack := cs_state_stack s |}) /\
  (forall s0 bb0,
     binary_buffer_next_u8 (cs_bb s0) = Ok (DW_CFA_restore_state, bb0) ->
     cs_state_stack s0 = [] ->
     eval_cfi_instruction module fde initial_row target s0 =
       Err (binary_buffer_error
              "DW_CFA_restore_state with empty state stack" None)).
Proof.
  intros Hrem Hs1 Hsteps Hres. split.
  - rewrite (remember_state_step s bb1 Hrem) in Hs1. inversion Hs1; subst s1.
    apply plain_steps_keep_stack in Hsteps. cbn [cs_state_stack] in Hsteps.
    rewrite (restore_state_step s2 bb2 Hres), Hsteps. reflexivity.
  - intros s0 bb0 H0 Hempty.
    rewrite (restore_state_step s0 bb0 H0), Hempty. reflexivity.
Qed.

End CfiStateStack.

Section CfiInitialPass.
Import Buf CfiEval.

Variable module : drgn_debug_info_module.
Variable fde : drgn_dwarf_fde.

Lemma initial_instruction_target target target' s :
  eval_cfi_instruction module fde None target s =
  eval_cfi_instruction module fde None target' s.
Proof.
  unfold eval_cfi_instruction, bind. cbv zeta.
  destruct (binary_buffer_next_u8 (cs_bb s)) as [[opcode bb]|]; [|reflexivity].
  repeat match goal with
  | |- (if ?c then _ else _) = _ => destruct c; [reflexivity|]
  end.
  reflexivity.
Qed.

Lemma initial_instruction_not_found target s s' :
  eval_cfi_instruction module fde None target s <> Ok (CfiFound s').
Proof.
  unfold eval_cfi_instruction, bind. cbv zeta. intros H.
  destruct (binary_buffer_next_u8 (cs_bb s)) as [[opcode bb]|]; [|discriminate].
  repeat match type of H with
  | (if ?c then _ else _) = _ =>
      destruct c;
        [solve [repeat match type of H with
                | context [match ?r with Ok _ => _ | Err _ => _ end] =>
                    match r with
                    | context [match _ with _ => _ end] => fail 1
                    | context [if _ then _ else _] => fail 1
                    | _ => destruct r as [?|?]; [|discriminate H]
                    end
                | context [let (_, _) := ?p in _] => destruct p
                | context [match ?o with [] => _ | _ :: _ => _ end] =>
                    destruct o; try discriminate H
                | context [match ?o with RULE_UNDEFINED => _ | _ => _ end] =>
                    destruct o; try discriminate H
                | context [if ?c then _ else _] =>
                    match c with
                    | context [match _ with _ => _ end] => fail 1
                    | context [if _ then _ else _] => fail 1
                    | _ => destruct c; try discriminate H
                    end
                end; discriminate H]|]
  end.
  discriminate.
Qed.

Lemma initial_loop_target target target' fuel : forall s,
  eval_cfi_loop module fde None target fuel s =
  eval_cfi_loop module fde None target' fuel s.
Proof.
  induction fuel as [|fuel IH]; intros s; cbn [eval_cfi_loop]; [reflexivity|].
  rewrite (initial_instruction_target target target').
  destruct (binary_buffer_has_next (cs_bb s)); [|reflexivity].
  destruct (eval_cfi_instruction module fde None target' s) as [[s'|s']|e];
    auto.
Qed.

(** X9.  The row after a CIE's initial instructions does not depend on the
    PC that is looked up: in that pass no instruction compares the
    location with the target, and none ends the execution early. *)
Theorem initial_row_target_independent target target' instructions size row :
  drgn_eval_dwarf_cfi module fde None target instructions size row =
  drgn_eval_dwarf_cfi module fde None target' instructions size row /\
  (forall s s',
     eval_cfi_instruction module fde None target s <> Ok (CfiFound s')).
Proof.
  split.
  - unfold drgn_eval_dwarf_cfi. apply initial_loop_target.
  - intros s s'. apply initial_instruction_not_found.
Qed.

End CfiInitialPass.

Lemma find_cfi_in_fde_terminates_witness :
  CfiEval.drgn_debug_info_find_cfi_in_fde CfiExample.example_module
    CfiExample.the_fde 0x401004 <> None.
Proof.
  refine (proj1 (find_cfi_in_fde_terminates CfiExample.example_module
                   CfiExample.the_fde _ 0x401004)).
  vm_compute. discriminate.
Defined.

Example find_cfi_in_fde_example :
  CfiEval.drgn_debug_info_find_cfi_in_fde CfiExample.example_module
    CfiExample.the_fde 0x401004 =
  Some (Ok {| cfa_rule := RULE_REGISTER_PLUS_OFFSET 7 16;
              reg_rules := reg_rules CfiExample.initial_row |}).
Proof. vm_compute. reflexivity. Qed.

(** [remember_state; def_cfa_offset 16; restore_state]: the row is the
    initial one again. *)
Lemma remember_restore_state_witness :
  CfiEval.eval_cfi_instruction CfiRunExample.state_module
    CfiRunExample.state_fde (Some CfiExample.initial_row) 0x401010
    (CfiRunExample.state_with 2 3 CfiRunExample.offset_row
       [CfiExample.initial_row]) =
  Ok (CfiEval.CfiContinue
        (CfiRunExample.state_with 3 4 CfiExample.initial_row [])).
Proof.
  assert (H := proj1 (remember_restore_state CfiRunExample.state_module
                   CfiRunExample.state_fde (Some CfiExample.initial_row)
                   0x401010
                   (CfiRunExample.state_with 0 0 CfiExample.initial_row [])
                   (Buf.advance
                      (CfiEval.cs_bb
                         (CfiRunExample.state_with 0 0
                            CfiExample.initial_row []))
                      1)
                   (CfiRunExample.state_with 0 1 CfiExample.initial_row
                      [CfiExample.initial_row])
                   (CfiRunExample.state_with 2 3 CfiRunExample.offset_row
                      [CfiExample.initial_row])
                   (Buf.advance
                      (CfiEval.cs_bb
                         (CfiRunExample.state_with 2 3
                            CfiRunExample.offset_row
                            [CfiExample.initial_row]))
                      1)
                   eq_refl eq_refl
                   (CfiRun.plain_steps_step CfiRunExample.state_module
                      CfiRunExample.state_fde
                      (Some CfiExample.initial_row) 0x401010
                      (CfiRunExample.state_with 0 1 CfiExample.initial_row
                         [CfiExample.initial_row])
                      DW_CFA_def_cfa_offset
                      (Buf.advance
                         (CfiEval.cs_bb
                            (CfiRunExample.state_with 0 1
                               CfiExample.initial_row
                               [CfiExample.initial_row])) 1)
                      (CfiRunExample.state_with 2 3 CfiRunExample.offset_row
                         [CfiExample.initial_row])
                      _ eq_refl eq_refl eq_refl
                      (CfiRun.plain_steps_refl CfiRunExample.state_module
                         CfiRunExample.state_fde
                         (Some CfiExample.initial_row) 0x401010 _))
                   eq_refl)).
  exact H.
Defined.

(** ** The CFI lookup as a whole *)

Section CfiLookup.
Import FindFde FdeSpec FrameSpec.

Variable module : drgn_debug_info_module.
Hypothesis platform_address_size_ok :
  1 <= platform_address_size (platform module) <= 8.

(** After the frames were parsed, every FDE of the table has a CIE whose
    address size is at least one byte. *)
Lemma parsed_cie_address_size cies fdes fde :
  FrameParse.drgn_debug_info_parse_frames module = Some (Ok (cies, fdes)) ->
  In fde fdes ->
  1 <= address_size (nth (cie fde) cies cie0).
Proof.
  intros Hparse Hin.
  pose proof (frames_table_in_section module platform_address_size_ok
                cies fdes Hparse) as Hall.
  rewrite Forall_forall in Hall.
  destruct (Hall fde Hin) as [_ [_ Hcie]].
  unfold cie_in_section in Hcie. lia.
Qed.

(** X10.  The first CFI lookup in a module always returns.  When it succeeds,
    the row is the one that the instructions of an FDE of the parsed table
    give, that FDE covers the PC, and the interrupted flag and the return
    address register are those of its CIE; when no FDE covers the PC the
    result is [drgn_not_found]. *)
Theorem find_dwarf_cfi_first_lookup cache pc :
  parsed_frames cache = false ->
  exists r module' cache',
    drgn_debug_info_find_dwarf_cfi module cache pc =
      Some (r, module', cache') /\
    (forall cfi, r = Ok cfi ->
       exists fde,
         In fde (dwarf_fdes cache') /\ fde_covers pc fde = true /\
         CfiEval.drgn_debug_info_find_cfi_in_fde module' fde pc =
           Some (Ok (cfi_row cfi)) /\
         cfi_interrupted cfi =
           signal_frame (nth (cie fde) (dwarf_cies module') cie0) /\
         cfi_ret_addr_regno cfi =
           return_address_register
             (nth (cie fde) (dwarf_cies module') cie0)) /\
    (drgn_debug_info_find_fde module cache pc =
       Some (Ok None, module', cache') ->
     r = Err drgn_not_found).
Proof.
  intros Hp.
  unfold drgn_debug_info_find_dwarf_cfi, drgn_debug_info_find_fde.
  cbv zeta. rewrite Hp. cbn [negb].
  pose proof (debug_info_parse_frames_total module) as Htot.
  destruct (FrameParse.drgn_debug_info_parse_frames module)
    as [[[cies fdes]|e]|] eqn:Hparse; [| |congruence].
  - cbn [dwarf_fdes].
    destruct (find_fde_loop (List.length fdes) fdes pc 0 (List.length fdes))
      as [[fde|]|] eqn:Hsearch.
    + destruct (find_fde_loop_sound fdes pc _ _ _ fde (Nat.le_refl _) Hsearch)
        as [Hin Hcov].
      pose proof (parsed_cie_address_size cies fdes fde Hparse Hin) as Hsize.
      pose proof (find_cfi_in_fde_total (with_cies module cies) fde
                    Hsize pc) as Hcfi.
      destruct (CfiEval.drgn_debug_info_find_cfi_in_fde
                  (with_cies module cies) fde pc) as [[row|e]|] eqn:Hrow;
        [| |congruence].
      * eexists; eexists; eexists. split; [reflexivity|]. split.
        -- intros cfi H. inversion H; subst cfi. exists fde.
           cbn [dwarf_fdes cfi_row cfi_interrupted cfi_ret_addr_regno].
           repeat split; assumption.
        -- discriminate.
      * eexists; eexists; eexists. split; [reflexivity|]. split; discriminate.
    + eexists; eexists; eexists. split; [reflexivity|]. split;
        [discriminate | reflexivity].
    + exfalso. revert Hsearch. apply find_fde_loop_total. lia.
  - eexists; eexists; eexists. split; [reflexivity|]. split; discriminate.
Qed.

End CfiLookup.

Lemma find_dwarf_cfi_first_lookup_witness :
  exists r module' cache',
    FindFde.drgn_debug_info_find_dwarf_cfi CfiExample.example_module
      FindFdeExample.unparsed 0x401004 = Some (r, module', cache').
Proof.
  destruct (find_dwarf_cfi_first_lookup CfiExample.example_module
              ltac:(vm_compute; split; discriminate)
              FindFdeExample.unparsed 0x401004 eq_refl)
    as [r [module' [cache' [H _]]]].
  exists r, module', cache'. exact H.
Defined.

Example find_dwarf_cfi_example :
  FindFde.drgn_debug_info_find_dwarf_cfi CfiExample.example_module
    FindFdeExample.unparsed 0x401004 =
  Some (Ok {| FindFde.cfi_row := CfiRunExample.offset_row;
              FindFde.cfi_interrupted := false;
              FindFde.cfi_ret_addr_regno := 16 |},
        FindFde.with_cies CfiExample.example_module [CfiExample.the_cie],
        {| FindFde.parsed_frames := true;
           FindFde.dwarf_fdes := [CfiExample.the_fde] |}).
Proof. vm_compute. reflexivity. Qed.

(** ** The expression evaluator: cursor, hand-over and stack values *)

Section ExprReaders.
Import Buf.




End ExprReaders.

Lemma some_eq {A} (a b : A) : Some a = Some b -> b = a.
Proof. congruence. Qed.

(** Take the branch of one opcode apart: every scrutinee that is not
    itself a conditional, with its equation. *)
Ltac split_op H :=
  repeat match type of H with
  | context [match ?r with Ok _ => _ | Err _ => _ end] =>
      match r with
      | context [match _ with _ => _ end] => fail 1
      | context [if _ then _ else _] => fail 1
      | _ => destruct r as [?|?] eqn:?
      end
  | context [let (_, _) := ?p in _] => destruct p
  | context [match ?o with Some _ => _ | None => _ end] =>
      match o with
      | context [match _ with _ => _ end] => fail 1
      | context [if _ then _ else _] => fail 1
      | _ => destruct o eqn:?
      end
  | context [match ?o with [] => _ | _ :: _ => _ end] =>
      match o with
      | context [match _ with _ => _ end] => fail 1
      | _ => destruct o eqn:?
      end
  | context [if ?c then _ else _] =>
      match c with
      | context [match _ with _ => _ end] => fail 1
      | context [if _ then _ else _] => fail 1
      | _ => destruct c eqn:?
      end
  end.

Section ExprCursor.
Import Buf Loc Expr FrameBase Budget ExprSpec.

Variable fb : drgn_dwarf_expression_context -> Z -> option (result Z * Z).




End ExprCursor.

Section ExprRuns.
Import Buf Loc Expr FrameBase Budget ExprSpec.

Variable fb : drgn_dwarf_expression_context -> Z -> option (result Z * Z).


End ExprRuns.

Section ExprCursorResult.
Import Buf Loc Expr FrameBase Budget ExprSpec.


End ExprCursorResult.


Section ExprHandOver.
Import Buf Loc Expr FrameBase Budget ExprSpec.

Variable fb : drgn_dwarf_expression_context -> Z -> option (result Z * Z).

(** The opcode that the evaluator stopped before can be read again. *)
Lemma reread_opcode bb0 opcode bb :
  binary_buffer_next_u8 bb0 = Ok (opcode, bb) ->
  binary_buffer_next_u8 (set_pos bb (bb_prev bb)) = Ok (opcode, bb).
Proof.
  unfold binary_buffer_next_u8, binary_buffer_next_uint,
    binary_buffer_check_bounds, bind, remaining.
  destruct (bb_end bb0 - bb_pos bb0 <? 1) eqn:Hb; [discriminate|].
  intros H. inversion H; subst. cbn [set_pos advance bb_pos bb_end bb_prev
    bb_data bb_little_endian]. rewrite Hb. unfold advance. cbn.
  reflexivity.
Qed.

Lemma eval_op_hand_over s s' :
  eval_op fb s = Some (OpReturn None s') ->
  exists opcode bb,
    binary_buffer_next_u8 (ctx_bb (es_ctx s)) = Ok (opcode, bb) /\
    (location_description_opcode opcode = true \/
     indirect_opcode opcode = true /\ ctx_cu_die (es_ctx s) = None) /\
    s' = {| es_ctx := with_bb (es_ctx s) (set_pos bb (bb_prev bb));
            es_stack := es_stack s;
            es_remaining_ops := es_remaining_ops s |}.
Proof.
  intros H. unfold eval_op in H. cbv zeta in H.
  destruct (binary_buffer_next_u8 (ctx_bb (es_ctx s))) as [[opcode bb]|e] eqn:Hop;
    [|discriminate].
  exists opcode, bb. split; [reflexivity|].
  repeat match type of H with
  | (if ?c then _ else _) = _ =>
      let Hc := fresh "Hc" in
      destruct c eqn:Hc;
        [solve [split_op H; try discriminate H;
                (apply some_eq in H; inversion H; subst;
                 split; [unfold location_description_opcode, indirect_opcode;
                         auto | reflexivity])]
        |clear Hc]
  end.
  discriminate.
Qed.

Lemma runs_hand_over n s r :
  runs fb n s r ->
  fst r = None ->
  binary_buffer_has_next (ctx_bb (es_ctx (snd r))) = false \/
  exists opcode bb,
    binary_buffer_next_u8 (ctx_bb (es_ctx (snd r))) = Ok (opcode, bb) /\
    (location_description_opcode opcode = true \/
     indirect_opcode opcode = true /\ ctx_cu_die (es_ctx (snd r)) = None).
Proof.
  induction 1 as [s Hn|s Hn Hle|s err s' Hn Hgt Ho|s s' n r Hn Hgt Ho Hr IH];
    cbn [fst snd]; intros Hnone; auto.
  - discriminate.
  - subst err. apply eval_op_hand_over in Ho.
    destruct Ho as [opcode [bb [Hop [Hkind ->]]]].
    cbn [decrement es_ctx] in *. right. exists opcode, bb.
    cbn [es_ctx with_bb ctx_bb ctx_cu_die].
    split; [eapply reread_opcode; eassumption | assumption].
Qed.

End ExprHandOver.

Section ExprHandOverResult.
Import Buf Loc Expr FrameBase Budget ExprSpec.

(** X12.  When [drgn_eval_dwarf_expression] returns [NULL] before the end of
    the expression, the cursor is at an opcode that it leaves to the
    caller: a location description operation, or DW_OP_addrx or
    DW_OP_constx in a context without a CU.  That opcode was not consumed:
    the caller reads it next. *)
Theorem eval_hands_over ctx stack ops s' :
  drgn_eval_dwarf_expression ctx stack ops = Some (None, s') ->
  binary_buffer_has_next (ctx_bb (es_ctx s')) = false \/
  exists opcode bb,
    binary_buffer_next_u8 (ctx_bb (es_ctx s')) = Ok (opcode, bb) /\
    (location_description_opcode opcode = true \/
     indirect_opcode opcode = true /\ ctx_cu_die (es_ctx s') = None).
Proof.
  intros H.
  destruct (eval_dwarf_expression_runs ctx stack ops)
    as [err [s1 [n [He [Hr _]]]]].
  rewrite He in H. inversion H; subst.
  apply (runs_hand_over _ _ _ _ Hr). reflexivity.
Qed.

End ExprHandOverResult.

Section FitsFacts.
Import Buf Loc Expr ExprSpec.
















End FitsFacts.

Section ExprFits.
Import Buf Loc Expr FrameBase Budget ExprSpec.

Variable fb : drgn_dwarf_expression_context -> Z -> option (result Z * Z).






End ExprFits.

Section ExprFitsRuns.
Import Buf Loc Expr FrameBase Budget ExprSpec.

Variable fb : drgn_dwarf_expression_context -> Z -> option (result Z * Z).


End ExprFitsRuns.

Section ExprFitsResult.
Import Buf Loc Expr FrameBase Budget ExprSpec.


End ExprFitsResult.


(** [DW_OP_lit1; DW_OP_reg0]: the evaluation stops at DW_OP_reg0. *)
Lemma eval_hands_over_witness :
  exists opcode bb,
    Buf.binary_buffer_next_u8
      (Expr.ctx_bb (Expr.es_ctx ExprRunExample.reg_state)) =
      Ok (opcode, bb) /\
    (ExprSpec.location_description_opcode opcode = true \/
     ExprSpec.indirect_opcode opcode = true /\
     Expr.ctx_cu_die (Expr.es_ctx ExprRunExample.reg_state) = None).
Proof.
  destruct (eval_hands_over
              (ExprExample.context ExprExample.module64
                 ExprRunExample.reg_expr)
              [] Expr.MAX_DWARF_EXPR_OPS ExprRunExample.reg_state)
    as [H|H].
  - vm_compute. reflexivity.
  - vm_compute in H. discriminate H.
  - exact H.
Defined.

(** ** Location lists: the selected expression lies within the section *)

Section LocationListBounds.
Import Buf Loc LocBounds FrameBase.

Variable module : drgn_debug_info_module.
Variable cu_die : Dwarf_Die.
Variable address_size : Z.
Variable pc : Z.
Hypothesis address_size_nonneg : 0 <= address_size.

Lemma loclist5_entry_in_section size s o :
  loclist5_entry module cu_die address_size pc s = Ok o ->
  loclist5_in_section size s ->
  match o with
  | LlReturn expr expr_size => expression_in_section size expr expr_size
  | LlContinue s' => loclist5_in_section size s'
  end.
Proof.
  unfold loclist5_entry, bind. cbv zeta. intros H [He [Hp Hx]].
  destruct (binary_buffer_next_u8 (ll_bb s)) as [[kind bb1]|] eqn:Hk; [|discriminate].
  apply next_uint_moved in Hk.
  repeat match type of H with
  | context [kind =? ?k] => destruct (kind =? k)
  end.
  all: repeat match type of H with
  | context [match ?r with Ok _ => _ | Err _ => _ end] =>
      destruct r as [?|?] eqn:?; [|discriminate H]
  | context [let (_, _) := ?p in _] => destruct p
  | context [match ?o with Some _ => _ | None => _ end] =>
      destruct o eqn:?; try discriminate H
  | context [if ?c then _ else _] => destruct c eqn:?; try discriminate H
  end.
  all: inversion H; subst o; clear H;
    unfold loclist5_in_section, expression_in_section;
    cbn [ll_bb ll_expr ll_expr_size].
  all: repeat match goal with
  | H : binary_buffer_next_uint _ _ = Ok _ |- _ => apply next_uint_moved in H
  | H : binary_buffer_next_uleb128 _ = Ok (?v, _) |- _ =>
      pose proof (next_uleb128_nonneg _ _ _ H); apply next_uleb128_moved in H
  | H : drgn_dwarf_next_addrx _ _ _ _ _ = Ok _ |- _ => apply next_addrx_moved in H
  | H : (_ >? _) = false |- _ => rewrite Z.gtb_ltb in H; apply Z.ltb_ge in H
  end.
  all: unfold moved, expression_in_section in *;
    cbn [set_pos bb_pos bb_end] in *.
  all: try (destruct (ll_expr s)); repeat split; try lia.
Qed.

Lemma loclist5_loop_in_section size fuel : forall s expr expr_size,
  loclist5_loop module cu_die address_size pc fuel s =
    Some (Ok (expr, expr_size)) ->
  loclist5_in_section size s ->
  expression_in_section size expr expr_size.
Proof.
  induction fuel as [|fuel IH]; intros s expr expr_size H Hin;
    cbn [loclist5_loop] in H; [discriminate|].
  destruct (loclist5_entry module cu_die address_size pc s) as [o|e] eqn:E;
    [|discriminate].
  pose proof (loclist5_entry_in_section size s o E Hin) as Ho.
  destruct o as [expr' size'|s'].
  - inversion H; subst. exact Ho.
  - eapply IH; eassumption.
Qed.

Lemma loclist4_entry_in_section size s o :
  loclist4_entry cu_die address_size pc s = Ok o ->
  loclist4_in_section size s ->
  match o with
  | LlReturn expr expr_size => expression_in_section size expr expr_size
  | LlContinue s' => loclist4_in_section size s'
  end.
Proof.
  unfold loclist4_entry, bind. cbv zeta. intros H [He Hp].
  destruct (binary_buffer_next_uint (l4_bb s) address_size) as [[start bb1]|] eqn:H1;
    [|discriminate].
  destruct (binary_buffer_next_uint bb1 address_size) as [[end_ bb2]|] eqn:H2;
    [|discriminate].
  apply next_uint_moved in H1. apply next_uint_moved in H2.
  unfold moved in *.
  destruct ((start =? 0) && (end_ =? 0)).
  { inversion H; subst. reflexivity. }
  destruct (start =? uint_max address_size).
  { inversion H; subst. unfold loclist4_in_section. cbn [l4_bb]. lia. }
  destruct (match l4_base s with Some _ => _ | None => _ end); [|discriminate].
  destruct (binary_buffer_next_u16 bb2) as [[expr_size bb3]|] eqn:H3;
    [|discriminate].
  pose proof (next_uint_nonneg _ _ _ _ H3) as Hn.
  apply next_uint_moved in H3. unfold moved in H3.
  destruct (expr_size >? bb_end bb3 - bb_pos bb3) eqn:Hb; [discriminate|].
  rewrite Z.gtb_ltb in Hb. apply Z.ltb_ge in Hb.
  destruct (_ && _); inversion H; subst;
    unfold loclist4_in_section, expression_in_section;
    cbn [l4_bb set_pos bb_pos bb_end]; lia.
Qed.

Lemma loclist4_loop_in_section size fuel : forall s expr expr_size,
  loclist4_loop cu_die address_size pc fuel s = Some (Ok (expr, expr_size)) ->
  loclist4_in_section size s ->
  expression_in_section size expr expr_size.
Proof.
  induction fuel as [|fuel IH]; intros s expr expr_size H Hin;
    cbn [loclist4_loop] in H; [discriminate|].
  destruct (loclist4_entry cu_die address_size pc s) as [o|e] eqn:E;
    [|discriminate].
  pose proof (loclist4_entry_in_section size s o E Hin) as Ho.
  destruct o as [expr' size'|s'].
  - inversion H; subst. exact Ho.
  - eapply IH; eassumption.
Qed.

Lemma expression_bytes_length scn data expr expr_size :
  scn_data module scn = Some data ->
  expression_in_section (Z.of_nat (List.length data)) expr expr_size ->
  List.length (expression_bytes module scn expr expr_size) =
    Z.to_nat expr_size.
Proof.
  intros Hscn Hin. unfold expression_bytes. rewrite Hscn.
  destruct expr as [pos|]; cbn in Hin.
  - rewrite length_firstn, length_skipn. lia.
  - subst. reflexivity.
Qed.

(** X14.  The expression that a location list walk selects lies within the
    section of the list, .debug_loclists for DWARF 5 and .debug_loc for
    DWARF 4: its bytes are all there, and the empty expression has size
    0. *)
Theorem location_list_in_section offset expr expr_size :
  0 <= offset ->
  (drgn_dwarf5_location_list module cu_die address_size pc offset =
     Some (Ok (expr, expr_size)) ->
   exists data,
     scn_data module DRGN_SCN_DEBUG_LOCLISTS = Some data /\
     expression_in_section (Z.of_nat (List.length data)) expr expr_size /\
     List.length (expression_bytes module DRGN_SCN_DEBUG_LOCLISTS
                    expr expr_size) = Z.to_nat expr_size) /\
  (drgn_dwarf4_location_list module cu_die address_size pc offset =
     Some (Ok (expr, expr_size)) ->
   exists data,
     scn_data module DRGN_SCN_DEBUG_LOC = Some data /\
     expression_in_section (Z.of_nat (List.length data)) expr expr_size /\
     List.length (expression_bytes module DRGN_SCN_DEBUG_LOC
                    expr expr_size) = Z.to_nat expr_size).
Proof.
  intros Hoff. split.
  - unfold drgn_dwarf5_location_list.
    destruct (scn_data module DRGN_SCN_DEBUG_LOCLISTS) as [data|] eqn:Hscn;
      [|discriminate].
    cbv zeta. destruct (offset >? _) eqn:Hb; [discriminate|].
    rewrite Z.gtb_ltb in Hb. apply Z.ltb_ge in Hb.
    intros H. exists data. split; [reflexivity|].
    assert (Hin : expression_in_section (Z.of_nat (List.length data))
                    expr expr_size).
    { eapply loclist5_loop_in_section; [exact H|].
      unfold loclist5_in_section, expression_in_section,
        drgn_debug_info_buffer_init, binary_buffer_init in *.
      rewrite Hscn in *. cbn [ll_bb ll_expr ll_expr_size set_pos bb_pos bb_end] in *.
      repeat split; lia. }
    split; [exact Hin|].
    apply (expression_bytes_length _ data); assumption.
  - unfold drgn_dwarf4_location_list.
    destruct (scn_data module DRGN_SCN_DEBUG_LOC) as [data|] eqn:Hscn;
      [|discriminate].
    cbv zeta. destruct (offset >? _) eqn:Hb; [discriminate|].
    rewrite Z.gtb_ltb in Hb. apply Z.ltb_ge in Hb.
    intros H. exists data. split; [reflexivity|].
    assert (Hin : expression_in_section (Z.of_nat (List.length data))
                    expr expr_size).
    { eapply loclist4_loop_in_section; [exact H|].
      unfold loclist4_in_section,
        drgn_debug_info_buffer_init, binary_buffer_init in *.
      rewrite Hscn in *. cbn [l4_bb set_pos bb_pos bb_end] in *.
      repeat split; lia. }
    split; [exact Hin|].
    apply (expression_bytes_length _ data); assumption.
Qed.

End LocationListBounds.

(** The list of [LocExample] in .debug_loclists at pc = 0x2008: the one
    byte at offset 14. *)
Lemma location_list_in_section_witness :
  exists data,
    scn_data LocExample.loc_module DRGN_SCN_DEBUG_LOCLISTS = Some data /\
    LocBounds.expression_in_section (Z.of_nat (List.length data))
      (Some 14) 1 /\
    List.length
      (FrameBase.expression_bytes LocExample.loc_module
         DRGN_SCN_DEBUG_LOCLISTS (Some 14) 1) = Z.to_nat 1.
Proof.
  apply (proj1 (location_list_in_section LocExample.loc_module
                  LocExample.cu_die 8 0x2008 ltac:(lia) 0 (Some 14) 1
                  ltac:(lia))).
  vm_compute. reflexivity.
Defined.

(** ** Indexed tables: .debug_addr and the offsets of .debug_loclists *)

Section IndexedReads.
Import Buf Loc FrameBase.

Variable module : drgn_debug_info_module.
Variable cu_die : Dwarf_Die.



End IndexedReads.

(** ** Type construction: memoization *)

Section TypeMemo.
Import TypeCons.
Variable drgn_type : Type.
Variable drgn_language : Type.
Variable drgn_byte_order : Type.
Variable dwarf_offdie : Z -> option Dwarf_Die.
Variable dwarf_diename : Dwarf_Die -> option string.
Variable drgn_dwarf_index_find_definition : Z -> option Z.
Variable drgn_language_from_die : Dwarf_Die -> result drgn_language.
Variable dwarf_die_byte_order : Dwarf_Die -> drgn_byte_order.
Variable drgn_program_address_size : result Z.
Variable drgn_void_type : drgn_language -> drgn_type.
Variable drgn_typedef_type_create :
  string -> drgn_qualified_type drgn_type -> drgn_language ->
  result drgn_type.
Variable drgn_pointer_type_create :
  drgn_qualified_type drgn_type -> Z -> drgn_byte_order -> drgn_language ->
  result drgn_type.
Variable drgn_base_type_from_dwarf :
  Dwarf_Die -> drgn_language -> construction drgn_type (result drgn_type).
Variable drgn_compound_type_from_dwarf :
  Dwarf_Die -> drgn_language -> Z ->
  construction drgn_type (result drgn_type).
Variable drgn_enum_type_from_dwarf :
  Dwarf_Die -> drgn_language -> construction drgn_type (result drgn_type).
Variable drgn_array_type_from_dwarf :
  Dwarf_Die -> drgn_language -> bool ->
  construction drgn_type (result (drgn_type * option bool)).
Variable drgn_function_type_from_dwarf :
  Dwarf_Die -> drgn_language -> construction drgn_type (result drgn_type).

Local Abbreviation body :=
  (type_from_dwarf_body drgn_type drgn_language drgn_byte_order
     dwarf_offdie dwarf_diename drgn_dwarf_index_find_definition
     drgn_language_from_die dwarf_die_byte_order drgn_program_address_size
     drgn_void_type drgn_typedef_type_create drgn_pointer_type_create
     drgn_base_type_from_dwarf drgn_compound_type_from_dwarf
     drgn_enum_type_from_dwarf drgn_array_type_from_dwarf
     drgn_function_type_from_dwarf).
Local Abbreviation internal :=
  (drgn_type_from_dwarf_internal drgn_type drgn_language drgn_byte_order
     dwarf_offdie dwarf_diename drgn_dwarf_index_find_definition
     drgn_language_from_die dwarf_die_byte_order drgn_program_address_size
     drgn_void_type drgn_typedef_type_create drgn_pointer_type_create
     drgn_base_type_from_dwarf drgn_compound_type_from_dwarf
     drgn_enum_type_from_dwarf drgn_array_type_from_dwarf
     drgn_function_type_from_dwarf).
Local Abbreviation type_from_dwarf :=
  (drgn_type_from_dwarf drgn_type drgn_language drgn_byte_order
     dwarf_offdie dwarf_diename drgn_dwarf_index_find_definition
     drgn_language_from_die dwarf_die_byte_order drgn_program_address_size
     drgn_void_type drgn_typedef_type_create drgn_pointer_type_create
     drgn_base_type_from_dwarf drgn_compound_type_from_dwarf
     drgn_enum_type_from_dwarf drgn_array_type_from_dwarf
     drgn_function_type_from_dwarf).


(** A successful call either was answered from the map, or it built the
    type and stored it; what it stored in [types] answers the next call. *)
Lemma body_success rec die can dbinfo t w dbinfo' :
  body rec die can dbinfo = Some (Ok (t, w), dbinfo') ->
  dwarf_depth _ dbinfo < 1000 /\
  (w = None /\ dbinfo' = dbinfo \/
   exists b,
     w = Some b /\
     (negb can && b = false ->
      forall rec',
        body rec' die can
          {| dwarf_depth := dwarf_depth _ dbinfo;
             dwarf_types := dwarf_types _ dbinfo';
             dwarf_cant_be_incomplete_array_types :=
               dwarf_cant_be_incomplete_array_types _ dbinfo' |} =
        Some (Ok (t, None),
              {| dwarf_depth := dwarf_depth _ dbinfo;
                 dwarf_types := dwarf_types _ dbinfo';
                 dwarf_cant_be_incomplete_array_types :=
                   dwarf_cant_be_incomplete_array_types _ dbinfo' |}))).
Proof.
  unfold type_from_dwarf_body.
  destruct (Z.geb_spec (dwarf_depth _ dbinfo) 1000) as [Hge|Hlt];
    [discriminate|].
  destruct (match dwarf_attr_integrate die DW_AT_signature with
            | Some _ => _ | None => _ end) as [die1|e]; [|discriminate].
  destruct (dwarf_flag die1 DW_AT_declaration) as [declaration|];
    [|discriminate].
  destruct (if declaration then _ else _) as [die2|e]; [|discriminate].
  cbv zeta.
  destruct (match drgn_dwarf_type_map_search _ (dwarf_types _ dbinfo)
                    (die_addr die2) with Some _ => _ | None => _ end)
    as [entry|] eqn:Hcached.
  { intros H. inversion H; subst. split; [assumption|]. left. auto. }
  destruct (drgn_language_from_die die2) as [lang|e]; [|discriminate].
  match goal with
  | |- match ?X with None => None | Some _ => _ end = _ -> _ =>
      destruct X as [[r dbinfo2]|]; [|discriminate]
  end.
  destruct r as [[t' b]|e]; [|discriminate].
  intros H. split; [assumption|]. right.
  exists b.
  destruct (negb can && b) eqn:Hflag.
  - inversion H; subst. split; [reflexivity | discriminate].
  - inversion H; subst t' w dbinfo'. split; [reflexivity|].
    intros _ rec'. cbn [dwarf_depth dwarf_types
                        dwarf_cant_be_incomplete_array_types].
    destruct (Z.geb_spec (dwarf_depth _ dbinfo) 1000) as [Hge|_]; [lia|].
    unfold drgn_dwarf_type_map_search at 1. cbn [find fst snd].
    rewrite Z.eqb_refl. cbn [snd dt_is_incomplete_array dt_type dt_qualifiers].
    rewrite Hflag. destruct t. reflexivity.
Qed.

(** X16.  Types are memoized by DIE.  A call of
    [drgn_type_from_dwarf_internal] that succeeded is answered from the map
    when it is repeated: the same type and qualifiers come back, nothing is
    built, the state is left as it is and [*is_incomplete_array_ret] is not
    written.  The exception is a type that was built as an incomplete array
    for a caller that cannot take one: it goes to
    [cant_be_incomplete_array_types] and not to [types].  A repeated
    [drgn_type_from_dwarf] is always answered from the map. *)
Theorem type_memoized :
  (forall fuel fuel' die can dbinfo t w dbinfo',
     (Z.to_nat (1000 - dwarf_depth _ dbinfo) < fuel)%nat ->
     internal fuel die can dbinfo = Some (Ok (t, w), dbinfo') ->
     can = true \/ w <> Some true ->
     internal (S fuel') die can dbinfo' = Some (Ok (t, None), dbinfo')) /\
  (forall die dbinfo t w dbinfo',
     type_from_dwarf die dbinfo = Some (Ok (t, w), dbinfo') ->
     type_from_dwarf die dbinfo' = Some (Ok (t, None), dbinfo')).
Proof.
  assert (Hint : forall fuel fuel' die can dbinfo t w dbinfo',
     (Z.to_nat (1000 - dwarf_depth _ dbinfo) < fuel)%nat ->
     internal fuel die can dbinfo = Some (Ok (t, w), dbinfo') ->
     can = true \/ w <> Some true ->
     internal (S fuel') die can dbinfo' = Some (Ok (t, None), dbinfo')).
  { intros fuel fuel' die can dbinfo t w dbinfo' Hfuel H Hflag.
    destruct (internal_returns _ _ _ dwarf_offdie dwarf_diename
                drgn_dwarf_index_find_definition drgn_language_from_die
                dwarf_die_byte_order drgn_program_address_size drgn_void_type
                drgn_typedef_type_create drgn_pointer_type_create
                drgn_base_type_from_dwarf drgn_compound_type_from_dwarf
                drgn_enum_type_from_dwarf drgn_array_type_from_dwarf
                drgn_function_type_from_dwarf fuel die can dbinfo Hfuel)
      as [a [dbinfo1 [Hr Hdepth]]].
    rewrite H in Hr. inversion Hr; subst a dbinfo1; clear Hr.
    destruct fuel as [|fuel]; [lia|].
    change (internal (S fuel) die can dbinfo)
      with (body (internal fuel) die can dbinfo) in H.
    change (internal (S fuel') die can dbinfo')
      with (body (internal fuel') die can dbinfo').
    pose proof H as H0.
    apply body_success in H.
    destruct H as [Hlt [[-> ->]|[b [-> Hagain]]]].
    - unfold type_from_dwarf_body in H0 |- *.
      destruct (dwarf_depth _ dbinfo >=? 1000); [discriminate|].
      destruct (match dwarf_attr_integrate die DW_AT_signature with
                | Some _ => _ | None => _ end) as [die1|e]; [|discriminate].
      destruct (dwarf_flag die1 DW_AT_declaration) as [declaration|];
        [|discriminate].
      destruct (if declaration then _ else _) as [die2|e]; [|discriminate].
      cbv zeta in H0 |- *.
      destruct (match drgn_dwarf_type_map_search _ (dwarf_types _ dbinfo)
                        (die_addr die2) with Some _ => _ | None => _ end)
        as [entry|]; [exact H0|].
      exfalso.
      destruct (drgn_language_from_die die2) as [lang|e]; [|discriminate].
      match type of H0 with
      | match ?X with None => None | Some _ => _ end = _ =>
          destruct X as [[[[t' b]|e] dbinfo2]|]; try discriminate
      end.
    - assert (Hb : negb can && b = false).
      { destruct Hflag as [->|Hw]; [reflexivity|].
        destruct b; [congruence | apply andb_false_r]. }
      specialize (Hagain Hb (internal fuel')).
      replace dbinfo' with
        {| dwarf_depth := dwarf_depth _ dbinfo;
           dwarf_types := dwarf_types _ dbinfo';
           dwarf_cant_be_incomplete_array_types :=
             dwarf_cant_be_incomplete_array_types _ dbinfo' |}
        by (rewrite <- Hdepth; destruct dbinfo'; reflexivity).
      exact Hagain. }
  split; [exact Hint|].
  intros die dbinfo t w dbinfo' H.
  unfold drgn_type_from_dwarf in *.
  eapply Hint; [|exact H|left; reflexivity]. lia.
Qed.

End TypeMemo.

(** The pointer type of [TypeExample]: the second lookup is answered from
    the map. *)
Example type_memoized_example :
  match TypeExample.type_from_dwarf TypeExample.int_pointer
          TypeExample.dbinfo0 with
  | Some (Ok (t, _), dbinfo) =>
      TypeExample.type_from_dwarf TypeExample.int_pointer dbinfo =
        Some (Ok (t, None), dbinfo)
  | _ => False
  end.
Proof. vm_compute. reflexivity. Qed.

(** ** Array types: the order of the dimensions *)

Section ArrayNesting.
Import TypeCons ArrayCons ArraySpec.

Variable drgn_type : Type.
Variable drgn_language : Type.
Variable dwarf_children : Dwarf_Die -> list Dwarf_Die * bool.
Variable dwarf_offdie : Z -> option Dwarf_Die.
Variable drgn_language_from_die : Dwarf_Die -> result drgn_language.
Variable drgn_void_type : drgn_language -> drgn_type.
Variable drgn_array_type_create :
  drgn_qualified_type drgn_type -> Z -> drgn_language -> result drgn_type.
Variable drgn_incomplete_array_type_create :
  drgn_qualified_type drgn_type -> drgn_language -> result drgn_type.
Variable internal :
  Dwarf_Die -> bool -> drgn_debug_info drgn_type ->
  option (type_result drgn_type * drgn_debug_info drgn_type).

Local Abbreviation create :=
  (array_type_create drgn_type drgn_language drgn_array_type_create
     drgn_incomplete_array_type_create).
Local Abbreviation loop :=
  (array_type_loop drgn_type drgn_language drgn_array_type_create
     drgn_incomplete_array_type_create).
Local Abbreviation of_dimension :=
  (array_of drgn_type drgn_language drgn_array_type_create
     drgn_incomplete_array_type_create).
Local Abbreviation nested :=
  (nested_array drgn_type drgn_language drgn_array_type_create
     drgn_incomplete_array_type_create).
Local Abbreviation element_type_of die lang :=
  (drgn_type_from_dwarf_attr drgn_type drgn_language dwarf_offdie
     drgn_language_from_die drgn_void_type die (Some lang) false false).
Local Abbreviation array_type_from_dwarf :=
  (drgn_array_type_from_dwarf drgn_type drgn_language dwarf_children
     dwarf_offdie drgn_language_from_die drgn_void_type
     drgn_array_type_create drgn_incomplete_array_type_create).

Lemma run_and_then {A B : Type} (f : A -> construction drgn_type B) :
  forall (c : construction drgn_type A) dbinfo,
    run drgn_type internal (and_then drgn_type c f) dbinfo =
    match run drgn_type internal c dbinfo with
    | None => None
    | Some (a, dbinfo') => run drgn_type internal (f a) dbinfo'
    end.
Proof.
  induction c as [a|die can k IH]; intros dbinfo; cbn [and_then run];
    [reflexivity|].
  destruct (internal die can dbinfo) as [[r dbinfo']|]; [apply IH | reflexivity].
Qed.

Lemma array_type_create_of lang can dimension size element_type :
  create lang can dimension size element_type =
  of_dimension lang can (size =? 0) dimension element_type.
Proof.
  unfold array_type_create, array_of.
  destruct (dimension_is_complete dimension); [reflexivity|].
  destruct (size =? 0), can; reflexivity.
Qed.

(** Adding an innermost dimension: it is applied to the element type
    first. *)
Lemma nested_array_snoc lang can dimension : forall l first element_type,
  l <> [] ->
  nested lang can first (l ++ [dimension]) element_type =
  do type <- of_dimension lang can false dimension element_type;
  nested lang can first l {| qt_type := type; qt_qualifiers := 0 |}.
Proof.
  induction l as [|a l IH]; intros first element_type Hne; [congruence|].
  cbn [app nested_array].
  destruct l as [|a' l'].
  - cbn [app nested_array]. unfold bind.
    destruct (of_dimension lang can false dimension element_type); reflexivity.
  - rewrite IH by discriminate. unfold bind.
    destruct (of_dimension lang can false dimension element_type); reflexivity.
Qed.

(** The loop pops the innermost dimension first and ends with the
    outermost one. *)
Lemma array_type_loop_nested lang can : forall rest dimension element_type,
  loop lang can dimension rest element_type =
  do q <- nested lang can true (rev rest ++ [dimension]) element_type;
  Ok (qt_type _ q).
Proof.
  induction rest as [|next rest IH]; intros dimension element_type;
    cbn [array_type_loop].
  - rewrite array_type_create_of. cbn [List.length rev app nested_array].
    unfold bind. cbn [Z.of_nat Z.eqb].
    destruct (of_dimension lang can true dimension element_type); reflexivity.
  - rewrite array_type_create_of.
    replace (Z.of_nat (List.length (next :: rest)) =? 0) with false
      by (symmetry; apply Z.eqb_neq; cbn [List.length]; lia).
    cbn [rev]. rewrite nested_array_snoc
      by (intros H; apply app_eq_nil in H; destruct H; discriminate).
    unfold bind at 1 3.
    destruct (of_dimension lang can false dimension element_type) as [t|e];
      [apply IH | reflexivity].
Qed.

(** The dimensions are those of the DW_TAG_subrange_type children, in the
    order of the children. *)
Lemma array_dimensions_children : forall children acc dimensions,
  array_dimensions children acc = Ok dimensions ->
  exists new,
    dimensions = acc ++ new /\
    Forall2 (fun child dimension => subrange_length child = Ok dimension)
      (filter (fun child => die_tag child =? DW_TAG_subrange_type) children)
      new.
Proof.
  induction children as [|child rest IH]; intros acc dimensions H;
    cbn [array_dimensions filter] in *.
  - inversion H; subst. exists []. rewrite app_nil_r. split; constructor.
  - destruct (die_tag child =? DW_TAG_subrange_type).
    + unfold bind in H.
      destruct (subrange_length child) as [dimension|e] eqn:Hd; [|discriminate].
      destruct (IH _ _ H) as [new [-> Hnew]].
      exists (dimension :: new). rewrite <- app_assoc. split; [reflexivity|].
      constructor; assumption.
    + apply IH. assumption.
Qed.

(** X17.  [drgn_array_type_from_dwarf] builds the type of a multidimensional
    array from the inside out, so that the first DW_TAG_subrange_type child
    is the outermost dimension: the result is an array of the first
    dimension of arrays of the second one, and so on down to the element
    type.  A dimension without a bound becomes an incomplete array only
    when it is the first one and the caller can take an incomplete array,
    and an array of length 0 otherwise; an array DIE without any subrange
    has one such dimension.  The flag it hands back says whether the first
    dimension has no bound, whatever type was built for it. *)
Theorem array_type_nesting die lang can dbinfo children dimensions
    element_type flag dbinfo' :
  dwarf_children die = (children, false) ->
  array_dimensions children [] = Ok dimensions ->
  run drgn_type internal (element_type_of die lang) dbinfo =
    Some (Ok (element_type, flag), dbinfo') ->
  Forall2 (fun child dimension => subrange_length child = Ok dimension)
    (filter (fun child => die_tag child =? DW_TAG_subrange_type) children)
    dimensions /\
  let dimensions :=
    match dimensions with
    | [] => [incomplete_dimension]
    | _ => dimensions
    end in
  run drgn_type internal (array_type_from_dwarf die lang can) dbinfo =
    Some (do q <- nested lang can true dimensions element_type;
          Ok (qt_type _ q,
              Some (negb (dimension_is_complete
                            (hd incomplete_dimension dimensions)))),
          dbinfo').
Proof.
  intros Hchildren Hdims Helem. split.
  { destruct (array_dimensions_children _ _ _ Hdims) as [new [-> Hnew]].
    exact Hnew. }
  intros dims'. unfold drgn_array_type_from_dwarf.
  rewrite Hchildren, Hdims. fold dims'.
  rewrite run_and_then, Helem. cbn [run].
  assert (Hne : dims' <> []).
  { unfold dims'. destruct dimensions; discriminate. }
  rewrite array_type_loop_nested, rev_involutive.
  rewrite <- (app_removelast_last incomplete_dimension Hne).
  unfold bind.
  destruct (nested lang can true dims' element_type); reflexivity.
Qed.

End ArrayNesting.

(** [int a[2][3]]: an array of 2 arrays of 3 [int]. *)
Lemma array_type_nesting_witness :
  ArrayExample.array_type_from_dwarf ArrayExample.array_a true =
  Some (Ok (ArrayExample.ty_array
              (ArrayExample.ty_array ArrayExample.ty_int 3) 2,
            Some false),
        {| TypeCons.dwarf_depth := 1; TypeCons.dwarf_types := [];
           TypeCons.dwarf_cant_be_incomplete_array_types := [] |}).
Proof.
  exact (proj2 (array_type_nesting ArrayExample.drgn_type unit
                  ArrayExample.dwarf_children ArrayExample.dwarf_offdie
                  (fun _ => Ok tt) (fun _ => ArrayExample.ty_int)
                  (fun element length _ =>
                     Ok (ArrayExample.ty_array
                           (TypeCons.qt_type _ element) length))
                  (fun element _ =>
                     Ok (ArrayExample.ty_incomplete_array
                           (TypeCons.qt_type _ element)))
                  ArrayExample.internal ArrayExample.array_a tt true
                  {| TypeCons.dwarf_depth := 1; TypeCons.dwarf_types := [];
                     TypeCons.dwarf_cant_be_incomplete_array_types := [] |}
                  [ArrayExample.subrange 0x51 (Some 1);
                   ArrayExample.subrange 0x52 (Some 2)]
                  [{| ArrayCons.dimension_length := 2;
                      ArrayCons.dimension_is_complete := true |};
                   {| ArrayCons.dimension_length := 3;
                      ArrayCons.dimension_is_complete := true |}]
                  {| TypeCons.qt_type := ArrayExample.ty_int;
                     TypeCons.qt_qualifiers := 0 |}
                  None
                  {| TypeCons.dwarf_depth := 1; TypeCons.dwarf_types := [];
                     TypeCons.dwarf_cant_be_incomplete_array_types := [] |}
                  eq_refl eq_refl eq_refl)).
Defined.

(** [int b[]] is an incomplete array for a caller that can take one, and
    an array of length 0 for one that cannot; the flag is set in both
    cases. *)
Example incomplete_array_example :
  ArrayExample.array_type_from_dwarf ArrayExample.array_b true =
    Some (Ok (ArrayExample.ty_incomplete_array ArrayExample.ty_int,
              Some true),
          {| TypeCons.dwarf_depth := 1; TypeCons.dwarf_types := [];
             TypeCons.dwarf_cant_be_incomplete_array_types := [] |}) /\
  ArrayExample.array_type_from_dwarf ArrayExample.array_b false =
    Some (Ok (ArrayExample.ty_array ArrayExample.ty_int 0, Some true),
          {| TypeCons.dwarf_depth := 1; TypeCons.dwarf_types := [];
             TypeCons.dwarf_cant_be_incomplete_array_types := [] |}).
Proof. split; vm_compute; reflexivity. Qed.

(** ** The expression evaluator: arithmetic in the address size *)

Section ExprWrap.
Import Buf Expr ExprSpec.

Variable fb : drgn_dwarf_expression_context -> Z -> option (result Z * Z).

Lemma mask_u64_wrap a x :
  1 <= a <= 8 -> Z.land (u64 x) (uint_max a) = wrap a x.
Proof.
  intros Ha. unfold uint_max, wrap, u64.
  replace (2 ^ (8 * a) - 1) with (Z.ones (8 * a))
    by (rewrite Z.ones_equiv; lia).
  rewrite Z.land_ones by lia.
  apply Z.mod_mod_divide.
  exists (2 ^ (64 - 8 * a)). change UINT64_MOD with (2 ^ 64).
  rewrite <- Z.pow_add_r by lia. f_equal. lia.
Qed.

(** X18.  The arithmetic of the evaluator is unsigned arithmetic in the
    address size: with an address size of 1 to 8 bytes, DW_OP_plus,
    DW_OP_minus and DW_OP_mul replace the two top entries by their sum,
    difference and product modulo [2 ^ (8 * address_size)], and DW_OP_neg,
    DW_OP_not and DW_OP_plus_uconst do the same with the top entry. *)
Theorem arithmetic_wraps s bb opcode :
  1 <= ctx_address_size (es_ctx s) <= 8 ->
  binary_buffer_next_u8 (ctx_bb (es_ctx s)) = Ok (opcode, bb) ->
  let continue bb stack :=
    Some (OpContinue {| es_ctx := with_bb (es_ctx s) bb; es_stack := stack;
                        es_remaining_ops := es_remaining_ops s |}) in
  let wrapped := wrap (ctx_address_size (es_ctx s)) in
  (forall e0 e1 rest, es_stack s = e0 :: e1 :: rest ->
     (opcode = DW_OP_plus ->
      eval_op fb s = continue bb (wrapped (e1 + e0) :: rest)) /\
     (opcode = DW_OP_minus ->
      eval_op fb s = continue bb (wrapped (e1 - e0) :: rest)) /\
     (opcode = DW_OP_mul ->
      eval_op fb s = continue bb (wrapped (e1 * e0) :: rest))) /\
  (forall e0 rest, es_stack s = e0 :: rest ->
     (opcode = DW_OP_neg ->
      eval_op fb s = continue bb (wrapped (- e0) :: rest)) /\
     (opcode = DW_OP_not ->
      eval_op fb s = continue bb (wrapped (- e0 - 1) :: rest)) /\
     (opcode = DW_OP_plus_uconst ->
      forall uvalue bb',
        binary_buffer_next_uleb128 bb = Ok (uvalue, bb') ->
        eval_op fb s = continue bb' (wrapped (e0 + uvalue) :: rest))).
Proof.
  intros Hsize Hop continue wrapped. subst continue wrapped.
  split.
  - intros e0 e1 rest Hstack.
    repeat split; intros ->; unfold eval_op; rewrite Hop, Hstack;
      cbv zeta beta iota; dispatch_opcode;
      rewrite mask_u64_wrap by assumption; reflexivity.
  - intros e0 rest Hstack.
    split; [|split]; intros ->.
    + unfold eval_op; rewrite Hop, Hstack; cbv zeta beta iota; dispatch_opcode.
      rewrite mask_u64_wrap by assumption. reflexivity.
    + unfold eval_op; rewrite Hop, Hstack; cbv zeta beta iota; dispatch_opcode.
      rewrite mask_u64_wrap by assumption. unfold Z.lnot.
      replace (Z.pred (- e0)) with (- e0 - 1) by lia. reflexivity.
    + intros uvalue bb' Hu.
      unfold eval_op; rewrite Hop, Hstack; cbv zeta beta iota; dispatch_opcode.
      rewrite Hu. rewrite mask_u64_wrap by assumption. reflexivity.
Qed.

End ExprWrap.

(** DW_OP_plus on 1 and 0xffffffff under a 32-bit address size gives 0. *)
Lemma arithmetic_wraps_witness :
  let ctx := ExprExample.context ExprExample.module32 [0x22] in
  Expr.eval_op (fun _ ops => Some (Err drgn_not_found, ops))
    {| Expr.es_ctx := ctx; Expr.es_stack := [1; 0xffffffff];
       Expr.es_remaining_ops := 10 |}
  = Some (Expr.OpContinue
            {| Expr.es_ctx :=
                 Expr.with_bb ctx (Buf.advance (Expr.ctx_bb ctx) 1);
               Expr.es_stack := [ExprSpec.wrap 4 (0xffffffff + 1)];
               Expr.es_remaining_ops := 10 |}).
Proof.
  intros ctx.
  assert (Hsize : 1 <= Expr.ctx_address_size ctx <= 8)
    by (vm_compute; split; discriminate).
  exact (proj1 (proj1 (arithmetic_wraps
                         (fun _ ops => Some (Err drgn_not_found, ops))
                         {| Expr.es_ctx := ctx;
                            Expr.es_stack := [1; 0xffffffff];
                            Expr.es_remaining_ops := 10 |}
                         (Buf.advance (Expr.ctx_bb ctx) 1) DW_OP_plus
                         Hsize eq_refl)
                  1 0xffffffff [] eq_refl) eq_refl).
Defined.

(** ** CFI rows: the expressions of the rules lie within the section *)

Section CfiRowFacts.
Import CfiBounds.

Variable size : Z.

Lemma vector_set_Forall {A} (P : A -> Prop) x : forall n l,
  Forall P l -> P x -> Forall P (Frames.vector_set n x l).
Proof.
  induction n as [|n IH]; intros [|y tl] Hl Hx; cbn [Frames.vector_set];
    try constructor; try assumption.
  - apply (Forall_inv_tail Hl).
  - apply (Forall_inv Hl).
  - apply IH; [apply (Forall_inv_tail Hl) | assumption].
Qed.

Lemma set_cfa_in_section row rule :
  row_in_section size row -> rule_in_section size rule ->
  row_in_section size (drgn_cfi_row_set_cfa row rule).
Proof. intros [_ Hregs] Hrule. split; assumption. Qed.

Lemma set_register_in_section row regno rule :
  row_in_section size row -> rule_in_section size rule ->
  row_in_section size (drgn_cfi_row_set_register row regno rule).
Proof.
  intros [Hcfa Hregs] Hrule. split; [assumption|].
  cbn [drgn_cfi_row_set_register reg_rules].
  apply vector_set_Forall; [|assumption].
  apply Forall_app. split; [assumption|].
  apply Forall_forall. intros r Hin. apply repeat_spec in Hin. subst.
  exact I.
Qed.

Lemma get_register_in_section row regno :
  row_in_section size row ->
  rule_in_section size (drgn_cfi_row_get_register row regno).
Proof.
  intros [_ Hregs]. unfold drgn_cfi_row_get_register.
  destruct (Nat.lt_ge_cases (Z.to_nat regno) (List.length (reg_rules row)))
    as [Hlt|Hge].
  - rewrite Forall_forall in Hregs. apply Hregs. apply nth_In. assumption.
  - rewrite nth_overflow by assumption. exact I.
Qed.

End CfiRowFacts.

Section CfiRowsInSection.
Import Buf CfiEval CfiRun CfiBounds.

Variable module : drgn_debug_info_module.
Variable fde : drgn_dwarf_fde.
Variable initial_row : option drgn_cfi_row.
Variable target : Z.
Variable size : Z.
Hypothesis cie_address_size :
  1 <= address_size (nth (cie fde) (dwarf_cies module) cie0).
Hypothesis initial_row_in_section :
  forall row, initial_row = Some row -> row_in_section size row.

Ltac split_rows H :=
  repeat match type of H with
  | context [match ?r with Ok _ => _ | Err _ => _ end] =>
      match r with
      | context [match _ with _ => _ end] => fail 1
      | context [if _ then _ else _] => fail 1
      | _ => destruct r as [?|?] eqn:?; [|discriminate H]
      end
  | context [let (_, _) := ?p in _] => destruct p
  | context [match ?o with Some _ => _ | None => _ end] =>
      match o with
      | context [match _ with _ => _ end] => fail 1
      | _ => destruct o eqn:?; try discriminate H
      end
  | context [match ?o with [] => _ | _ :: _ => _ end] =>
      destruct o eqn:?; try discriminate H
  | context [match ?o with RULE_UNDEFINED => _ | _ => _ end] =>
      destruct o eqn:?; try discriminate H
  | context [if ?c then _ else _] =>
      match c with
      | context [match _ with _ => _ end] => fail 1
      | context [if _ then _ else _] => fail 1
      | _ => destruct c eqn:?; try discriminate H
      end
  end.

Ltac cursor_facts :=
  repeat match goal with
  | H : binary_buffer_next_uint _ _ = Ok _ |- _ => apply next_uint_moved in H
  | H : binary_buffer_next_u8 _ = Ok _ |- _ => apply next_uint_moved in H
  | H : binary_buffer_next_u8_into_u64 _ = Ok _ |- _ => apply next_uint_moved in H
  | H : binary_buffer_next_u16_into_u64 _ = Ok _ |- _ => apply next_uint_moved in H
  | H : binary_buffer_next_u32_into_u64 _ = Ok _ |- _ => apply next_uint_moved in H
  | H : binary_buffer_next_uleb128 _ = Ok _ |- _ => apply next_uleb128_moved in H
  | H : drgn_dwarf_cfi_next_offset _ = Ok _ |- _ => apply next_offset_moved in H
  | H : drgn_dwarf_cfi_next_offset_sf _ _ = Ok _ |- _ => apply next_offset_sf_moved in H
  | H : drgn_dwarf_cfi_next_offset_f _ _ = Ok _ |- _ => apply next_offset_f_moved in H
  | H : drgn_dwarf_cfi_next_block _ = Ok _ |- _ => apply next_block_moved in H
  | H : Cfi.drgn_dwarf_cfi_next_encoded _ _ _ _ _ = Ok _ |- _ =>
      apply next_encoded_moved in H; [destruct H as [H _] | exact cie_address_size]
  end.

Ltac rule_tac :=
  first
    [ exact I
    | apply get_register_in_section; apply initial_row_in_section; reflexivity
    | cbn [rule_in_section]; cursor_facts; unfold moved in *; lia ].

Ltac rows_branch H Hrow Hstack :=
  split_rows H;
  (inversion H; subst; clear H;
   cbn [cfi_outcome_state cs_row cs_state_stack];
   split;
    [ first
        [ exact Hrow
        | apply set_cfa_in_section; [exact Hrow | rule_tac]
        | apply set_register_in_section; [exact Hrow | rule_tac]
        | exact (Forall_inv Hstack) ]
    | first
        [ exact Hstack
        | apply Forall_cons; [exact Hrow | exact Hstack]
        | exact (Forall_inv_tail Hstack) ] ]).

(** An instruction leaves the expressions of all rows within the section:
    the blocks it reads lie between the cursor and the end of the
    instructions. *)
Lemma eval_cfi_instruction_rows s o :
  0 <= bb_pos (cs_bb s) -> bb_end (cs_bb s) <= size ->
  rows_in_section size s ->
  eval_cfi_instruction module fde initial_row target s = Ok o ->
  rows_in_section size (cfi_outcome_state o).
Proof.
  intros Hpos Hend [Hrow Hstack]. unfold rows_in_section.
  unfold eval_cfi_instruction, bind. cbv zeta. intros H.
  destruct (binary_buffer_next_u8 (cs_bb s)) as [[opcode bb1]|] eqn:Hop;
    [|discriminate].
  repeat match type of H with
  | (if ?c then _ else _) = _ =>
      destruct c; [solve [rows_branch H Hrow Hstack]|]
  end.
  discriminate.
Qed.

Lemma eval_cfi_loop_rows fuel : forall s row,
  0 <= bb_pos (cs_bb s) -> bb_end (cs_bb s) <= size ->
  rows_in_section size s ->
  eval_cfi_loop module fde initial_row target fuel s = Some (Ok row) ->
  row_in_section size row.
Proof.
  induction fuel as [|fuel IH]; intros s row Hpos Hend Hrows H;
    cbn [eval_cfi_loop] in H.
  - destruct (binary_buffer_has_next (cs_bb s)); [discriminate|].
    inversion H; subst. apply Hrows.
  - destruct (binary_buffer_has_next (cs_bb s));
      [|inversion H; subst; apply Hrows].
    destruct (eval_cfi_instruction module fde initial_row target s)
      as [[s'|s']|e] eqn:E; [| |discriminate].
    + pose proof (eval_cfi_instruction_rows s _ Hpos Hend Hrows E) as Hrows'.
      apply eval_cfi_instruction_moved in E; [|exact cie_address_size].
      unfold moved in E.
      apply (IH s'); [lia | lia | exact Hrows' | exact H].
    + pose proof (eval_cfi_instruction_rows s _ Hpos Hend Hrows E) as Hrows'.
      inversion H; subst. apply Hrows'.
Qed.

Lemma eval_dwarf_cfi_rows instructions instructions_size row0 row :
  0 <= instructions -> instructions + instructions_size <= size ->
  row_in_section size row0 ->
  drgn_eval_dwarf_cfi module fde initial_row target instructions
    instructions_size row0 = Some (Ok row) ->
  row_in_section size row.
Proof.
  intros Hpos Hend Hrow0. unfold drgn_eval_dwarf_cfi.
  apply eval_cfi_loop_rows; cbn [cs_bb set_end set_pos bb_pos bb_end];
    try assumption.
  split; [exact Hrow0 | constructor].
Qed.

End CfiRowsInSection.

Section CfiExpressionsResult.
Import Buf CfiEval CfiBounds FrameSpec.

(** X19.  The DWARF expressions that the rules of a CFI row refer to lie
    within the frame section: when the instructions of the FDE and of its
    CIE lie within the section (as they do in a parsed table) and the
    platform's default row refers to no expression outside it, every
    expression of the row that [drgn_debug_info_find_cfi_in_fde] returns is
    a block of that section. *)
Theorem cfi_expressions_in_section module fde unbiased_pc row :
  let size := frame_section_size module fde in
  cie_in_section size (nth (cie fde) (dwarf_cies module) cie0) ->
  fde_in_section size fde ->
  row_in_section size (default_dwarf_cfi_row (platform module)) ->
  drgn_debug_info_find_cfi_in_fde module fde unbiased_pc = Some (Ok row) ->
  row_in_section size row.
Proof.
  intros size [Hci [Hcs [Hce Hca]]] [Hfi [Hfs [Hfe _]]] Hdefault.
  unfold drgn_debug_info_find_cfi_in_fde. cbv zeta.
  destruct (drgn_eval_dwarf_cfi module fde None unbiased_pc _ _ _)
    as [[initial_row|e]|] eqn:Hinitial; try discriminate.
  intros H.
  assert (Hinit : row_in_section size initial_row).
  { eapply (eval_dwarf_cfi_rows module fde None unbiased_pc size);
      [lia | discriminate | | | exact Hdefault | exact Hinitial]; lia. }
  eapply (eval_dwarf_cfi_rows module fde (Some initial_row) unbiased_pc size);
    [lia | | | | exact Hinit | exact H]; try lia.
  intros r Hr. inversion Hr; subst. exact Hinit.
Qed.

End CfiExpressionsResult.

(** The FDE of [CfiBoundsExample]: the CFA expression is the block of 2
    bytes at offset 2, and the expression of r16 the byte at offset 7. *)
Lemma cfi_expressions_in_section_witness :
  CfiBounds.row_in_section 8
    {| cfa_rule := RULE_DWARF_EXPRESSION 2 2 false;
       reg_rules :=
         repeat RULE_UNDEFINED 16 ++ [RULE_DWARF_EXPRESSION 7 1 true] |}.
Proof.
  apply (cfi_expressions_in_section CfiBoundsExample.expression_module
           CfiBoundsExample.expression_fde 0x401004).
  - vm_compute. repeat split; discriminate.
  - vm_compute. repeat split; discriminate.
  - vm_compute. split; [exact I | constructor].
  - vm_compute. reflexivity.
Defined.

(** ** Location lists: the walk terminates *)

Section LocationReturns.
Import Buf Loc Expr FrameBase.

(** X20.  [drgn_dwarf_location] always returns, whatever the bytes of the
    location list are: an entry of a DWARF 5 or DWARF 4 list that does not
    end the walk moves the cursor forward by at least one byte and never
    beyond the end of the section. *)
Theorem dwarf_location_returns :
  (forall module cu attr regs,
     drgn_dwarf_location module cu attr regs <> None) /\
  (forall module cu_die address_size pc s s',
     0 <= address_size ->
     loclist5_entry module cu_die address_size pc s = Ok (LlContinue s') ->
     bb_end (ll_bb s') = bb_end (ll_bb s) /\
     bb_pos (ll_bb s) < bb_pos (ll_bb s') <= bb_end (ll_bb s)) /\
  (forall cu_die address_size pc s s',
     1 <= address_size ->
     loclist4_entry cu_die address_size pc s = Ok (LlContinue s') ->
     bb_end (l4_bb s') = bb_end (l4_bb s) /\
     bb_pos (l4_bb s) < bb_pos (l4_bb s') <= bb_end (l4_bb s)).
Proof.
  split; [|split].
  - intros module cu attr regs. apply dwarf_location_total.
  - intros module cu_die address_size pc s s' Hsize H.
    apply loclist5_entry_moved in H; [|assumption].
    unfold moved in H. lia.
  - intros cu_die address_size pc s s' Hsize H.
    apply loclist4_entry_moved in H; [|assumption].
    unfold moved in H. lia.
Qed.

End LocationReturns.
